(** * ConvertDotToAMX: lowering of [cpu::DotOp] to AMX tile operations

    A shallow embedding of
    [third_party/cpu/lib/TritonCPUTransforms/ConvertDotOp/ConvertDotToAMX.cpp]
    and the properties of its candidate analysis, size planning, operand
    packing and tile code generation.

    Conventions of the embedding:
    - [int64_t] values are [Z]; products are reduced with [Int64.wrap] and
      divisions are partial (division by zero has no result);
    - a computation that has no result in C++ (a failed [assert], an index
      out of range, a null type) is [None] in the [option] monad;
    - an out-parameter [AmxDotOpCandidate &candidate] is passed in and
      returned. *)

From stdpp Require Import base option relations list list_numbers.
From Stdlib Require Import ZArith Lia Bool.

Local Open Scope Z_scope.

(** ** Machine integers *)

Module Int64.

Definition min_signed : Z := - 2 ^ 63.
Definition max_signed : Z := 2 ^ 63 - 1.

Definition in_range (z : Z) : Prop := min_signed <= z <= max_signed.

(** Two's complement reduction of a mathematical result to 64 bits. *)
Definition wrap (z : Z) : Z := (z + 2 ^ 63) mod 2 ^ 64 - 2 ^ 63.

Definition mul (a b : Z) : Z := wrap (a * b).

(** C++ [/] on [int64_t]: truncation towards zero, undefined for a zero
    divisor. *)
Definition div (a b : Z) : option Z :=
  if b =? 0 then None else Some (wrap (a ÷ b)).

End Int64.

(** ** MLIR element types *)

Inductive Signedness := Signless | Signed | Unsigned.

Inductive FloatKind :=
| Float4E2M1FN | Float6E2M3FN | Float6E3M2FN
| Float8E5M2 | Float8E4M3 | Float8E4M3FN | Float8E5M2FNUZ | Float8E4M3FNUZ
| Float8E4M3B11FNUZ | Float8E3M4 | Float8E8M0FNU
| BFloat16 | Float16 | FloatTF32 | Float32 | Float64 | Float80 | Float128.

(** The element types a vector operand of the dot operation can have:
    the types on which [getIntOrFloatBitWidth] is defined. *)
Inductive MlirType :=
| IntegerType (width : Z) (signedness : Signedness)
| FloatType (kind : FloatKind).

Global Instance Signedness_eq_dec : EqDecision Signedness.
Proof. solve_decision. Defined.
Global Instance FloatKind_eq_dec : EqDecision FloatKind.
Proof. solve_decision. Defined.
Global Instance MlirType_eq_dec : EqDecision MlirType.
Proof. solve_decision. Defined.

Definition floatWidth (k : FloatKind) : Z :=
  match k with
  | Float4E2M1FN => 4
  | Float6E2M3FN | Float6E3M2FN => 6
  | Float8E5M2 | Float8E4M3 | Float8E4M3FN | Float8E5M2FNUZ | Float8E4M3FNUZ
  | Float8E4M3B11FNUZ | Float8E3M4 | Float8E8M0FNU => 8
  | BFloat16 | Float16 => 16
  | FloatTF32 => 19
  | Float32 => 32
  | Float64 => 64
  | Float80 => 80
  | Float128 => 128
  end.

Definition getIntOrFloatBitWidth (ty : MlirType) : Z :=
  match ty with
  | IntegerType w _ => w
  | FloatType k => floatWidth k
  end.

(** [Type::isInteger()] *)
Definition isInteger (ty : MlirType) : bool :=
  match ty with IntegerType _ _ => true | FloatType _ => false end.

(** [Type::isInteger(unsigned width)] *)
Definition isIntegerOfWidth (ty : MlirType) (w : Z) : bool :=
  match ty with IntegerType w' _ => w' =? w | FloatType _ => false end.

Definition isF16 (ty : MlirType) : bool :=
  match ty with FloatType Float16 => true | _ => false end.

Definition isBF16 (ty : MlirType) : bool :=
  match ty with FloatType BFloat16 => true | _ => false end.

(** [IntegerType::get(ctx, w)] builds a signless integer type. *)
Definition IntegerType_get (w : Z) : MlirType := IntegerType w Signless.
Definition BFloat16Type_get : MlirType := FloatType BFloat16.
Definition Float16Type_get : MlirType := FloatType Float16.
Definition Float32Type_get : MlirType := FloatType Float32.

(** ** Vector types, values and operations *)

Record VectorType := {
  getShape : list Z;
  getElementType : MlirType;
}.

Definition getRank (ty : VectorType) : Z := Z.of_nat (length (getShape ty)).

(** [getDimSize(idx)] asserts [idx < getRank()]. *)
Definition getDimSize (ty : VectorType) (idx : nat) : option Z :=
  getShape ty !! idx.

(** An SSA value, identified by the number of its definition. *)
Definition Value := nat.

(** Modelled from the spec: [MemBuffer] is declared in [ConvertDotCommon.h];
    a reference to a memory region made of a base memory object, the index
    expressions of the region's origin and an optional per-dimension step.
    A default-constructed buffer has no base and is [empty]. *)
Record MemBuffer := {
  memRef : option Value;
  indices : list Value;
  step : list Value;
}.

Definition MemBuffer_none : MemBuffer :=
  {| memRef := None; indices := []; step := [] |}.

Definition MemBuffer_empty (buf : MemBuffer) : bool :=
  match memRef buf with None => true | Some _ => false end.

(** The users of a value that the analysis inspects: a
    [vector::TransferWriteOp], with the result of [hasMaskOrBoundsCheck]
    on it, or any other operation. *)
Inductive Operation :=
| TransferWriteOp (id : nat) (source : Value) (storeIndices : list Value)
                  (hasMaskOrBoundsCheck : bool)
| OtherOp (id : nat).

(** The dot operation as the pass reads it: the types of [getA()], [getB()],
    [getC()] and of the result, the answer of [isLoopCarriedAcc(op.getC())],
    the users of the result, and the users of the enclosing loop's result
    tied to the accumulator ([getResValueForLoopCarriedAcc]). *)
Record DotOp := {
  opId : nat;
  lhsTy : VectorType;
  rhsTy : VectorType;
  accTy : VectorType;
  resTy : VectorType;
  isLoopCarriedAcc : bool;
  resultUsers : list Operation;
  loopResultUsers : list Operation;
}.

(** ** The candidate descriptor *)

Record AmxDotOpCandidate := {
  op : option DotOp;
  lhsTileElemTy : option MlirType;
  rhsTileElemTy : option MlirType;
  accTileElemTy : option MlirType;
  tileM : Z;
  tileN : Z;
  tileK : Z;
  tilesInBlockM : Z;
  tilesInBlockN : Z;
  keepAccOnTiles : bool;
  keepAccInBuf : bool;
  outBuf : MemBuffer;
  origStore : option Operation;
}.

Definition set_tileElemTys (c : AmxDotOpCandidate) (l r a : MlirType)
  : AmxDotOpCandidate :=
  {| op := op c;
     lhsTileElemTy := Some l; rhsTileElemTy := Some r; accTileElemTy := Some a;
     tileM := tileM c; tileN := tileN c; tileK := tileK c;
     tilesInBlockM := tilesInBlockM c; tilesInBlockN := tilesInBlockN c;
     keepAccOnTiles := keepAccOnTiles c; keepAccInBuf := keepAccInBuf c;
     outBuf := outBuf c; origStore := origStore c |}.

Definition set_op (c : AmxDotOpCandidate) (o : DotOp) : AmxDotOpCandidate :=
  {| op := Some o;
     lhsTileElemTy := lhsTileElemTy c; rhsTileElemTy := rhsTileElemTy c;
     accTileElemTy := accTileElemTy c;
     tileM := tileM c; tileN := tileN c; tileK := tileK c;
     tilesInBlockM := tilesInBlockM c; tilesInBlockN := tilesInBlockN c;
     keepAccOnTiles := keepAccOnTiles c; keepAccInBuf := keepAccInBuf c;
     outBuf := outBuf c; origStore := origStore c |}.

Definition set_sizes (c : AmxDotOpCandidate) (tm tn tk bm bn : Z)
  : AmxDotOpCandidate :=
  {| op := op c;
     lhsTileElemTy := lhsTileElemTy c; rhsTileElemTy := rhsTileElemTy c;
     accTileElemTy := accTileElemTy c;
     tileM := tm; tileN := tn; tileK := tk;
     tilesInBlockM := bm; tilesInBlockN := bn;
     keepAccOnTiles := keepAccOnTiles c; keepAccInBuf := keepAccInBuf c;
     outBuf := outBuf c; origStore := origStore c |}.

Definition set_keepAccOnTiles (c : AmxDotOpCandidate) (b : bool)
  : AmxDotOpCandidate :=
  {| op := op c;
     lhsTileElemTy := lhsTileElemTy c; rhsTileElemTy := rhsTileElemTy c;
     accTileElemTy := accTileElemTy c;
     tileM := tileM c; tileN := tileN c; tileK := tileK c;
     tilesInBlockM := tilesInBlockM c; tilesInBlockN := tilesInBlockN c;
     keepAccOnTiles := b; keepAccInBuf := keepAccInBuf c;
     outBuf := outBuf c; origStore := origStore c |}.

Definition set_keepAccInBuf (c : AmxDotOpCandidate) (b : bool)
  : AmxDotOpCandidate :=
  {| op := op c;
     lhsTileElemTy := lhsTileElemTy c; rhsTileElemTy := rhsTileElemTy c;
     accTileElemTy := accTileElemTy c;
     tileM := tileM c; tileN := tileN c; tileK := tileK c;
     tilesInBlockM := tilesInBlockM c; tilesInBlockN := tilesInBlockN c;
     keepAccOnTiles := keepAccOnTiles c; keepAccInBuf := b;
     outBuf := outBuf c; origStore := origStore c |}.

Definition set_outBuf (c : AmxDotOpCandidate) (buf : MemBuffer)
  : AmxDotOpCandidate :=
  {| op := op c;
     lhsTileElemTy := lhsTileElemTy c; rhsTileElemTy := rhsTileElemTy c;
     accTileElemTy := accTileElemTy c;
     tileM := tileM c; tileN := tileN c; tileK := tileK c;
     tilesInBlockM := tilesInBlockM c; tilesInBlockN := tilesInBlockN c;
     keepAccOnTiles := keepAccOnTiles c; keepAccInBuf := keepAccInBuf c;
     outBuf := buf; origStore := origStore c |}.

Definition set_origStore (c : AmxDotOpCandidate) (store : option Operation)
  : AmxDotOpCandidate :=
  {| op := op c;
     lhsTileElemTy := lhsTileElemTy c; rhsTileElemTy := rhsTileElemTy c;
     accTileElemTy := accTileElemTy c;
     tileM := tileM c; tileN := tileN c; tileK := tileK c;
     tilesInBlockM := tilesInBlockM c; tilesInBlockN := tilesInBlockN c;
     keepAccOnTiles := keepAccOnTiles c; keepAccInBuf := keepAccInBuf c;
     outBuf := outBuf c; origStore := store |}.

(** A default-constructed descriptor, as [runOnOperation] creates one for
    every visited operation.  The five sizes have no initializer in the
    struct, so any value stands for them. *)
Definition AmxDotOpCandidate_init (tm tn tk bm bn : Z) : AmxDotOpCandidate :=
  {| op := None;
     lhsTileElemTy := None; rhsTileElemTy := None; accTileElemTy := None;
     tileM := tm; tileN := tn; tileK := tk;
     tilesInBlockM := bm; tilesInBlockN := bn;
     keepAccOnTiles := false; keepAccInBuf := false;
     outBuf := MemBuffer_none; origStore := None |}.

(** ** Candidate analysis *)

(** Capability switches of the pass. *)
Record Support := {
  supportInt8 : bool;
  supportFp16 : bool;
  supportBf16 : bool;
}.

(** The common input type of the floating-point case, [None] when the
    candidate is dropped for mismatched 16-bit inputs. *)
Definition commonInputElemTy (lhsElemTy rhsElemTy : MlirType)
  (supportBf16 : bool) : option MlirType :=
  if getIntOrFloatBitWidth lhsElemTy =? 16 then
    if (getIntOrFloatBitWidth rhsElemTy =? 16)
       && negb (bool_decide (rhsElemTy = lhsElemTy))
    then None
    else Some lhsElemTy
  else if getIntOrFloatBitWidth rhsElemTy =? 16 then Some rhsElemTy
  else if supportBf16 then Some BFloat16Type_get
  else Some Float16Type_get.

Definition checkElemTypes (lhsElemTy rhsElemTy accElemTy resElemTy : MlirType)
  (s : Support) (candidate : AmxDotOpCandidate)
  : bool * AmxDotOpCandidate :=
  if isInteger lhsElemTy then
    if negb (supportInt8 s) then (false, candidate)
    else if negb (isIntegerOfWidth lhsElemTy 8)
            || negb (isIntegerOfWidth rhsElemTy 8)
    then (false, candidate)
    else if negb (isInteger accElemTy)
            || (getIntOrFloatBitWidth accElemTy >? 32)
            || negb (isInteger resElemTy)
            || (getIntOrFloatBitWidth resElemTy >? 32)
    then (false, candidate)
    else (true, set_tileElemTys candidate (IntegerType_get 8)
                  (IntegerType_get 8) (IntegerType_get 32))
  else if isInteger rhsElemTy || isInteger accElemTy || isInteger resElemTy
  then (false, candidate)
  else if (getIntOrFloatBitWidth lhsElemTy >? 16)
          || (getIntOrFloatBitWidth rhsElemTy >? 16)
  then (false, candidate)
  else
    match commonInputElemTy lhsElemTy rhsElemTy (supportBf16 s) with
    | None => (false, candidate)
    | Some common =>
        if isF16 common && negb (supportFp16 s) then (false, candidate)
        else if isBF16 common && negb (supportBf16 s) then (false, candidate)
        else if getIntOrFloatBitWidth accElemTy >? 32 then (false, candidate)
        else (true, set_tileElemTys candidate common common Float32Type_get)
    end.

(** [checkInputShapes]: only 2D cases, small inputs are ignored. *)
Definition checkInputShapes (lhsTy resTy : VectorType) : option bool :=
  if negb (getRank lhsTy =? 2) then Some false
  else
    d0 ← getDimSize lhsTy 0;
    if d0 <? 8 then Some false
    else
      d1 ← getDimSize lhsTy 1;
      if d1 <? 8 then Some false
      else
        n ← getDimSize resTy 1;
        if n <? 8 then Some false else Some true.

(** ** Tile and block sizes *)

(** The state of the block-halving loop: [(accBlocksM, accBlocksN)]. *)
Definition loop_cond (s : Z * Z) : bool := Int64.mul s.1 s.2 >? 4.

Definition loop_body (s : Z * Z) : Z * Z :=
  if s.1 >? s.2 then (s.1 ÷ 2, s.2) else (s.1, s.2 ÷ 2).

(** [while (accBlocksM * accBlocksN > 4) ...], [None] when [fuel]
    iterations do not reach the exit. *)
Fixpoint while_loop (fuel : nat) (s : Z * Z) : option (Z * Z) :=
  if loop_cond s then
    match fuel with
    | O => None
    | S fuel' => while_loop fuel' (loop_body s)
    end
  else Some s.

(** Every iteration halves a non-zero extent, so this many iterations are
    never exceeded (lemma [while_loop_terminates]). *)
Definition loop_fuel (s : Z * Z) : nat := Z.to_nat (Z.abs s.1 + Z.abs s.2).

Definition setupBlockAndTileSizes (lhsShape resShape : list Z)
  (candidate : AmxDotOpCandidate) : option AmxDotOpCandidate :=
  m ← resShape !! 0%nat;
  n ← resShape !! 1%nat;
  k ← lhsShape !! 1%nat;
  let tileM := Z.min m 16 in
  let tileN := Z.min n 16 in
  elemTy ← lhsTileElemTy candidate;
  maxK ← Int64.div 512 (getIntOrFloatBitWidth elemTy);
  let tileK := Z.min k maxK in
  accBlocksM ← Int64.div m tileM;
  accBlocksN ← Int64.div n tileN;
  blocks ← while_loop (loop_fuel (accBlocksM, accBlocksN))
                      (accBlocksM, accBlocksN);
  Some (set_sizes candidate tileM tileN tileK blocks.1 blocks.2).

(** [findOutputBuffer], on the uses of the inspected value. *)
Definition findOutputBuffer (uses : list Operation)
  (candidate : AmxDotOpCandidate) : AmxDotOpCandidate :=
  match uses with
  | [user] =>
      match user with
      | TransferWriteOp _ source storeIndices masked =>
          let candidate' :=
            if negb masked then
              set_outBuf candidate
                {| memRef := Some source; indices := storeIndices; step := [] |}
            else candidate in
          set_origStore candidate' (Some user)
      | OtherOp _ => set_origStore candidate None
      end
  | _ => candidate
  end.

(** [isAmxCandidate]: the returned flag tells whether the operation can be
    lowered to AMX, the returned descriptor is [candidate] after the
    updates made on the way. *)
Definition isAmxCandidate (o : DotOp) (s : Support)
  (candidate : AmxDotOpCandidate) : option (bool * AmxDotOpCandidate) :=
  let '(typesOk, candidate) :=
    checkElemTypes (getElementType (lhsTy o)) (getElementType (rhsTy o))
                   (getElementType (accTy o)) (getElementType (resTy o))
                   s candidate in
  if negb typesOk then Some (false, candidate)
  else
    shapesOk ← checkInputShapes (lhsTy o) (resTy o);
    if negb shapesOk then Some (false, candidate)
    else
      let candidate := set_op candidate o in
      candidate ← setupBlockAndTileSizes (getShape (lhsTy o))
                                         (getShape (resTy o)) candidate;
      let candidate := set_keepAccOnTiles candidate (isLoopCarriedAcc o) in
      if keepAccOnTiles candidate then
        m ← getDimSize (resTy o) 0;
        if Int64.mul (tilesInBlockM candidate) (tileM candidate) <? m then
          Some (true,
                set_keepAccInBuf (set_keepAccOnTiles candidate false) true)
        else
          n ← getDimSize (resTy o) 1;
          if Int64.mul (tilesInBlockN candidate) (tileN candidate) <? n then
            Some (true,
                  set_keepAccInBuf (set_keepAccOnTiles candidate false) true)
          else Some (true, findOutputBuffer (loopResultUsers o) candidate)
      else Some (true, findOutputBuffer (resultUsers o) candidate).

(** ** The rewriter *)

(** A tile type [amx::TileType::get({rows, cols}, elemTy)]. *)
Record TileType := {
  tileRows : Z;
  tileCols : Z;
  tileElemTy : MlirType;
}.

(** An index operand: a base index value shifted by a constant, the result
    of [shiftIndex] (declared in [ConvertDotCommon.h]). *)
Definition Index : Type := Value * Z.

Inductive TileOp :=
| TileLoadOp (res : Value) (ty : TileType) (base : Value) (idx : list Index)
| TileZeroOp (res : Value) (ty : TileType)
| TileMulIOp (res : Value) (ty : TileType) (lhs rhs acc : Value)
| TileMulFOp (res : Value) (ty : TileType) (lhs rhs acc : Value)
| TileStoreOp (base : Value) (idx : list Index) (val : Value).

(** What a [PatternRewriter] does to the unit, in the order it is done:
    tile operations created, vectors read back from a buffer
    ([op_read] followed by [maybeCast]), and rewrites of existing
    operations. *)
Inductive Event :=
| Create (o : TileOp)
| ReadBack (res : Value) (buf : MemBuffer)
| ReplaceOpWithAcc (o : DotOp)
| ReplaceOpWithValue (o : DotOp) (newVal : Value)
| ReplaceLoop (o : DotOp) (newInitOperands newYieldedValues : list Value)
              (firstNewResult : Value)
| ReplaceLoopResultUses (o : DotOp) (newVal : Value)
| EraseStore (store : option Operation)
| EraseOp (o : DotOp).

Record RewriterState := {
  nextValue : Value;
  events : list Event;
}.

(** Code that creates operations: a state monad over the rewriter, with
    failure. *)
Definition Rewriter (A : Type) : Type :=
  RewriterState → option (A * RewriterState).

Definition ret {A} (a : A) : Rewriter A := λ st, Some (a, st).

Definition bind {A B} (m : Rewriter A) (k : A → Rewriter B) : Rewriter B :=
  λ st, match m st with
        | Some (a, st') => k a st'
        | None => None
        end.

Definition lift {A} (o : option A) : Rewriter A :=
  λ st, match o with Some a => Some (a, st) | None => None end.

Notation "'let*' x ':=' m 'in' k" := (bind m (λ x, k))
  (at level 10, x pattern, m at level 100, k at level 200).

Definition emit (e : Event) : Rewriter unit :=
  λ st, Some (tt, {| nextValue := nextValue st; events := events st ++ [e] |}).

(** A fresh SSA value. *)
Definition fresh (n : nat) : Rewriter Value :=
  λ st, Some (nextValue st,
              {| nextValue := (nextValue st + n)%nat; events := events st |}).

(** [rewriter.create<...>(...)] of an operation with one result. *)
Definition create (mk : Value → TileOp) : Rewriter Value :=
  let* res := fresh 1 in
  let* _ := emit (Create (mk res)) in
  ret res.

(** A loop over a list of iterations that updates local variables [s]. *)
Fixpoint forEach {A S} (l : list A) (body : A → S → Rewriter S) (s : S)
  : Rewriter S :=
  match l with
  | [] => ret s
  | x :: l' => let* s' := body x s in forEach l' body s'
  end.

(** [for (int64_t i = 0; i < n; ++i)] *)
Definition forZ {S} (n : Z) (body : Z → S → Rewriter S) (s : S)
  : Rewriter S :=
  forEach (seqZ 0 n) body s.

(** ** Tile code generation *)

Definition shiftIndices (indices : list Value) (tileTy : TileType)
  (tilesInBlockM tilesInBlockN blockM blockN tileM tileN : Z)
  : option (list Index) :=
  let blockOffsM :=
    Int64.mul (Int64.mul blockM tilesInBlockM) (tileRows tileTy) in
  let blockOffsN :=
    Int64.mul (Int64.mul blockN tilesInBlockN) (tileCols tileTy) in
  let tileOffsM :=
    Int64.wrap (blockOffsM + Int64.mul tileM (tileRows tileTy)) in
  let tileOffsN :=
    Int64.wrap (blockOffsN + Int64.mul tileN (tileCols tileTy)) in
  match reverse indices with
  | idxN :: idxM :: outer =>
      Some (((λ v, (v, 0)) <$> reverse outer)
              ++ [(idxM, tileOffsM); (idxN, tileOffsN)])
  | _ => None
  end.

Definition loadTile (tileTy : TileType) (buf : MemBuffer)
  (tilesInBlockM tilesInBlockN blockM blockN tileM tileN : Z)
  : Rewriter Value :=
  let* idx := lift (shiftIndices (indices buf) tileTy tilesInBlockM
                      tilesInBlockN blockM blockN tileM tileN) in
  let* base := lift (memRef buf) in
  create (λ res, TileLoadOp res tileTy base idx).

Definition storeTile (tileTy : TileType) (val : Value) (buf : MemBuffer)
  (tilesInBlockM tilesInBlockN blockM blockN tileM tileN : Z)
  : Rewriter unit :=
  let* idx := lift (shiftIndices (indices buf) tileTy tilesInBlockM
                      tilesInBlockN blockM blockN tileM tileN) in
  let* base := lift (memRef buf) in
  emit (Create (TileStoreOp base idx val)).

(** [res[m].push_back(tile)] *)
Definition push_back_row (m : Z) (tile : Value) (res : list (list Value))
  : option (list (list Value)) :=
  row ← res !! Z.to_nat m;
  Some (<[Z.to_nat m := row ++ [tile]]> res).

Definition loadBlockTiles (tileTy : TileType) (buf : MemBuffer)
  (tilesInBlockM tilesInBlockN blockM blockN : Z)
  : Rewriter (list (list Value)) :=
  forZ tilesInBlockM (λ m res,
    forZ tilesInBlockN (λ n res,
      let* tile :=
        if MemBuffer_empty buf then create (λ r, TileZeroOp r tileTy)
        else loadTile tileTy buf tilesInBlockM tilesInBlockN
                      blockM blockN m n in
      lift (push_back_row m tile res)) res)
    (replicate (Z.to_nat tilesInBlockM) []).

(** [tiles[m][n]] and [tiles[m][n] = v] *)
Definition getTile (tiles : list (list Value)) (m n : Z) : option Value :=
  row ← tiles !! Z.to_nat m; row !! Z.to_nat n.

Definition setTile (tiles : list (list Value)) (m n : Z) (v : Value)
  : option (list (list Value)) :=
  row ← tiles !! Z.to_nat m;
  _ ← row !! Z.to_nat n;
  Some (<[Z.to_nat m := <[Z.to_nat n := v]> row]> tiles).

Definition storeBlockTiles (tileTy : TileType) (buf : MemBuffer)
  (blockM blockN : Z) (tiles : list (list Value)) : Rewriter unit :=
  let tilesInBlockM := Z.of_nat (length tiles) in
  let* row0 := lift (tiles !! 0%nat) in
  let tilesInBlockN := Z.of_nat (length row0) in
  forZ tilesInBlockM (λ m _,
    forZ tilesInBlockN (λ n _,
      let* tile := lift (getTile tiles m n) in
      storeTile tileTy tile buf tilesInBlockM tilesInBlockN
                blockM blockN m n) tt) tt.

(** [create<amx::TileMulIOp>] or [create<amx::TileMulFOp>] into
    [accTiles[tileM][tileN]], followed by the optional store. *)
Definition multiplyTile (isInt : bool) (accTileTy : TileType)
  (lhsTile rhsTile : Value) (accBuf : MemBuffer)
  (blockM blockN tilesInBlockM tilesInBlockN tileM tileN : Z)
  (storeResult : bool) (accTiles : list (list Value))
  : Rewriter (list (list Value)) :=
  let* acc := lift (getTile accTiles tileM tileN) in
  let* res :=
    if isInt then create (λ r, TileMulIOp r accTileTy lhsTile rhsTile acc)
    else create (λ r, TileMulFOp r accTileTy lhsTile rhsTile acc) in
  let* accTiles := lift (setTile accTiles tileM tileN res) in
  let* _ :=
    if storeResult then
      storeTile accTileTy res accBuf tilesInBlockM tilesInBlockN
                blockM blockN tileM tileN
    else ret tt in
  ret accTiles.

Definition multiplyBlocksPreloadLhs (lhsTileTy rhsTileTy accTileTy : TileType)
  (lhsBuf rhsBuf accBuf : MemBuffer)
  (blockM blockN blockK tilesInBlockM tilesInBlockN : Z)
  (accTiles : list (list Value)) (storeResult : bool)
  : Rewriter (list (list Value)) :=
  let isInt := isInteger (tileElemTy accTileTy) in
  let* lhsTiles := loadBlockTiles lhsTileTy lhsBuf tilesInBlockM 1
                                  blockM blockK in
  forZ tilesInBlockN (λ tileN accTiles,
    let* rhsTile := loadTile rhsTileTy rhsBuf 1 tilesInBlockN blockK blockN
                             0 tileN in
    forZ tilesInBlockM (λ tileM accTiles,
      let* lhsTile := lift (getTile lhsTiles tileM 0) in
      multiplyTile isInt accTileTy lhsTile rhsTile accBuf blockM blockN
                   tilesInBlockM tilesInBlockN tileM tileN storeResult
                   accTiles) accTiles) accTiles.

Definition multiplyBlocksPreloadRhs (lhsTileTy rhsTileTy accTileTy : TileType)
  (lhsBuf rhsBuf accBuf : MemBuffer)
  (blockM blockN blockK tilesInBlockM tilesInBlockN : Z)
  (accTiles : list (list Value)) (storeResult : bool)
  : Rewriter (list (list Value)) :=
  let isInt := isInteger (tileElemTy accTileTy) in
  let* rhsTiles := loadBlockTiles rhsTileTy rhsBuf 1 tilesInBlockN
                                  blockK blockN in
  forZ tilesInBlockM (λ tileM accTiles,
    let* lhsTile := loadTile lhsTileTy lhsBuf tilesInBlockM 1 blockM blockK
                             tileM 0 in
    forZ tilesInBlockN (λ tileN accTiles,
      let* rhsTile := lift (getTile rhsTiles 0 tileN) in
      multiplyTile isInt accTileTy lhsTile rhsTile accBuf blockM blockN
                   tilesInBlockM tilesInBlockN tileM tileN storeResult
                   accTiles) accTiles) accTiles.

(** The buffers of one conversion. *)
Record Buffers := {
  lhsBuf : MemBuffer;
  rhsBuf : MemBuffer;
  accBuf : MemBuffer;
}.

Section Conversion.

(** Helpers declared in [ConvertDotCommon.h]: the packed layout of a
    tile type, and a fresh temporary buffer for a vector type. *)
Variable getPackedLayoutType : TileType → TileType.
Variable allocateTmpBufferStack : VectorType → MemBuffer.

(** The buffers that [prepareTensorBuffer] returns for the LHS, the RHS
    and the accumulator of a candidate.  The operations created on the
    way (casts, allocations, vector transfers, the copy loop) are not
    tile operations and are left out of the events. *)
Variable prepareTensorBuffers : AmxDotOpCandidate → Buffers.

(** The value of an [int64_t] field that has no initializer. *)
Variable uninitialized : Z.

Definition prepareResultBuffer (o : DotOp) (accBuf outBuf : MemBuffer)
  : MemBuffer :=
  if negb (MemBuffer_empty outBuf) then outBuf
  else if negb (MemBuffer_empty accBuf) then accBuf
  else allocateTmpBufferStack (resTy o).

(** The body of the loops over [blockM] and [blockN]: the code generated
    for one accumulator block. *)
Definition convertBlock (candidate : AmxDotOpCandidate)
  (lhsTileTy rhsTileTy accTileTy : TileType) (bufs : Buffers)
  (resBuf : MemBuffer) (tilesInVectorK blockM blockN : Z)
  (accTiles : list (list Value)) : Rewriter (list (list Value)) :=
  let* accTiles :=
    if negb (keepAccOnTiles candidate) then
      loadBlockTiles accTileTy (accBuf bufs) (tilesInBlockM candidate)
                     (tilesInBlockN candidate) blockM blockN
    else ret accTiles in
  forZ tilesInVectorK (λ blocK accTiles,
    let storeAcc :=
      negb (keepAccOnTiles candidate) && (blocK =? tilesInVectorK - 1) in
    if tilesInBlockM candidate <=? tilesInBlockN candidate then
      multiplyBlocksPreloadLhs lhsTileTy rhsTileTy accTileTy
        (lhsBuf bufs) (rhsBuf bufs) resBuf blockM blockN blocK
        (tilesInBlockM candidate) (tilesInBlockN candidate)
        accTiles storeAcc
    else
      multiplyBlocksPreloadRhs lhsTileTy rhsTileTy accTileTy
        (lhsBuf bufs) (rhsBuf bufs) resBuf blockM blockN blocK
        (tilesInBlockM candidate) (tilesInBlockN candidate)
        accTiles storeAcc) accTiles.

(** The tiles of a block in row-major order: the loops that fill
    [newInitOperands] and [newYieldedValues]. *)
Definition flattenTiles (tilesInBlockM tilesInBlockN : Z)
  (tiles : list (list Value)) : Rewriter (list Value) :=
  forZ tilesInBlockM (λ m acc,
    forZ tilesInBlockN (λ n acc,
      let* tile := lift (getTile tiles m n) in
      ret (acc ++ [tile])) acc) [].

(** [accTiles[m][n] = resTiles[m * tilesInBlockN + n]] *)
Definition takeLoopResults (tilesInBlockM tilesInBlockN : Z)
  (resTiles : list Value) (accTiles : list (list Value))
  : Rewriter (list (list Value)) :=
  forZ tilesInBlockM (λ m accTiles,
    forZ tilesInBlockN (λ n accTiles,
      let* tile :=
        lift (resTiles
                !! Z.to_nat (Int64.wrap (Int64.mul m tilesInBlockN + n))) in
      lift (setTile accTiles m n tile)) accTiles) accTiles.

(** The end of [convertCandidate]: the original operation, and the loop or
    the store around it, are replaced by the results of the tile code. *)
Definition replaceOriginal (candidate : AmxDotOpCandidate) (o : DotOp)
  (accTileTy : TileType) (resBuf : MemBuffer)
  (accInitTiles accTiles : list (list Value)) : Rewriter unit :=
  if keepAccOnTiles candidate then
    let* _ := emit (ReplaceOpWithAcc o) in
    let* newInitOperands :=
      flattenTiles (tilesInBlockM candidate) (tilesInBlockN candidate)
                   accInitTiles in
    let* newYieldedValues :=
      flattenTiles (tilesInBlockM candidate) (tilesInBlockN candidate)
                   accTiles in
    let* first := fresh (length newYieldedValues) in
    let* _ := emit (ReplaceLoop o newInitOperands newYieldedValues first) in
    let resTiles := seq first (length newYieldedValues) in
    let* accTiles :=
      takeLoopResults (tilesInBlockM candidate) (tilesInBlockN candidate)
                      resTiles accTiles in
    if MemBuffer_empty (outBuf candidate) then
      let* _ := storeBlockTiles accTileTy resBuf 0 0 accTiles in
      let* newVal := fresh 1 in
      let* _ := emit (ReadBack newVal resBuf) in
      emit (ReplaceLoopResultUses o newVal)
    else
      let* _ := storeBlockTiles accTileTy (outBuf candidate) 0 0 accTiles in
      emit (EraseStore (origStore candidate))
  else if keepAccInBuf candidate then
    let* newVal := fresh 1 in
    let* _ := emit (ReadBack newVal resBuf) in
    let* _ := emit (ReplaceLoopResultUses o newVal) in
    emit (ReplaceOpWithAcc o)
  else if MemBuffer_empty (outBuf candidate) then
    let* newVal := fresh 1 in
    let* _ := emit (ReadBack newVal resBuf) in
    emit (ReplaceOpWithValue o newVal)
  else
    let* _ := emit (EraseStore (origStore candidate)) in
    emit (EraseOp o).

Definition convertCandidate (candidate : AmxDotOpCandidate)
  : Rewriter unit :=
  let* o := lift (op candidate) in
  let* lhsElemTy := lift (lhsTileElemTy candidate) in
  let* rhsElemTy := lift (rhsTileElemTy candidate) in
  let* accElemTy := lift (accTileElemTy candidate) in
  let lhsTileTy :=
    {| tileRows := tileM candidate; tileCols := tileK candidate;
       tileElemTy := lhsElemTy |} in
  let rhsTileTy :=
    getPackedLayoutType
      {| tileRows := tileK candidate; tileCols := tileN candidate;
         tileElemTy := rhsElemTy |} in
  let accTileTy :=
    {| tileRows := tileM candidate; tileCols := tileN candidate;
       tileElemTy := accElemTy |} in
  let bufs := prepareTensorBuffers candidate in
  let resBuf := prepareResultBuffer o (accBuf bufs) (outBuf candidate) in
  let* accInitTiles :=
    if keepAccOnTiles candidate then
      loadBlockTiles accTileTy (accBuf bufs) (tilesInBlockM candidate)
                     (tilesInBlockN candidate) 0 0
    else ret [] in
  let* accRows := lift (getDimSize (accTy o) 0) in
  let* accRowTiles := lift (Int64.div accRows (tileM candidate)) in
  let* blocksInAccM :=
    lift (Int64.div accRowTiles (tilesInBlockM candidate)) in
  let* accCols := lift (getDimSize (accTy o) 1) in
  let* accColTiles := lift (Int64.div accCols (tileN candidate)) in
  let* blocksInAccN :=
    lift (Int64.div accColTiles (tilesInBlockN candidate)) in
  let* k := lift (getDimSize (lhsTy o) 1) in
  let* tilesInVectorK := lift (Int64.div k (tileK candidate)) in
  let* accTiles :=
    forZ blocksInAccM (λ blockM accTiles,
      forZ blocksInAccN (λ blockN accTiles,
        convertBlock candidate lhsTileTy rhsTileTy accTileTy bufs resBuf
                     tilesInVectorK blockM blockN accTiles) accTiles)
      accInitTiles in
  replaceOriginal candidate o accTileTy resBuf accInitTiles accTiles.

(** ** The pass *)

(** The walk over the [cpu::DotOp] operations of the module, in order. *)
Fixpoint collectCandidates (s : Support) (dots : list DotOp)
  : option (list AmxDotOpCandidate) :=
  match dots with
  | [] => Some []
  | o :: dots' =>
      let candidate :=
        AmxDotOpCandidate_init uninitialized uninitialized uninitialized
                               uninitialized uninitialized in
      '(accepted, candidate) ← isAmxCandidate o s candidate;
      rest ← collectCandidates s dots';
      Some (if accepted : bool then candidate :: rest else rest)
  end.

(** [runOnOperation] on a module given by its dot operations; returns
    the candidates it has collected. *)
Definition runOnOperation (s : Support) (dots : list DotOp)
  : Rewriter (list AmxDotOpCandidate) :=
  if negb (supportInt8 s) && negb (supportFp16 s) && negb (supportBf16 s)
  then ret []
  else
    let* candidates := lift (collectCandidates s dots) in
    let* _ := forEach candidates (λ candidate _, convertCandidate candidate)
                      tt in
    ret candidates.

End Conversion.

(** ** Operand packing *)

(** The iterations of [for (int64_t i = 0; i < n; i += step)], for a
    positive [step]. *)
Definition steppedRange (n step : Z) : list Z :=
  (λ j, j * step) <$> seqZ 0 ((n + step - 1) `div` step).

Section Interleave.

Context {A : Type}.

(** [vector.interleave]: [lhs[0], rhs[0], lhs[1], rhs[1], ...]. *)
Fixpoint op_interleave (lhs rhs : list A) : list A :=
  match lhs, rhs with
  | x :: lhs', y :: rhs' => x :: y :: op_interleave lhs' rhs'
  | _, _ => []
  end.

(** [op_extract(val, i)]: row [i] of a 2D vector. *)
Definition op_extract (val : list (list A)) (i : Z) : option (list A) :=
  if i <? 0 then None else val !! Z.to_nat i.

(** [op_store(row, buf, {idx, 0})]: the elements of [row] overwrite the
    beginning of row [idx] of the buffer. *)
Definition op_store (row : list A) (buf : list (list A)) (idx : Z)
  : option (list (list A)) :=
  if idx <? 0 then None
  else
    old ← buf !! Z.to_nat idx;
    if (length old <? length row)%nat then None
    else Some (<[Z.to_nat idx := row ++ drop (length row) old]> buf).

(** The rows of the group that starts at row [i], shuffled into one
    packed row. *)
Definition shuffleGroup (rowsPerGroup : Z) (val : list (list A)) (i : Z)
  : option (list A) :=
  rows ←
    (if rowsPerGroup =? 2 then
       row1 ← op_extract val i;
       row2 ← op_extract val (i + 1);
       Some (row1, row2)
     else
       r0 ← op_extract val i;
       r2 ← op_extract val (i + 2);
       r1 ← op_extract val (i + 1);
       r3 ← op_extract val (i + 3);
       Some (op_interleave r0 r2, op_interleave r1 r3));
  Some (op_interleave rows.1 rows.2).

(** The loop of [interleaveAndStore], run for the iterations [iters]. *)
Fixpoint interleaveGroups (rowsPerGroup : Z) (val : list (list A))
  (iters : list Z) (buf : list (list A)) : option (list (list A)) :=
  match iters with
  | [] => Some buf
  | i :: iters' =>
      shuffled ← shuffleGroup rowsPerGroup val i;
      buf' ← op_store shuffled buf (i ÷ rowsPerGroup);
      interleaveGroups rowsPerGroup val iters' buf'
  end.

(** [interleaveAndStore] of the 2D vector [val], whose elements have
    [bitWidth] bits, into the rows of [buf]. *)
Definition interleaveAndStore (bitWidth : Z) (val : list (list A))
  (buf : list (list A)) : option (list (list A)) :=
  rowsPerGroup ← Int64.div 32 bitWidth;
  if negb ((rowsPerGroup =? 2) || (rowsPerGroup =? 4)) then None
  else
    let dim0 := Z.of_nat (length val) in
    if negb (Z.rem dim0 rowsPerGroup =? 0) then None
    else interleaveGroups rowsPerGroup val (steppedRange dim0 rowsPerGroup)
                          buf.

(** The inverse of the packing (the pass itself never unpacks): the
    elements at even and at odd positions of a vector. *)
Fixpoint deinterleave (l : list A) : list A * list A :=
  match l with
  | x :: y :: l' => (x :: (deinterleave l').1, y :: (deinterleave l').2)
  | _ => ([], [])
  end.

Definition unpackRow (rowsPerGroup : Z) (row : list A) : list (list A) :=
  let halves := deinterleave row in
  if rowsPerGroup =? 2 then [halves.1; halves.2]
  else
    let even := deinterleave halves.1 in
    let odd := deinterleave halves.2 in
    [even.1; odd.1; even.2; odd.2].

Definition unpackRows (rowsPerGroup : Z) (packed : list (list A))
  : list (list A) :=
  concat (unpackRow rowsPerGroup <$> packed).

End Interleave.

(** ** The planner as the specification words it

    The halving rule with ties resolved towards the M side, used to compare
    the specification's wording with [loop_body]. *)

Definition spec_loop_body (s : Z * Z) : Z * Z :=
  if s.1 >=? s.2 then (s.1 `div` 2, s.2) else (s.1, s.2 `div` 2).

Fixpoint spec_while_loop (fuel : nat) (s : Z * Z) : option (Z * Z) :=
  if s.1 * s.2 >? 4 then
    match fuel with
    | O => None
    | S fuel' => spec_while_loop fuel' (spec_loop_body s)
    end
  else Some s.

(** [(tileM, tileN, tileK, tilesInBlockM, tilesInBlockN)] by the wording of
    the specification. *)
Definition spec_sizes (M N K bitWidth : Z) : option (Z * Z * Z * Z * Z) :=
  let tileM := Z.min M 16 in
  let tileN := Z.min N 16 in
  let tileK := Z.min K (512 `div` bitWidth) in
  let s0 := (M `div` tileM, N `div` tileN) in
  blocks ← spec_while_loop (loop_fuel s0) s0;
  Some (tileM, tileN, tileK, blocks.1, blocks.2).

(** One iteration of the halving loop as the code performs it, as a
    relation on [(accBlocksM, accBlocksN)]: the strictly larger extent is
    halved, and on a tie the N side. *)
Inductive halve : Z * Z → Z * Z → Prop :=
| halve_M a b : 4 < a * b → b < a → halve (a, b) (a `div` 2, b)
| halve_N a b : 4 < a * b → a ≤ b → halve (a, b) (a, b `div` 2).

(** Both extents are at least one. *)
Definition positive_blocks (s : Z * Z) : Prop := 1 ≤ s.1 ∧ 1 ≤ s.2.

(** The single-block fit test of [isAmxCandidate]. *)
Definition accumulatorFits (c : AmxDotOpCandidate) (M N : Z) : bool :=
  negb (Int64.mul (tilesInBlockM c) (tileM c) <? M)
  && negb (Int64.mul (tilesInBlockN c) (tileN c) <? N).

(** The common input type as the specification words it. *)
Definition spec_commonType (lhs rhs : MlirType) (bf16 : bool)
  : option MlirType :=
  let lhs16 := getIntOrFloatBitWidth lhs =? 16 in
  let rhs16 := getIntOrFloatBitWidth rhs =? 16 in
  if lhs16 && rhs16 then
    if bool_decide (lhs = rhs) then Some lhs else None
  else if lhs16 then Some lhs
  else if rhs16 then Some rhs
  else if bf16 then Some (FloatType BFloat16)
  else Some (FloatType Float16).

(** The capability switch that a 16-bit input type requires. *)
Definition requiredFlag (ty : MlirType) (s : Support) : bool :=
  match ty with
  | FloatType Float16 => supportFp16 s
  | FloatType BFloat16 => supportBf16 s
  | _ => true
  end.

(** ** Well-formed inputs *)

Definition numElements (ty : VectorType) : Z := foldr Z.mul 1 (getShape ty).

(** MLIR vector types have positive dimensions, and the number of their
    elements is an [int64_t]. *)
Definition VectorType_valid (ty : VectorType) : Prop :=
  Forall (λ d, 0 < d) (getShape ty) ∧ numElements ty ≤ Int64.max_signed.

(** ** Concrete operations used in examples *)

Definition vector (shape : list Z) (ty : MlirType) : VectorType :=
  {| getShape := shape; getElementType := ty |}.

(** A dot operation [M×K * K×N -> M×N] outside of any loop, whose result
    has no user. *)
Definition dotOp (M N K : Z) (lhs rhs acc res : MlirType) (loopCarried : bool)
  : DotOp :=
  {| opId := 0;
     lhsTy := vector [M; K] lhs; rhsTy := vector [K; N] rhs;
     accTy := vector [M; N] acc; resTy := vector [M; N] res;
     isLoopCarriedAcc := loopCarried;
     resultUsers := []; loopResultUsers := [] |}.

Definition allSupported : Support :=
  {| supportInt8 := true; supportFp16 := true; supportBf16 := true |}.

Definition noneSupported : Support :=
  {| supportInt8 := false; supportFp16 := false; supportBf16 := false |}.

Definition freshCandidate : AmxDotOpCandidate :=
  AmxDotOpCandidate_init 0 0 0 0 0.

(** The five sizes of a descriptor. *)
Definition sizes (c : AmxDotOpCandidate) : Z * Z * Z * Z * Z :=
  (tileM c, tileN c, tileK c, tilesInBlockM c, tilesInBlockN c).

(** The descriptor that the analysis returns, when it returns one. *)
Definition analysed (o : DotOp) (s : Support) : AmxDotOpCandidate :=
  match isAmxCandidate o s freshCandidate with
  | Some (_, c) => c
  | None => freshCandidate
  end.

(** Scenario A of the specification: 16×16 8-bit integers. *)
Definition scenarioA : DotOp :=
  dotOp 16 16 64 (IntegerType_get 8) (IntegerType_get 8)
        (IntegerType_get 32) (IntegerType_get 32) false.

(** Scenario D of the specification: a loop-carried 64×64 accumulator. *)
Definition scenarioD : DotOp :=
  dotOp 64 64 64 (FloatType Float16) (FloatType Float16)
        (FloatType Float32) (FloatType Float32) true.

(** A 48×48 result: three tiles in each direction. *)
Definition dot48 : DotOp :=
  dotOp 48 48 64 (FloatType Float16) (FloatType Float16)
        (FloatType Float32) (FloatType Float32) false.

(** The [j]-th group of [r] consecutive rows, and the packed row that the
    shuffle makes of a group of two or of four rows. *)
Definition chunk {B : Type} (r j : nat) (l : list B) : list B :=
  take r (drop (r * j) l).

Definition packChunk {A : Type} (rows : list (list A)) : list A :=
  match rows with
  | [r0; r1] => op_interleave r0 r1
  | [r0; r1; r2; r3] =>
      op_interleave (op_interleave r0 r2) (op_interleave r1 r3)
  | _ => []
  end.

(** ** Reading the events of a rewrite *)

(** The hardware multiplications among the events. *)
Definition isMul (e : Event) : bool :=
  match e with
  | Create (TileMulIOp _ _ _ _ _) | Create (TileMulFOp _ _ _ _ _) => true
  | _ => false
  end.

Fixpoint mulCount (evs : list Event) : nat :=
  match evs with
  | [] => 0
  | e :: evs' => (if isMul e then 1 else 0) + mulCount evs'
  end.

(** A multiplication is of the integer variant exactly when [isInt]. *)
Definition variantOk (isInt : bool) (e : Event) : Prop :=
  match e with
  | Create (TileMulIOp _ _ _ _ _) => isInt = true
  | Create (TileMulFOp _ _ _ _ _) => isInt = false
  | _ => True
  end.

(** [evs] holds [n] multiplications, all of the variant for [isInt]. *)
Definition multiplications (isInt : bool) (n : nat) (evs : list Event)
  : Prop :=
  mulCount evs = n ∧ Forall (variantOk isInt) evs.

(** [m], started in [st], returns some [a] after adding the events [evs] to
    those of [st], and [Q a evs] holds. *)
Definition runs {A} (m : Rewriter A) (st : RewriterState)
  (Q : A → list Event → Prop) : Prop :=
  ∃ a st' evs,
    m st = Some (a, st') ∧ events st' = events st ++ evs ∧ Q a evs.

(** A block of [m] rows of [n] tiles. *)
Definition tilesShape (tiles : list (list Value)) (m n : nat) : Prop :=
  length <$> tiles = replicate m n.

(** A buffer that tiles can be loaded from and stored to: it has a base
    and at least the two innermost indices. *)
Definition usable (buf : MemBuffer) : Prop :=
  is_Some (memRef buf) ∧ (2 ≤ length (indices buf))%nat.

(** [evs] is the concatenation of [k] segments that satisfy [P]. *)
Definition segmented (P : list Event → Prop) (k : nat) (evs : list Event)
  : Prop :=
  ∃ segs, evs = concat segs ∧ length segs = k ∧ Forall P segs.

(** A 32×16 result with a reduction of 64: two tiles along M, two
    reduction steps. *)
Definition dot32 : DotOp :=
  dotOp 32 16 64 (FloatType Float16) (FloatType Float16)
        (FloatType Float32) (FloatType Float32) false.

(** A two-dimensional buffer based at [base]. *)
Definition bufferAt (base : Value) : MemBuffer :=
  {| memRef := Some base; indices := [S base; S (S base)]; step := [] |}.

(** Buffers for the inputs, and no buffer for a zero accumulator. *)
Definition inputBuffers : Buffers :=
  {| lhsBuf := bufferAt 100%nat; rhsBuf := bufferAt 110%nat;
     accBuf := MemBuffer_none |}.

(** The uses that the analysis inspects for a direct store: those of the
    loop result for a loop-carried accumulator, those of the operation's
    result otherwise. *)
Definition inspectedUses (o : DotOp) : list Operation :=
  if isLoopCarriedAcc o then loopResultUsers o else resultUsers o.

(** A power of two. *)
Definition isPow2 (z : Z) : Prop := ∃ k : nat, z = 2 ^ Z.of_nat k.

(** ** The blocks of a conversion *)

(** The iterations of the two block loops of [convertCandidate], in the
    order of the loops. *)
Definition blockCoords (blocksInAccM blocksInAccN : Z) : list (Z * Z) :=
  blockM ← seqZ 0 blocksInAccM;
  blockN ← seqZ 0 blocksInAccN;
  [(blockM, blockN)].

(** The iterations of [forEach l body], one after the other: every
    iteration runs the body on the local variables and the state that the
    previous one has left, and adds the events of its segment.  [segs]
    holds the segments of the iterations, in their order. *)
Inductive iterations {A St} (body : A → St → Rewriter St)
  : list A → St → RewriterState → list (list Event) → St → RewriterState
    → Prop :=
| iterations_nil s st : iterations body [] s st [] s st
| iterations_cons x l s st s1 st1 seg segs s' st' :
    body x s st = Some (s1, st1) →
    events st1 = events st ++ seg →
    iterations body l s1 st1 segs s' st' →
    iterations body (x :: l) s st (seg :: segs) s' st'.

(** ** Counting the events of a rewrite *)

(** The kinds of events: the four kinds of tile operations, a read of the
    result from a buffer, and the rewrites of existing operations (the
    removal of the original operation in any of its three forms, of the
    loop, of the uses of the loop result, and of the original store). *)
Inductive EventKind :=
| KLoad | KZero | KMul | KStore
| KReadBack | KReplaceOp | KReplaceLoop | KReplaceUses | KEraseStore.

Global Instance EventKind_eq_dec : EqDecision EventKind.
Proof. solve_decision. Defined.

Definition kindOf (e : Event) : EventKind :=
  match e with
  | Create (TileLoadOp _ _ _ _) => KLoad
  | Create (TileZeroOp _ _) => KZero
  | Create (TileMulIOp _ _ _ _ _) | Create (TileMulFOp _ _ _ _ _) => KMul
  | Create (TileStoreOp _ _ _) => KStore
  | ReadBack _ _ => KReadBack
  | ReplaceOpWithAcc _ | ReplaceOpWithValue _ _ | EraseOp _ => KReplaceOp
  | ReplaceLoop _ _ _ _ => KReplaceLoop
  | ReplaceLoopResultUses _ _ => KReplaceUses
  | EraseStore _ => KEraseStore
  end.

(** The events of [evs], each counted with the weight of its kind. *)
Fixpoint weight (w : EventKind → nat) (evs : list Event) : nat :=
  match evs with
  | [] => 0
  | e :: evs' => w (kindOf e) + weight w evs'
  end.

(** The weight that counts the events of kind [k]. *)
Definition only (k k' : EventKind) : nat := if decide (k' = k) then 1 else 0.

Definition count (k : EventKind) (evs : list Event) : nat :=
  weight (only k) evs.

(** Whenever [m] returns, it has added events to those of the state it
    was started in, and [Q] holds of its result and of these events. *)
Definition emits {A} (m : Rewriter A) (Q : A → list Event → Prop) : Prop :=
  ∀ st a st',
    m st = Some (a, st') → ∃ evs, events st' = events st ++ evs ∧ Q a evs.

(** The weight of the code of one block: the tiles of the accumulator are
    initialized and stored once unless they are kept on tiles, and every
    reduction step loads the tiles of both input blocks once and
    multiplies every pair of them. *)
Definition blockWeight (w : EventKind → nat) (c : AmxDotOpCandidate)
  (accEmpty : bool) (tilesInVectorK : Z) : nat :=
  (let m := Z.to_nat (tilesInBlockM c) in
   let n := Z.to_nat (tilesInBlockN c) in
   (if keepAccOnTiles c then 0
    else m * n * ((if accEmpty then w KZero else w KLoad) + w KStore))
   + Z.to_nat tilesInVectorK * ((m + n) * w KLoad + m * n * w KMul))%nat.

(** The weight of the end of a conversion. *)
Definition rewriteWeight (w : EventKind → nat) (c : AmxDotOpCandidate)
  : nat :=
  (let m := Z.to_nat (tilesInBlockM c) in
   let n := Z.to_nat (tilesInBlockN c) in
   w KReplaceOp
   + (if keepAccOnTiles c then
        w KReplaceLoop + m * n * w KStore
        + (if MemBuffer_empty (outBuf c) then w KReadBack + w KReplaceUses
           else w KEraseStore)
      else if keepAccInBuf c then w KReadBack + w KReplaceUses
      else if MemBuffer_empty (outBuf c) then w KReadBack
      else w KEraseStore))%nat.

(** The weight of a whole conversion of an [M×N] result with a reduction
    over [K]: the initial tiles of an accumulator kept on tiles, the
    blocks, and the end. *)
Definition conversionWeight (w : EventKind → nat) (c : AmxDotOpCandidate)
  (accEmpty : bool) (M N K : Z) : nat :=
  (let m := Z.to_nat (tilesInBlockM c) in
   let n := Z.to_nat (tilesInBlockN c) in
   (if keepAccOnTiles c
    then m * n * (if accEmpty then w KZero else w KLoad) else 0)
   + Z.to_nat ((M `div` tileM c) `div` tilesInBlockM c)
     * (Z.to_nat ((N `div` tileN c) `div` tilesInBlockN c)
        * blockWeight w c accEmpty (K `div` tileK c))
   + rewriteWeight w c)%nat.

(** ** The tile accesses of the generated code *)

(** What a tile operation does, without the names of the values it reads
    and creates: a load or a store of a tile at indices of a buffer, a
    tile of zeros, a multiplication of either variant. *)
Inductive Access :=
| ALoad (ty : TileType) (base : Value) (idx : list Index)
| AZero (ty : TileType)
| AMul (ty : TileType) (isInt : bool)
| AStore (base : Value) (idx : list Index).

Definition accessOf (e : Event) : list Access :=
  match e with
  | Create (TileLoadOp _ ty base idx) => [ALoad ty base idx]
  | Create (TileZeroOp _ ty) => [AZero ty]
  | Create (TileMulIOp _ ty _ _ _) => [AMul ty true]
  | Create (TileMulFOp _ ty _ _ _) => [AMul ty false]
  | Create (TileStoreOp base idx _) => [AStore base idx]
  | _ => []
  end.

Definition accesses (evs : list Event) : list Access := evs ≫= accessOf.

(** The load and the store of tile [(i, j)] of block [(blockM, blockN)] of
    a buffer, as [loadTile] and [storeTile] address it. *)
Definition loadAccess (tileTy : TileType) (buf : MemBuffer)
  (tilesInBlockM tilesInBlockN blockM blockN i j : Z) : list Access :=
  match shiftIndices (indices buf) tileTy tilesInBlockM tilesInBlockN
                     blockM blockN i j, memRef buf with
  | Some idx, Some base => [ALoad tileTy base idx]
  | _, _ => []
  end.

Definition storeAccess (tileTy : TileType) (buf : MemBuffer)
  (tilesInBlockM tilesInBlockN blockM blockN i j : Z) : list Access :=
  match shiftIndices (indices buf) tileTy tilesInBlockM tilesInBlockN
                     blockM blockN i j, memRef buf with
  | Some idx, Some base => [AStore base idx]
  | _, _ => []
  end.

(** The initial value of an accumulator tile: zeros when there is no
    buffer, the tile of the buffer otherwise. *)
Definition initAccess (tileTy : TileType) (buf : MemBuffer)
  (tilesInBlockM tilesInBlockN blockM blockN i j : Z) : list Access :=
  if MemBuffer_empty buf then [AZero tileTy]
  else loadAccess tileTy buf tilesInBlockM tilesInBlockN blockM blockN i j.

(** The accesses of one multiplication of a block of LHS tiles by a block
    of RHS tiles: the LHS tiles of the block, its RHS tiles, and for every
    pair a multiplication, followed by the store of the accumulator tile
    when the result is to be stored. *)
Definition blockAccesses (lhsTileTy rhsTileTy accTileTy : TileType)
  (lhsBuf rhsBuf accBuf : MemBuffer)
  (blockM blockN blockK tilesInBlockM tilesInBlockN : Z)
  (storeResult : bool) : list Access :=
  (i ← seqZ 0 tilesInBlockM;
   loadAccess lhsTileTy lhsBuf tilesInBlockM 1 blockM blockK i 0)
  ++ (j ← seqZ 0 tilesInBlockN;
      loadAccess rhsTileTy rhsBuf 1 tilesInBlockN blockK blockN 0 j)
  ++ (i ← seqZ 0 tilesInBlockM;
      j ← seqZ 0 tilesInBlockN;
      AMul accTileTy (isInteger (tileElemTy accTileTy))
      :: (if storeResult
          then storeAccess accTileTy accBuf tilesInBlockM tilesInBlockN
                           blockM blockN i j
          else [])).

(** The multiplications of the blocks that make one accumulator block, over
    [tilesInVectorK] reduction steps. *)
Definition reductionAccesses (lhsTileTy rhsTileTy accTileTy : TileType)
  (bufs : Buffers) (resBuf : MemBuffer) (c : AmxDotOpCandidate)
  (tilesInVectorK blockM blockN : Z) : list Access :=
  k ← seqZ 0 tilesInVectorK;
  blockAccesses lhsTileTy rhsTileTy accTileTy (lhsBuf bufs) (rhsBuf bufs)
                resBuf blockM blockN k (tilesInBlockM c) (tilesInBlockN c)
                false.

(** The accesses for one accumulator block: the initial value of every
    accumulator tile of the block; for every reduction step the tiles of
    the LHS block and of the RHS block and one multiplication for every
    accumulator tile; and the store of every accumulator tile of the block
    to the result buffer. *)
Definition accBlockAccesses (lhsTileTy rhsTileTy accTileTy : TileType)
  (bufs : Buffers) (resBuf : MemBuffer) (c : AmxDotOpCandidate)
  (tilesInVectorK blockM blockN : Z) : list Access :=
  let bm := tilesInBlockM c in
  let bn := tilesInBlockN c in
  (t ← blockCoords bm bn;
   initAccess accTileTy (accBuf bufs) bm bn blockM blockN t.1 t.2)
  ++ reductionAccesses lhsTileTy rhsTileTy accTileTy bufs resBuf c
                       tilesInVectorK blockM blockN
  ++ (t ← blockCoords bm bn;
      storeAccess accTileTy resBuf bm bn blockM blockN t.1 t.2).

(** The accesses of a whole conversion: those of every accumulator
    block. *)
Definition conversionAccesses (lhsTileTy rhsTileTy accTileTy : TileType)
  (bufs : Buffers) (resBuf : MemBuffer) (c : AmxDotOpCandidate)
  (blocksInAccM blocksInAccN tilesInVectorK : Z) : list Access :=
  b ← blockCoords blocksInAccM blocksInAccN;
  accBlockAccesses lhsTileTy rhsTileTy accTileTy bufs resBuf c
                   tilesInVectorK b.1 b.2.

(** The store of tile [(i, j)] of a block of tiles, as [storeBlockTiles]
    creates it. *)
Definition storeEvent (tileTy : TileType) (buf : MemBuffer)
  (tilesInBlockM tilesInBlockN blockM blockN : Z)
  (tiles : list (list Value)) (i j : Z) : list Event :=
  match shiftIndices (indices buf) tileTy tilesInBlockM tilesInBlockN
                     blockM blockN i j,
        memRef buf, getTile tiles i j with
  | Some idx, Some base, Some tile => [Create (TileStoreOp base idx tile)]
  | _, _, _ => []
  end.

(** ** The data flow of a multiplication of blocks *)

Definition mulOp (isInt : bool) (res : Value) (ty : TileType)
  (lhs rhs acc : Value) : TileOp :=
  if isInt then TileMulIOp res ty lhs rhs acc
  else TileMulFOp res ty lhs rhs acc.

(** The event [e] loads tile [(i, j)] of block [(blockM, blockN)] of the
    buffer into the value [v], or stores [v] there. *)
Definition loadsTile (tileTy : TileType) (buf : MemBuffer)
  (tilesInBlockM tilesInBlockN blockM blockN i j : Z) (v : Value)
  (e : Event) : Prop :=
  ∃ idx base,
    shiftIndices (indices buf) tileTy tilesInBlockM tilesInBlockN
                 blockM blockN i j = Some idx
    ∧ memRef buf = Some base
    ∧ e = Create (TileLoadOp v tileTy base idx).

Definition storesTile (tileTy : TileType) (buf : MemBuffer)
  (tilesInBlockM tilesInBlockN blockM blockN i j : Z) (v : Value)
  (e : Event) : Prop :=
  ∃ idx base,
    shiftIndices (indices buf) tileTy tilesInBlockM tilesInBlockN
                 blockM blockN i j = Some idx
    ∧ memRef buf = Some base
    ∧ e = Create (TileStoreOp base idx v).

(** Every tile of a block of tiles is the value loaded by an event. *)
Definition tilesLoaded (tileTy : TileType) (buf : MemBuffer)
  (tilesInBlockM tilesInBlockN blockM blockN : Z)
  (tiles : list (list Value)) (evs : list Event) : Prop :=
  ∀ (i j : nat) v,
    getTile tiles (Z.of_nat i) (Z.of_nat j) = Some v →
    ∃ e, loadsTile tileTy buf tilesInBlockM tilesInBlockN blockM blockN
                   (Z.of_nat i) (Z.of_nat j) v e
         ∧ e ∈ evs.

(** In the events [evs], the accumulator tile [(i, j)] is updated by one
    multiplication: its operands are the value loaded from LHS tile [i] of
    the block, the value loaded from RHS tile [j] of the block and the old
    accumulator tile [accTiles[i][j]]; both loads come before it; its
    result is the new accumulator tile [tiles'[i][j]], and is what is
    stored afterwards at tile [(i, j)] of the accumulator buffer when the
    result is to be stored. *)
Definition tileProduct (lhsTileTy rhsTileTy accTileTy : TileType)
  (lhsBuf rhsBuf accBuf : MemBuffer)
  (blockM blockN blockK tilesInBlockM tilesInBlockN : Z)
  (storeResult : bool) (accTiles tiles' : list (list Value))
  (evs : list Event) (i j : Z) : Prop :=
  ∃ lhs rhs acc res loadL loadR,
    let mul := Create (mulOp (isInteger (tileElemTy accTileTy)) res
                             accTileTy lhs rhs acc) in
    loadsTile lhsTileTy lhsBuf tilesInBlockM 1 blockM blockK i 0 lhs loadL
    ∧ loadsTile rhsTileTy rhsBuf 1 tilesInBlockN blockK blockN 0 j rhs loadR
    ∧ getTile accTiles i j = Some acc
    ∧ getTile tiles' i j = Some res
    ∧ [loadL; mul] `sublist_of` evs
    ∧ [loadR; mul] `sublist_of` evs
    ∧ (storeResult = true →
       ∃ store,
         storesTile accTileTy accBuf tilesInBlockM tilesInBlockN
                    blockM blockN i j res store
         ∧ [mul; store] `sublist_of` evs).

(** The state of a multiplication of blocks when the accumulator tiles
    [(i, j)] with [D i j] have been multiplied, and the others not yet. *)
Definition flowInv (lhsTileTy rhsTileTy accTileTy : TileType)
  (lhsBuf rhsBuf accBuf : MemBuffer)
  (blockM blockN blockK tilesInBlockM tilesInBlockN : Z)
  (storeResult : bool) (accTiles : list (list Value))
  (D : nat → nat → Prop) (tiles : list (list Value)) (evs : list Event)
  : Prop :=
  ∀ i j : nat,
    Z.of_nat i < tilesInBlockM → Z.of_nat j < tilesInBlockN →
    (D i j →
     tileProduct lhsTileTy rhsTileTy accTileTy lhsBuf rhsBuf accBuf
                 blockM blockN blockK tilesInBlockM tilesInBlockN
                 storeResult accTiles tiles evs (Z.of_nat i) (Z.of_nat j))
    ∧ (¬ D i j →
       getTile tiles (Z.of_nat i) (Z.of_nat j)
       = getTile accTiles (Z.of_nat i) (Z.of_nat j)).

(** ** The data flow of a conversion *)

(** The event [e] creates the initial value [v] of tile [(i, j)] of block
    [(blockM, blockN)]: a tile of zeros when there is no buffer, the tile
    loaded from the buffer otherwise. *)
Definition initsTile (tileTy : TileType) (buf : MemBuffer)
  (tilesInBlockM tilesInBlockN blockM blockN i j : Z) (v : Value)
  (e : Event) : Prop :=
  if MemBuffer_empty buf then e = Create (TileZeroOp v tileTy)
  else loadsTile tileTy buf tilesInBlockM tilesInBlockN blockM blockN i j
                 v e.

(** In the events [evs], [v] is the accumulator tile [(i, j)] of block
    [(blockM, blockN)] after [k] reduction steps from [v0]: the step
    [k'] multiplies the value loaded from LHS tile [i] of block
    [(blockM, k')], the value loaded from RHS tile [j] of block
    [(k', blockN)] and the value of the step before, after both loads. *)
Fixpoint tileChain (lhsTileTy rhsTileTy accTileTy : TileType)
  (lhsBuf rhsBuf : MemBuffer)
  (blockM blockN tilesInBlockM tilesInBlockN i j : Z) (evs : list Event)
  (k : nat) (v0 v : Value) : Prop :=
  match k with
  | O => v = v0
  | S k' =>
      ∃ v1 lhs rhs loadL loadR,
        let mul := Create (mulOp (isInteger (tileElemTy accTileTy)) v
                                 accTileTy lhs rhs v1) in
        tileChain lhsTileTy rhsTileTy accTileTy lhsBuf rhsBuf blockM blockN
                  tilesInBlockM tilesInBlockN i j evs k' v0 v1
        ∧ loadsTile lhsTileTy lhsBuf tilesInBlockM 1 blockM (Z.of_nat k')
                    i 0 lhs loadL
        ∧ loadsTile rhsTileTy rhsBuf 1 tilesInBlockN (Z.of_nat k') blockN
                    0 j rhs loadR
        ∧ [loadL; mul] `sublist_of` evs
        ∧ [loadR; mul] `sublist_of` evs
  end.

(** The data flow of accumulator tile [(i, j)] in the events [evs] of the
    code of block [(blockM, blockN)], run on the tiles [accTiles] with the
    result [tiles']: the tile starts from [accTiles[i][j]] when the
    accumulator is kept on tiles, and from its initial value otherwise; it
    goes through all reduction steps; the value reached is [tiles'[i][j]],
    and is what is stored at the place of the tile in the result buffer
    when the accumulator is not kept on tiles. *)
Definition blockFlow (lhsTileTy rhsTileTy accTileTy : TileType)
  (bufs : Buffers) (resBuf : MemBuffer) (c : AmxDotOpCandidate)
  (tilesInVectorK blockM blockN : Z) (accTiles tiles' : list (list Value))
  (evs : list Event) (i j : nat) : Prop :=
  ∃ v0 v,
    (if keepAccOnTiles c
     then getTile accTiles (Z.of_nat i) (Z.of_nat j) = Some v0
     else ∃ init,
            initsTile accTileTy (accBuf bufs) (tilesInBlockM c)
                      (tilesInBlockN c) blockM blockN
                      (Z.of_nat i) (Z.of_nat j) v0 init
            ∧ init ∈ evs)
    ∧ tileChain lhsTileTy rhsTileTy accTileTy (lhsBuf bufs) (rhsBuf bufs)
                blockM blockN (tilesInBlockM c) (tilesInBlockN c)
                (Z.of_nat i) (Z.of_nat j) evs (Z.to_nat tilesInVectorK)
                v0 v
    ∧ getTile tiles' (Z.of_nat i) (Z.of_nat j) = Some v
    ∧ (keepAccOnTiles c = false →
       ∃ store,
         storesTile accTileTy resBuf (tilesInBlockM c) (tilesInBlockN c)
                    blockM blockN (Z.of_nat i) (Z.of_nat j) v store
         ∧ store ∈ evs).

(** The data flow of accumulator tile [(i, j)] of block [(blockM, blockN)]
    in the events [evs] of a conversion: an event creates its initial
    value [v0]; the reduction steps lead from [v0] to [v]; and an event
    stores, at the place of the tile in the result buffer, the value [v],
    or, when the accumulator is kept on tiles, the result of the new loop
    whose init operand is [v0] and whose yielded value is [v]. *)
Definition tileFlow (lhsTileTy rhsTileTy accTileTy : TileType)
  (bufs : Buffers) (resBuf : MemBuffer) (c : AmxDotOpCandidate) (o : DotOp)
  (tilesInVectorK : Z) (evs : list Event) (blockM blockN : Z) (i j : nat)
  : Prop :=
  ∃ v0 v stored init store,
    initsTile accTileTy (accBuf bufs) (tilesInBlockM c) (tilesInBlockN c)
              blockM blockN (Z.of_nat i) (Z.of_nat j) v0 init
    ∧ init ∈ evs
    ∧ tileChain lhsTileTy rhsTileTy accTileTy (lhsBuf bufs) (rhsBuf bufs)
                blockM blockN (tilesInBlockM c) (tilesInBlockN c)
                (Z.of_nat i) (Z.of_nat j) evs (Z.to_nat tilesInVectorK)
                v0 v
    ∧ storesTile accTileTy resBuf (tilesInBlockM c) (tilesInBlockN c)
                 blockM blockN (Z.of_nat i) (Z.of_nat j) stored store
    ∧ store ∈ evs
    ∧ if keepAccOnTiles c then
        ∃ inits yields first,
          ReplaceLoop o inits yields first ∈ evs
          ∧ inits !! (i * Z.to_nat (tilesInBlockN c) + j)%nat = Some v0
          ∧ yields !! (i * Z.to_nat (tilesInBlockN c) + j)%nat = Some v
          ∧ stored = (first + (i * Z.to_nat (tilesInBlockN c) + j))%nat
      else stored = v.

(** ** The rewrites of existing operations *)

Definition isRewrite (e : Event) : bool :=
  match e with Create _ => false | _ => true end.

Definition rewrites (evs : list Event) : list Event :=
  evs ≫= λ e, if isRewrite e then [e] else [].

(** The operations that are removed, in the three ways of removing one. *)
Definition removedOps (evs : list Event) : list DotOp :=
  evs ≫= λ e, match e with
              | ReplaceOpWithAcc o | ReplaceOpWithValue o _ | EraseOp o => [o]
              | _ => []
              end.

(** The rewrites that end the conversion of the operation [o] with the
    descriptor [c] and the result buffer [resBuf], in their order. *)
Definition conversionRewrites (c : AmxDotOpCandidate) (o : DotOp)
  (resBuf : MemBuffer) (rs : list Event) : Prop :=
  if keepAccOnTiles c then
    ∃ inits yields first,
      length inits = (Z.to_nat (tilesInBlockM c)
                      * Z.to_nat (tilesInBlockN c))%nat
      ∧ length yields = length inits
      ∧ if MemBuffer_empty (outBuf c) then
          ∃ newVal,
            rs = [ReplaceOpWithAcc o; ReplaceLoop o inits yields first;
                  ReadBack newVal resBuf; ReplaceLoopResultUses o newVal]
        else
          rs = [ReplaceOpWithAcc o; ReplaceLoop o inits yields first;
                EraseStore (origStore c)]
  else if keepAccInBuf c then
    ∃ newVal,
      rs = [ReadBack newVal resBuf; ReplaceLoopResultUses o newVal;
            ReplaceOpWithAcc o]
  else if MemBuffer_empty (outBuf c) then
    ∃ newVal, rs = [ReadBack newVal resBuf; ReplaceOpWithValue o newVal]
  else rs = [EraseStore (origStore c); EraseOp o].

(** The verdict of the analysis on a descriptor [c0]. *)
Definition accepts (s : Support) (c0 : AmxDotOpCandidate) (o : DotOp)
  : bool :=
  match isAmxCandidate o s c0 with
  | Some (true, _) => true
  | _ => false
  end.

(** What the conversion of an operation of the module relies on: valid
    vector types, an accumulator of the shape of the result, and, when the
    operation is accepted, buffers that can hold tiles. *)
Definition convertible (allocateTmpBufferStack : VectorType → MemBuffer)
  (prepareTensorBuffers : AmxDotOpCandidate → Buffers) (s : Support)
  (c0 : AmxDotOpCandidate) (o : DotOp) : Prop :=
  VectorType_valid (lhsTy o) ∧ VectorType_valid (resTy o)
  ∧ 2 ≤ getRank (resTy o)
  ∧ getShape (accTy o) = getShape (resTy o)
  ∧ ∀ c, isAmxCandidate o s c0 = Some (true, c) →
         usable (lhsBuf (prepareTensorBuffers c))
         ∧ usable (rhsBuf (prepareTensorBuffers c))
         ∧ (MemBuffer_empty (accBuf (prepareTensorBuffers c)) = true
            ∨ usable (accBuf (prepareTensorBuffers c)))
         ∧ (MemBuffer_empty (outBuf c) = true ∨ usable (outBuf c))
         ∧ usable (allocateTmpBufferStack (resTy o)).

(** * Properties *)

(** ** Machine arithmetic *)

Lemma wrap_in_range z : Int64.in_range z → Int64.wrap z = z.
Proof.
  unfold Int64.in_range, Int64.wrap, Int64.min_signed, Int64.max_signed.
  intros Hz. rewrite Z.mod_small; lia.
Qed.

Lemma mul_in_range a b : Int64.in_range (a * b) → Int64.mul a b = a * b.
Proof. apply wrap_in_range. Qed.

Lemma div_in_range a b :
  b ≠ 0 → Int64.in_range (a ÷ b) → Int64.div a b = Some (a ÷ b).
Proof.
  intros Hb Hq. unfold Int64.div.
  destruct (Z.eqb_spec b 0); [done|]. by rewrite wrap_in_range.
Qed.

Lemma wrap_pos_product a b :
  1 ≤ a → 1 ≤ b → 4 < Int64.wrap (a * b) → 4 < a * b.
Proof.
  intros Ha Hb. unfold Int64.wrap.
  destruct (Z_lt_le_dec (a * b) (2 ^ 63)) as [Hlt|Hge]; [|nia].
  rewrite Z.mod_small; lia.
Qed.

(** ** Element types *)

Lemma floatWidth_16 k : floatWidth k = 16 → k = BFloat16 ∨ k = Float16.
Proof. destruct k; cbn; intros; (done || auto). Qed.

Lemma requiredFlag_F16_BF16 ty s :
  requiredFlag ty s =
    negb (isF16 ty && negb (supportFp16 s))
    && negb (isBF16 ty && negb (supportBf16 s)).
Proof.
  destruct ty as [w sg|[]]; cbn;
    destruct (supportFp16 s), (supportBf16 s); reflexivity.
Qed.

(** The resolution of the common input type in the code agrees with the
    wording of the specification. *)
Lemma commonInputElemTy_spec lhs rhs bf16 :
  commonInputElemTy lhs rhs bf16 = spec_commonType lhs rhs bf16.
Proof.
  unfold commonInputElemTy, spec_commonType.
  destruct (getIntOrFloatBitWidth lhs =? 16),
           (getIntOrFloatBitWidth rhs =? 16); cbn; try reflexivity.
  destruct (bool_decide_reflect (rhs = lhs)) as [->|Hne].
  - by rewrite bool_decide_eq_true_2.
  - rewrite bool_decide_eq_false_2; [reflexivity|congruence].
Qed.

Lemma commonInputElemTy_width lhs rhs bf16 ty :
  commonInputElemTy lhs rhs bf16 = Some ty → getIntOrFloatBitWidth ty = 16.
Proof.
  unfold commonInputElemTy.
  destruct (Z.eqb_spec (getIntOrFloatBitWidth lhs) 16) as [Hl|Hl].
  - destruct (_ && _); [done|]. by intros [= <-].
  - destruct (Z.eqb_spec (getIntOrFloatBitWidth rhs) 16) as [Hr|Hr].
    + by intros [= <-].
    + destruct bf16; by intros [= <-].
Qed.

(** What an accepted operation looks like: the complete list of the
    conditions that [checkElemTypes] requires. *)
Lemma checkElemTypes_accepted lhs rhs acc res s c c' :
  checkElemTypes lhs rhs acc res s c = (true, c') →
  (isInteger lhs = true ∧ supportInt8 s = true
   ∧ isIntegerOfWidth lhs 8 = true ∧ isIntegerOfWidth rhs 8 = true
   ∧ isInteger acc = true ∧ getIntOrFloatBitWidth acc ≤ 32
   ∧ isInteger res = true ∧ getIntOrFloatBitWidth res ≤ 32
   ∧ c' = set_tileElemTys c (IntegerType_get 8) (IntegerType_get 8)
                          (IntegerType_get 32))
  ∨ (isInteger lhs = false ∧ isInteger rhs = false
     ∧ isInteger acc = false ∧ isInteger res = false
     ∧ getIntOrFloatBitWidth lhs ≤ 16 ∧ getIntOrFloatBitWidth rhs ≤ 16
     ∧ getIntOrFloatBitWidth acc ≤ 32
     ∧ ∃ common,
         commonInputElemTy lhs rhs (supportBf16 s) = Some common
         ∧ requiredFlag common s = true
         ∧ c' = set_tileElemTys c common common Float32Type_get).
Proof.
  unfold checkElemTypes. intros H.
  destruct (isInteger lhs) eqn:Hl.
  - left.
    destruct (supportInt8 s); [|done]. cbn in H.
    destruct (isIntegerOfWidth lhs 8); [|done].
    destruct (isIntegerOfWidth rhs 8); [|done]. cbn in H.
    destruct (isInteger acc); [|done]. cbn in H.
    destruct (Z.gtb_spec (getIntOrFloatBitWidth acc) 32); [done|]. cbn in H.
    destruct (isInteger res); [|done]. cbn in H.
    destruct (Z.gtb_spec (getIntOrFloatBitWidth res) 32); [done|].
    injection H as <-. repeat split; (done || lia).
  - right.
    destruct (isInteger rhs); [done|].
    destruct (isInteger acc); [done|].
    destruct (isInteger res); [done|]. cbn in H.
    destruct (Z.gtb_spec (getIntOrFloatBitWidth lhs) 16); [done|].
    destruct (Z.gtb_spec (getIntOrFloatBitWidth rhs) 16); [done|]. cbn in H.
    destruct (commonInputElemTy lhs rhs (supportBf16 s)) as [common|] eqn:Hc;
      [|done].
    destruct (isF16 common && negb (supportFp16 s)) eqn:H16; [done|].
    destruct (isBF16 common && negb (supportBf16 s)) eqn:Hb16; [done|].
    destruct (Z.gtb_spec (getIntOrFloatBitWidth acc) 32); [done|].
    injection H as <-. repeat split; try (done || lia).
    exists common. repeat split.
    by rewrite requiredFlag_F16_BF16, H16, Hb16.
Qed.

(** The legalized input type of an accepted operation has 8 or 16 bits. *)
Lemma checkElemTypes_tile_width lhs rhs acc res s c c' :
  checkElemTypes lhs rhs acc res s c = (true, c') →
  ∃ ty accTileTy,
    c' = set_tileElemTys c ty ty accTileTy
    ∧ (getIntOrFloatBitWidth ty = 8 ∨ getIntOrFloatBitWidth ty = 16).
Proof.
  intros [H|H]%checkElemTypes_accepted.
  - destruct H as (_ & _ & _ & _ & _ & _ & _ & _ & ->).
    eexists _, _. split; [reflexivity|]. by left.
  - destruct H as (_ & _ & _ & _ & _ & _ & _ & common & Hc & _ & ->).
    eexists _, _. split; [reflexivity|]. right.
    by eapply commonInputElemTy_width.
Qed.

(** A rejecting [checkElemTypes] leaves the descriptor alone. *)
Lemma checkElemTypes_rejected lhs rhs acc res s c c' :
  checkElemTypes lhs rhs acc res s c = (false, c') → c' = c.
Proof.
  unfold checkElemTypes.
  repeat match goal with
         | |- context [if ?b then _ else _] => destruct b
         | |- context [match ?o with Some _ => _ | None => _ end] =>
             destruct o
         end; by intros [= <-].
Qed.

(** An accumulator wider than 32 bits is rejected on the integer and on the
    floating-point path. *)
Lemma checkElemTypes_wide_accumulator lhs rhs acc res s c :
  32 < getIntOrFloatBitWidth acc →
  (checkElemTypes lhs rhs acc res s c).1 = false.
Proof.
  intros Hacc.
  destruct (checkElemTypes lhs rhs acc res s c) as [[] c'] eqn:H; [|done].
  apply checkElemTypes_accepted in H. destruct H as [H|H].
  - destruct H as (_ & _ & _ & _ & _ & ? & _). lia.
  - destruct H as (_ & _ & _ & _ & _ & _ & ? & _). lia.
Qed.

(** A result wider than 32 bits is rejected on the integer path. *)
Lemma checkElemTypes_wide_integer_result lhs rhs acc res s c :
  isInteger lhs = true → 32 < getIntOrFloatBitWidth res →
  (checkElemTypes lhs rhs acc res s c).1 = false.
Proof.
  intros Hl Hres.
  destruct (checkElemTypes lhs rhs acc res s c) as [[] c'] eqn:H; [|done].
  apply checkElemTypes_accepted in H. destruct H as [H|H].
  - destruct H as (_ & _ & _ & _ & _ & _ & _ & ? & _). lia.
  - destruct H as (? & _). congruence.
Qed.

Lemma commonInputElemTy_cases lhs rhs bf16 ty :
  commonInputElemTy lhs rhs bf16 = Some ty →
  ty = lhs ∨ ty = rhs ∨ ty = FloatType BFloat16 ∨ ty = FloatType Float16.
Proof.
  unfold commonInputElemTy.
  repeat match goal with
         | |- context [if ?b then _ else _] => destruct b
         end; intros [= <-]; auto.
Qed.

(** With every capability switched off no operation passes the type
    check. *)
Lemma checkElemTypes_none_supported lhs rhs acc res s c :
  supportInt8 s = false → supportFp16 s = false → supportBf16 s = false →
  (checkElemTypes lhs rhs acc res s c).1 = false.
Proof.
  intros Hi Hf Hb.
  destruct (checkElemTypes lhs rhs acc res s c) as [[] c'] eqn:H; [|done].
  apply checkElemTypes_accepted in H. destruct H as [H|H].
  - destruct H as (_ & ? & _). congruence.
  - destruct H as (Hl & Hr & _ & _ & _ & _ & _ & common & Hc & Hflag & _).
    pose proof (commonInputElemTy_width _ _ _ _ Hc) as Hw.
    assert (isInteger common = false) as Hfloat.
    { apply commonInputElemTy_cases in Hc as [->|[->|[->| ->]]]; done. }
    destruct common as [w sg|k]; [done|]. cbn in Hw.
    apply floatWidth_16 in Hw as [->| ->]; cbn in Hflag; congruence.
Qed.

(** The type check of the floating-point path, from its conditions. *)
Lemma checkElemTypes_fp_accepts kl kr acc res s c common :
  isInteger acc = false → isInteger res = false →
  floatWidth kl ≤ 16 → floatWidth kr ≤ 16 →
  getIntOrFloatBitWidth acc ≤ 32 →
  commonInputElemTy (FloatType kl) (FloatType kr) (supportBf16 s)
    = Some common →
  requiredFlag common s = true →
  checkElemTypes (FloatType kl) (FloatType kr) acc res s c
    = (true, set_tileElemTys c common common Float32Type_get).
Proof.
  intros Hacc Hres Hl Hr Hw Hc Hflag. unfold checkElemTypes. cbn.
  rewrite Hacc, Hres. cbn.
  destruct (Z.gtb_spec (floatWidth kl) 16); [lia|].
  destruct (Z.gtb_spec (floatWidth kr) 16); [lia|]. cbn.
  rewrite Hc. rewrite requiredFlag_F16_BF16 in Hflag.
  apply andb_true_iff in Hflag as [->%negb_true_iff ->%negb_true_iff].
  destruct (Z.gtb_spec (getIntOrFloatBitWidth acc) 32); [lia|done].
Qed.

(** C4: on floating-point inputs the common tile input type is resolved as
    the specification says.  Two 16-bit inputs of different encodings are
    rejected; an accepted operation uses, for both inputs, the type that
    the rule gives (the 16-bit input when exactly one input has 16 bits,
    otherwise brain-float when it is supported and 16-bit float when not);
    a disabled capability for the resolved type rejects the operation; and
    these conditions, with the checks on the accumulator and the result,
    are exactly the accepted operations.  In particular a 16-bit-float LHS
    with an 8-bit-float RHS is rejected when 16-bit float is not supported,
    whatever the brain-float switch is. *)
Theorem checkElemTypes_common_input_type :
  ∀ (kl kr : FloatKind) (acc res : MlirType) (s : Support)
    (c : AmxDotOpCandidate),
    let lhs := FloatType kl in
    let rhs := FloatType kr in
    let r := checkElemTypes lhs rhs acc res s c in
    (floatWidth kl = 16 ∧ floatWidth kr = 16 ∧ kl ≠ kr → r.1 = false)
    ∧ (r.1 = true →
       ∃ ty, spec_commonType lhs rhs (supportBf16 s) = Some ty
             ∧ lhsTileElemTy r.2 = Some ty ∧ rhsTileElemTy r.2 = Some ty)
    ∧ (∀ ty, spec_commonType lhs rhs (supportBf16 s) = Some ty →
             requiredFlag ty s = false → r.1 = false)
    ∧ (r.1 = true ↔
       isInteger acc = false ∧ isInteger res = false
       ∧ floatWidth kl ≤ 16 ∧ floatWidth kr ≤ 16
       ∧ getIntOrFloatBitWidth acc ≤ 32
       ∧ ∃ ty, spec_commonType lhs rhs (supportBf16 s) = Some ty
               ∧ requiredFlag ty s = true)
    ∧ (kl = Float16 ∧ floatWidth kr = 8 ∧ supportFp16 s = false →
       r.1 = false).
Proof.
  intros kl kr acc res s c lhs rhs r.
  assert (r.1 = true →
          isInteger acc = false ∧ isInteger res = false
          ∧ floatWidth kl ≤ 16 ∧ floatWidth kr ≤ 16
          ∧ getIntOrFloatBitWidth acc ≤ 32
          ∧ ∃ ty, spec_commonType lhs rhs (supportBf16 s) = Some ty
                  ∧ requiredFlag ty s = true
                  ∧ r.2 = set_tileElemTys c ty ty Float32Type_get) as Hacc.
  { subst r. destruct (checkElemTypes lhs rhs acc res s c) as [ok c'] eqn:H.
    cbn. intros ->. apply checkElemTypes_accepted in H as [H|H].
    - by destruct H as [? _].
    - destruct H as (_ & _ & ? & ? & ? & ? & ? & ty & Hty & ? & ->).
      rewrite commonInputElemTy_spec in Hty. eauto 10. }
  assert (∀ ty, spec_commonType lhs rhs (supportBf16 s) = Some ty →
                requiredFlag ty s = false → r.1 = false) as Hflag.
  { intros ty Hty Hoff. destruct (r.1) eqn:Hr; [|done].
    destruct (Hacc eq_refl) as (_ & _ & _ & _ & _ & ty' & Hty' & Hon & _).
    congruence. }
  split; [|split; [|split; [|split]]].
  - intros (Hl & Hr & Hne). destruct (r.1) eqn:Hok; [|done].
    destruct (Hacc eq_refl) as (_ & _ & _ & _ & _ & ty & Hty & _).
    revert Hty. unfold spec_commonType, lhs, rhs. cbn.
    rewrite Hl, Hr. cbn. rewrite bool_decide_eq_false_2; [done|congruence].
  - intros Hok.
    destruct (Hacc Hok) as (_ & _ & _ & _ & _ & ty & Hty & _ & ->).
    by exists ty.
  - exact Hflag.
  - split.
    + intros Hok.
      destruct (Hacc Hok) as (? & ? & ? & ? & ? & ty & ? & ? & _). eauto 10.
    + intros (? & ? & ? & ? & ? & ty & Hty & Hon).
      rewrite <- commonInputElemTy_spec in Hty. subst r lhs rhs.
      by erewrite checkElemTypes_fp_accepts.
  - intros (-> & Hr & Hoff).
    apply (Hflag (FloatType Float16)); [|done].
    unfold spec_commonType, lhs, rhs. cbn. by rewrite Hr.
Qed.

(** ** Shapes *)

Lemma getRank_2 ty : getRank ty = 2 → ∃ d0 d1, getShape ty = [d0; d1].
Proof.
  unfold getRank. destruct (getShape ty) as [|d0 [|d1 [|d2 l]]]; cbn; try lia.
  eauto.
Qed.

Lemma checkInputShapes_rejects lhs res :
  getRank lhs ≠ 2
  ∨ (∃ d, getDimSize lhs 0 = Some d ∧ d < 8)
  ∨ (∃ d, getDimSize lhs 1 = Some d ∧ d < 8)
  ∨ (∃ d, getDimSize res 1 = Some d ∧ d < 8) →
  checkInputShapes lhs res = Some false.
Proof.
  intros H. unfold checkInputShapes.
  destruct (Z.eqb_spec (getRank lhs) 2) as [Hrank|Hrank]; [|done]. cbn.
  destruct (getRank_2 _ Hrank) as (d0 & d1 & Hshape).
  unfold getDimSize in *. rewrite Hshape in *. cbn.
  destruct (Z.ltb_spec d0 8); [done|].
  destruct (Z.ltb_spec d1 8); [done|].
  destruct H as [?|[(d & [= <-] & ?)|[(d & [= <-] & ?)|(d & -> & ?)]]];
    try lia.
  cbn. destruct (Z.ltb_spec d 8); [done|lia].
Qed.

Lemma checkInputShapes_accepts lhs res :
  checkInputShapes lhs res = Some true →
  ∃ d0 d1 n, getShape lhs = [d0; d1] ∧ getDimSize res 1 = Some n
             ∧ 8 ≤ d0 ∧ 8 ≤ d1 ∧ 8 ≤ n.
Proof.
  unfold checkInputShapes.
  destruct (Z.eqb_spec (getRank lhs) 2) as [Hrank|Hrank]; [|done]. cbn.
  destruct (getRank_2 _ Hrank) as (d0 & d1 & Hshape).
  unfold getDimSize. rewrite Hshape. cbn.
  destruct (Z.ltb_spec d0 8); [done|].
  destruct (Z.ltb_spec d1 8); [done|].
  destruct (getShape res !! 1%nat) as [n|]; [|done]. cbn.
  destruct (Z.ltb_spec n 8); [done|]. intros _. eauto 10.
Qed.

(** C7: an operation whose LHS is not two-dimensional, or whose LHS row
    count, LHS column count or result column count is below 8, is rejected
    by the analysis, whatever the capability switches are. *)
Theorem isAmxCandidate_rejects_small_shapes :
  ∀ (o : DotOp) (s : Support) (c0 : AmxDotOpCandidate),
    getRank (lhsTy o) ≠ 2
    ∨ (∃ d, getDimSize (lhsTy o) 0 = Some d ∧ d < 8)
    ∨ (∃ d, getDimSize (lhsTy o) 1 = Some d ∧ d < 8)
    ∨ (∃ d, getDimSize (resTy o) 1 = Some d ∧ d < 8) →
    ∃ c, isAmxCandidate o s c0 = Some (false, c).
Proof.
  intros o s c0 Hsmall. unfold isAmxCandidate.
  destruct (checkElemTypes _ _ _ _ s c0) as [[] c1]; cbn; [|eauto].
  rewrite (checkInputShapes_rejects _ _ Hsmall). cbn. eauto.
Qed.

(** Scenario B of the specification: a 4×4 LHS is rejected with every
    capability enabled. *)
Lemma isAmxCandidate_rejects_small_shapes_witness :
  ∃ c, isAmxCandidate
         (dotOp 4 4 4 (FloatType Float16) (FloatType Float16)
                (FloatType Float32) (FloatType Float32) false)
         allSupported freshCandidate = Some (false, c).
Proof.
  apply isAmxCandidate_rejects_small_shapes.
  right. left. exists 4. split; [reflexivity|lia].
Defined.

(** C2: an operation whose accumulator or result element type is wider
    than 32 bits is rejected, on the integer path and on the floating-point
    path alike, and the descriptor is handed back untouched.  The integer
    path tests both widths (lines 92-93).  The floating-point path tests
    the accumulator (line 148), which is the result's width too: the
    result of a dot operation has the element type of its accumulator,
    since the conversion replaces the operation by its accumulator (lines
    708 and 775) and by vectors of the accumulator's type (lines 743-748
    and 780-784). *)
Theorem isAmxCandidate_rejects_wide_accumulator_or_result :
  ∀ (o : DotOp) (s : Support) (c0 : AmxDotOpCandidate),
    isInteger (getElementType (lhsTy o)) = true
    ∨ getElementType (resTy o) = getElementType (accTy o) →
    32 < getIntOrFloatBitWidth (getElementType (accTy o))
    ∨ 32 < getIntOrFloatBitWidth (getElementType (resTy o)) →
    isAmxCandidate o s c0 = Some (false, c0).
Proof.
  intros o s c0 Hpath Hwide.
  assert ((checkElemTypes
             (getElementType (lhsTy o)) (getElementType (rhsTy o))
             (getElementType (accTy o)) (getElementType (resTy o)) s c0).1
          = false) as Hrej.
  { destruct Hwide as [Hacc|Hres].
    - by apply checkElemTypes_wide_accumulator.
    - destruct Hpath as [Hint|Hsame].
      + by apply checkElemTypes_wide_integer_result.
      + apply checkElemTypes_wide_accumulator. by rewrite <- Hsame. }
  unfold isAmxCandidate.
  destruct (checkElemTypes _ _ _ _ s c0) as [ok c1] eqn:H. cbn in Hrej.
  subst ok. by rewrite (checkElemTypes_rejected _ _ _ _ _ _ _ H).
Qed.

Lemma isAmxCandidate_rejects_wide_accumulator_or_result_witness :
  isAmxCandidate
    (dotOp 16 16 32 (FloatType Float16) (FloatType Float16)
           (FloatType Float64) (FloatType Float64) false)
    allSupported freshCandidate = Some (false, freshCandidate)
  ∧ isAmxCandidate
      (dotOp 16 16 32 (IntegerType_get 8) (IntegerType_get 8)
             (IntegerType_get 32) (IntegerType_get 64) false)
      allSupported freshCandidate = Some (false, freshCandidate).
Proof.
  split.
  - apply isAmxCandidate_rejects_wide_accumulator_or_result;
      [right; reflexivity|right; cbn; lia].
  - apply isAmxCandidate_rejects_wide_accumulator_or_result;
      [left; reflexivity|right; cbn; lia].
Defined.

(** ** The block-halving loop *)

Lemma wrap_nonzero z : Int64.wrap z ≠ 0 → z ≠ 0.
Proof. intros H ->. by apply H. Qed.

Lemma loop_body_fuel s :
  loop_cond s = true → (loop_fuel (loop_body s) < loop_fuel s)%nat.
Proof.
  destruct s as [a b]. unfold loop_cond, loop_body, loop_fuel, Int64.mul. cbn.
  intros Hc%Z.gtb_gt.
  assert (a * b ≠ 0) as Hab by (apply wrap_nonzero; lia).
  assert (a ≠ 0 ∧ b ≠ 0) as [Ha Hb] by nia.
  assert (∀ x, x ≠ 0 → Z.abs (x ÷ 2) < Z.abs x) as Hhalf.
  { intros x Hx. pose proof (Z.quot_rem x 2 ltac:(lia)).
    pose proof (Z.rem_bound_pos_neg x 2). pose proof (Z.rem_bound_neg_pos x 2).
    pose proof (Z.rem_bound_pos_pos x 2). lia. }
  destruct (a >? b); cbn; [specialize (Hhalf a Ha)|specialize (Hhalf b Hb)];
    lia.
Qed.

(** The loop reaches its exit within [loop_fuel] iterations, for every
    pair of extents. *)
Lemma while_loop_terminates n s :
  (loop_fuel s ≤ n)%nat →
  ∃ s', while_loop n s = Some s' ∧ loop_cond s' = false.
Proof.
  revert s. induction n as [|n IH]; intros s Hn.
  - cbn. destruct (loop_cond s) eqn:Hc; [|eauto].
    apply loop_body_fuel in Hc. lia.
  - cbn. destruct (loop_cond s) eqn:Hc; [|eauto].
    apply IH. apply loop_body_fuel in Hc. lia.
Qed.

(** The result of the loop is the first iterate of the body at which the
    condition fails. *)
Lemma while_loop_iterates n s s' :
  while_loop n s = Some s' →
  ∃ k, s' = Nat.iter k loop_body s
       ∧ loop_cond s' = false
       ∧ ∀ i, (i < k)%nat → loop_cond (Nat.iter i loop_body s) = true.
Proof.
  revert s. induction n as [|n IH]; intros s; cbn;
    destruct (loop_cond s) eqn:Hc; try done.
  - intros [= <-]. exists 0%nat. split; [done|]. split; [done|]. lia.
  - intros (k & -> & Hexit & Hrun)%IH. exists (S k).
    rewrite Nat.iter_succ_r. split; [done|]. split; [done|].
    intros [|i] Hi; [done|]. rewrite Nat.iter_succ_r. apply Hrun. lia.
  - intros [= <-]. exists 0%nat. split; [done|]. split; [done|]. lia.
Qed.

Lemma loop_body_positive s :
  positive_blocks s → loop_cond s = true →
  positive_blocks (loop_body s)
  ∧ 4 < s.1 * s.2
  ∧ (loop_body s).1 * (loop_body s).2 < s.1 * s.2
  ∧ (loop_body s).1 ≤ s.1 ∧ (loop_body s).2 ≤ s.2.
Proof.
  destruct s as [a b]. unfold positive_blocks, loop_cond, loop_body. cbn.
  intros [Ha Hb] Hc%Z.gtb_gt%Z.gt_lt. unfold Int64.mul in Hc.
  apply wrap_pos_product in Hc; [|lia..].
  destruct (Z.gtb_spec a b); cbn.
  - rewrite Z.quot_div_nonneg by lia.
    pose proof (Z.div_mod a 2 ltac:(lia)). pose proof (Z.mod_pos_bound a 2).
    nia.
  - rewrite Z.quot_div_nonneg by lia.
    pose proof (Z.div_mod b 2 ltac:(lia)). pose proof (Z.mod_pos_bound b 2).
    nia.
Qed.

Lemma loop_body_halve s :
  positive_blocks s → loop_cond s = true → halve s (loop_body s).
Proof.
  intros Hpos Hc. destruct (loop_body_positive s Hpos Hc) as (_ & Hprod & _).
  destruct s as [a b], Hpos as [Ha Hb]. unfold loop_body. cbn in *.
  destruct (Z.gtb_spec a b); rewrite Z.quot_div_nonneg by lia.
  - by apply halve_M.
  - by apply halve_N.
Qed.

Lemma iter_loop_body_positive k s :
  positive_blocks s →
  (∀ i, (i < k)%nat → loop_cond (Nat.iter i loop_body s) = true) →
  positive_blocks (Nat.iter k loop_body s)
  ∧ (Nat.iter k loop_body s).1 ≤ s.1 ∧ (Nat.iter k loop_body s).2 ≤ s.2
  ∧ rtc halve s (Nat.iter k loop_body s).
Proof.
  intros Hpos. induction k as [|k IH]; intros Hrun.
  - cbn. split; [done|]. split; [lia|]. split; [lia|]. done.
  - destruct IH as (Hk & H1 & H2 & Hsteps); [intros; apply Hrun; lia|].
    assert (loop_cond (Nat.iter k loop_body s) = true) as Hc
      by (apply Hrun; lia).
    destruct (loop_body_positive _ Hk Hc) as (Hk' & _ & _ & H1' & H2').
    change (Nat.iter (S k) loop_body s)
      with (loop_body (Nat.iter k loop_body s)).
    split; [done|]. split; [lia|]. split; [lia|].
    eapply rtc_r; [done|]. by apply loop_body_halve.
Qed.

(** The loop on positive extents: the extents stay positive, the result is
    reached by [halve] steps, and unless the product of the extents
    overflows the loop leaves at most four tiles. *)
Lemma while_loop_positive n s s' :
  while_loop n s = Some s' → positive_blocks s →
  positive_blocks s' ∧ s'.1 ≤ s.1 ∧ s'.2 ≤ s.2 ∧ rtc halve s s'
  ∧ (s.1 * s.2 ≤ Int64.max_signed → s'.1 * s'.2 ≤ 4).
Proof.
  intros (k & -> & Hexit & Hrun)%while_loop_iterates Hpos.
  destruct (iter_loop_body_positive k s Hpos Hrun) as (Hk & H1 & H2 & Hsteps).
  split; [done|]. split; [done|]. split; [done|]. split; [done|].
  intros Hmax. revert Hexit. destruct Hk as [Ha Hb].
  destruct Hpos as [Ha0 Hb0].
  destruct (Nat.iter k loop_body s) as [a b]. unfold loop_cond. cbn in *.
  rewrite mul_in_range.
  - destruct (Z.gtb_spec (a * b) 4); [done|lia].
  - unfold Int64.in_range, Int64.min_signed, Int64.max_signed in *. nia.
Qed.

(** ** The size planner *)

(** The planner on an [M×N] result and a reduction dimension [K]. *)
Lemma setupBlockAndTileSizes_result lhsShape resShape candidate M N K ty :
  resShape !! 0%nat = Some M → resShape !! 1%nat = Some N →
  lhsShape !! 1%nat = Some K →
  lhsTileElemTy candidate = Some ty →
  getIntOrFloatBitWidth ty = 8 ∨ getIntOrFloatBitWidth ty = 16 →
  1 ≤ M ≤ Int64.max_signed → 1 ≤ N ≤ Int64.max_signed →
  let s0 := (M `div` Z.min M 16, N `div` Z.min N 16) in
  ∃ blocks,
    while_loop (loop_fuel s0) s0 = Some blocks
    ∧ positive_blocks s0
    ∧ setupBlockAndTileSizes lhsShape resShape candidate
      = Some (set_sizes candidate (Z.min M 16) (Z.min N 16)
                (Z.min K (512 `div` getIntOrFloatBitWidth ty))
                blocks.1 blocks.2).
Proof.
  intros HM HN HK Hty Hbw HMr HNr s0.
  assert (∀ X, 1 ≤ X ≤ Int64.max_signed →
               Int64.div X (Z.min X 16) = Some (X `div` Z.min X 16)
               ∧ 1 ≤ X `div` Z.min X 16) as Hdiv.
  { intros X HX.
    assert (1 ≤ X `div` Z.min X 16 ≤ X) as Hq.
    { split; [apply Z.div_le_lower_bound; lia|].
      apply Z.div_le_upper_bound; nia. }
    rewrite <- Z.quot_div_nonneg by lia. split; [|rewrite Z.quot_div_nonneg; lia].
    apply div_in_range; [lia|]. rewrite Z.quot_div_nonneg by lia.
    unfold Int64.in_range, Int64.min_signed, Int64.max_signed in *. lia. }
  destruct (Hdiv M HMr) as [HdM HqM]. destruct (Hdiv N HNr) as [HdN HqN].
  destruct (while_loop_terminates (loop_fuel s0) s0 ltac:(lia))
    as (blocks & Hloop & _).
  exists blocks. split; [done|]. split; [done|].
  unfold setupBlockAndTileSizes. rewrite HM, HN, HK, Hty. cbn.
  assert (Int64.div 512 (getIntOrFloatBitWidth ty)
          = Some (512 `div` getIntOrFloatBitWidth ty)) as ->.
  { destruct Hbw as [-> | ->]; reflexivity. }
  cbn [mbind option_bind]. rewrite HdM. cbn [mbind option_bind].
  rewrite HdN. cbn [mbind option_bind]. fold s0. by rewrite Hloop.
Qed.

Lemma setupBlockAndTileSizes_inv lhsShape resShape c c' :
  setupBlockAndTileSizes lhsShape resShape c = Some c' →
  ∃ M N tm tn tk bm bn,
    resShape !! 0%nat = Some M ∧ resShape !! 1%nat = Some N
    ∧ c' = set_sizes c tm tn tk bm bn.
Proof.
  unfold setupBlockAndTileSizes.
  destruct (resShape !! 0%nat) as [M|]; [|done]. cbn [mbind option_bind].
  destruct (resShape !! 1%nat) as [N|]; [|done]. cbn [mbind option_bind].
  destruct (lhsShape !! 1%nat) as [K|]; [|done]. cbn [mbind option_bind].
  destruct (lhsTileElemTy c) as [ty|]; [|done]. cbn [mbind option_bind].
  destruct (Int64.div 512 _) as [maxK|]; [|done]. cbn [mbind option_bind].
  destruct (Int64.div M _) as [bm|]; [|done]. cbn [mbind option_bind].
  destruct (Int64.div N _) as [bn|]; [|done]. cbn [mbind option_bind].
  destruct (while_loop _ _) as [blocks|]; [|done]. cbn [mbind option_bind].
  intros [= <-]. eauto 10.
Qed.

Lemma findOutputBuffer_fields uses c :
  let c' := findOutputBuffer uses c in
  op c' = op c ∧ lhsTileElemTy c' = lhsTileElemTy c
  ∧ rhsTileElemTy c' = rhsTileElemTy c ∧ accTileElemTy c' = accTileElemTy c
  ∧ tileM c' = tileM c ∧ tileN c' = tileN c ∧ tileK c' = tileK c
  ∧ tilesInBlockM c' = tilesInBlockM c ∧ tilesInBlockN c' = tilesInBlockN c
  ∧ keepAccOnTiles c' = keepAccOnTiles c ∧ keepAccInBuf c' = keepAccInBuf c.
Proof.
  destruct uses as [|[? ? ? []|?] [|? ?]]; cbn; repeat split; reflexivity.
Qed.

(** The steps that an accepted operation has gone through. *)
Lemma isAmxCandidate_accepted o s c0 c :
  isAmxCandidate o s c0 = Some (true, c) →
  ∃ c1 c2 M N,
    checkElemTypes (getElementType (lhsTy o)) (getElementType (rhsTy o))
                   (getElementType (accTy o)) (getElementType (resTy o))
                   s c0 = (true, c1)
    ∧ checkInputShapes (lhsTy o) (resTy o) = Some true
    ∧ setupBlockAndTileSizes (getShape (lhsTy o)) (getShape (resTy o))
                             (set_op c1 o) = Some c2
    ∧ getDimSize (resTy o) 0 = Some M ∧ getDimSize (resTy o) 1 = Some N
    ∧ op c = Some o
    ∧ lhsTileElemTy c = lhsTileElemTy c2
    ∧ rhsTileElemTy c = rhsTileElemTy c2
    ∧ accTileElemTy c = accTileElemTy c2
    ∧ tileM c = tileM c2 ∧ tileN c = tileN c2 ∧ tileK c = tileK c2
    ∧ tilesInBlockM c = tilesInBlockM c2
    ∧ tilesInBlockN c = tilesInBlockN c2
    ∧ keepAccOnTiles c = isLoopCarriedAcc o && accumulatorFits c2 M N
    ∧ keepAccInBuf c
      = (isLoopCarriedAcc o && negb (accumulatorFits c2 M N))
        || keepAccInBuf c0.
Proof.
  unfold isAmxCandidate.
  destruct (checkElemTypes _ _ _ _ s c0) as [[] c1] eqn:Htypes; [|done]. cbn.
  destruct (checkInputShapes _ _) as [[]|] eqn:Hshapes; [|done..]. cbn.
  destruct (setupBlockAndTileSizes _ _ _) as [c2|] eqn:Hsizes; [|done]. cbn.
  destruct (setupBlockAndTileSizes_inv _ _ _ _ Hsizes)
    as (M & N & tm & tn & tk & bm & bn & HM & HN & Hc2).
  assert (keepAccInBuf c2 = keepAccInBuf c0) as Hbuf.
  { destruct (checkElemTypes_tile_width _ _ _ _ _ _ _ Htypes)
      as (ty & aty & -> & _). by rewrite Hc2. }
  assert (op c2 = Some o) as Hop by by rewrite Hc2.
  intros H. exists c1, c2, M, N.
  do 5 (split; [done|]). revert H. unfold getDimSize. rewrite HM, HN.
  cbn [mbind option_bind]. unfold accumulatorFits. clear Hc2 Hsizes.
  destruct (isLoopCarriedAcc o); cbn.
  - destruct (Int64.mul (tilesInBlockM c2) (tileM c2) <? M); cbn.
    { intros [= <-]. cbn. by repeat split. }
    destruct (Int64.mul (tilesInBlockN c2) (tileN c2) <? N); cbn.
    { intros [= <-]. cbn. by repeat split. }
    intros [= <-].
    pose proof (findOutputBuffer_fields (loopResultUsers o)
                  (set_keepAccOnTiles c2 true)) as H.
    cbn in H. destruct H as (-> & -> & -> & -> & -> & -> & -> & -> & -> & -> & ->).
    by repeat split.
  - intros [= <-].
    pose proof (findOutputBuffer_fields (resultUsers o)
                  (set_keepAccOnTiles c2 false)) as H.
    cbn in H. destruct H as (-> & -> & -> & -> & -> & -> & -> & -> & -> & -> & ->).
    by repeat split.
Qed.

Lemma foldr_mul_positive l : Forall (λ d, 0 < d) l → 1 ≤ foldr Z.mul 1 l.
Proof. induction 1; cbn; [lia|nia]. Qed.

Lemma VectorType_valid_dims ty M N :
  VectorType_valid ty →
  getDimSize ty 0 = Some M → getDimSize ty 1 = Some N →
  1 ≤ M ∧ 1 ≤ N ∧ M * N ≤ Int64.max_signed.
Proof.
  unfold VectorType_valid, numElements, getDimSize.
  destruct (getShape ty) as [|m [|n rest]]; [done..|].
  cbn. intros [Hpos Hnum] [= ->] [= ->].
  inversion_clear Hpos as [|? ? HM Hpos']. inversion_clear Hpos' as [|? ? HN Hrest].
  apply foldr_mul_positive in Hrest. nia.
Qed.

(** The descriptor of an accepted operation, field by field. *)
Lemma isAmxCandidate_descriptor o s c0 c :
  VectorType_valid (resTy o) →
  isAmxCandidate o s c0 = Some (true, c) →
  ∃ M N K ty,
    getDimSize (resTy o) 0 = Some M ∧ getDimSize (resTy o) 1 = Some N
    ∧ getDimSize (lhsTy o) 1 = Some K
    ∧ 1 ≤ M ∧ 8 ≤ N ∧ 8 ≤ K ∧ M * N ≤ Int64.max_signed
    ∧ op c = Some o
    ∧ lhsTileElemTy c = Some ty ∧ rhsTileElemTy c = Some ty
    ∧ (∃ accTileTy, accTileElemTy c = Some accTileTy)
    ∧ (getIntOrFloatBitWidth ty = 8 ∨ getIntOrFloatBitWidth ty = 16)
    ∧ tileM c = Z.min M 16 ∧ tileN c = Z.min N 16
    ∧ tileK c = Z.min K (512 `div` getIntOrFloatBitWidth ty)
    ∧ (let s0 := (M `div` Z.min M 16, N `div` Z.min N 16) in
       positive_blocks s0
       ∧ while_loop (loop_fuel s0) s0
         = Some (tilesInBlockM c, tilesInBlockN c))
    ∧ keepAccOnTiles c = isLoopCarriedAcc o && accumulatorFits c M N
    ∧ keepAccInBuf c
      = (isLoopCarriedAcc o && negb (accumulatorFits c M N))
        || keepAccInBuf c0.
Proof.
  intros Hvalid (c1 & c2 & M & N & Htypes & Hshapes & Hsizes & HM & HN & Hop
                  & Hl & Hr & Ha & HtM & HtN & HtK & HbM & HbN & Hon & Hbuf)
                %isAmxCandidate_accepted.
  destruct (checkInputShapes_accepts _ _ Hshapes)
    as (d0 & K & N' & Hlhs & HN' & _ & HK8 & HN8).
  assert (N' = N) as -> by congruence.
  destruct (VectorType_valid_dims _ _ _ Hvalid HM HN) as (HM1 & HN1 & Hnum).
  destruct (checkElemTypes_tile_width _ _ _ _ _ _ _ Htypes)
    as (ty & aty & -> & Hbw).
  assert (getShape (lhsTy o) !! 1%nat = Some K) as HK by by rewrite Hlhs.
  assert (M ≤ Int64.max_signed ∧ N ≤ Int64.max_signed) as [HMmax HNmax]
    by (unfold Int64.max_signed in *; nia).
  destruct (setupBlockAndTileSizes_result
              (getShape (lhsTy o)) (getShape (resTy o))
              (set_op (set_tileElemTys c0 ty ty aty) o) M N K ty)
    as (blocks & Hloop & Hpos & Hres); try done.
  rewrite Hres in Hsizes. injection Hsizes as <-. cbn in *.
  exists M, N, K, ty.
  assert (accumulatorFits c M N
          = accumulatorFits
              (set_sizes (set_op (set_tileElemTys c0 ty ty aty) o)
                 (Z.min M 16) (Z.min N 16)
                 (Z.min K (512 `div` getIntOrFloatBitWidth ty))
                 blocks.1 blocks.2) M N) as Hfit.
  { unfold accumulatorFits. cbn. by rewrite HbM, HbN, HtM, HtN. }
  rewrite Hfit, HbM, HbN. destruct blocks as [bm bn].
  repeat (split; [done || lia || eauto|]). done.
Qed.

Lemma vector_valid M N ty :
  0 < M → 0 < N → M * N ≤ Int64.max_signed →
  VectorType_valid (vector [M; N] ty).
Proof.
  intros HM HN Hnum. split.
  - by repeat constructor.
  - unfold numElements. cbn. lia.
Qed.

(** The planner leaves at least one and at most four tiles in a block. *)
Lemma isAmxCandidate_block_budget o s c0 c :
  VectorType_valid (resTy o) →
  isAmxCandidate o s c0 = Some (true, c) →
  1 ≤ tilesInBlockM c ∧ 1 ≤ tilesInBlockN c
  ∧ tilesInBlockM c * tilesInBlockN c ≤ 4.
Proof.
  intros Hvalid Hacc.
  destruct (isAmxCandidate_descriptor o s c0 c Hvalid Hacc)
    as (M & N & K & ty & _ & _ & _ & HM & HN & _ & Hnum & _ & _ & _ & _
        & _ & _ & _ & _ & [Hpos Hloop] & _).
  destruct (while_loop_positive _ _ _ Hloop Hpos)
    as ([HbM HbN] & _ & _ & _ & Hle).
  split; [done|]. split; [done|].
  apply Hle. cbn. destruct Hpos as [Ha Hb]. cbn in Ha, Hb.
  assert (M `div` Z.min M 16 ≤ M ∧ N `div` Z.min N 16 ≤ N) as [? ?].
  { split; apply Z.div_le_upper_bound; nia. }
  unfold Int64.max_signed in *. nia.
Qed.

(** C3: the descriptor of an accepted operation satisfies
    [1 ≤ tileM ≤ 16], [1 ≤ tileN ≤ 16],
    [tileK * bitwidth(lhsTileElemTy) ≤ 512] and
    [tilesInBlockM * tilesInBlockN ≤ 4]. *)
Theorem isAmxCandidate_descriptor_bounds :
  ∀ (o : DotOp) (s : Support) (c0 c : AmxDotOpCandidate),
    VectorType_valid (resTy o) →
    isAmxCandidate o s c0 = Some (true, c) →
    1 ≤ tileM c ≤ 16 ∧ 1 ≤ tileN c ≤ 16
    ∧ (∃ ty, lhsTileElemTy c = Some ty
             ∧ tileK c * getIntOrFloatBitWidth ty ≤ 512)
    ∧ tilesInBlockM c * tilesInBlockN c ≤ 4.
Proof.
  intros o s c0 c Hvalid Hacc.
  destruct (isAmxCandidate_descriptor o s c0 c Hvalid Hacc)
    as (M & N & K & ty & _ & _ & _ & HM & HN & HK & Hnum & _ & Hty & _ & _
        & Hbw & -> & -> & -> & [Hpos Hloop] & _).
  split; [lia|]. split; [lia|]. split.
  - exists ty. split; [done|]. destruct Hbw as [-> | ->].
    + change (512 `div` 8) with 64. lia.
    + change (512 `div` 16) with 32. lia.
  - by destruct (isAmxCandidate_block_budget o s c0 c Hvalid Hacc)
      as (_ & _ & ?).
Qed.

Lemma isAmxCandidate_descriptor_bounds_witness :
  let c := analysed scenarioA allSupported in
  1 ≤ tileM c ≤ 16 ∧ 1 ≤ tileN c ≤ 16
  ∧ (∃ ty, lhsTileElemTy c = Some ty
           ∧ tileK c * getIntOrFloatBitWidth ty ≤ 512)
  ∧ tilesInBlockM c * tilesInBlockN c ≤ 4.
Proof.
  apply (isAmxCandidate_descriptor_bounds scenarioA allSupported
           freshCandidate).
  - apply vector_valid; [lia|lia|]. vm_compute. discriminate.
  - vm_compute. reflexivity.
Defined.

(** C1, as amended: for an accepted operation with logical dimensions
    [M], [N], [K] and legalized input width [bw], the planner sets
    [tileM = min(M,16)], [tileN = min(N,16)], [tileK = min(K, 512/bw)], and
    the block extents are reached from [(M/tileM, N/tileN)] by halving,
    while the product exceeds 4, the strictly larger extent, and on a tie
    the N side; at the end the product is at most 4. *)
Theorem setupBlockAndTileSizes_halving :
  ∀ (o : DotOp) (s : Support) (c0 c : AmxDotOpCandidate),
    VectorType_valid (resTy o) →
    isAmxCandidate o s c0 = Some (true, c) →
    ∃ M N K ty,
      getDimSize (resTy o) 0 = Some M ∧ getDimSize (resTy o) 1 = Some N
      ∧ getDimSize (lhsTy o) 1 = Some K
      ∧ lhsTileElemTy c = Some ty
      ∧ tileM c = Z.min M 16 ∧ tileN c = Z.min N 16
      ∧ tileK c = Z.min K (512 `div` getIntOrFloatBitWidth ty)
      ∧ rtc halve (M `div` tileM c, N `div` tileN c)
                  (tilesInBlockM c, tilesInBlockN c)
      ∧ tilesInBlockM c * tilesInBlockN c ≤ 4.
Proof.
  intros o s c0 c Hvalid Hacc.
  destruct (isAmxCandidate_block_budget o s c0 c Hvalid Hacc)
    as (_ & _ & Hle).
  destruct (isAmxCandidate_descriptor o s c0 c Hvalid Hacc)
    as (M & N & K & ty & HM & HN & HK & _ & _ & _ & _ & _ & Hty & _ & _
        & _ & HtM & HtN & HtK & [Hpos Hloop] & _).
  exists M, N, K, ty. do 7 (split; [done|]). split; [|done].
  rewrite HtM, HtN.
  by destruct (while_loop_positive _ _ _ Hloop Hpos) as (_ & _ & _ & ? & _).
Qed.

Lemma setupBlockAndTileSizes_halving_witness :
  let c := analysed scenarioD allSupported in
  ∃ M N K ty,
    getDimSize (resTy scenarioD) 0 = Some M
    ∧ getDimSize (resTy scenarioD) 1 = Some N
    ∧ getDimSize (lhsTy scenarioD) 1 = Some K
    ∧ lhsTileElemTy c = Some ty
    ∧ tileM c = Z.min M 16 ∧ tileN c = Z.min N 16
    ∧ tileK c = Z.min K (512 `div` getIntOrFloatBitWidth ty)
    ∧ rtc halve (M `div` tileM c, N `div` tileN c)
                (tilesInBlockM c, tilesInBlockN c)
    ∧ tilesInBlockM c * tilesInBlockN c ≤ 4.
Proof.
  apply (setupBlockAndTileSizes_halving scenarioD allSupported
           freshCandidate).
  - apply vector_valid; [lia|lia|]. vm_compute. discriminate.
  - vm_compute. reflexivity.
Defined.

(** C1, as stated, fails: on a 48×48 result the extents start at a tie,
    [(3, 3)].  The code halves the N side and stops at [(3, 1)]; the rule
    with ties resolved towards M gives [(1, 3)].  On the 64×64 result of
    Scenario D the first iteration already differs, [(4, 2)] against
    [(2, 4)], although both rules end at [(2, 2)]. *)
Lemma setupBlockAndTileSizes_ties_counterexample :
  (∃ c, isAmxCandidate dot48 allSupported freshCandidate = Some (true, c)
        ∧ sizes c = (16, 16, 32, 3, 1)
        ∧ spec_sizes 48 48 64 16 = Some (16, 16, 32, 1, 3)
        ∧ Some (sizes c) ≠ spec_sizes 48 48 64 16)
  ∧ loop_body (64 `div` 16, 64 `div` 16) = (4, 2)
  ∧ spec_loop_body (64 `div` 16, 64 `div` 16) = (2, 4).
Proof.
  split; [|split; reflexivity].
  eexists. split; [vm_compute; reflexivity|].
  split; [reflexivity|]. split; [reflexivity|]. vm_compute. discriminate.
Qed.

(** ** The accumulator of a loop *)

(** For a valid result type the fit test does not overflow. *)
Lemma accumulatorFits_products o s c0 c M N :
  VectorType_valid (resTy o) →
  isAmxCandidate o s c0 = Some (true, c) →
  getDimSize (resTy o) 0 = Some M → getDimSize (resTy o) 1 = Some N →
  accumulatorFits c M N = false
  ↔ tilesInBlockM c * tileM c < M ∨ tilesInBlockN c * tileN c < N.
Proof.
  intros Hvalid Hacc HM HN.
  destruct (isAmxCandidate_descriptor o s c0 c Hvalid Hacc)
    as (M' & N' & K & ty & HM' & HN' & _ & HM1 & HN8 & _ & Hnum & _ & _ & _
        & _ & _ & HtM & HtN & _ & [Hpos Hloop] & _).
  assert (M' = M) as -> by congruence. assert (N' = N) as -> by congruence.
  destruct (while_loop_positive _ _ _ Hloop Hpos)
    as ([HbM HbN] & HleM & HleN & _). cbn in HbM, HbN, HleM, HleN.
  assert (M `div` Z.min M 16 * Z.min M 16 ≤ M
          ∧ N `div` Z.min N 16 * Z.min N 16 ≤ N) as [HqM HqN].
  { split.
    - pose proof (Z.mul_div_le M (Z.min M 16) ltac:(lia)). lia.
    - pose proof (Z.mul_div_le N (Z.min N 16) ltac:(lia)). lia. }
  unfold accumulatorFits. rewrite !mul_in_range.
  - destruct (Z.ltb_spec (tilesInBlockM c * tileM c) M),
             (Z.ltb_spec (tilesInBlockN c * tileN c) N); cbn;
      intuition (done || lia).
  - rewrite HtN. unfold Int64.in_range, Int64.min_signed, Int64.max_signed in *.
    nia.
  - rewrite HtM. unfold Int64.in_range, Int64.min_signed, Int64.max_signed in *.
    nia.
Qed.

(** C5: for an accepted operation with a loop-carried accumulator the
    analysis keeps the accumulator on tiles when it fits into one block,
    and in a buffer when [tilesInBlockM * tileM < M] or
    [tilesInBlockN * tileN < N]; without a loop-carried accumulator both
    flags are off; the two flags are never both on.  The descriptor passed
    in is a fresh one, whose [keepAccInBuf] is off. *)
Theorem isAmxCandidate_accumulator_flags :
  ∀ (o : DotOp) (s : Support) (c0 c : AmxDotOpCandidate),
    VectorType_valid (resTy o) →
    keepAccInBuf c0 = false →
    isAmxCandidate o s c0 = Some (true, c) →
    ∃ M N,
      getDimSize (resTy o) 0 = Some M ∧ getDimSize (resTy o) 1 = Some N
      ∧ (isLoopCarriedAcc o = true →
         (tilesInBlockM c * tileM c < M ∨ tilesInBlockN c * tileN c < N →
          keepAccOnTiles c = false ∧ keepAccInBuf c = true)
         ∧ (¬ (tilesInBlockM c * tileM c < M ∨ tilesInBlockN c * tileN c < N) →
            keepAccOnTiles c = true ∧ keepAccInBuf c = false))
      ∧ (isLoopCarriedAcc o = false →
         keepAccOnTiles c = false ∧ keepAccInBuf c = false)
      ∧ ¬ (keepAccOnTiles c = true ∧ keepAccInBuf c = true).
Proof.
  intros o s c0 c Hvalid Hfresh Hacc.
  destruct (isAmxCandidate_descriptor o s c0 c Hvalid Hacc)
    as (M & N & K & ty & HM & HN & _ & _ & _ & _ & _ & _ & _ & _
        & _ & _ & _ & _ & _ & _ & Hon & Hbuf).
  pose proof (accumulatorFits_products o s c0 c M N Hvalid Hacc HM HN) as Hfit.
  exists M, N. split; [done|]. split; [done|].
  rewrite Hon, Hbuf, Hfresh.
  destruct (accumulatorFits c M N).
  - assert (¬ (tilesInBlockM c * tileM c < M
               ∨ tilesInBlockN c * tileN c < N)) as Hsmall
      by (intros Hbig%Hfit; done).
    destruct (isLoopCarriedAcc o); cbn; intuition done.
  - assert (tilesInBlockM c * tileM c < M
            ∨ tilesInBlockN c * tileN c < N) as Hbig by by apply Hfit.
    destruct (isLoopCarriedAcc o); cbn; intuition done.
Qed.

Lemma isAmxCandidate_accumulator_flags_witness :
  let c := analysed scenarioD allSupported in
  ∃ M N,
    getDimSize (resTy scenarioD) 0 = Some M
    ∧ getDimSize (resTy scenarioD) 1 = Some N
    ∧ (isLoopCarriedAcc scenarioD = true →
       (tilesInBlockM c * tileM c < M ∨ tilesInBlockN c * tileN c < N →
        keepAccOnTiles c = false ∧ keepAccInBuf c = true)
       ∧ (¬ (tilesInBlockM c * tileM c < M ∨ tilesInBlockN c * tileN c < N) →
          keepAccOnTiles c = true ∧ keepAccInBuf c = false))
    ∧ (isLoopCarriedAcc scenarioD = false →
       keepAccOnTiles c = false ∧ keepAccInBuf c = false)
    ∧ ¬ (keepAccOnTiles c = true ∧ keepAccInBuf c = true).
Proof.
  apply (isAmxCandidate_accumulator_flags scenarioD allSupported
           freshCandidate).
  - apply vector_valid; [lia|lia|]. vm_compute. discriminate.
  - reflexivity.
  - vm_compute. reflexivity.
Defined.

(** C10: for [M ≥ 8] and [N ≥ 8] the halving loop of the planner
    terminates.  It runs some number [k] of iterations; before each of them
    the product of the extents is above 4 and the iteration makes it
    strictly smaller; after the last one the loop condition fails, and both
    extents, which the planner stores as [tilesInBlockM] and
    [tilesInBlockN], are at least 1. *)
Theorem setupBlockAndTileSizes_loop_terminates :
  ∀ M N : Z,
    8 ≤ M ≤ Int64.max_signed → 8 ≤ N ≤ Int64.max_signed →
    let s0 := (M `div` Z.min M 16, N `div` Z.min N 16) in
    ∃ k : nat,
      let final := Nat.iter k loop_body s0 in
      (∀ i, (i < k)%nat →
            let s := Nat.iter i loop_body s0 in
            loop_cond s = true ∧ 4 < s.1 * s.2
            ∧ (loop_body s).1 * (loop_body s).2 < s.1 * s.2)
      ∧ loop_cond final = false
      ∧ while_loop (loop_fuel s0) s0 = Some final
      ∧ 1 ≤ final.1 ∧ 1 ≤ final.2
      ∧ ∀ lhsShape K candidate ty,
          lhsShape !! 1%nat = Some K →
          lhsTileElemTy candidate = Some ty →
          getIntOrFloatBitWidth ty = 8 ∨ getIntOrFloatBitWidth ty = 16 →
          ∃ c, setupBlockAndTileSizes lhsShape [M; N] candidate = Some c
               ∧ tilesInBlockM c = final.1 ∧ tilesInBlockN c = final.2.
Proof.
  intros M N HM HN s0.
  assert (positive_blocks s0) as Hpos.
  { split; cbn; apply Z.div_le_lower_bound; lia. }
  destruct (while_loop_terminates (loop_fuel s0) s0 ltac:(lia))
    as (blocks & Hloop & _).
  destruct (while_loop_iterates _ _ _ Hloop) as (k & -> & Hexit & Hrun).
  exists k. cbn zeta. split; [|split; [done|split; [done|]]].
  - intros i Hi.
    destruct (iter_loop_body_positive i s0 Hpos) as (Hi' & _).
    { intros j Hj. apply Hrun. lia. }
    destruct (loop_body_positive _ Hi' (Hrun i Hi)) as (_ & ? & ? & _).
    split; [by apply Hrun|done].
  - destruct (iter_loop_body_positive k s0 Hpos Hrun) as ([? ?] & _).
    split; [done|]. split; [done|].
    intros lhsShape K candidate ty HK Hty Hbw.
    destruct (setupBlockAndTileSizes_result lhsShape [M; N] candidate M N K ty)
      as (blocks & Hloop' & _ & Hres); try (done || lia).
    fold s0 in Hloop'. rewrite Hloop in Hloop'. injection Hloop' as <-.
    eexists. split; [exact Hres|]. done.
Qed.

Lemma setupBlockAndTileSizes_loop_terminates_witness :
  let s0 := (64 `div` Z.min 64 16, 64 `div` Z.min 64 16) in
  ∃ k : nat,
    let final := Nat.iter k loop_body s0 in
    (∀ i, (i < k)%nat →
          let s := Nat.iter i loop_body s0 in
          loop_cond s = true ∧ 4 < s.1 * s.2
          ∧ (loop_body s).1 * (loop_body s).2 < s.1 * s.2)
    ∧ loop_cond final = false
    ∧ while_loop (loop_fuel s0) s0 = Some final
    ∧ 1 ≤ final.1 ∧ 1 ≤ final.2
    ∧ ∀ lhsShape K candidate ty,
        lhsShape !! 1%nat = Some K →
        lhsTileElemTy candidate = Some ty →
        getIntOrFloatBitWidth ty = 8 ∨ getIntOrFloatBitWidth ty = 16 →
        ∃ c, setupBlockAndTileSizes lhsShape [64; 64] candidate = Some c
             ∧ tilesInBlockM c = final.1 ∧ tilesInBlockN c = final.2.
Proof.
  apply (setupBlockAndTileSizes_loop_terminates 64 64).
  - vm_compute. split; discriminate.
  - vm_compute. split; discriminate.
Defined.

(** ** The pass with every capability disabled *)

(** Independently of the early return of [runOnOperation], the analysis
    accepts nothing when no capability is enabled. *)
Lemma collectCandidates_none_supported uninitialized s dots cs :
  supportInt8 s = false → supportFp16 s = false → supportBf16 s = false →
  collectCandidates uninitialized s dots = Some cs → cs = [].
Proof.
  intros Hi Hf Hb. revert cs. induction dots as [|o dots IH]; intros cs.
  - by intros [= <-].
  - cbn [collectCandidates]. unfold isAmxCandidate.
    pose proof (checkElemTypes_none_supported
                  (getElementType (lhsTy o)) (getElementType (rhsTy o))
                  (getElementType (accTy o)) (getElementType (resTy o)) s
                  (AmxDotOpCandidate_init uninitialized uninitialized
                     uninitialized uninitialized uninitialized) Hi Hf Hb)
      as Hrej.
    destruct (checkElemTypes _ _ _ _ _ _) as [ok c1]. cbn in Hrej. subst ok.
    cbn [negb mbind option_bind].
    destruct (collectCandidates uninitialized s dots) as [rest|]; [|done].
    cbn [mbind option_bind]. intros [= <-]. by apply IH.
Qed.

(** C9: with the three capabilities disabled the pass returns at once: it
    collects no candidate, and the rewriter has created, replaced and
    erased nothing. *)
Theorem runOnOperation_all_disabled :
  ∀ (getPackedLayoutType : TileType → TileType)
    (allocateTmpBufferStack : VectorType → MemBuffer)
    (prepareTensorBuffers : AmxDotOpCandidate → Buffers)
    (uninitialized : Z) (s : Support) (dots : list DotOp)
    (st : RewriterState),
    supportInt8 s = false → supportFp16 s = false → supportBf16 s = false →
    runOnOperation getPackedLayoutType allocateTmpBufferStack
                   prepareTensorBuffers uninitialized s dots st
    = Some ([], st).
Proof.
  intros ? ? ? ? s dots st Hi Hf Hb. unfold runOnOperation.
  by rewrite Hi, Hf, Hb.
Qed.

Lemma runOnOperation_all_disabled_witness :
  runOnOperation (λ ty, ty) (λ _, MemBuffer_none)
                 (λ _, {| lhsBuf := MemBuffer_none; rhsBuf := MemBuffer_none;
                          accBuf := MemBuffer_none |})
                 0 noneSupported [scenarioA; scenarioD]
                 {| nextValue := 0%nat; events := [] |}
  = Some ([], {| nextValue := 0%nat; events := [] |}).
Proof.
  apply runOnOperation_all_disabled; reflexivity.
Defined.

(** ** Operand packing *)

Section InterleaveProperties.

Context {A : Type}.
Implicit Types a b : list A.
Implicit Types val buf : list (list A).

Lemma length_op_interleave a b :
  length a = length b → length (op_interleave a b) = (2 * length a)%nat.
Proof.
  revert b. induction a as [|x a IH]; intros [|y b]; cbn; try done.
  intros [= H]. rewrite (IH b H). lia.
Qed.

Lemma deinterleave_op_interleave a b :
  length a = length b → deinterleave (op_interleave a b) = (a, b).
Proof.
  revert b. induction a as [|x a IH]; intros [|y b]; cbn; try done.
  intros [= H]. by rewrite (IH b H).
Qed.

Lemma op_interleave_Permutation a b :
  length a = length b → op_interleave a b ≡ₚ a ++ b.
Proof.
  revert b. induction a as [|x a IH]; intros [|y b]; cbn; try done.
  intros [= H]. rewrite (IH b H). constructor. by rewrite Permutation_middle.
Qed.

Lemma lookup_op_interleave a b c :
  length a = length b →
  op_interleave a b !! (2 * c)%nat = a !! c
  ∧ op_interleave a b !! (2 * c + 1)%nat = b !! c.
Proof.
  revert b c. induction a as [|x a IH]; intros [|y b] c Hlen; try done.
  injection Hlen as H. destruct c as [|c]; [done|].
  replace (2 * S c)%nat with (S (S (2 * c))) by lia.
  replace (S (S (2 * c)) + 1)%nat with (S (S (2 * c + 1))) by lia.
  cbn -[Nat.mul Nat.add]. by apply IH.
Qed.

Lemma lookup_chunk {B} (r j k : nat) (l : list B) :
  (k < r)%nat → chunk r j l !! k = l !! (r * j + k)%nat.
Proof. intros Hk. unfold chunk. by rewrite lookup_take_lt, lookup_drop. Qed.

Lemma length_chunk {B} (r j : nat) (l : list B) :
  (r * S j ≤ length l)%nat → length (chunk r j l) = r.
Proof. intros Hl. unfold chunk. rewrite length_take, length_drop. lia. Qed.

Lemma concat_chunks {B} (r G : nat) (l : list B) :
  length l = (r * G)%nat → concat ((λ j, chunk r j l) <$> seq 0 G) = l.
Proof.
  revert l. induction G as [|G IH]; intros l Hl.
  - cbn. destruct l; [done|]. cbn in Hl. lia.
  - cbn [seq fmap list_fmap concat]. rewrite <- fmap_S_seq, <- list_fmap_compose.
    transitivity (take r l ++ drop r l); [|apply take_drop]. f_equal.
    + unfold chunk. by rewrite Nat.mul_0_r.
    + rewrite <- (IH (drop r l)) by (rewrite length_drop; lia).
      f_equal. apply list_fmap_ext. intros _ j _. unfold chunk. cbn.
      rewrite drop_drop. do 2 f_equal. lia.
Qed.

(** A group of rows of a rectangular matrix. *)
Lemma chunk_rows (r j cols : nat) val :
  (r * S j ≤ length val)%nat → Forall (λ row, length row = cols) val →
  length (chunk r j val) = r
  ∧ Forall (λ row, length row = cols) (chunk r j val)
  ∧ ∀ k, (k < r)%nat → val !! (r * j + k)%nat = chunk r j val !! k.
Proof.
  intros Hl Hrect. split; [by apply length_chunk|]. split.
  - unfold chunk. by apply Forall_take, Forall_drop.
  - intros k Hk. by rewrite lookup_chunk.
Qed.

Lemma op_extract_lookup val (i : nat) :
  op_extract val (Z.of_nat i) = val !! i.
Proof.
  unfold op_extract. destruct (Z.ltb_spec (Z.of_nat i) 0); [lia|].
  by rewrite Nat2Z.id.
Qed.

(** The shuffle of the [j]-th group of two or four rows. *)
Lemma shuffleGroup_chunk (r j cols : nat) val :
  r = 2%nat ∨ r = 4%nat →
  (r * S j ≤ length val)%nat → Forall (λ row, length row = cols) val →
  shuffleGroup (Z.of_nat r) val (Z.of_nat j * Z.of_nat r)
    = Some (packChunk (chunk r j val))
  ∧ length (packChunk (chunk r j val)) = (r * cols)%nat
  ∧ unpackRow (Z.of_nat r) (packChunk (chunk r j val)) = chunk r j val
  ∧ packChunk (chunk r j val) ≡ₚ concat (chunk r j val)
  ∧ ∀ k c, (k < r)%nat →
           packChunk (chunk r j val) !! (c * r + k)%nat
           = val !! (r * j + k)%nat ≫= (.!! c).
Proof.
  intros Hr Hl Hrect.
  destruct (chunk_rows r j cols val Hl Hrect) as (Hlen & Hcols & Hlook).
  unfold shuffleGroup.
  replace (Z.of_nat j * Z.of_nat r) with (Z.of_nat (r * j)) by lia.
  destruct Hr as [-> | ->].
  - destruct (chunk 2 j val) as [|r0 [|r1 [|? ?]]] eqn:Hchunk; try done.
    apply Forall_cons in Hcols as [H0 Hcols].
    apply Forall_cons in Hcols as [H1 _].
    change (Z.of_nat 2 =? 2) with true. cbn match.
    replace (Z.of_nat (2 * j) + 1) with (Z.of_nat (2 * j + 1)) by lia.
    rewrite !op_extract_lookup.
    replace (val !! (2 * j)%nat) with (val !! (2 * j + 0)%nat)
      by (f_equal; lia).
    rewrite !Hlook by lia. cbn.
    split; [done|]. split; [rewrite length_op_interleave; lia|].
    split.
    { unfold unpackRow. cbn.
      by rewrite deinterleave_op_interleave by congruence. }
    split.
    { rewrite app_nil_r. apply op_interleave_Permutation. congruence. }
    intros k c Hk. rewrite Hlook by lia.
    destruct (lookup_op_interleave r0 r1 c ltac:(congruence)) as [He Ho].
    rewrite (Nat.mul_comm c 2).
    destruct k as [|[|k]]; [| |lia].
    + by rewrite Nat.add_0_r, He.
    + by rewrite Ho.
  - destruct (chunk 4 j val) as [|r0 [|r1 [|r2 [|r3 [|? ?]]]]] eqn:Hchunk;
      try done.
    apply Forall_cons in Hcols as [H0 Hcols].
    apply Forall_cons in Hcols as [H1 Hcols].
    apply Forall_cons in Hcols as [H2 Hcols].
    apply Forall_cons in Hcols as [H3 _].
    change (Z.of_nat 4 =? 2) with false. cbn match.
    replace (Z.of_nat (4 * j) + 1) with (Z.of_nat (4 * j + 1)) by lia.
    replace (Z.of_nat (4 * j) + 2) with (Z.of_nat (4 * j + 2)) by lia.
    replace (Z.of_nat (4 * j) + 3) with (Z.of_nat (4 * j + 3)) by lia.
    rewrite !op_extract_lookup.
    replace (val !! (4 * j)%nat) with (val !! (4 * j + 0)%nat)
      by (f_equal; lia).
    rewrite !Hlook by lia. cbn.
    assert (length (op_interleave r0 r2) = length (op_interleave r1 r3))
      as Hhalves by (rewrite !length_op_interleave; congruence).
    split; [done|].
    split; [rewrite !length_op_interleave by congruence; lia|].
    split.
    { unfold unpackRow. cbn.
      rewrite (deinterleave_op_interleave _ _ Hhalves). cbn.
      by rewrite !deinterleave_op_interleave by congruence. }
    split.
    { rewrite app_nil_r, (op_interleave_Permutation _ _ Hhalves).
      rewrite !op_interleave_Permutation by congruence.
      rewrite <- !(assoc app). apply Permutation_app_head.
      rewrite !(assoc app). apply Permutation_app_tail, Permutation_app_comm. }
    intros k c Hk. rewrite Hlook by lia.
    destruct (lookup_op_interleave r0 r2 c ltac:(congruence)) as [He02 Ho02].
    destruct (lookup_op_interleave r1 r3 c ltac:(congruence)) as [He13 Ho13].
    destruct (lookup_op_interleave _ _ (2 * c) Hhalves) as [He Ho].
    destruct (lookup_op_interleave _ _ (2 * c + 1) Hhalves) as [He' Ho'].
    destruct k as [|[|[|[|k]]]]; [| | | |lia].
    + replace (c * 4 + 0)%nat with (2 * (2 * c))%nat by lia.
      by rewrite He, He02.
    + replace (c * 4 + 1)%nat with (2 * (2 * c) + 1)%nat by lia.
      by rewrite Ho, He13.
    + replace (c * 4 + 2)%nat with (2 * (2 * c + 1))%nat by lia.
      by rewrite He', Ho02.
    + replace (c * 4 + 3)%nat with (2 * (2 * c + 1) + 1)%nat by lia.
      by rewrite Ho', Ho13.
Qed.

Lemma op_store_row (row : list A) buf (j : nat) old :
  buf !! j = Some old → length old = length row →
  op_store row buf (Z.of_nat j) = Some (<[j := row]> buf).
Proof.
  intros Hold Hlen. unfold op_store.
  destruct (Z.ltb_spec (Z.of_nat j) 0); [lia|].
  rewrite Nat2Z.id, Hold. cbn [mbind option_bind].
  destruct (Nat.ltb_spec (length old) (length row)); [lia|].
  rewrite drop_ge by lia. by rewrite app_nil_r.
Qed.

(** The loop of [interleaveAndStore] over the groups [js]: every group
    lands, shuffled, in its row of the buffer. *)
Lemma interleaveGroups_rows (r cols : nat) val (js : list nat) buf :
  r = 2%nat ∨ r = 4%nat →
  Forall (λ row, length row = cols) val →
  Forall (λ j, (r * S j ≤ length val)%nat ∧ (j < length buf)%nat) js →
  Forall (λ row, length row = (r * cols)%nat) buf →
  ∃ buf',
    interleaveGroups (Z.of_nat r) val
      ((λ j : nat, Z.of_nat j * Z.of_nat r) <$> js) buf = Some buf'
    ∧ length buf' = length buf
    ∧ (∀ j, j ∈ js → buf' !! j = Some (packChunk (chunk r j val)))
    ∧ (∀ j, j ∉ js → buf' !! j = buf !! j).
Proof.
  intros Hr Hrect Hjs. revert buf Hjs.
  induction js as [|j js IH]; intros buf Hjs Hbuf.
  - exists buf. split; [done|]. split; [done|]. split; [|done].
    intros j Hj. by apply elem_of_nil in Hj.
  - apply Forall_cons in Hjs as [[Hj Hjbuf] Hjs].
    destruct (shuffleGroup_chunk r j cols val Hr Hj Hrect)
      as (Hshuffle & Hlen & _).
    destruct (lookup_lt_is_Some_2 buf j Hjbuf) as [old Hold].
    assert (length old = (r * cols)%nat) as Hold_len.
    { exact (Forall_lookup_1 _ _ _ _ Hbuf Hold). }
    cbn [fmap list_fmap interleaveGroups]. rewrite Hshuffle.
    cbn [mbind option_bind].
    rewrite Z.quot_mul by lia.
    rewrite (op_store_row _ _ _ old Hold) by congruence.
    cbn [mbind option_bind].
    destruct (IH (<[j := packChunk (chunk r j val)]> buf))
      as (buf' & Hrun & Hlen' & Hin & Hout).
    { eapply Forall_impl; [exact Hjs|]. intros j' [? ?].
      by rewrite length_insert. }
    { apply Forall_insert; done. }
    exists buf'. split; [exact Hrun|]. split.
    { by rewrite Hlen', length_insert. }
    split.
    + intros j' [->|Hj']%elem_of_cons; [|by apply Hin].
      destruct (decide (j ∈ js)) as [Hjin|Hjout]; [by apply Hin|].
      rewrite (Hout j Hjout). by apply list_lookup_insert_eq.
    + intros j' Hj'%not_elem_of_cons. destruct Hj' as [Hne Hj'].
      rewrite (Hout j' Hj'). by apply list_lookup_insert_ne.
Qed.

Lemma steppedRange_groups (r G : nat) :
  (0 < r)%nat →
  steppedRange (Z.of_nat (r * G)) (Z.of_nat r)
  = (λ j : nat, Z.of_nat j * Z.of_nat r) <$> seq 0 G.
Proof.
  intros Hr. unfold steppedRange, seqZ.
  replace ((Z.of_nat (r * G) + Z.of_nat r - 1) `div` Z.of_nat r)
    with (Z.of_nat G).
  - rewrite Nat2Z.id, <- list_fmap_compose. apply list_fmap_ext.
    intros _ j _. cbn. by rewrite Z.add_0_r.
  - apply Z.div_unique with (Z.of_nat r - 1); lia.
Qed.

End InterleaveProperties.

(** C6: packing is a lossless permutation.  For elements of 8 or 16 bits
    (four or two rows per group), a rectangular matrix whose row count is a
    multiple of the group size and a buffer with one row per group of the
    packed width, [interleaveAndStore] succeeds; unpacking the rows of the
    buffer gives back the matrix, row by row; the packed elements are a
    permutation of the elements of the matrix; and the lane at column [c]
    of packed row [g] holds, in order, the elements at column [c] of the
    rows of group [g]. *)
Theorem interleaveAndStore_lossless :
  ∀ (A : Type) (bitWidth : Z) (val buf : list (list A)) (cols groups : nat),
    bitWidth = 8 ∨ bitWidth = 16 →
    let rowsPerGroup := Z.to_nat (32 `div` bitWidth) in
    length val = (rowsPerGroup * groups)%nat →
    Forall (λ row, length row = cols) val →
    length buf = groups →
    Forall (λ row, length row = (rowsPerGroup * cols)%nat) buf →
    ∃ packed,
      interleaveAndStore bitWidth val buf = Some packed
      ∧ unpackRows (32 `div` bitWidth) packed = val
      ∧ concat packed ≡ₚ concat val
      ∧ ∀ g k c, (k < rowsPerGroup)%nat →
                 packed !! g ≫= (.!! (c * rowsPerGroup + k)%nat)
                 = val !! (rowsPerGroup * g + k)%nat ≫= (.!! c).
Proof.
  intros A bitWidth val buf cols groups Hbw r Hval Hrect Hbuf Hwidth.
  assert (r = 2%nat ∨ r = 4%nat) as Hr
    by (subst r; destruct Hbw as [-> | ->]; auto).
  assert (32 `div` bitWidth = Z.of_nat r ∧ Int64.div 32 bitWidth
          = Some (Z.of_nat r)) as [Hrpg Hdiv]
    by (subst r; destruct Hbw as [-> | ->]; done).
  destruct (interleaveGroups_rows r cols val (seq 0 groups) buf Hr Hrect)
    as (packed & Hrun & Hlen & Hin & _); [|done|].
  { apply Forall_forall. intros j Hj%elem_of_seq. nia. }
  assert (packed = (λ j, packChunk (chunk r j val)) <$> seq 0 groups)
    as Hpacked.
  { apply list_eq. intros j. rewrite list_lookup_fmap.
    destruct (decide (j < groups)%nat) as [Hj|Hj].
    - rewrite lookup_seq_lt by done. apply Hin, elem_of_seq. lia.
    - rewrite lookup_seq_ge by lia. apply lookup_ge_None. lia. }
  assert (∀ j, (j < groups)%nat → (r * S j ≤ length val)%nat) as Hgroup
    by (intros; nia).
  exists packed. split; [|split; [|split]].
  - unfold interleaveAndStore. rewrite Hdiv. cbn [mbind option_bind].
    assert ((Z.of_nat r =? 2) || (Z.of_nat r =? 4) = true) as ->
      by (destruct Hr as [-> | ->]; done).
    rewrite Hval, Nat2Z.inj_mul, Z.mul_comm, Z.rem_mul by lia. cbn [negb].
    change (0 =? 0) with true. cbn [negb].
    rewrite Z.mul_comm, <- Nat2Z.inj_mul, steppedRange_groups by lia.
    exact Hrun.
  - rewrite Hrpg, Hpacked. unfold unpackRows.
    rewrite <- list_fmap_compose.
    transitivity (concat ((λ j, chunk r j val) <$> seq 0 groups));
      [|by apply concat_chunks].
    f_equal. apply list_fmap_ext. intros i j Hj. cbn.
    apply lookup_seq in Hj as [-> Hj].
    by destruct (shuffleGroup_chunk r i cols val Hr (Hgroup i Hj) Hrect)
      as (_ & _ & ? & _).
  - rewrite Hpacked.
    transitivity (concat (concat ((λ j, chunk r j val) <$> seq 0 groups)));
      [|by rewrite concat_chunks].
    assert (∀ js, Forall (λ j, (j < groups)%nat) js →
                  concat ((λ j, packChunk (chunk r j val)) <$> js)
                  ≡ₚ concat (concat ((λ j, chunk r j val) <$> js))) as Hperm.
    { induction 1 as [|j js Hj _ IH]; [done|]. cbn.
      rewrite concat_app. apply Permutation_app; [|done].
      by destruct (shuffleGroup_chunk r j cols val Hr (Hgroup j Hj) Hrect)
        as (_ & _ & _ & ? & _). }
    apply Hperm, Forall_forall. intros j Hj%elem_of_seq. lia.
  - intros g k c Hk. destruct (decide (g < groups)%nat) as [Hg|Hg].
    + rewrite (Hin g) by (apply elem_of_seq; lia). cbn [mbind option_bind].
      destruct (shuffleGroup_chunk r g cols val Hr (Hgroup g Hg) Hrect)
        as (_ & _ & _ & _ & Hlane).
      by apply Hlane.
    + rewrite (lookup_ge_None_2 packed g) by lia.
      rewrite (lookup_ge_None_2 val) by nia. done.
Qed.

Lemma interleaveAndStore_lossless_witness :
  let val := [[1; 2; 3]; [4; 5; 6]; [7; 8; 9]; [10; 11; 12]] in
  ∃ packed,
    interleaveAndStore 8 val [replicate 12 0] = Some packed
    ∧ unpackRows (32 `div` 8) packed = val
    ∧ concat packed ≡ₚ concat val
    ∧ ∀ g k c, (k < 4)%nat →
               packed !! g ≫= (.!! (c * 4 + k)%nat)
               = val !! (4 * g + k)%nat ≫= (.!! c).
Proof.
  apply (interleaveAndStore_lossless Z 8 _ [replicate 12 0] 3 1).
  - by left.
  - reflexivity.
  - repeat constructor.
  - reflexivity.
  - repeat constructor.
Defined.

(** ** Reasoning about rewriter code *)

Lemma runs_ret {A} (a : A) st (Q : A → list Event → Prop) :
  Q a [] → runs (ret a) st Q.
Proof. intros HQ. exists a, st, []. by rewrite app_nil_r. Qed.

Lemma runs_bind {A B} (m : Rewriter A) (k : A → Rewriter B) st
  (P : A → list Event → Prop) (Q : B → list Event → Prop) :
  runs m st P →
  (∀ a evs st', P a evs → runs (k a) st' (λ b evs', Q b (evs ++ evs'))) →
  runs (bind m k) st Q.
Proof.
  intros (a & st1 & evs1 & Hm & Hev1 & HP) Hk.
  destruct (Hk a evs1 st1 HP) as (b & st2 & evs2 & Hka & Hev2 & HQ).
  exists b, st2, (evs1 ++ evs2). unfold bind. rewrite Hm.
  split; [done|]. split; [|done]. by rewrite Hev2, Hev1, (assoc app).
Qed.

Lemma runs_consequence {A} (m : Rewriter A) st
  (P Q : A → list Event → Prop) :
  runs m st P → (∀ a evs, P a evs → Q a evs) → runs m st Q.
Proof. intros (a & st' & evs & ? & ? & ?) HPQ. exists a, st', evs. auto. Qed.

Lemma runs_lift {A} (o : option A) a st (Q : A → list Event → Prop) :
  o = Some a → Q a [] → runs (lift o) st Q.
Proof. intros -> HQ. exists a, st, []. by rewrite app_nil_r. Qed.

Lemma runs_emit e st (Q : unit → list Event → Prop) :
  Q tt [e] → runs (emit e) st Q.
Proof. intros HQ. by eexists tt, _, [e]. Qed.

Lemma runs_fresh n st (Q : Value → list Event → Prop) :
  (∀ v, Q v []) → runs (fresh n) st Q.
Proof. intros HQ. eexists _, _, []. cbn. by rewrite app_nil_r. Qed.

Lemma runs_create mk st (Q : Value → list Event → Prop) :
  (∀ v, Q v [Create (mk v)]) → runs (create mk) st Q.
Proof. intros HQ. by eexists _, _, [Create (mk _)]. Qed.

(** A loop with an invariant [I] on the number of iterations done, the
    local variables and the events of the loop so far. *)
Lemma runs_forEach {A S} (l : list A) (body : A → S → Rewriter S) (s : S) st
  (I : nat → S → list Event → Prop) :
  I 0%nat s [] →
  (∀ i x s evs st,
     l !! i = Some x → I i s evs →
     runs (body x s) st (λ s' evs', I (Datatypes.S i) s' (evs ++ evs'))) →
  runs (forEach l body s) st (λ s' evs, I (length l) s' evs).
Proof.
  revert s st I. induction l as [|x l IH]; intros s st I H0 Hbody.
  - by apply runs_ret.
  - cbn [forEach]. eapply runs_bind.
    + apply (Hbody 0%nat x s [] st); done.
    + intros s1 evs1 st1 H1. cbn in H1.
      apply (IH s1 st1 (λ i s' evs, I (Datatypes.S i) s' (evs1 ++ evs))).
      * by rewrite app_nil_r.
      * intros i y s2 evs2 st2 Hy H2. cbn.
        eapply runs_consequence; [apply (Hbody (Datatypes.S i) y); done|].
        intros s3 evs3 H3. cbn in H3. by rewrite (assoc app).
Qed.

Lemma runs_forZ {S} (n : Z) (body : Z → S → Rewriter S) (s : S) st
  (I : nat → S → list Event → Prop) :
  I 0%nat s [] →
  (∀ (i : nat) s evs st,
     Z.of_nat i < n → I i s evs →
     runs (body (Z.of_nat i) s) st
          (λ s' evs', I (Datatypes.S i) s' (evs ++ evs'))) →
  runs (forZ n body s) st (λ s' evs, I (Z.to_nat n) s' evs).
Proof.
  intros H0 Hbody. unfold forZ.
  eapply runs_consequence.
  - apply (runs_forEach (seqZ 0 n) body s st I H0).
    intros i x s1 evs1 st1 [-> Hi]%lookup_seqZ H1. by apply Hbody.
  - intros s' evs. by rewrite length_seqZ.
Qed.

(** ** Counting multiplications *)

Lemma mulCount_app evs1 evs2 :
  mulCount (evs1 ++ evs2) = (mulCount evs1 + mulCount evs2)%nat.
Proof. induction evs1 as [|e evs1 IH]; cbn; [done|]. rewrite IH. lia. Qed.

Lemma multiplications_nil isInt : multiplications isInt 0 [].
Proof. by split. Qed.

Lemma multiplications_app isInt n1 n2 evs1 evs2 :
  multiplications isInt n1 evs1 → multiplications isInt n2 evs2 →
  multiplications isInt (n1 + n2) (evs1 ++ evs2).
Proof.
  intros [<- H1] [<- H2]. split; [apply mulCount_app|by apply Forall_app].
Qed.

Lemma multiplications_other isInt e :
  isMul e = false → multiplications isInt 0 [e].
Proof.
  intros He. split; [cbn; by rewrite He|].
  constructor; [|done]. by destruct e as [[]| | | | | | |].
Qed.

Lemma multiplications_mul (isInt : bool) ty res lhs rhs acc :
  multiplications isInt 1
    [Create (if isInt then TileMulIOp res ty lhs rhs acc
             else TileMulFOp res ty lhs rhs acc)].
Proof. destruct isInt; (split; [done|by constructor]). Qed.

(** The rules for postconditions [R a ∧ F n evs], where [F] is a family
    of properties of event lists that is additive: it holds of no events at
    zero, and of a concatenation at the sum. *)

Lemma runs_bind_lift {A B} (o : option A) a (k : A → Rewriter B) st
  (Q : B → list Event → Prop) :
  o = Some a → runs (k a) st Q → runs (bind (lift o) k) st Q.
Proof. intros -> Hk. exact Hk. Qed.

Section Additive.

Variable F : nat → list Event → Prop.
Hypothesis F_nil : F 0%nat [].
Hypothesis F_app :
  ∀ n1 n2 evs1 evs2, F n1 evs1 → F n2 evs2 → F (n1 + n2)%nat (evs1 ++ evs2).

Lemma runs_bind_additive {A B} (m : Rewriter A) (k : A → Rewriter B) st
  n1 n2 (R1 : A → Prop) (R2 : B → Prop) :
  runs m st (λ a evs, R1 a ∧ F n1 evs) →
  (∀ a st', R1 a → runs (k a) st' (λ b evs, R2 b ∧ F n2 evs)) →
  runs (bind m k) st (λ b evs, R2 b ∧ F (n1 + n2)%nat evs).
Proof using F_app.
  intros Hm Hk. eapply runs_bind; [exact Hm|].
  intros a evs st' [HR1 Hevs]. cbn.
  eapply runs_consequence; [by apply Hk|].
  intros b evs' [HR2 Hevs']. split; [done|]. by apply F_app.
Qed.

Lemma runs_forZ_additive {S} (n : Z) (body : Z → S → Rewriter S) (s : S) st
  (c : nat) (R : nat → S → Prop) :
  R 0%nat s →
  (∀ (i : nat) s st,
     Z.of_nat i < n → R i s →
     runs (body (Z.of_nat i) s) st
          (λ s' evs, R (Datatypes.S i) s' ∧ F c evs)) →
  runs (forZ n body s) st
       (λ s' evs, R (Z.to_nat n) s' ∧ F (Z.to_nat n * c)%nat evs).
Proof using F_nil F_app.
  intros H0 Hbody.
  apply (runs_forZ n body s st (λ i s' evs, R i s' ∧ F (i * c)%nat evs)).
  - by split.
  - intros i s1 evs1 st1 Hi [HR Hevs]. cbn.
    eapply runs_consequence; [by apply Hbody|].
    intros s2 evs2 [HR2 Hevs2]. split; [done|].
    replace (c + i * c)%nat with (i * c + c)%nat by lia.
    by apply F_app.
Qed.

End Additive.

Lemma runs_bind_mul {A B} (m : Rewriter A) (k : A → Rewriter B) st isInt
  n1 n2 (R1 : A → Prop) (R2 : B → Prop) :
  runs m st (λ a evs, R1 a ∧ multiplications isInt n1 evs) →
  (∀ a st', R1 a →
            runs (k a) st' (λ b evs, R2 b ∧ multiplications isInt n2 evs)) →
  runs (bind m k) st
       (λ b evs, R2 b ∧ multiplications isInt (n1 + n2) evs).
Proof.
  apply (runs_bind_additive (multiplications isInt)).
  apply multiplications_app.
Qed.

Lemma runs_forZ_mul {S} (n : Z) (body : Z → S → Rewriter S) (s : S) st isInt
  (c : nat) (R : nat → S → Prop) :
  R 0%nat s →
  (∀ (i : nat) s st,
     Z.of_nat i < n → R i s →
     runs (body (Z.of_nat i) s) st
          (λ s' evs, R (Datatypes.S i) s' ∧ multiplications isInt c evs)) →
  runs (forZ n body s) st
       (λ s' evs, R (Z.to_nat n) s'
                  ∧ multiplications isInt (Z.to_nat n * c) evs).
Proof.
  apply (runs_forZ_additive (multiplications isInt)).
  - apply multiplications_nil.
  - apply multiplications_app.
Qed.

(** Event lists cut into [k] consecutive segments that satisfy [P]. *)

Lemma segmented_nil P : segmented P 0 [].
Proof. by exists []. Qed.

Lemma segmented_app P k1 k2 evs1 evs2 :
  segmented P k1 evs1 → segmented P k2 evs2 →
  segmented P (k1 + k2) (evs1 ++ evs2).
Proof.
  intros (segs1 & -> & <- & H1) (segs2 & -> & <- & H2).
  exists (segs1 ++ segs2). split; [by rewrite concat_app|].
  split; [by rewrite length_app|by apply Forall_app].
Qed.

Lemma segmented_one (P : list Event → Prop) evs : P evs → segmented P 1 evs.
Proof.
  intros HP. exists [evs]. split; [cbn; by rewrite app_nil_r|].
  split; [done|by constructor].
Qed.

(** ** Blocks of tiles *)

Lemma lengths_lookup (res : list (list Value)) (L : list nat) i j :
  length <$> res = L → L !! i = Some j →
  ∃ row, res !! i = Some row ∧ length row = j.
Proof.
  intros <-. rewrite list_lookup_fmap.
  intros (row & Hrow & ->)%fmap_Some. eauto.
Qed.

Lemma lengths_insert (res : list (list Value)) i row :
  length <$> <[i := row]> res = <[i := length row]> (length <$> res).
Proof. by rewrite list_fmap_insert. Qed.

Lemma insert_middle {B} (l1 l2 : list B) x y :
  <[length l1 := y]> (l1 ++ x :: l2) = l1 ++ y :: l2.
Proof. by rewrite insert_app_r_alt, Nat.sub_diag by lia. Qed.

Lemma tilesShape_lookup tiles m n i :
  tilesShape tiles m n → (i < m)%nat →
  ∃ row, tiles !! i = Some row ∧ length row = n.
Proof.
  intros Hshape Hi. apply (lengths_lookup tiles _ i n Hshape).
  by apply lookup_replicate_2.
Qed.

Lemma getTile_shape tiles m n (i j : nat) :
  tilesShape tiles m n → (i < m)%nat → (j < n)%nat →
  ∃ v, getTile tiles (Z.of_nat i) (Z.of_nat j) = Some v.
Proof.
  intros Hshape Hi Hj.
  destruct (tilesShape_lookup tiles m n i Hshape Hi) as (row & Hrow & Hlen).
  unfold getTile. rewrite !Nat2Z.id, Hrow. cbn.
  apply lookup_lt_is_Some_2. lia.
Qed.

Lemma setTile_shape tiles m n (i j : nat) v :
  tilesShape tiles m n → (i < m)%nat → (j < n)%nat →
  ∃ tiles', setTile tiles (Z.of_nat i) (Z.of_nat j) v = Some tiles'
            ∧ tilesShape tiles' m n.
Proof.
  intros Hshape Hi Hj.
  destruct (tilesShape_lookup tiles m n i Hshape Hi) as (row & Hrow & Hlen).
  unfold setTile. rewrite !Nat2Z.id, Hrow. cbn.
  destruct (lookup_lt_is_Some_2 row j ltac:(lia)) as [old ->]. cbn.
  eexists. split; [done|]. unfold tilesShape in *.
  rewrite lengths_insert, length_insert, Hshape, Hlen.
  apply list_insert_id. by apply lookup_replicate_2.
Qed.

Lemma shiftIndices_usable buf tileTy bm bn blockM blockN tm tn :
  usable buf →
  ∃ idx, shiftIndices (indices buf) tileTy bm bn blockM blockN tm tn
         = Some idx.
Proof.
  intros [_ Hlen]. unfold shiftIndices.
  rewrite <- length_reverse in Hlen.
  destruct (reverse (indices buf)) as [|idxN [|idxM outer]]; cbn in Hlen;
    [lia..|eauto].
Qed.

Lemma usable_not_empty buf : usable buf → MemBuffer_empty buf = false.
Proof. intros [[base Hbase] _]. unfold MemBuffer_empty. by rewrite Hbase. Qed.

Lemma loadTile_runs isInt tileTy buf bm bn blockM blockN tm tn st :
  usable buf →
  runs (loadTile tileTy buf bm bn blockM blockN tm tn) st
       (λ _ evs, True ∧ multiplications isInt 0 evs).
Proof.
  intros Hbuf.
  destruct (shiftIndices_usable buf tileTy bm bn blockM blockN tm tn Hbuf)
    as [idx Hidx].
  destruct Hbuf as [[base Hbase] _]. unfold loadTile.
  eapply runs_bind_lift; [exact Hidx|].
  eapply runs_bind_lift; [exact Hbase|].
  apply runs_create. intros v. split; [done|].
  by apply multiplications_other.
Qed.

Lemma storeTile_runs isInt tileTy val buf bm bn blockM blockN tm tn st :
  usable buf →
  runs (storeTile tileTy val buf bm bn blockM blockN tm tn) st
       (λ _ evs, True ∧ multiplications isInt 0 evs).
Proof.
  intros Hbuf.
  destruct (shiftIndices_usable buf tileTy bm bn blockM blockN tm tn Hbuf)
    as [idx Hidx].
  destruct Hbuf as [[base Hbase] _]. unfold storeTile.
  eapply runs_bind_lift; [exact Hidx|].
  eapply runs_bind_lift; [exact Hbase|].
  apply runs_emit. split; [done|]. by apply multiplications_other.
Qed.

(** [loadBlockTiles] returns a full block and multiplies nothing. *)
Lemma loadBlockTiles_runs isInt tileTy buf bm bn blockM blockN st :
  MemBuffer_empty buf = true ∨ usable buf →
  runs (loadBlockTiles tileTy buf bm bn blockM blockN) st
       (λ tiles evs, tilesShape tiles (Z.to_nat bm) (Z.to_nat bn)
                     ∧ multiplications isInt 0 evs).
Proof.
  intros Hbuf. unfold loadBlockTiles.
  set (m := Z.to_nat bm). set (n := Z.to_nat bn).
  eapply runs_consequence.
  - apply (runs_forZ_mul bm _ _ st isInt 0
             (λ i res,
                length <$> res = replicate i n ++ replicate (m - i) 0%nat)).
    + by rewrite fmap_replicate, Nat.sub_0_r.
    + intros i res st1 Hi Hres.
      assert (i < m)%nat as Him by (unfold m; lia).
      eapply runs_consequence.
      * apply (runs_forZ_mul bn _ _ st1 isInt 0
                 (λ j res,
                    length <$> res
                    = replicate i n ++ j :: replicate (m - S i) 0%nat)).
        { rewrite Hres.
          by replace (m - i)%nat with (S (m - S i)) by lia. }
        intros j res1 st2 Hj Hres1.
        apply (runs_bind_mul _ _ _ isInt 0 0 (λ _, True)).
        { destruct Hbuf as [Hempty|Husable].
          - rewrite Hempty. apply runs_create. intros v.
            split; [done|]. by apply multiplications_other.
          - rewrite (usable_not_empty _ Husable). by apply loadTile_runs. }
        intros tile st3 _.
        destruct (lengths_lookup res1 _ i j Hres1) as (row & Hrow & Hlen).
        { apply list_lookup_middle. by rewrite length_replicate. }
        eapply runs_lift.
        { unfold push_back_row. rewrite Nat2Z.id, Hrow. done. }
        split; [|apply multiplications_nil].
        rewrite lengths_insert, Hres1, length_app, Hlen. cbn.
        rewrite <- (length_replicate i n) at 1.
        rewrite insert_middle. do 2 f_equal. lia.
      * intros res1 evs1 [Hres1 Hevs1]. cbn. rewrite Nat.mul_0_r in Hevs1.
        split; [|done]. rewrite Hres1. fold n.
        by rewrite app_comm_cons, replicate_cons_app, <- (assoc app).
  - intros res evs [Hres Hevs]. rewrite Nat.mul_0_r in Hevs.
    split; [|done]. unfold tilesShape. rewrite Hres.
    by rewrite Nat.sub_diag, app_nil_r.
Qed.

(** ** Multiplying blocks *)

Lemma multiplyTile_runs isInt accTileTy lhsTile rhsTile accBuf blockM blockN
  bm bn (i j : nat) storeResult accTiles m n st :
  tilesShape accTiles m n → (i < m)%nat → (j < n)%nat →
  (storeResult = true → usable accBuf) →
  runs (multiplyTile isInt accTileTy lhsTile rhsTile accBuf blockM blockN
          bm bn (Z.of_nat i) (Z.of_nat j) storeResult accTiles) st
       (λ tiles evs, tilesShape tiles m n ∧ multiplications isInt 1 evs).
Proof.
  intros Hshape Hi Hj Hstore. unfold multiplyTile.
  destruct (getTile_shape accTiles m n i j Hshape Hi Hj) as [acc Hacc].
  eapply runs_bind_lift; [exact Hacc|].
  apply (runs_bind_mul _ _ _ isInt 1 0 (λ _, True)).
  { destruct isInt; apply runs_create; intros v; (split; [done|]).
    - apply (multiplications_mul true).
    - apply (multiplications_mul false). }
  intros res st1 _.
  destruct (setTile_shape accTiles m n i j res Hshape Hi Hj)
    as (tiles' & Hset & Hshape').
  eapply runs_bind_lift; [exact Hset|].
  apply (runs_bind_mul _ _ _ isInt 0 0 (λ _, True)).
  { destruct storeResult.
    - by apply storeTile_runs, Hstore.
    - apply runs_ret. split; [done|apply multiplications_nil]. }
  intros _ st2 _. apply runs_ret. split; [done|apply multiplications_nil].
Qed.

Lemma multiplyBlocksPreloadLhs_runs lhsTileTy rhsTileTy accTileTy
  lhsBuf rhsBuf accBuf blockM blockN blockK bm bn accTiles storeResult st :
  usable lhsBuf → usable rhsBuf → (storeResult = true → usable accBuf) →
  tilesShape accTiles (Z.to_nat bm) (Z.to_nat bn) →
  runs (multiplyBlocksPreloadLhs lhsTileTy rhsTileTy accTileTy lhsBuf rhsBuf
          accBuf blockM blockN blockK bm bn accTiles storeResult) st
       (λ tiles evs,
          tilesShape tiles (Z.to_nat bm) (Z.to_nat bn)
          ∧ multiplications (isInteger (tileElemTy accTileTy))
                            (Z.to_nat bm * Z.to_nat bn) evs).
Proof.
  intros Hlhs Hrhs Hstore Hshape. unfold multiplyBlocksPreloadLhs.
  set (isInt := isInteger (tileElemTy accTileTy)).
  set (m := Z.to_nat bm) in *. set (n := Z.to_nat bn) in *.
  apply (runs_bind_mul _ _ _ isInt 0 (m * n)
           (λ lhsTiles, tilesShape lhsTiles m 1)).
  { apply loadBlockTiles_runs. by right. }
  intros lhsTiles st1 HlhsTiles.
  eapply runs_consequence.
  - apply (runs_forZ_mul bn _ _ st1 isInt m
             (λ _ tiles, tilesShape tiles m n)); [done|].
    intros j tiles st2 Hj Htiles.
    apply (runs_bind_mul _ _ _ isInt 0 m (λ _, True)).
    { by apply loadTile_runs. }
    intros rhsTile st3 _.
    eapply runs_consequence.
    + apply (runs_forZ_mul bm _ _ st3 isInt 1
               (λ _ tiles, tilesShape tiles m n)); [done|].
      intros i tiles1 st4 Hi Htiles1.
      destruct (getTile_shape lhsTiles m 1 i 0 HlhsTiles) as [lhsTile Hl];
        [unfold m; lia|lia|].
      eapply runs_bind_lift; [exact Hl|].
      apply multiplyTile_runs; (done || unfold m, n; lia).
    + intros tiles1 evs [? Hevs]. split; [done|].
      by rewrite Nat.mul_1_r in Hevs.
  - intros tiles evs [? Hevs]. split; [done|].
    by rewrite (Nat.mul_comm m n).
Qed.

Lemma multiplyBlocksPreloadRhs_runs lhsTileTy rhsTileTy accTileTy
  lhsBuf rhsBuf accBuf blockM blockN blockK bm bn accTiles storeResult st :
  usable lhsBuf → usable rhsBuf → (storeResult = true → usable accBuf) →
  tilesShape accTiles (Z.to_nat bm) (Z.to_nat bn) →
  runs (multiplyBlocksPreloadRhs lhsTileTy rhsTileTy accTileTy lhsBuf rhsBuf
          accBuf blockM blockN blockK bm bn accTiles storeResult) st
       (λ tiles evs,
          tilesShape tiles (Z.to_nat bm) (Z.to_nat bn)
          ∧ multiplications (isInteger (tileElemTy accTileTy))
                            (Z.to_nat bm * Z.to_nat bn) evs).
Proof.
  intros Hlhs Hrhs Hstore Hshape. unfold multiplyBlocksPreloadRhs.
  set (isInt := isInteger (tileElemTy accTileTy)).
  set (m := Z.to_nat bm) in *. set (n := Z.to_nat bn) in *.
  apply (runs_bind_mul _ _ _ isInt 0 (m * n)
           (λ rhsTiles, tilesShape rhsTiles 1 n)).
  { apply loadBlockTiles_runs. by right. }
  intros rhsTiles st1 HrhsTiles.
  apply (runs_forZ_mul bm _ _ st1 isInt n
           (λ _ tiles, tilesShape tiles m n)); [done|].
  intros i tiles st2 Hi Htiles.
  apply (runs_bind_mul _ _ _ isInt 0 n (λ _, True)).
  { by apply loadTile_runs. }
  intros lhsTile st3 _.
  eapply runs_consequence.
  - apply (runs_forZ_mul bn _ _ st3 isInt 1
             (λ _ tiles, tilesShape tiles m n)); [done|].
    intros j tiles1 st4 Hj Htiles1.
    destruct (getTile_shape rhsTiles 1 n 0 j HrhsTiles) as [rhsTile Hr];
      [lia|unfold n; lia|].
    eapply runs_bind_lift; [exact Hr|].
    apply multiplyTile_runs; (done || unfold m, n; lia).
  - intros tiles1 evs [? Hevs]. split; [done|].
    by rewrite Nat.mul_1_r in Hevs.
Qed.

(** The code of one accumulator block: [tilesInVectorK] rounds of
    [tilesInBlockM * tilesInBlockN] multiplications each. *)
Lemma convertBlock_runs c lhsTileTy rhsTileTy accTileTy bufs resBuf
  tilesInVectorK blockM blockN accTiles st :
  usable (lhsBuf bufs) → usable (rhsBuf bufs) → usable resBuf →
  MemBuffer_empty (accBuf bufs) = true ∨ usable (accBuf bufs) →
  (keepAccOnTiles c = true →
   tilesShape accTiles (Z.to_nat (tilesInBlockM c))
              (Z.to_nat (tilesInBlockN c))) →
  runs (convertBlock c lhsTileTy rhsTileTy accTileTy bufs resBuf
          tilesInVectorK blockM blockN accTiles) st
       (λ tiles evs,
          tilesShape tiles (Z.to_nat (tilesInBlockM c))
                     (Z.to_nat (tilesInBlockN c))
          ∧ multiplications (isInteger (tileElemTy accTileTy))
              (Z.to_nat tilesInVectorK
               * (Z.to_nat (tilesInBlockM c) * Z.to_nat (tilesInBlockN c)))
              evs).
Proof.
  intros Hlhs Hrhs Hres Hacc Htiles. unfold convertBlock.
  set (isInt := isInteger (tileElemTy accTileTy)).
  set (m := Z.to_nat (tilesInBlockM c)) in *.
  set (n := Z.to_nat (tilesInBlockN c)) in *.
  apply (runs_bind_mul _ _ _ isInt 0 (Z.to_nat tilesInVectorK * (m * n))
           (λ tiles, tilesShape tiles m n)).
  { destruct (keepAccOnTiles c); cbn [negb].
    - apply runs_ret. split; [by apply Htiles|apply multiplications_nil].
    - by apply loadBlockTiles_runs. }
  intros tiles st1 Hshape.
  apply (runs_forZ_mul tilesInVectorK _ _ st1 isInt (m * n)
           (λ _ tiles, tilesShape tiles m n)); [done|].
  intros blocK tiles1 st2 _ Hshape1.
  destruct (tilesInBlockM c <=? tilesInBlockN c).
  - by apply multiplyBlocksPreloadLhs_runs.
  - by apply multiplyBlocksPreloadRhs_runs.
Qed.

(** ** The loop results of a block kept on tiles *)

Lemma tilesShape_length tiles m n : tilesShape tiles m n → length tiles = m.
Proof.
  intros H. apply (f_equal length) in H.
  by rewrite length_fmap, length_replicate in H.
Qed.

Lemma flattenTiles_runs isInt bm bn tiles st :
  tilesShape tiles (Z.to_nat bm) (Z.to_nat bn) →
  runs (flattenTiles bm bn tiles) st
       (λ l evs, length l = (Z.to_nat bm * Z.to_nat bn)%nat
                 ∧ multiplications isInt 0 evs).
Proof.
  intros Hshape. unfold flattenTiles.
  set (m := Z.to_nat bm) in *. set (n := Z.to_nat bn) in *.
  eapply runs_consequence.
  - apply (runs_forZ_mul bm _ _ st isInt 0
             (λ i (acc : list Value), length acc = (i * n)%nat)); [done|].
    intros i acc st1 Hi Hacc.
    eapply runs_consequence.
    + apply (runs_forZ_mul bn _ _ st1 isInt 0
               (λ j (acc : list Value), length acc = (i * n + j)%nat)).
      { lia. }
      intros j acc1 st2 Hj Hacc1.
      destruct (getTile_shape tiles m n i j Hshape) as [tile Htile];
        [unfold m; lia|unfold n; lia|].
      eapply runs_bind_lift; [exact Htile|].
      apply runs_ret. split; [|apply multiplications_nil].
      rewrite length_app. cbn. lia.
    + intros acc1 evs [Hacc1 Hevs]. rewrite Nat.mul_0_r in Hevs.
      split; [|done]. fold n in Hacc1. lia.
  - intros acc evs [Hacc Hevs]. by rewrite Nat.mul_0_r in Hevs.
Qed.

Lemma takeLoopResults_runs isInt bm bn resTiles accTiles st :
  1 ≤ bm → 1 ≤ bn → bm * bn ≤ 4 →
  tilesShape accTiles (Z.to_nat bm) (Z.to_nat bn) →
  length resTiles = (Z.to_nat bm * Z.to_nat bn)%nat →
  runs (takeLoopResults bm bn resTiles accTiles) st
       (λ tiles evs, tilesShape tiles (Z.to_nat bm) (Z.to_nat bn)
                     ∧ multiplications isInt 0 evs).
Proof.
  intros Hbm Hbn Hprod Hshape Hres. unfold takeLoopResults.
  set (m := Z.to_nat bm) in *. set (n := Z.to_nat bn) in *.
  eapply runs_consequence.
  - apply (runs_forZ_mul bm _ _ st isInt 0
             (λ _ tiles, tilesShape tiles m n)); [done|].
    intros i tiles st1 Hi Htiles.
    eapply runs_consequence.
    + apply (runs_forZ_mul bn _ _ st1 isInt 0
               (λ _ tiles, tilesShape tiles m n)); [done|].
      intros j tiles1 st2 Hj Htiles1.
      assert (Int64.wrap (Int64.mul (Z.of_nat i) bn + Z.of_nat j)
              = Z.of_nat i * bn + Z.of_nat j) as ->.
      { rewrite mul_in_range; [apply wrap_in_range|];
          unfold Int64.in_range, Int64.min_signed, Int64.max_signed; nia. }
      destruct (lookup_lt_is_Some_2 resTiles
                  (Z.to_nat (Z.of_nat i * bn + Z.of_nat j)))
        as [tile Htile]; [unfold m, n in *; nia|].
      eapply runs_bind_lift; [exact Htile|].
      destruct (setTile_shape tiles1 m n i j tile Htiles1)
        as (tiles2 & Hset & Hshape2); [unfold m; lia|unfold n; lia|].
      eapply runs_lift; [exact Hset|].
      split; [done|apply multiplications_nil].
    + intros tiles1 evs [? Hevs]. by rewrite Nat.mul_0_r in Hevs.
  - intros tiles evs [? Hevs]. by rewrite Nat.mul_0_r in Hevs.
Qed.

Lemma storeBlockTiles_runs isInt tileTy buf blockM blockN tiles m n st :
  tilesShape tiles m n → (1 ≤ m)%nat → usable buf →
  runs (storeBlockTiles tileTy buf blockM blockN tiles) st
       (λ _ evs, True ∧ multiplications isInt 0 evs).
Proof.
  intros Hshape Hm Hbuf. unfold storeBlockTiles.
  destruct (tilesShape_lookup tiles m n 0 Hshape Hm) as (row0 & Hrow0 & Hn).
  rewrite (tilesShape_length _ _ _ Hshape).
  eapply runs_bind_lift; [exact Hrow0|]. rewrite Hn.
  eapply runs_consequence.
  - apply (runs_forZ_mul (Z.of_nat m) _ _ st isInt 0 (λ _ _, True));
      [done|].
    intros i [] st1 Hi _.
    eapply runs_consequence.
    + apply (runs_forZ_mul (Z.of_nat n) _ _ st1 isInt 0 (λ _ _, True));
        [done|].
      intros j [] st2 Hj _.
      destruct (getTile_shape tiles m n i j Hshape) as [tile Htile];
        [lia..|].
      eapply runs_bind_lift; [exact Htile|].
      by apply storeTile_runs.
    + intros [] evs [_ Hevs]. by rewrite Nat.mul_0_r in Hevs.
  - intros [] evs [_ Hevs]. by rewrite Nat.mul_0_r in Hevs.
Qed.

(** ** The code of a whole conversion *)

Lemma div_nonneg a b :
  0 ≤ a ≤ Int64.max_signed → 1 ≤ b →
  Int64.div a b = Some (a `div` b) ∧ 0 ≤ a `div` b ≤ Int64.max_signed.
Proof.
  intros Ha Hb.
  assert (0 ≤ a `div` b ≤ a) as Hq.
  { split; [apply Z.div_pos; lia|]. apply Z.div_le_upper_bound; nia. }
  split; [|lia]. rewrite <- Z.quot_div_nonneg by lia.
  apply div_in_range; [lia|]. rewrite Z.quot_div_nonneg by lia.
  unfold Int64.in_range, Int64.min_signed, Int64.max_signed in *. lia.
Qed.

Lemma VectorType_valid_dim ty i d :
  VectorType_valid ty → getDimSize ty i = Some d →
  1 ≤ d ≤ Int64.max_signed.
Proof.
  unfold VectorType_valid, numElements, getDimSize.
  intros [Hpos Hnum]. revert i Hnum.
  induction Hpos as [|x l Hx Hl IH]; intros i Hnum Hd; [done|].
  pose proof (foldr_mul_positive l Hl) as Hrest. cbn in Hnum.
  destruct i as [|i]; cbn in Hd.
  - injection Hd as <-. nia.
  - apply (IH i); [nia|done].
Qed.

Lemma prepareResultBuffer_usable alloc o accBuf outBuf :
  MemBuffer_empty accBuf = true ∨ usable accBuf →
  MemBuffer_empty outBuf = true ∨ usable outBuf →
  usable (alloc (resTy o)) →
  usable (prepareResultBuffer alloc o accBuf outBuf).
Proof.
  intros Hacc Hout Halloc. unfold prepareResultBuffer.
  destruct Hout as [->|Hout]; cbn [negb].
  - destruct Hacc as [->|Hacc]; cbn [negb]; [done|].
    by rewrite (usable_not_empty _ Hacc).
  - by rewrite (usable_not_empty _ Hout).
Qed.

(** The loops over the blocks: one segment of events for every block. *)
Lemma convertBlocks_runs c lhsTileTy rhsTileTy accTileTy bufs resBuf
  tilesInVectorK blocksInAccM blocksInAccN accInitTiles st :
  usable (lhsBuf bufs) → usable (rhsBuf bufs) → usable resBuf →
  MemBuffer_empty (accBuf bufs) = true ∨ usable (accBuf bufs) →
  (keepAccOnTiles c = true →
   tilesShape accInitTiles (Z.to_nat (tilesInBlockM c))
              (Z.to_nat (tilesInBlockN c))) →
  runs (forZ blocksInAccM (λ blockM accTiles,
          forZ blocksInAccN (λ blockN accTiles,
            convertBlock c lhsTileTy rhsTileTy accTileTy bufs resBuf
                         tilesInVectorK blockM blockN accTiles) accTiles)
          accInitTiles) st
       (λ tiles evs,
          (keepAccOnTiles c = true →
           tilesShape tiles (Z.to_nat (tilesInBlockM c))
                      (Z.to_nat (tilesInBlockN c)))
          ∧ segmented
              (multiplications (isInteger (tileElemTy accTileTy))
                 (Z.to_nat tilesInVectorK
                  * (Z.to_nat (tilesInBlockM c)
                     * Z.to_nat (tilesInBlockN c))))
              (Z.to_nat blocksInAccM * Z.to_nat blocksInAccN) evs).
Proof.
  intros Hlhs Hrhs Hres Hacc Hinit.
  set (P := multiplications (isInteger (tileElemTy accTileTy))
              (Z.to_nat tilesInVectorK
               * (Z.to_nat (tilesInBlockM c) * Z.to_nat (tilesInBlockN c)))).
  set (R := λ tiles : list (list Value),
              keepAccOnTiles c = true →
              tilesShape tiles (Z.to_nat (tilesInBlockM c))
                         (Z.to_nat (tilesInBlockN c))).
  apply (runs_forZ_additive (segmented P) (segmented_nil P) (segmented_app P)
           blocksInAccM _ _ st (Z.to_nat blocksInAccN) (λ _, R)); [done|].
  intros i tiles st1 _ Htiles.
  eapply runs_consequence.
  - apply (runs_forZ_additive (segmented P) (segmented_nil P)
             (segmented_app P) blocksInAccN _ _ st1 1 (λ _, R)); [done|].
    intros j tiles1 st2 _ Htiles1.
    eapply runs_consequence; [by apply convertBlock_runs|].
    intros tiles2 evs [Hshape Hevs]. split; [intros _; exact Hshape|].
    by apply segmented_one.
  - intros tiles1 evs [? Hevs]. split; [done|].
    by rewrite Nat.mul_1_r in Hevs.
Qed.

(** The events of a loop, cut at its iterations. *)

Lemma iterations_forEach {A St} (body : A → St → Rewriter St) l s st segs
  s' st' :
  iterations body l s st segs s' st' →
  forEach l body s st = Some (s', st')
  ∧ events st' = events st ++ concat segs
  ∧ length segs = length l.
Proof.
  induction 1 as [s st|x l s st s1 st1 seg segs s' st' Hrun Hev _
                         (IHrun & IHev & IHlen)].
  - by rewrite app_nil_r.
  - cbn [forEach concat length]. unfold bind. rewrite Hrun.
    split; [done|]. split; [|by rewrite IHlen].
    by rewrite IHev, Hev, (assoc app).
Qed.

(** A loop whose iterations have a result, with an invariant [R] on the
    local variables and a property [P] of the segment of every
    iteration. *)
Lemma runs_iterations {A St} (l : list A) (body : A → St → Rewriter St)
  (s : St) st (R : St → Prop) (P : A → list Event → Prop) :
  R s →
  (∀ i x s st,
     l !! i = Some x → R s →
     runs (body x s) st (λ s' evs, R s' ∧ P x evs)) →
  ∃ segs s' st',
    iterations body l s st segs s' st' ∧ R s' ∧ Forall2 P l segs.
Proof.
  revert s st. induction l as [|x l IH]; intros s st HR Hbody.
  - exists [], s, st. split; [constructor|]. split; [done|constructor].
  - destruct (Hbody 0%nat x s st eq_refl HR)
      as (s1 & st1 & seg & Hrun & Hev & HR1 & HP).
    destruct (IH s1 st1 HR1) as (segs & s' & st' & Hiter & HR' & HPs).
    { intros i y s2 st2 Hy. by apply (Hbody (Datatypes.S i)). }
    exists (seg :: segs), s', st'.
    split; [by econstructor|]. split; [done|by constructor].
Qed.

Lemma forEach_app {A St} (l1 l2 : list A) (body : A → St → Rewriter St)
  s st :
  forEach (l1 ++ l2) body s st
  = bind (forEach l1 body s) (forEach l2 body) st.
Proof.
  revert s st. induction l1 as [|x l1 IH]; intros s st; [done|].
  cbn [app forEach]. unfold bind.
  destruct (body x s st) as [[s1 st1]|]; [|done]. apply IH.
Qed.

(** The two block loops are one loop over [blockCoords]. *)
Lemma forEach_blockCoords {St} (bM bN : Z) (body : Z → Z → St → Rewriter St)
  s st :
  forZ bM (λ i s, forZ bN (λ j s, body i j s) s) s st
  = forEach (blockCoords bM bN) (λ b s, body b.1 b.2 s) s st.
Proof.
  unfold forZ, blockCoords. revert s st.
  induction (seqZ 0 bM) as [|i la IH]; intros s st; [done|].
  rewrite bind_cons, forEach_app. cbn [forEach]. unfold bind.
  assert (∀ s st,
            forEach (seqZ 0 bN) (λ j s, body i j s) s st
            = forEach (seqZ 0 bN ≫= λ j, [(i, j)])
                      (λ b s, body b.1 b.2 s) s st) as ->.
  { clear. induction (seqZ 0 bN) as [|j lb IH]; intros s st; [done|].
    rewrite bind_cons. cbn [app forEach fst snd]. unfold bind.
    destruct (body i j s st) as [[s1 st1]|]; [|done]. apply IH. }
  destruct (forEach _ _ s st) as [[s1 st1]|]; [|done]. apply IH.
Qed.

Lemma bind_lift_Some {A B} (o : option A) a (k : A → Rewriter B) st :
  o = Some a → bind (lift o) k st = k a st.
Proof. by intros ->. Qed.

Lemma bind_Some {A B} (m : Rewriter A) a st' (k : A → Rewriter B) st :
  m st = Some (a, st') → bind m k st = k a st'.
Proof. unfold bind. by intros ->. Qed.

(** What holds of every result of code holds of the one it has. *)
Lemma runs_inv {A} (m : Rewriter A) st (Q : A → list Event → Prop) a st'
  evs :
  runs m st Q → m st = Some (a, st') → events st' = events st ++ evs →
  Q a evs.
Proof.
  intros (a' & st'' & evs' & Hrun & Hev & HQ) Hrun' Hev'.
  rewrite Hrun in Hrun'. injection Hrun' as -> ->.
  rewrite Hev in Hev'. apply app_inv_head in Hev'. by subst evs'.
Qed.

(** An invariant [R] of the local variables and a property [P] of the
    segments, along the iterations of a loop. *)
Lemma iterations_Forall2 {A St} (body : A → St → Rewriter St) l s st segs
  s' st' (R : St → Prop) (P : A → list Event → Prop) :
  iterations body l s st segs s' st' → R s →
  (∀ x s st s1 st1 seg,
     x ∈ l → R s → body x s st = Some (s1, st1) →
     events st1 = events st ++ seg → R s1 ∧ P x seg) →
  R s' ∧ Forall2 P l segs.
Proof.
  induction 1 as [s st|x l s st s1 st1 seg segs s' st' Hrun Hev _ IH];
    intros HR Hstep.
  - split; [done|constructor].
  - destruct (Hstep x s st s1 st1 seg) as [HR1 HP]; [by left|done..|].
    destruct (IH HR1) as [HR' HPs].
    { intros y s2 st2 s3 st3 seg' Hy. apply Hstep. by right. }
    split; [done|by constructor].
Qed.

(** What the analysis guarantees to the code generator. *)
Lemma isAmxCandidate_generator_inputs o s c0 c :
  VectorType_valid (resTy o) →
  isAmxCandidate o s c0 = Some (true, c) →
  ∃ M N K lhsElemTy accElemTy,
    getDimSize (resTy o) 0 = Some M ∧ getDimSize (resTy o) 1 = Some N
    ∧ getDimSize (lhsTy o) 1 = Some K
    ∧ 1 ≤ M ≤ Int64.max_signed ∧ 1 ≤ N ≤ Int64.max_signed ∧ 8 ≤ K
    ∧ op c = Some o
    ∧ lhsTileElemTy c = Some lhsElemTy ∧ rhsTileElemTy c = Some lhsElemTy
    ∧ accTileElemTy c = Some accElemTy
    ∧ 1 ≤ tileM c ∧ 1 ≤ tileN c ∧ 1 ≤ tileK c
    ∧ 1 ≤ tilesInBlockM c ∧ 1 ≤ tilesInBlockN c
    ∧ tilesInBlockM c * tilesInBlockN c ≤ 4.
Proof.
  intros Hvalid Hacc.
  destruct (isAmxCandidate_block_budget o s c0 c Hvalid Hacc)
    as (? & ? & Hle).
  destruct (isAmxCandidate_descriptor o s c0 c Hvalid Hacc)
    as (M & N & K & ty & HM & HN & HK & HM1 & HN8 & HK8 & Hnum & Hop & Hl
        & Hr & [aty Ha] & Hbw & HtM & HtN & HtK & _).
  destruct (VectorType_valid_dim _ _ _ Hvalid HM).
  destruct (VectorType_valid_dim _ _ _ Hvalid HN).
  exists M, N, K, ty, aty. repeat (split; [done || lia|]).
  split; [|done]. rewrite HtK.
  destruct Hbw as [-> | ->]; [change (512 `div` 8) with 64
                             |change (512 `div` 16) with 32]; lia.
Qed.

Ltac emit_step isInt :=
  apply (runs_bind_mul _ _ _ isInt 0 0 (λ _, True));
  [apply runs_emit; split; [done|by apply multiplications_other]
  |intros _ ? _].

Ltac fresh_step isInt :=
  apply (runs_bind_mul _ _ _ isInt 0 0 (λ _, True));
  [apply runs_fresh; intros; split; [done|apply multiplications_nil]
  |intros ? ? _].

Ltac emit_last :=
  apply runs_emit; split; [done|by apply multiplications_other].

(** The end of a conversion multiplies nothing. *)
Lemma replaceOriginal_runs isInt c o accTileTy resBuf accInitTiles accTiles
  st :
  1 ≤ tilesInBlockM c → 1 ≤ tilesInBlockN c →
  tilesInBlockM c * tilesInBlockN c ≤ 4 →
  (keepAccOnTiles c = true →
   tilesShape accInitTiles (Z.to_nat (tilesInBlockM c))
              (Z.to_nat (tilesInBlockN c))
   ∧ tilesShape accTiles (Z.to_nat (tilesInBlockM c))
                (Z.to_nat (tilesInBlockN c))) →
  usable resBuf →
  MemBuffer_empty (outBuf c) = true ∨ usable (outBuf c) →
  runs (replaceOriginal c o accTileTy resBuf accInitTiles accTiles) st
       (λ _ evs, True ∧ multiplications isInt 0 evs).
Proof.
  intros Hbm Hbn Hprod Hshapes Hres Hout. unfold replaceOriginal.
  destruct (keepAccOnTiles c).
  - destruct (Hshapes eq_refl) as [Hinit Htiles].
    emit_step isInt.
    apply (runs_bind_mul _ _ _ isInt 0 0
             (λ l, length l = (Z.to_nat (tilesInBlockM c)
                               * Z.to_nat (tilesInBlockN c))%nat)).
    { by apply flattenTiles_runs. }
    intros newInitOperands st1 _.
    apply (runs_bind_mul _ _ _ isInt 0 0
             (λ l, length l = (Z.to_nat (tilesInBlockM c)
                               * Z.to_nat (tilesInBlockN c))%nat)).
    { by apply flattenTiles_runs. }
    intros newYieldedValues st2 Hlen.
    fresh_step isInt. emit_step isInt.
    apply (runs_bind_mul _ _ _ isInt 0 0
             (λ tiles, tilesShape tiles (Z.to_nat (tilesInBlockM c))
                                  (Z.to_nat (tilesInBlockN c)))).
    { apply takeLoopResults_runs; try done. by rewrite length_seq. }
    intros tiles st3 Htiles'.
    destruct Hout as [Hempty|Husable].
    + rewrite Hempty.
      apply (runs_bind_mul _ _ _ isInt 0 0 (λ _, True)).
      { eapply storeBlockTiles_runs; [exact Htiles'|lia|done]. }
      intros _ ? _. fresh_step isInt. emit_step isInt. emit_last.
    + rewrite (usable_not_empty _ Husable).
      apply (runs_bind_mul _ _ _ isInt 0 0 (λ _, True)).
      { eapply storeBlockTiles_runs; [exact Htiles'|lia|done]. }
      intros _ ? _. emit_last.
  - destruct (keepAccInBuf c).
    + fresh_step isInt. emit_step isInt. emit_step isInt. emit_last.
    + destruct (MemBuffer_empty (outBuf c)).
      * fresh_step isInt. emit_step isInt. emit_last.
      * emit_step isInt. emit_last.
Qed.

Lemma length_pairs {A B} (la : list A) (lb : list B) :
  length (a ← la; b ← lb; [(a, b)]) = (length la * length lb)%nat.
Proof.
  induction la as [|a la IH]; [reflexivity|].
  rewrite bind_cons, length_app, IH. cbn [length Nat.mul]. f_equal.
  clear. induction lb as [|b lb IH]; [reflexivity|].
  rewrite bind_cons. cbn. by rewrite IH.
Qed.

Lemma length_blockCoords bM bN :
  length (blockCoords bM bN) = (Z.to_nat bM * Z.to_nat bN)%nat.
Proof. unfold blockCoords. by rewrite length_pairs, !length_seqZ. Qed.

(** The run of a conversion, cut in three: the accumulator tiles loaded
    before the block loops, the iterations of the block loops, and the
    rewrites after them. *)
Lemma convertCandidate_parts getPacked alloc prep o s c0 c st :
  VectorType_valid (lhsTy o) → VectorType_valid (resTy o) →
  getShape (accTy o) = getShape (resTy o) →
  isAmxCandidate o s c0 = Some (true, c) →
  usable (lhsBuf (prep c)) → usable (rhsBuf (prep c)) →
  MemBuffer_empty (accBuf (prep c)) = true ∨ usable (accBuf (prep c)) →
  MemBuffer_empty (outBuf c) = true ∨ usable (outBuf c) →
  usable (alloc (resTy o)) →
  ∃ M N K lhsElemTy accElemTy st' pre blocks post accInitTiles st0 accTiles
    st1,
    let lhsTileTy := {| tileRows := tileM c; tileCols := tileK c;
                        tileElemTy := lhsElemTy |} in
    let rhsTileTy := getPacked {| tileRows := tileK c; tileCols := tileN c;
                                  tileElemTy := lhsElemTy |} in
    let accTileTy := {| tileRows := tileM c; tileCols := tileN c;
                        tileElemTy := accElemTy |} in
    let resBuf := prepareResultBuffer alloc o (accBuf (prep c)) (outBuf c) in
    getDimSize (resTy o) 0 = Some M ∧ getDimSize (resTy o) 1 = Some N
    ∧ getDimSize (lhsTy o) 1 = Some K
    ∧ lhsTileElemTy c = Some lhsElemTy ∧ rhsTileElemTy c = Some lhsElemTy
    ∧ accTileElemTy c = Some accElemTy
    ∧ (if keepAccOnTiles c
       then loadBlockTiles accTileTy (accBuf (prep c)) (tilesInBlockM c)
              (tilesInBlockN c) 0 0
       else ret []) st = Some (accInitTiles, st0)
    ∧ events st0 = events st ++ pre
    ∧ iterations
        (λ b, convertBlock c lhsTileTy rhsTileTy accTileTy (prep c) resBuf
                (K `div` tileK c) b.1 b.2)
        (blockCoords ((M `div` tileM c) `div` tilesInBlockM c)
                     ((N `div` tileN c) `div` tilesInBlockN c))
        accInitTiles st0 blocks accTiles st1
    ∧ replaceOriginal c o accTileTy resBuf accInitTiles accTiles st1
      = Some (tt, st')
    ∧ events st' = events st1 ++ post
    ∧ convertCandidate getPacked alloc prep c st = Some (tt, st')
    ∧ events st' = events st ++ pre ++ concat blocks ++ post
    ∧ (keepAccOnTiles c = true →
       tilesShape accInitTiles (Z.to_nat (tilesInBlockM c))
                  (Z.to_nat (tilesInBlockN c))
       ∧ tilesShape accTiles (Z.to_nat (tilesInBlockM c))
                    (Z.to_nat (tilesInBlockN c))).
Proof.
  intros Hlhs_valid Hres_valid Hacc_shape Haccepted Hlhs Hrhs Hacc Hout
    Halloc.
  destruct (isAmxCandidate_generator_inputs o s c0 c Hres_valid Haccepted)
    as (M & N & K & lhsElemTy & accElemTy & HM & HN & HK & HMr & HNr & HK8
        & Hop & Hlty & Hrty & Haty & HtM & HtN & HtK & Hbm & Hbn & Hprod).
  destruct (VectorType_valid_dim _ _ _ Hlhs_valid HK) as [_ HKmax].
  set (m := Z.to_nat (tilesInBlockM c)). set (n := Z.to_nat (tilesInBlockN c)).
  destruct (div_nonneg M (tileM c) ltac:(lia) HtM) as [HdM HqM].
  destruct (div_nonneg _ (tilesInBlockM c) HqM Hbm) as [HdbM HqbM].
  destruct (div_nonneg N (tileN c) ltac:(lia) HtN) as [HdN HqN].
  destruct (div_nonneg _ (tilesInBlockN c) HqN Hbn) as [HdbN HqbN].
  destruct (div_nonneg K (tileK c) ltac:(lia) HtK) as [HdK HqK].
  pose proof (prepareResultBuffer_usable alloc o _ _ Hacc Hout Halloc)
    as Hres.
  assert (getDimSize (accTy o) 0 = Some M) as HaM
    by (unfold getDimSize; rewrite Hacc_shape; exact HM).
  assert (getDimSize (accTy o) 1 = Some N) as HaN
    by (unfold getDimSize; rewrite Hacc_shape; exact HN).
  set (lhsTileTy := {| tileRows := tileM c; tileCols := tileK c;
                       tileElemTy := lhsElemTy |}).
  set (rhsTileTy := getPacked {| tileRows := tileK c; tileCols := tileN c;
                                 tileElemTy := lhsElemTy |}).
  set (accTileTy := {| tileRows := tileM c; tileCols := tileN c;
                       tileElemTy := accElemTy |}).
  set (resBuf := prepareResultBuffer alloc o (accBuf (prep c)) (outBuf c))
    in *.
  set (bM := (M `div` tileM c) `div` tilesInBlockM c) in *.
  set (bN := (N `div` tileN c) `div` tilesInBlockN c) in *.
  assert (runs (if keepAccOnTiles c
                then loadBlockTiles accTileTy (accBuf (prep c))
                       (tilesInBlockM c) (tilesInBlockN c) 0 0
                else ret []) st
            (λ tiles _, keepAccOnTiles c = true → tilesShape tiles m n))
    as (accInitTiles & st0 & pre & Hpre & Hev0 & Hinit).
  { destruct (keepAccOnTiles c).
    - eapply runs_consequence; [by apply (loadBlockTiles_runs true)|].
      by intros tiles evs [? _] _.
    - by apply runs_ret. }
  destruct (runs_iterations (blockCoords bM bN)
              (λ b, convertBlock c lhsTileTy rhsTileTy accTileTy (prep c)
                      resBuf (K `div` tileK c) b.1 b.2)
              accInitTiles st0
              (λ tiles, keepAccOnTiles c = true → tilesShape tiles m n)
              (λ _ _, True))
    as (blocks & accTiles & st1 & Hiter & Htiles & _); [exact Hinit| |].
  { intros i b tiles st2 _ Hshape.
    eapply runs_consequence; [by apply convertBlock_runs|].
    intros tiles2 evs [Hshape2 _]. split; [by intros _|done]. }
  destruct (iterations_forEach _ _ _ _ _ _ _ Hiter)
    as (Hloops & Hev1 & Hlen).
  assert (keepAccOnTiles c = true →
          tilesShape accInitTiles m n ∧ tilesShape accTiles m n) as Hshapes.
  { intros Hkeep. split; [by apply Hinit|by apply Htiles]. }
  destruct (replaceOriginal_runs true c o accTileTy resBuf accInitTiles
              accTiles st1 Hbm Hbn Hprod Hshapes Hres Hout)
    as ([] & st' & post & Hpost & Hev' & _).
  exists M, N, K, lhsElemTy, accElemTy, st', pre, blocks, post,
         accInitTiles, st0, accTiles, st1.
  cbn zeta. do 10 (split; [done|]). split; [done|]. split.
  { unfold convertCandidate.
    rewrite (bind_lift_Some _ _ _ _ Hop). cbn beta.
    rewrite (bind_lift_Some _ _ _ _ Hlty). cbn beta.
    rewrite (bind_lift_Some _ _ _ _ Hrty). cbn beta.
    rewrite (bind_lift_Some _ _ _ _ Haty). cbn beta zeta.
    rewrite (bind_Some _ _ _ _ _ Hpre). cbn beta.
    rewrite (bind_lift_Some _ _ _ _ HaM). cbn beta.
    rewrite (bind_lift_Some _ _ _ _ HdM). cbn beta.
    rewrite (bind_lift_Some _ _ _ _ HdbM). cbn beta.
    rewrite (bind_lift_Some _ _ _ _ HaN). cbn beta.
    rewrite (bind_lift_Some _ _ _ _ HdN). cbn beta.
    rewrite (bind_lift_Some _ _ _ _ HdbN). cbn beta.
    rewrite (bind_lift_Some _ _ _ _ HK). cbn beta.
    rewrite (bind_lift_Some _ _ _ _ HdK). cbn beta.
    erewrite bind_Some; [exact Hpost|].
    rewrite <- Hloops. apply forEach_blockCoords. }
  split; [by rewrite Hev', Hev1, Hev0, <- !(assoc app)|done].
Qed.

(** C8: the code generated for an accepted operation runs in three parts:
    events before the blocks, the two block loops, and events after them.
    The block loops are the iterations [(blockM, blockN)] of
    [blockCoords], in the order of the loops, each running the body of the
    loops ([convertBlock]) at its coordinates from the tiles and the state
    that the previous iteration has left, and [blocks] holds the events of
    each of them.  There are
    [(M/tileM/tilesInBlockM) * (N/tileN/tilesInBlockN)] accumulator blocks;
    the events of every block contain exactly
    [tilesInBlockM * tilesInBlockN * (K/tileK)] multiplications, all of the
    integer variant if the accumulator tile type is an integer type and all
    of the floating-point variant otherwise; no multiplication is created
    outside of the blocks.  The operation is well-formed (valid vector
    types, an accumulator of the shape of the result) and the buffers
    prepared for it can hold tiles. *)
Theorem convertCandidate_multiplications :
  ∀ (getPackedLayoutType : TileType → TileType)
    (allocateTmpBufferStack : VectorType → MemBuffer)
    (prepareTensorBuffers : AmxDotOpCandidate → Buffers)
    (o : DotOp) (s : Support) (c0 c : AmxDotOpCandidate)
    (st : RewriterState),
    VectorType_valid (lhsTy o) → VectorType_valid (resTy o) →
    getShape (accTy o) = getShape (resTy o) →
    isAmxCandidate o s c0 = Some (true, c) →
    usable (lhsBuf (prepareTensorBuffers c)) →
    usable (rhsBuf (prepareTensorBuffers c)) →
    MemBuffer_empty (accBuf (prepareTensorBuffers c)) = true
    ∨ usable (accBuf (prepareTensorBuffers c)) →
    MemBuffer_empty (outBuf c) = true ∨ usable (outBuf c) →
    usable (allocateTmpBufferStack (resTy o)) →
    ∃ M N K lhsElemTy rhsElemTy accElemTy st' pre blocks post
      accInitTiles st0 accTiles st1,
      getDimSize (resTy o) 0 = Some M ∧ getDimSize (resTy o) 1 = Some N
      ∧ getDimSize (lhsTy o) 1 = Some K
      ∧ lhsTileElemTy c = Some lhsElemTy
      ∧ rhsTileElemTy c = Some rhsElemTy
      ∧ accTileElemTy c = Some accElemTy
      ∧ convertCandidate getPackedLayoutType allocateTmpBufferStack
                         prepareTensorBuffers c st = Some (tt, st')
      ∧ events st' = events st ++ pre ++ concat blocks ++ post
      ∧ mulCount pre = 0%nat ∧ mulCount post = 0%nat
      ∧ events st0 = events st ++ pre
      ∧ iterations
          (λ b, convertBlock c
                  {| tileRows := tileM c; tileCols := tileK c;
                     tileElemTy := lhsElemTy |}
                  (getPackedLayoutType
                     {| tileRows := tileK c; tileCols := tileN c;
                        tileElemTy := rhsElemTy |})
                  {| tileRows := tileM c; tileCols := tileN c;
                     tileElemTy := accElemTy |}
                  (prepareTensorBuffers c)
                  (prepareResultBuffer allocateTmpBufferStack o
                     (accBuf (prepareTensorBuffers c)) (outBuf c))
                  (K `div` tileK c) b.1 b.2)
          (blockCoords ((M `div` tileM c) `div` tilesInBlockM c)
                       ((N `div` tileN c) `div` tilesInBlockN c))
          accInitTiles st0 blocks accTiles st1
      ∧ events st' = events st1 ++ post
      ∧ length blocks
        = Z.to_nat (((M `div` tileM c) `div` tilesInBlockM c)
                    * ((N `div` tileN c) `div` tilesInBlockN c))
      ∧ Forall (λ evs,
                  mulCount evs
                  = Z.to_nat (tilesInBlockM c * tilesInBlockN c
                              * (K `div` tileK c))
                  ∧ Forall (variantOk (isInteger accElemTy)) evs)
               blocks.
Proof.
  intros getPacked alloc prep o s c0 c st Hlhs_valid Hres_valid Hacc_shape
    Haccepted Hlhs Hrhs Hacc Hout Halloc.
  destruct (convertCandidate_parts getPacked alloc prep o s c0 c st
              Hlhs_valid Hres_valid Hacc_shape Haccepted Hlhs Hrhs Hacc Hout
              Halloc)
    as (M & N & K & lhsElemTy & accElemTy & st' & pre & blocks & post
        & accInitTiles & st0 & accTiles & st1 & HM & HN & HK & Hlty & Hrty
        & Haty & Hpre & Hev0 & Hiter & Hpost & Hev' & Hrun & Hev & Hshapes).
  cbn zeta in *.
  destruct (isAmxCandidate_generator_inputs o s c0 c Hres_valid Haccepted)
    as (M' & N' & K' & _ & _ & HM' & HN' & HK' & HMr & HNr & HK8
        & _ & _ & _ & _ & HtM & HtN & HtK & Hbm & Hbn & Hprod).
  assert (M' = M) as -> by congruence. assert (N' = N) as -> by congruence.
  assert (K' = K) as -> by congruence.
  destruct (VectorType_valid_dim _ _ _ Hlhs_valid HK) as [_ HKmax].
  destruct (div_nonneg K (tileK c) ltac:(lia) HtK) as [HdK HqK].
  pose proof (prepareResultBuffer_usable alloc o _ _ Hacc Hout Halloc)
    as Hres.
  set (isInt := isInteger accElemTy).
  set (m := Z.to_nat (tilesInBlockM c)) in *.
  set (n := Z.to_nat (tilesInBlockN c)) in *.
  (* no multiplication before the loops *)
  assert (multiplications isInt 0 pre) as Hpre0.
  { revert Hpre. destruct (keepAccOnTiles c); intros Hpre.
    - eapply (runs_inv _ _ _ _ _ _
                (loadBlockTiles_runs isInt _ _ _ _ _ _ st Hacc) Hpre Hev0).
    - injection Hpre as <- <-. rewrite <- (app_nil_r (events st)) in Hev0
        at 1. apply app_inv_head in Hev0 as <-. apply multiplications_nil. }
  (* the multiplications of every block *)
  destruct (iterations_Forall2 _ _ _ _ _ _ _
              (λ tiles, keepAccOnTiles c = true → tilesShape tiles m n)
              (λ _ evs,
                 multiplications isInt
                   (Z.to_nat (K `div` tileK c) * (m * n)) evs)
              Hiter) as [_ Hblocks].
  { intros Hkeep. by apply Hshapes. }
  { intros b tiles st2 tiles2 st3 seg _ Hshape Hblock Hseg.
    destruct (runs_inv _ _ _ _ _ _
                (convertBlock_runs c _ _ _ _ _ _ b.1 b.2 tiles st2 Hlhs Hrhs
                   Hres Hacc Hshape) Hblock Hseg) as [Hshape2 Hmul].
    split; [by intros _|exact Hmul]. }
  (* none after them *)
  destruct (runs_inv _ _ _ _ _ _
              (replaceOriginal_runs isInt c o _ _ accInitTiles accTiles st1
                 Hbm Hbn Hprod Hshapes Hres Hout) Hpost Hev')
    as [_ Hpost0].
  destruct (iterations_forEach _ _ _ _ _ _ _ Hiter) as (_ & _ & Hlen).
  exists M, N, K, lhsElemTy, lhsElemTy, accElemTy, st', pre, blocks, post,
         accInitTiles, st0, accTiles, st1.
  do 8 (split; [done|]).
  split; [apply Hpre0|]. split; [apply Hpost0|].
  do 3 (split; [done|]). split.
  - destruct (div_nonneg M (tileM c) ltac:(lia) HtM) as [_ HqM].
    destruct (div_nonneg _ (tilesInBlockM c) HqM Hbm) as [_ HqbM].
    destruct (div_nonneg N (tileN c) ltac:(lia) HtN) as [_ HqN].
    destruct (div_nonneg _ (tilesInBlockN c) HqN Hbn) as [_ HqbN].
    rewrite Hlen, length_blockCoords. rewrite Z2Nat.inj_mul; lia.
  - clear -Hblocks Hbm Hbn HqK.
    induction Hblocks as [|b evs bs segs [Hcount Hvariant] _ IH];
      constructor; [|done].
    split; [|done]. rewrite Hcount. unfold m, n.
    rewrite !Z2Nat.inj_mul by lia. lia.
Qed.

Lemma convertCandidate_multiplications_witness :
  let c := analysed dot48 allSupported in
  ∃ M N K lhsElemTy rhsElemTy accElemTy st' pre blocks post
    accInitTiles st0 accTiles st1,
    getDimSize (resTy dot48) 0 = Some M ∧ getDimSize (resTy dot48) 1 = Some N
    ∧ getDimSize (lhsTy dot48) 1 = Some K
    ∧ lhsTileElemTy c = Some lhsElemTy
    ∧ rhsTileElemTy c = Some rhsElemTy
    ∧ accTileElemTy c = Some accElemTy
    ∧ convertCandidate (λ ty, ty) (λ _, bufferAt 120%nat) (λ _, inputBuffers) c
                       {| nextValue := 0%nat; events := [] |} = Some (tt, st')
    ∧ events st' = [] ++ pre ++ concat blocks ++ post
    ∧ mulCount pre = 0%nat ∧ mulCount post = 0%nat
    ∧ events st0 = [] ++ pre
    ∧ iterations
        (λ b, convertBlock c
                {| tileRows := tileM c; tileCols := tileK c;
                   tileElemTy := lhsElemTy |}
                {| tileRows := tileK c; tileCols := tileN c;
                   tileElemTy := rhsElemTy |}
                {| tileRows := tileM c; tileCols := tileN c;
                   tileElemTy := accElemTy |}
                inputBuffers
                (prepareResultBuffer (λ _, bufferAt 120%nat) dot48
                   (accBuf inputBuffers) (outBuf c))
                (K `div` tileK c) b.1 b.2)
        (blockCoords ((M `div` tileM c) `div` tilesInBlockM c)
                     ((N `div` tileN c) `div` tilesInBlockN c))
        accInitTiles st0 blocks accTiles st1
    ∧ events st' = events st1 ++ post
    ∧ length blocks
      = Z.to_nat (((M `div` tileM c) `div` tilesInBlockM c)
                  * ((N `div` tileN c) `div` tilesInBlockN c))
    ∧ Forall (λ evs,
                mulCount evs
                = Z.to_nat (tilesInBlockM c * tilesInBlockN c
                            * (K `div` tileK c))
                ∧ Forall (variantOk (isInteger accElemTy)) evs)
             blocks.
Proof.
  apply (convertCandidate_multiplications
           (λ ty, ty) (λ _, bufferAt 120%nat) (λ _, inputBuffers)
           dot48 allSupported freshCandidate
           (analysed dot48 allSupported)
           {| nextValue := 0%nat; events := [] |}).
  - apply vector_valid; [lia|lia|]. vm_compute. discriminate.
  - apply vector_valid; [lia|lia|]. vm_compute. discriminate.
  - reflexivity.
  - vm_compute. reflexivity.
  - split; [by eexists|cbn; lia].
  - split; [by eexists|cbn; lia].
  - left. reflexivity.
  - left. reflexivity.
  - split; [by eexists|cbn; lia].
Defined.

(** ** The scenarios of the specification *)

(** Scenario A: 16×16 8-bit integers are accepted with one block of one
    tile, [tileM = tileN = 16] and [tileK = min(K, 64)]. *)
Example scenarioA_sizes :
  isAmxCandidate scenarioA allSupported freshCandidate
    = Some (true, analysed scenarioA allSupported)
  ∧ sizes (analysed scenarioA allSupported) = (16, 16, 64, 1, 1).
Proof. split; vm_compute; reflexivity. Qed.

(** Scenario D: a loop-carried 64×64 accumulator gets blocks of 2×2 tiles
    and is kept in a buffer. *)
Example scenarioD_sizes :
  sizes (analysed scenarioD allSupported) = (16, 16, 32, 2, 2)
  ∧ keepAccOnTiles (analysed scenarioD allSupported) = false
  ∧ keepAccInBuf (analysed scenarioD allSupported) = true.
Proof. repeat split; vm_compute; reflexivity. Qed.

(** The code for [dot32] has one block with four floating-point
    multiplications. *)
Example dot32_multiplications :
  ∃ st',
    convertCandidate (λ ty, ty) (λ _, bufferAt 120%nat) (λ _, inputBuffers)
                     (analysed dot32 allSupported)
                     {| nextValue := 0%nat; events := [] |} = Some (tt, st')
    ∧ multiplications false 4 (events st').
Proof.
  eexists. split; [vm_compute; reflexivity|].
  split; [reflexivity|]. cbn. repeat constructor.
Qed.

(** * Further properties of the analysis *)

(** ** Element kinds and legalized types *)

(** X1: an operation that mixes integers and floats across its four roles
    is rejected on both paths, and the descriptor is returned as it was
    passed. *)
Theorem checkElemTypes_mixed_kinds_rejected :
  ∀ (lhs rhs acc res : MlirType) (s : Support) (c : AmxDotOpCandidate),
    isInteger rhs ≠ isInteger lhs ∨ isInteger acc ≠ isInteger lhs
    ∨ isInteger res ≠ isInteger lhs →
    checkElemTypes lhs rhs acc res s c = (false, c).
Proof.
  intros lhs rhs acc res s c Hmixed.
  destruct (checkElemTypes lhs rhs acc res s c) as [[] c'] eqn:H.
  - exfalso. apply checkElemTypes_accepted in H as [H|H].
    + destruct H as (Hl & _ & _ & Hr8 & Ha & _ & Hd & _).
      assert (isInteger rhs = true) as Hr by by destruct rhs.
      rewrite Hl, Hr, Ha, Hd in Hmixed. by destruct Hmixed as [?|[?|?]].
    + destruct H as (Hl & Hr & Ha & Hd & _).
      rewrite Hl, Hr, Ha, Hd in Hmixed. by destruct Hmixed as [?|[?|?]].
  - by rewrite (checkElemTypes_rejected _ _ _ _ _ _ _ H).
Qed.

Lemma checkElemTypes_mixed_kinds_rejected_witness :
  checkElemTypes (IntegerType_get 8) (IntegerType_get 8)
                 (FloatType Float32) (FloatType Float32)
                 allSupported freshCandidate = (false, freshCandidate).
Proof.
  apply checkElemTypes_mixed_kinds_rejected. right. left. cbn. discriminate.
Defined.

(** X2: the integer path accepts exactly the operations with two 8-bit
    integer inputs (of any signedness) and an integer accumulator and
    result of at most 32 bits, when 8-bit integers are supported; the tile
    types are then signless [i8], [i8] and [i32]. *)
Theorem checkElemTypes_integer_path :
  ∀ (w : Z) (sg : Signedness) (rhs acc res : MlirType) (s : Support)
    (c : AmxDotOpCandidate),
    let r := checkElemTypes (IntegerType w sg) rhs acc res s c in
    (r.1 = true ↔
     supportInt8 s = true ∧ w = 8
     ∧ (∃ sg', rhs = IntegerType 8 sg')
     ∧ (∃ wa sa, acc = IntegerType wa sa ∧ wa ≤ 32)
     ∧ (∃ wr sr, res = IntegerType wr sr ∧ wr ≤ 32))
    ∧ (r.1 = true →
       r.2 = set_tileElemTys c (IntegerType 8 Signless)
               (IntegerType 8 Signless) (IntegerType 32 Signless)).
Proof.
  intros w sg rhs acc res s c r. subst r.
  destruct (checkElemTypes (IntegerType w sg) rhs acc res s c)
    as [ok c'] eqn:H. cbn [fst snd].
  split; [split|].
  - intros ->. apply checkElemTypes_accepted in H as [H|H];
      [|by destruct H as [? _]].
    destruct H as (_ & Hs & Hl & Hr & Ha & Hwa & Hd & Hwd & _).
    cbn in Hl. apply Z.eqb_eq in Hl.
    destruct rhs as [wr sr|]; [|done]. cbn in Hr. apply Z.eqb_eq in Hr.
    destruct acc as [wa sa|]; [|done]. destruct res as [wd sd|]; [|done].
    subst. cbn in Hwa, Hwd.
    split; [done|]. split; [done|]. split; [by exists sr|].
    split; [by exists wa, sa|by exists wd, sd].
  - intros (Hs & -> & [sg' ->] & (wa & sa & -> & Hwa) & (wr & sr & -> & Hwr)).
    revert H. unfold checkElemTypes. cbn. rewrite Hs. cbn.
    destruct (Z.gtb_spec wa 32); [lia|]. destruct (Z.gtb_spec wr 32); [lia|].
    cbn. by intros [= <- _].
  - intros ->. apply checkElemTypes_accepted in H as [H|H].
    + by destruct H as (_ & _ & _ & _ & _ & _ & _ & _ & ->).
    + by destruct H as [? _].
Qed.

(** X3: on the floating-point path an accepted input that already has 16
    bits keeps its own encoding as the tile type; only narrower inputs are
    promoted, and no input is ever narrowed.  The accumulator tile type is
    32-bit float. *)
Theorem checkElemTypes_float_promotion :
  ∀ (kl kr : FloatKind) (acc res : MlirType) (s : Support)
    (c c' : AmxDotOpCandidate),
    checkElemTypes (FloatType kl) (FloatType kr) acc res s c = (true, c') →
    ∃ k, c' = set_tileElemTys c (FloatType k) (FloatType k)
                (FloatType Float32)
         ∧ floatWidth k = 16
         ∧ floatWidth kl ≤ floatWidth k ∧ floatWidth kr ≤ floatWidth k
         ∧ (floatWidth kl = 16 → k = kl) ∧ (floatWidth kr = 16 → k = kr)
         ∧ (floatWidth kl < 16 → floatWidth kr < 16 →
            k = if supportBf16 s then BFloat16 else Float16).
Proof.
  intros kl kr acc res s c c' H.
  apply checkElemTypes_accepted in H as [H|H]; [by destruct H as [? _]|].
  destruct H as (_ & _ & _ & _ & Hl & Hr & _ & common & Hc & _ & ->).
  pose proof (commonInputElemTy_width _ _ _ _ Hc) as Hw.
  cbn in Hl, Hr. revert Hc Hw. unfold commonInputElemTy. cbn.
  destruct (Z.eqb_spec (floatWidth kl) 16) as [Hl16|Hl16].
  - destruct (Z.eqb_spec (floatWidth kr) 16) as [Hr16|Hr16]; cbn.
    + destruct (bool_decide_reflect (FloatType kr = FloatType kl))
        as [[= ->]|Hne]; cbn; [|done].
      intros [= <-] _. exists kl. repeat split; (done || lia).
    + intros [= <-] _. exists kl. repeat split; (done || lia).
  - destruct (Z.eqb_spec (floatWidth kr) 16) as [Hr16|Hr16].
    + intros [= <-] _. exists kr. repeat split; (done || lia).
    + destruct (supportBf16 s); intros [= <-] _; eexists;
        (split; [reflexivity|]); repeat split; (done || cbn; lia).
Qed.

Lemma checkElemTypes_float_promotion_witness :
  ∃ k, set_tileElemTys freshCandidate (FloatType BFloat16)
         (FloatType BFloat16) (FloatType Float32)
       = set_tileElemTys freshCandidate (FloatType k) (FloatType k)
           (FloatType Float32)
       ∧ floatWidth k = 16
       ∧ floatWidth Float8E5M2 ≤ floatWidth k
       ∧ floatWidth BFloat16 ≤ floatWidth k
       ∧ (floatWidth Float8E5M2 = 16 → k = Float8E5M2)
       ∧ (floatWidth BFloat16 = 16 → k = BFloat16)
       ∧ (floatWidth Float8E5M2 < 16 → floatWidth BFloat16 < 16 →
          k = if supportBf16 allSupported then BFloat16 else Float16).
Proof.
  apply (checkElemTypes_float_promotion Float8E5M2 BFloat16
           (FloatType Float32) (FloatType Float32) allSupported
           freshCandidate).
  reflexivity.
Defined.

(** ** The verdict of the analysis *)

Lemma checkInputShapes_total lhs res :
  2 ≤ getRank res →
  ∃ b, checkInputShapes lhs res = Some b
       ∧ (b = true ↔
          ∃ d0 d1 n, getShape lhs = [d0; d1] ∧ getDimSize res 1 = Some n
                     ∧ 8 ≤ d0 ∧ 8 ≤ d1 ∧ 8 ≤ n).
Proof.
  intros Hres.
  assert (∃ n, getDimSize res 1 = Some n) as [n Hn].
  { unfold getDimSize, getRank in *.
    destruct (getShape res) as [|? [|n ?]]; cbn in Hres; [lia..|eauto]. }
  destruct (checkInputShapes lhs res) as [[]|] eqn:H.
  - exists true. split; [done|]. split; [intros _|done].
    destruct (checkInputShapes_accepts _ _ H)
      as (d0 & d1 & n' & ? & ? & ? & ? & ?). eauto 10.
  - exists false. split; [done|]. split; [done|].
    intros (d0 & d1 & n' & Hshape & Hn' & ? & ? & ?). revert H.
    unfold checkInputShapes, getRank, getDimSize in *. rewrite Hshape.
    cbn. destruct (Z.ltb_spec d0 8); [lia|]. destruct (Z.ltb_spec d1 8); [lia|].
    rewrite Hn'. cbn. destruct (Z.ltb_spec n' 8); [lia|done].
  - exfalso. revert H. unfold checkInputShapes.
    destruct (Z.eqb_spec (getRank lhs) 2) as [Hrank|Hrank]; [|done]. cbn.
    destruct (getRank_2 _ Hrank) as (d0 & d1 & Hshape).
    unfold getDimSize in *. rewrite Hshape. cbn.
    destruct (d0 <? 8); [done|]. destruct (d1 <? 8); [done|].
    rewrite Hn. cbn. by destruct (n <? 8).
Qed.

(** The descriptor of an accepted operation in full. *)
Lemma isAmxCandidate_final o s c0 c :
  isAmxCandidate o s c0 = Some (true, c) →
  ∃ c2 M N,
    getDimSize (resTy o) 0 = Some M ∧ getDimSize (resTy o) 1 = Some N
    ∧ outBuf c2 = outBuf c0 ∧ origStore c2 = origStore c0
    ∧ keepAccInBuf c2 = keepAccInBuf c0
    ∧ c = if isLoopCarriedAcc o then
            if accumulatorFits c2 M N then
              findOutputBuffer (loopResultUsers o)
                               (set_keepAccOnTiles c2 true)
            else
              set_keepAccInBuf (set_keepAccOnTiles c2 false) true
          else
            findOutputBuffer (resultUsers o) (set_keepAccOnTiles c2 false).
Proof.
  unfold isAmxCandidate.
  destruct (checkElemTypes _ _ _ _ s c0) as [[] c1] eqn:Htypes; [|done].
  cbn [negb].
  destruct (checkInputShapes _ _) as [[]|] eqn:Hshapes; [|done..].
  cbn [mbind option_bind negb].
  destruct (setupBlockAndTileSizes _ _ _) as [c2|] eqn:Hsizes; [|done].
  cbn [mbind option_bind].
  destruct (setupBlockAndTileSizes_inv _ _ _ _ Hsizes)
    as (M & N & tm & tn & tk & bm & bn & HM & HN & Hc2).
  destruct (checkElemTypes_tile_width _ _ _ _ _ _ _ Htypes)
    as (ty & aty & -> & _).
  intros H. exists c2, M, N.
  split; [done|]. split; [done|]. rewrite Hc2 at 1 2 3.
  split; [done|]. split; [done|]. split; [done|].
  revert H. unfold getDimSize, accumulatorFits. rewrite HM, HN.
  cbn [mbind option_bind]. clear Hc2 Hsizes.
  destruct (isLoopCarriedAcc o); cbn.
  - destruct (Int64.mul (tilesInBlockM c2) (tileM c2) <? M); cbn;
      [by intros [= <-]|].
    destruct (Int64.mul (tilesInBlockN c2) (tileN c2) <? N); cbn;
      by intros [= <-].
  - by intros [= <-].
Qed.

(** X4: on an operation whose result type is a valid vector type of rank
    at least two the analysis always gives a verdict, and it accepts
    exactly when the element types pass [checkElemTypes], the LHS is
    two-dimensional and the LHS rows, LHS columns and result columns are at
    least 8.  Whether the accumulator is carried by a loop, and who uses
    the result, has no influence on the verdict. *)
Theorem isAmxCandidate_verdict :
  ∀ (o : DotOp) (s : Support) (c0 : AmxDotOpCandidate),
    VectorType_valid (resTy o) → 2 ≤ getRank (resTy o) →
    ∃ accepted c,
      isAmxCandidate o s c0 = Some (accepted, c)
      ∧ (accepted = true ↔
         (checkElemTypes (getElementType (lhsTy o))
            (getElementType (rhsTy o)) (getElementType (accTy o))
            (getElementType (resTy o)) s c0).1 = true
         ∧ ∃ d0 d1 n,
             getShape (lhsTy o) = [d0; d1]
             ∧ getDimSize (resTy o) 1 = Some n
             ∧ 8 ≤ d0 ∧ 8 ≤ d1 ∧ 8 ≤ n).
Proof.
  intros o s c0 Hvalid Hrank.
  destruct (checkInputShapes_total (lhsTy o) (resTy o) Hrank)
    as (shapesOk & Hshapes & Hiff).
  unfold isAmxCandidate.
  destruct (checkElemTypes _ _ _ _ s c0) as [[] c1] eqn:Htypes;
    cbn [negb fst].
  2:{ exists false, c1. split; [done|]. split; [done|]. by intros [? _]. }
  rewrite Hshapes. cbn [mbind option_bind].
  destruct shapesOk; cbn [negb].
  2:{ exists false, c1. split; [done|]. split; [done|].
      intros [_ H]. by apply Hiff in H. }
  destruct (proj1 Hiff eq_refl) as (d0 & d1 & n & Hlhs & Hn & Hd0 & Hd1 & Hn8).
  destruct (checkElemTypes_tile_width _ _ _ _ _ _ _ Htypes)
    as (ty & aty & -> & Hbw).
  assert (∃ M, getDimSize (resTy o) 0 = Some M) as [M HM].
  { unfold getDimSize, getRank in *.
    destruct (getShape (resTy o)) as [|M ?]; cbn in Hrank; [lia|eauto]. }
  destruct (VectorType_valid_dim _ _ _ Hvalid HM).
  destruct (VectorType_valid_dim _ _ _ Hvalid Hn).
  enough (∃ c : AmxDotOpCandidate,
            setupBlockAndTileSizes (getShape (lhsTy o)) (getShape (resTy o))
              (set_op (set_tileElemTys c0 ty ty aty) o)
            ≫= (λ candidate,
                  let candidate :=
                    set_keepAccOnTiles candidate (isLoopCarriedAcc o) in
                  if keepAccOnTiles candidate then
                    m ← getDimSize (resTy o) 0;
                    if Int64.mul (tilesInBlockM candidate) (tileM candidate)
                       <? m
                    then Some (true,
                               set_keepAccInBuf
                                 (set_keepAccOnTiles candidate false) true)
                    else
                      n ← getDimSize (resTy o) 1;
                      if Int64.mul (tilesInBlockN candidate)
                                   (tileN candidate) <? n
                      then Some (true,
                                 set_keepAccInBuf
                                   (set_keepAccOnTiles candidate false) true)
                      else Some (true,
                                 findOutputBuffer (loopResultUsers o)
                                                  candidate)
                  else Some (true,
                             findOutputBuffer (resultUsers o) candidate))
            = Some (true, c)) as [c Hc].
  { exists true, c. split; [exact Hc|]. split; [|done].
    intros _. split; [done|]. eauto 10. }
  destruct (setupBlockAndTileSizes_result
              (getShape (lhsTy o)) (getShape (resTy o))
              (set_op (set_tileElemTys c0 ty ty aty) o) M n d1 ty)
    as (blocks & _ & _ & ->); try done.
  { by rewrite Hlhs. }
  cbn [mbind option_bind]. unfold getDimSize in *. rewrite HM, Hn.
  cbn [mbind option_bind].
  repeat match goal with
         | |- context [if ?b then _ else _] => destruct b
         end; eauto.
Qed.

Lemma isAmxCandidate_verdict_witness :
  ∃ accepted c,
    isAmxCandidate scenarioD allSupported freshCandidate
      = Some (accepted, c)
    ∧ (accepted = true ↔
       (checkElemTypes (getElementType (lhsTy scenarioD))
          (getElementType (rhsTy scenarioD))
          (getElementType (accTy scenarioD))
          (getElementType (resTy scenarioD)) allSupported
          freshCandidate).1 = true
       ∧ ∃ d0 d1 n,
           getShape (lhsTy scenarioD) = [d0; d1]
           ∧ getDimSize (resTy scenarioD) 1 = Some n
           ∧ 8 ≤ d0 ∧ 8 ≤ d1 ∧ 8 ≤ n).
Proof.
  apply isAmxCandidate_verdict.
  - apply vector_valid; [lia|lia|]. vm_compute. discriminate.
  - vm_compute. discriminate.
Defined.

(** X5: with the three capabilities disabled the analysis rejects every
    operation and hands the descriptor back untouched, so the early return
    of the pass skips nothing that would have been converted. *)
Theorem isAmxCandidate_none_supported :
  ∀ (o : DotOp) (s : Support) (c0 : AmxDotOpCandidate),
    supportInt8 s = false → supportFp16 s = false → supportBf16 s = false →
    isAmxCandidate o s c0 = Some (false, c0).
Proof.
  intros o s c0 Hi Hf Hb. unfold isAmxCandidate.
  pose proof (checkElemTypes_none_supported
                (getElementType (lhsTy o)) (getElementType (rhsTy o))
                (getElementType (accTy o)) (getElementType (resTy o)) s c0
                Hi Hf Hb) as Hrej.
  destruct (checkElemTypes _ _ _ _ s c0) as [ok c1] eqn:H. cbn in Hrej.
  subst ok. by rewrite (checkElemTypes_rejected _ _ _ _ _ _ _ H).
Qed.

Lemma isAmxCandidate_none_supported_witness :
  isAmxCandidate scenarioA noneSupported freshCandidate
    = Some (false, freshCandidate).
Proof. apply isAmxCandidate_none_supported; reflexivity. Defined.

(** X6: a rejected operation leaves the descriptor as it was, except that
    the three tile element types may have been filled in: the sizes, the
    accumulator flags, the operation and the output buffer are not
    written. *)
Theorem isAmxCandidate_rejected_frame :
  ∀ (o : DotOp) (s : Support) (c0 c : AmxDotOpCandidate),
    isAmxCandidate o s c0 = Some (false, c) →
    c = c0 ∨ ∃ ty accTileTy, c = set_tileElemTys c0 ty ty accTileTy.
Proof.
  intros o s c0 c. unfold isAmxCandidate.
  destruct (checkElemTypes _ _ _ _ s c0) as [[] c1] eqn:Htypes; cbn [negb].
  - destruct (checkElemTypes_tile_width _ _ _ _ _ _ _ Htypes)
      as (ty & aty & -> & _).
    destruct (checkInputShapes _ _) as [[]|]; [|cbn; intros [= <-]; eauto|done].
    cbn [mbind option_bind negb].
    destruct (setupBlockAndTileSizes _ _ _) as [c2|]; [|done].
    cbn [mbind option_bind keepAccOnTiles set_keepAccOnTiles].
    destruct (isLoopCarriedAcc o); [|done].
    destruct (getDimSize (resTy o) 0); [|done]. cbn [mbind option_bind].
    destruct (_ <? _); [done|].
    destruct (getDimSize (resTy o) 1); [|done]. cbn [mbind option_bind].
    by destruct (_ <? _).
  - intros [= <-]. left.
    by apply (checkElemTypes_rejected _ _ _ _ _ _ _ Htypes).
Qed.

Lemma isAmxCandidate_rejected_frame_witness :
  let c := set_tileElemTys freshCandidate (FloatType Float16)
             (FloatType Float16) (FloatType Float32) in
  c = freshCandidate
  ∨ ∃ ty accTileTy, c = set_tileElemTys freshCandidate ty ty accTileTy.
Proof.
  apply (isAmxCandidate_rejected_frame
           (dotOp 4 4 4 (FloatType Float16) (FloatType Float16)
                  (FloatType Float32) (FloatType Float32) false)
           allSupported freshCandidate).
  reflexivity.
Defined.

(** ** The output buffer *)

Lemma findOutputBuffer_direct uses c :
  MemBuffer_empty (outBuf c) = true → origStore c = None →
  let c' := findOutputBuffer uses c in
  (MemBuffer_empty (outBuf c') = false ↔
   ∃ id source idx, uses = [TransferWriteOp id source idx false])
  ∧ (∀ id source idx,
       uses = [TransferWriteOp id source idx false] →
       outBuf c' = {| memRef := Some source; indices := idx; step := [] |})
  ∧ (∀ store, origStore c' = Some store → uses = [store]).
Proof.
  intros Hempty Hstore.
  destruct uses as [|[id source idx masked|id] [|? ?]]; cbn;
    rewrite ?Hempty, ?Hstore.
  1,4,5: split; [split; [done|by intros (? & ? & ? & ?)]|];
         split; [by intros|by intros].
  - destruct masked; cbn; rewrite ?Hempty.
    + split; [split; [done|by intros (? & ? & ? & ?)]|].
      split; [by intros|]. by intros store [= <-].
    + split; [split; [eauto|done]|].
      split; [by intros ? ? ? [= _ -> ->]|]. by intros store [= <-].
  - split; [split; [done|by intros (? & ? & ? & ?)]|].
    split; [by intros|by intros].
Qed.

(** X7: starting from a fresh descriptor, an accepted operation gets a
    direct output buffer exactly when its accumulator is not bufferized and
    the inspected value has a single use that is a transfer write without
    mask or bounds check; the buffer is then the memory and the indices of
    that write.  A bufferized accumulator never has an output buffer nor an
    original store, and a recorded original store is always the only use
    of the inspected value. *)
Theorem isAmxCandidate_output_buffer :
  ∀ (o : DotOp) (s : Support) (c0 c : AmxDotOpCandidate),
    MemBuffer_empty (outBuf c0) = true → origStore c0 = None →
    keepAccInBuf c0 = false →
    isAmxCandidate o s c0 = Some (true, c) →
    (keepAccInBuf c = true →
     MemBuffer_empty (outBuf c) = true ∧ origStore c = None)
    ∧ (MemBuffer_empty (outBuf c) = false ↔
       keepAccInBuf c = false
       ∧ ∃ id source idx,
           inspectedUses o = [TransferWriteOp id source idx false])
    ∧ (∀ id source idx,
         keepAccInBuf c = false →
         inspectedUses o = [TransferWriteOp id source idx false] →
         outBuf c = {| memRef := Some source; indices := idx; step := [] |}
         ∧ origStore c = Some (TransferWriteOp id source idx false))
    ∧ (∀ store, origStore c = Some store → inspectedUses o = [store]).
Proof.
  intros o s c0 c Hempty Hstore Hfresh
    (c2 & M & N & _ & _ & Hout & Horig & Hbuf & ->)%isAmxCandidate_final.
  rewrite <- Hout in Hempty. rewrite <- Horig in Hstore.
  rewrite <- Hbuf in Hfresh. unfold inspectedUses.
  assert (∀ uses b,
            let c := findOutputBuffer uses (set_keepAccOnTiles c2 b) in
            (keepAccInBuf c = true →
             MemBuffer_empty (outBuf c) = true ∧ origStore c = None)
            ∧ (MemBuffer_empty (outBuf c) = false ↔
               keepAccInBuf c = false
               ∧ ∃ id source idx,
                   uses = [TransferWriteOp id source idx false])
            ∧ (∀ id source idx,
                 keepAccInBuf c = false →
                 uses = [TransferWriteOp id source idx false] →
                 outBuf c
                 = {| memRef := Some source; indices := idx; step := [] |}
                 ∧ origStore c = Some (TransferWriteOp id source idx false))
            ∧ (∀ store, origStore c = Some store → uses = [store]))
    as Hfind.
  { intros uses b.
    destruct (findOutputBuffer_direct uses (set_keepAccOnTiles c2 b)
                Hempty Hstore) as (Hiff & Hbufval & Hst).
    destruct (findOutputBuffer_fields uses (set_keepAccOnTiles c2 b))
      as (_ & _ & _ & _ & _ & _ & _ & _ & _ & _ & Hk).
    cbn zeta in *. cbn in Hk. rewrite Hk, Hfresh.
    split; [done|]. split; [|split; [|done]].
    - rewrite Hiff. intuition.
    - intros id source idx _ Huses. split; [by eapply Hbufval|].
      rewrite Huses. reflexivity. }
  destruct (isLoopCarriedAcc o); [|apply Hfind].
  destruct (accumulatorFits c2 M N); [apply Hfind|]. cbn.
  rewrite Hempty, Hstore.
  split; [done|]. split; [split; [done|by intros [? _]]|].
  split; [by intros|by intros].
Qed.

Lemma isAmxCandidate_output_buffer_witness :
  let o := {| opId := 0%nat; lhsTy := vector [16; 32] (FloatType Float16);
              rhsTy := vector [32; 16] (FloatType Float16);
              accTy := vector [16; 16] (FloatType Float32);
              resTy := vector [16; 16] (FloatType Float32);
              isLoopCarriedAcc := false;
              resultUsers := [TransferWriteOp 1%nat 7%nat [8; 9]%nat false];
              loopResultUsers := [] |} in
  let c := analysed o allSupported in
  (keepAccInBuf c = true →
   MemBuffer_empty (outBuf c) = true ∧ origStore c = None)
  ∧ (MemBuffer_empty (outBuf c) = false ↔
     keepAccInBuf c = false
     ∧ ∃ id source idx,
         inspectedUses o = [TransferWriteOp id source idx false])
  ∧ (∀ id source idx,
       keepAccInBuf c = false →
       inspectedUses o = [TransferWriteOp id source idx false] →
       outBuf c = {| memRef := Some source; indices := idx; step := [] |}
       ∧ origStore c = Some (TransferWriteOp id source idx false))
  ∧ (∀ store, origStore c = Some store → inspectedUses o = [store]).
Proof.
  cbn zeta.
  apply (isAmxCandidate_output_buffer _ allSupported freshCandidate);
    reflexivity.
Defined.

(** * Further properties of the size planner *)

(** ** Blocks and tiles inside the accumulator *)

(** The sizes of an accepted operation against its dimensions. *)
Lemma isAmxCandidate_geometry o s c0 c :
  VectorType_valid (resTy o) →
  isAmxCandidate o s c0 = Some (true, c) →
  ∃ M N K,
    getDimSize (resTy o) 0 = Some M ∧ getDimSize (resTy o) 1 = Some N
    ∧ getDimSize (lhsTy o) 1 = Some K
    ∧ M ≤ Int64.max_signed ∧ N ≤ Int64.max_signed
    ∧ 1 ≤ tileM c ≤ M ∧ 1 ≤ tileN c ≤ N ∧ 1 ≤ tileK c ≤ K
    ∧ 1 ≤ tilesInBlockM c ≤ M `div` tileM c
    ∧ 1 ≤ tilesInBlockN c ≤ N `div` tileN c
    ∧ (M `div` tileM c) * tileM c ≤ M
    ∧ (N `div` tileN c) * tileN c ≤ N.
Proof.
  intros Hvalid Hacc.
  destruct (isAmxCandidate_descriptor o s c0 c Hvalid Hacc)
    as (M & N & K & ty & HM & HN & HK & HM1 & HN8 & HK8 & Hnum & _ & _ & _
        & _ & Hbw & HtM & HtN & HtK & [Hpos Hloop] & _).
  destruct (while_loop_positive _ _ _ Hloop Hpos)
    as ([HbM HbN] & HleM & HleN & _). cbn in HbM, HbN, HleM, HleN.
  destruct (VectorType_valid_dim _ _ _ Hvalid HM).
  destruct (VectorType_valid_dim _ _ _ Hvalid HN).
  exists M, N, K. rewrite HtM, HtN, HtK.
  pose proof (Z.mul_div_le M (Z.min M 16) ltac:(lia)) as HqM.
  pose proof (Z.mul_div_le N (Z.min N 16) ltac:(lia)) as HqN.
  rewrite Z.mul_comm in HqM. rewrite Z.mul_comm in HqN.
  assert (1 ≤ 512 `div` getIntOrFloatBitWidth ty) as HmaxK.
  { destruct Hbw as [-> | ->]; [change (512 `div` 8) with 64
                               |change (512 `div` 16) with 32]; lia. }
  repeat (split; [done || lia|]). done.
Qed.

(** The offsets that [shiftIndices] computes for a tile of the
    accumulator: no product overflows, and the tile lies inside the
    accumulator. *)
Lemma shiftIndices_accumulator_offsets o s c0 c accTileTy outer idxM idxN
  blockM blockN i j M N :
  VectorType_valid (resTy o) →
  isAmxCandidate o s c0 = Some (true, c) →
  getDimSize (resTy o) 0 = Some M → getDimSize (resTy o) 1 = Some N →
  tileRows accTileTy = tileM c → tileCols accTileTy = tileN c →
  0 ≤ blockM < (M `div` tileM c) `div` tilesInBlockM c →
  0 ≤ blockN < (N `div` tileN c) `div` tilesInBlockN c →
  0 ≤ i < tilesInBlockM c → 0 ≤ j < tilesInBlockN c →
  shiftIndices (outer ++ [idxM; idxN]) accTileTy (tilesInBlockM c)
               (tilesInBlockN c) blockM blockN i j
  = Some (((λ v, (v, 0)) <$> outer)
            ++ [(idxM, (blockM * tilesInBlockM c + i) * tileM c);
                (idxN, (blockN * tilesInBlockN c + j) * tileN c)])
  ∧ (blockM * tilesInBlockM c + i + 1) * tileM c ≤ M
  ∧ (blockN * tilesInBlockN c + j + 1) * tileN c ≤ N.
Proof.
  intros Hvalid Hacc HM HN Hrows Hcols HblockM HblockN Hi Hj.
  destruct (isAmxCandidate_geometry o s c0 c Hvalid Hacc)
    as (M' & N' & K & HM' & HN' & _ & HMmax & HNmax & HtM & HtN & _ & HbM
        & HbN & HqM & HqN).
  assert (M' = M) as -> by congruence. assert (N' = N) as -> by congruence.
  assert (∀ X t b block k,
            1 ≤ t → 1 ≤ b ≤ X `div` t → (X `div` t) * t ≤ X →
            0 ≤ block < (X `div` t) `div` b → 0 ≤ k < b →
            (block * b + k + 1) * t ≤ X) as Hin.
  { intros X t b block k Ht Hb Hq Hblock Hk.
    pose proof (Z.mul_div_le (X `div` t) b ltac:(lia)) as Hr.
    generalize dependent (X `div` t). intros q Hb Hq.
    generalize (q `div` b). intros r Hblock Hr.
    assert (block * b + k + 1 ≤ (block + 1) * b) by lia.
    assert ((block + 1) * b ≤ r * b) by nia.
    assert (block * b + k + 1 ≤ q) by lia.
    assert ((block * b + k + 1) * t ≤ q * t)
      by (apply Z.mul_le_mono_nonneg_r; lia).
    lia. }
  pose proof (Hin M _ _ blockM i (proj1 HtM) HbM HqM HblockM Hi) as HinM.
  pose proof (Hin N _ _ blockN j (proj1 HtN) HbN HqN HblockN Hj) as HinN.
  split; [|done]. unfold shiftIndices.
  rewrite reverse_app.
  change (reverse [idxM; idxN]) with [idxN; idxM]. cbn [app].
  rewrite reverse_involutive, Hrows, Hcols.
  assert (∀ X t b block k,
            1 ≤ t → 1 ≤ b → 0 ≤ block → 0 ≤ k →
            (block * b + k + 1) * t ≤ X → X ≤ Int64.max_signed →
            Int64.wrap (Int64.mul (Int64.mul block b) t + Int64.mul k t)
            = (block * b + k) * t) as Hoff.
  { intros X t b block k Ht Hb Hblock Hk Hle Hmax.
    assert (∀ z, 0 ≤ z ≤ X → Int64.in_range z) as Hr.
    { intros z Hz.
      unfold Int64.in_range, Int64.min_signed, Int64.max_signed in *. lia. }
    unfold Int64.mul.
    rewrite (wrap_in_range (block * b)) by (apply Hr; nia).
    rewrite (wrap_in_range (block * b * t)) by (apply Hr; nia).
    rewrite (wrap_in_range (k * t)) by (apply Hr; nia).
    rewrite wrap_in_range by (apply Hr; nia). lia. }
  rewrite (Hoff M) by (done || lia). rewrite (Hoff N) by (done || lia).
  done.
Qed.

(** X8: for an accepted operation, storing a tile of a block into a buffer
    indexed by the rows and columns of the result succeeds for every block
    and tile coordinate the conversion loops over.  It creates one tile
    store whose outer indices are unshifted and whose two innermost indices
    are shifted by [(blockM * tilesInBlockM + i) * tileM] rows and
    [(blockN * tilesInBlockN + j) * tileN] columns, computed without
    overflow; the stored tile lies inside the [M×N] result. *)
Theorem storeTile_accumulator_in_bounds :
  ∀ (o : DotOp) (s : Support) (c0 c : AmxDotOpCandidate)
    (accElemTy : MlirType) (val base : Value) (buf : MemBuffer)
    (outer : list Value) (idxM idxN : Value) (blockM blockN i j M N : Z)
    (st : RewriterState),
    VectorType_valid (resTy o) →
    isAmxCandidate o s c0 = Some (true, c) →
    getDimSize (resTy o) 0 = Some M → getDimSize (resTy o) 1 = Some N →
    memRef buf = Some base → indices buf = outer ++ [idxM; idxN] →
    0 ≤ blockM < (M `div` tileM c) `div` tilesInBlockM c →
    0 ≤ blockN < (N `div` tileN c) `div` tilesInBlockN c →
    0 ≤ i < tilesInBlockM c → 0 ≤ j < tilesInBlockN c →
    let accTileTy := {| tileRows := tileM c; tileCols := tileN c;
                        tileElemTy := accElemTy |} in
    let row := (blockM * tilesInBlockM c + i) * tileM c in
    let col := (blockN * tilesInBlockN c + j) * tileN c in
    storeTile accTileTy val buf (tilesInBlockM c) (tilesInBlockN c)
              blockM blockN i j st
    = Some (tt, {| nextValue := nextValue st;
                   events := events st
                     ++ [Create (TileStoreOp base
                           (((λ v, (v, 0)) <$> outer)
                              ++ [(idxM, row); (idxN, col)]) val)] |})
    ∧ 0 ≤ row ∧ row + tileM c ≤ M ∧ 0 ≤ col ∧ col + tileN c ≤ N.
Proof.
  intros o s c0 c accElemTy val base buf outer idxM idxN blockM blockN i j M N
    st Hvalid Hacc HM HN Hbase Hidx HblockM HblockN Hi Hj accTileTy row col.
  destruct (shiftIndices_accumulator_offsets o s c0 c accTileTy outer idxM
              idxN blockM blockN i j M N Hvalid Hacc HM HN eq_refl eq_refl
              HblockM HblockN Hi Hj) as (Hshift & HinM & HinN).
  destruct (isAmxCandidate_block_budget o s c0 c Hvalid Hacc)
    as (HbM & HbN & _).
  destruct (isAmxCandidate_geometry o s c0 c Hvalid Hacc)
    as (M' & N' & K & _ & _ & _ & _ & _ & HtM & HtN & _).
  split.
  - unfold storeTile, bind, lift, emit. by rewrite Hidx, Hshift, Hbase.
  - unfold row, col. nia.
Qed.

Lemma storeTile_accumulator_in_bounds_witness :
  let c := analysed dot48 allSupported in
  let accTileTy := {| tileRows := tileM c; tileCols := tileN c;
                      tileElemTy := FloatType Float32 |} in
  let st := {| nextValue := 20%nat; events := [] |} in
  let row := (0 * tilesInBlockM c + 2) * tileM c in
  let col := (2 * tilesInBlockN c + 0) * tileN c in
  storeTile accTileTy 5%nat (bufferAt 7%nat) (tilesInBlockM c)
            (tilesInBlockN c) 0 2 2 0 st
  = Some (tt, {| nextValue := nextValue st;
                 events := events st
                   ++ [Create (TileStoreOp 7%nat
                         (((λ v, (v, 0)) <$> [])
                            ++ [(8%nat, row); (9%nat, col)]) 5%nat)] |})
  ∧ 0 ≤ row ∧ row + tileM c ≤ 48 ∧ 0 ≤ col ∧ col + tileN c ≤ 48.
Proof.
  cbn zeta.
  apply (storeTile_accumulator_in_bounds dot48 allSupported freshCandidate
           (analysed dot48 allSupported) (FloatType Float32) 5%nat 7%nat
           (bufferAt 7%nat) [] 8%nat 9%nat 0 2 2 0 48 48).
  - apply vector_valid; [lia|lia|]. vm_compute. discriminate.
  - vm_compute. reflexivity.
  - reflexivity.
  - reflexivity.
  - reflexivity.
  - reflexivity.
  - vm_compute. split; [discriminate|reflexivity].
  - vm_compute. split; [discriminate|reflexivity].
  - vm_compute. split; [discriminate|reflexivity].
  - vm_compute. split; [discriminate|reflexivity].
Defined.

(** X9: [shiftIndices] is defined exactly on index lists with at least two
    entries.  It keeps the index values and their order, leaves every index
    but the two innermost unshifted, and shifts the two innermost by the
    row and column offsets of the tile, which are products and sums of
    [int64_t] values. *)
Theorem shiftIndices_frame :
  ∀ (indices : list Value) (tileTy : TileType)
    (tilesInBlockM tilesInBlockN blockM blockN i j : Z),
    match shiftIndices indices tileTy tilesInBlockM tilesInBlockN
                       blockM blockN i j with
    | Some res =>
        (2 ≤ length indices)%nat
        ∧ res.*1 = indices
        ∧ (∀ k v off, (k + 2 < length indices)%nat →
                      res !! k = Some (v, off) → off = 0)
        ∧ res.*2 !! (length indices - 2)%nat
          = Some (Int64.wrap
                    (Int64.mul (Int64.mul blockM tilesInBlockM)
                               (tileRows tileTy)
                     + Int64.mul i (tileRows tileTy)))
        ∧ res.*2 !! (length indices - 1)%nat
          = Some (Int64.wrap
                    (Int64.mul (Int64.mul blockN tilesInBlockN)
                               (tileCols tileTy)
                     + Int64.mul j (tileCols tileTy)))
    | None => (length indices < 2)%nat
    end.
Proof.
  intros indices tileTy bm bn blockM blockN i j. unfold shiftIndices.
  destruct (reverse indices) as [|idxN [|idxM outer]] eqn:Hrev;
    apply (f_equal reverse) in Hrev; rewrite reverse_involutive in Hrev;
    subst indices; [cbn; lia..|].
  rewrite !reverse_cons, <- (assoc app), !length_app, length_reverse.
  cbn [length app].
  assert (length ((λ v : Value, (v, 0)) <$> reverse outer).*2
          = length outer) as Hlen
    by by rewrite !length_fmap, length_reverse.
  split; [lia|]. split; [|split; [|split]].
  - rewrite fmap_app, <- list_fmap_compose. cbn. by rewrite list_fmap_id.
  - intros k v off Hk. rewrite lookup_app_l
      by (rewrite length_fmap, length_reverse; lia).
    rewrite list_lookup_fmap. by intros (? & ? & [= _ <-])%fmap_Some.
  - rewrite fmap_app, lookup_app_r by (rewrite Hlen; lia).
    rewrite Hlen. by replace (_ - _ - _)%nat with 0%nat by lia.
  - rewrite fmap_app, lookup_app_r by (rewrite Hlen; lia).
    rewrite Hlen. by replace (_ - _ - _)%nat with 1%nat by lia.
Qed.

(** X10: two different tiles of the accumulator of an accepted operation
    do not overlap: for two different block and tile coordinates inside the
    loops of the conversion, the rows or the columns that [shiftIndices]
    addresses are disjoint. *)
Theorem shiftIndices_tiles_disjoint :
  ∀ (o : DotOp) (s : Support) (c0 c : AmxDotOpCandidate)
    (accTileTy : TileType) (outer : list Value) (idxM idxN : Value)
    (blockM blockN i j blockM' blockN' i' j' M N : Z),
    VectorType_valid (resTy o) →
    isAmxCandidate o s c0 = Some (true, c) →
    getDimSize (resTy o) 0 = Some M → getDimSize (resTy o) 1 = Some N →
    tileRows accTileTy = tileM c → tileCols accTileTy = tileN c →
    0 ≤ blockM < (M `div` tileM c) `div` tilesInBlockM c →
    0 ≤ blockN < (N `div` tileN c) `div` tilesInBlockN c →
    0 ≤ i < tilesInBlockM c → 0 ≤ j < tilesInBlockN c →
    0 ≤ blockM' < (M `div` tileM c) `div` tilesInBlockM c →
    0 ≤ blockN' < (N `div` tileN c) `div` tilesInBlockN c →
    0 ≤ i' < tilesInBlockM c → 0 ≤ j' < tilesInBlockN c →
    (blockM, blockN, i, j) ≠ (blockM', blockN', i', j') →
    ∃ row col row' col',
      shiftIndices (outer ++ [idxM; idxN]) accTileTy (tilesInBlockM c)
                   (tilesInBlockN c) blockM blockN i j
      = Some (((λ v, (v, 0)) <$> outer) ++ [(idxM, row); (idxN, col)])
      ∧ shiftIndices (outer ++ [idxM; idxN]) accTileTy (tilesInBlockM c)
                     (tilesInBlockN c) blockM' blockN' i' j'
        = Some (((λ v, (v, 0)) <$> outer) ++ [(idxM, row'); (idxN, col')])
      ∧ (row + tileM c ≤ row' ∨ row' + tileM c ≤ row
         ∨ col + tileN c ≤ col' ∨ col' + tileN c ≤ col).
Proof.
  intros o s c0 c accTileTy outer idxM idxN blockM blockN i j
    blockM' blockN' i' j' M N Hvalid Hacc HM HN Hrows Hcols
    HblockM HblockN Hi Hj HblockM' HblockN' Hi' Hj' Hne.
  destruct (shiftIndices_accumulator_offsets o s c0 c accTileTy outer idxM
              idxN blockM blockN i j M N Hvalid Hacc HM HN Hrows Hcols
              HblockM HblockN Hi Hj) as (Hshift & _).
  destruct (shiftIndices_accumulator_offsets o s c0 c accTileTy outer idxM
              idxN blockM' blockN' i' j' M N Hvalid Hacc HM HN Hrows Hcols
              HblockM' HblockN' Hi' Hj') as (Hshift' & _).
  destruct (isAmxCandidate_geometry o s c0 c Hvalid Hacc)
    as (M' & N' & K & _ & _ & _ & _ & _ & HtM & HtN & _).
  eexists _, _, _, _. split; [exact Hshift|]. split; [exact Hshift'|].
  assert (∀ b k b' k' t, 0 ≤ k < t → 0 ≤ k' < t →
                         b * t + k = b' * t + k' → b = b' ∧ k = k') as Huniq.
  { intros b k b' k' t Hk Hk' Heq.
    assert (b = b') as -> by nia. split; [done|lia]. }
  destruct (decide (blockM * tilesInBlockM c + i
                    = blockM' * tilesInBlockM c + i')) as [HeqM|HneM].
  - destruct (decide (blockN * tilesInBlockN c + j
                      = blockN' * tilesInBlockN c + j')) as [HeqN|HneN].
    + destruct (Huniq _ _ _ _ _ Hi Hi' HeqM) as [-> ->].
      destruct (Huniq _ _ _ _ _ Hj Hj' HeqN) as [-> ->]. done.
    + right. right. nia.
  - nia.
Qed.

Lemma shiftIndices_tiles_disjoint_witness :
  let c := analysed dot48 allSupported in
  let accTileTy := {| tileRows := tileM c; tileCols := tileN c;
                      tileElemTy := FloatType Float32 |} in
  ∃ row col row' col',
    shiftIndices ([] ++ [8%nat; 9%nat]) accTileTy (tilesInBlockM c)
                 (tilesInBlockN c) 0 2 2 0
    = Some (((λ v, (v, 0)) <$> []) ++ [(8%nat, row); (9%nat, col)])
    ∧ shiftIndices ([] ++ [8%nat; 9%nat]) accTileTy (tilesInBlockM c)
                   (tilesInBlockN c) 0 1 2 0
      = Some (((λ v, (v, 0)) <$> []) ++ [(8%nat, row'); (9%nat, col')])
    ∧ (row + tileM c ≤ row' ∨ row' + tileM c ≤ row
       ∨ col + tileN c ≤ col' ∨ col' + tileN c ≤ col).
Proof.
  cbn zeta.
  apply (shiftIndices_tiles_disjoint dot48 allSupported freshCandidate
           (analysed dot48 allSupported) _ [] 8%nat 9%nat 0 2 2 0 0 1 2 0
           48 48).
  - apply vector_valid; [lia|lia|]. vm_compute. discriminate.
  - vm_compute. reflexivity.
  - reflexivity.
  - reflexivity.
  - reflexivity.
  - reflexivity.
  - vm_compute. split; [discriminate|reflexivity].
  - vm_compute. split; [discriminate|reflexivity].
  - vm_compute. split; [discriminate|reflexivity].
  - vm_compute. split; [discriminate|reflexivity].
  - vm_compute. split; [discriminate|reflexivity].
  - vm_compute. split; [discriminate|reflexivity].
  - vm_compute. split; [discriminate|reflexivity].
  - vm_compute. split; [discriminate|reflexivity].
  - discriminate.
Defined.

(** ** Dimensions that are powers of two *)

Lemma isPow2_pos z : isPow2 z → 1 ≤ z.
Proof. intros [k ->]. pose proof (Z.pow_pos_nonneg 2 (Z.of_nat k)). lia. Qed.

Lemma isPow2_div z w :
  isPow2 z → isPow2 w → w ≤ z → isPow2 (z `div` w) ∧ z `div` w * w = z.
Proof.
  intros [a ->] [b ->] Hle.
  apply Z.pow_le_mono_r_iff in Hle; [|lia..].
  assert (2 ^ Z.of_nat a = 2 ^ Z.of_nat (a - b) * 2 ^ Z.of_nat b) as ->.
  { rewrite <- Z.pow_add_r by lia. f_equal. lia. }
  pose proof (Z.pow_pos_nonneg 2 (Z.of_nat b)).
  rewrite Z.div_mul by lia. split; [by exists (a - b)%nat|done].
Qed.

Lemma isPow2_min z w : isPow2 z → isPow2 w → isPow2 (Z.min z w).
Proof. intros Hz Hw. by destruct (Z.min_spec z w) as [[_ ->]|[_ ->]]. Qed.

Lemma halve_pow2 s s' :
  halve s s' → positive_blocks s → isPow2 s.1 → isPow2 s.2 →
  positive_blocks s' ∧ isPow2 s'.1 ∧ isPow2 s'.2.
Proof.
  assert (isPow2 2) as H2 by by exists 1%nat.
  intros [a b Hprod Hlt|a b Hprod Hle] [Ha Hb] Hpa Hpb; cbn in *.
  - destruct (isPow2_div a 2 Hpa H2 ltac:(lia)) as [Hp _].
    pose proof (isPow2_pos _ Hp). done.
  - destruct (isPow2_div b 2 Hpb H2 ltac:(nia)) as [Hp _].
    pose proof (isPow2_pos _ Hp). done.
Qed.

Lemma rtc_halve_pow2 s s' :
  rtc halve s s' → positive_blocks s → isPow2 s.1 → isPow2 s.2 →
  isPow2 s'.1 ∧ isPow2 s'.2.
Proof.
  induction 1 as [s|s s1 s' Hstep _ IH]; intros Hpos H1 H2; [done|].
  destruct (halve_pow2 s s1 Hstep Hpos H1 H2) as (? & ? & ?). by apply IH.
Qed.

(** X11: when the dimensions [M], [N] and [K] of an accepted operation
    are powers of two, the tiles tile them exactly: the blocks that the
    conversion loops over, times the tiles of a block, times the rows (or
    columns) of a tile, give the whole of [M] (or [N]), and the reduction
    steps times [tileK] give the whole of [K]. *)
Theorem isAmxCandidate_power_of_two_coverage :
  ∀ (o : DotOp) (s : Support) (c0 c : AmxDotOpCandidate) (M N K : Z),
    VectorType_valid (resTy o) →
    isAmxCandidate o s c0 = Some (true, c) →
    getDimSize (resTy o) 0 = Some M → getDimSize (resTy o) 1 = Some N →
    getDimSize (lhsTy o) 1 = Some K →
    isPow2 M → isPow2 N → isPow2 K →
    (M `div` tileM c) `div` tilesInBlockM c * tilesInBlockM c * tileM c = M
    ∧ (N `div` tileN c) `div` tilesInBlockN c * tilesInBlockN c * tileN c = N
    ∧ K `div` tileK c * tileK c = K.
Proof.
  intros o s c0 c M N K Hvalid Hacc HM HN HK HpM HpN HpK.
  destruct (isAmxCandidate_descriptor o s c0 c Hvalid Hacc)
    as (M' & N' & K' & ty & HM' & HN' & HK' & _ & _ & _ & _ & _ & _ & _
        & _ & Hbw & HtM & HtN & HtK & [Hpos Hloop] & _).
  assert (M' = M) as -> by congruence. assert (N' = N) as -> by congruence.
  assert (K' = K) as -> by congruence.
  assert (isPow2 16) as H16 by by exists 4%nat.
  assert (isPow2 (512 `div` getIntOrFloatBitWidth ty)) as HmaxK.
  { destruct Hbw as [-> | ->]; [by exists 6%nat|by exists 5%nat]. }
  destruct (isPow2_div M (Z.min M 16) HpM (isPow2_min _ _ HpM H16)
              ltac:(lia)) as [HqM HeM].
  destruct (isPow2_div N (Z.min N 16) HpN (isPow2_min _ _ HpN H16)
              ltac:(lia)) as [HqN HeN].
  destruct (isPow2_div K _ HpK (isPow2_min _ _ HpK HmaxK) ltac:(lia))
    as [_ HeK].
  destruct (while_loop_positive _ _ _ Hloop Hpos)
    as (_ & HleM & HleN & Hsteps & _). cbn in HleM, HleN.
  destruct (rtc_halve_pow2 _ _ Hsteps Hpos HqM HqN) as [HbM HbN].
  cbn in HbM, HbN.
  destruct (isPow2_div _ _ HqM HbM HleM) as [_ HeBM].
  destruct (isPow2_div _ _ HqN HbN HleN) as [_ HeBN].
  rewrite HtM, HtN, HtK. by rewrite HeBM, HeBN, HeM, HeN, HeK.
Qed.

Lemma isAmxCandidate_power_of_two_coverage_witness :
  let c := analysed scenarioD allSupported in
  (64 `div` tileM c) `div` tilesInBlockM c * tilesInBlockM c * tileM c = 64
  ∧ (64 `div` tileN c) `div` tilesInBlockN c * tilesInBlockN c * tileN c = 64
  ∧ 64 `div` tileK c * tileK c = 64.
Proof.
  cbn zeta.
  apply (isAmxCandidate_power_of_two_coverage scenarioD allSupported
           freshCandidate).
  - apply vector_valid; [lia|lia|]. vm_compute. discriminate.
  - vm_compute. reflexivity.
  - reflexivity.
  - reflexivity.
  - reflexivity.
  - exists 6%nat. reflexivity.
  - exists 6%nat. reflexivity.
  - exists 6%nat. reflexivity.
Defined.

(** X12: an accumulator is kept on tiles only when it is carried by a loop
    and one block is the whole accumulator: the tiles of the block tile
    [M] and [N] exactly, both block loops of the conversion have a single
    iteration, and the accumulator has at most 1024 elements (four tiles
    of 16×16). *)
Theorem isAmxCandidate_accumulator_on_tiles :
  ∀ (o : DotOp) (s : Support) (c0 c : AmxDotOpCandidate),
    VectorType_valid (resTy o) →
    isAmxCandidate o s c0 = Some (true, c) →
    keepAccOnTiles c = true →
    ∃ M N,
      getDimSize (resTy o) 0 = Some M ∧ getDimSize (resTy o) 1 = Some N
      ∧ isLoopCarriedAcc o = true
      ∧ tilesInBlockM c * tileM c = M ∧ tilesInBlockN c * tileN c = N
      ∧ (M `div` tileM c) `div` tilesInBlockM c = 1
      ∧ (N `div` tileN c) `div` tilesInBlockN c = 1
      ∧ M * N ≤ 1024.
Proof.
  intros o s c0 c Hvalid Hacc Hkeep.
  destruct (isAmxCandidate_descriptor o s c0 c Hvalid Hacc)
    as (M & N & K & ty & HM & HN & _ & _ & _ & _ & _ & _ & _ & _
        & _ & _ & HtM & HtN & _ & _ & Hon & _).
  destruct (isAmxCandidate_geometry o s c0 c Hvalid Hacc)
    as (M' & N' & K' & HM' & HN' & _ & _ & _ & HtM1 & HtN1 & _ & HbM
        & HbN & HqM & HqN).
  assert (M' = M) as -> by congruence. assert (N' = N) as -> by congruence.
  destruct (isAmxCandidate_block_budget o s c0 c Hvalid Hacc)
    as (_ & _ & Hbudget).
  pose proof (accumulatorFits_products o s c0 c M N Hvalid Hacc HM HN) as Hfit.
  rewrite Hkeep in Hon. symmetry in Hon.
  apply andb_true_iff in Hon as [Hloop Hfits].
  assert (¬ (tilesInBlockM c * tileM c < M
             ∨ tilesInBlockN c * tileN c < N)) as Hsmall.
  { intros Hbig%Hfit. congruence. }
  assert (tilesInBlockM c * tileM c = M) as HeM by nia.
  assert (tilesInBlockN c * tileN c = N) as HeN by nia.
  exists M, N. do 5 (split; [done|]).
  split; [|split].
  - rewrite <- HeM at 1. rewrite Z.div_mul by lia. apply Z.div_same. lia.
  - rewrite <- HeN at 1. rewrite Z.div_mul by lia. apply Z.div_same. lia.
  - rewrite <- HeM, <- HeN.
    assert (tileM c * tileN c ≤ 256) by nia.
    assert (0 ≤ tileM c * tileN c) by nia.
    replace (tilesInBlockM c * tileM c * (tilesInBlockN c * tileN c))
      with (tilesInBlockM c * tilesInBlockN c * (tileM c * tileN c)) by ring.
    nia.
Qed.

Lemma isAmxCandidate_accumulator_on_tiles_witness :
  let o := dotOp 32 32 64 (FloatType Float16) (FloatType Float16)
                 (FloatType Float32) (FloatType Float32) true in
  let c := analysed o allSupported in
  ∃ M N,
    getDimSize (resTy o) 0 = Some M ∧ getDimSize (resTy o) 1 = Some N
    ∧ isLoopCarriedAcc o = true
    ∧ tilesInBlockM c * tileM c = M ∧ tilesInBlockN c * tileN c = N
    ∧ (M `div` tileM c) `div` tilesInBlockM c = 1
    ∧ (N `div` tileN c) `div` tilesInBlockN c = 1
    ∧ M * N ≤ 1024.
Proof.
  cbn zeta.
  apply (isAmxCandidate_accumulator_on_tiles _ allSupported freshCandidate).
  - apply vector_valid; [lia|lia|]. vm_compute. discriminate.
  - vm_compute. reflexivity.
  - vm_compute. reflexivity.
Defined.

(** * The events of the generated code *)

(** ** Code that may have no result *)

Lemma emits_ret {A} (a : A) (Q : A → list Event → Prop) :
  Q a [] → emits (ret a) Q.
Proof. intros HQ st a' st' [= <- <-]. exists []. by rewrite app_nil_r. Qed.

Lemma emits_bind {A B} (m : Rewriter A) (k : A → Rewriter B)
  (P : A → list Event → Prop) (Q : B → list Event → Prop) :
  emits m P →
  (∀ a evs, P a evs → emits (k a) (λ b evs', Q b (evs ++ evs'))) →
  emits (bind m k) Q.
Proof.
  intros Hm Hk st b st2. unfold bind.
  destruct (m st) as [[a st1]|] eqn:Hrun; [|done]. intros Hrun'.
  destruct (Hm _ _ _ Hrun) as (evs1 & Hev1 & HP).
  destruct (Hk a evs1 HP _ _ _ Hrun') as (evs2 & Hev2 & HQ).
  exists (evs1 ++ evs2). by rewrite Hev2, Hev1, (assoc app).
Qed.

Lemma emits_consequence {A} (m : Rewriter A)
  (P Q : A → list Event → Prop) :
  emits m P → (∀ a evs, P a evs → Q a evs) → emits m Q.
Proof.
  intros Hm HPQ st a st' Hrun.
  destruct (Hm _ _ _ Hrun) as (evs & ? & ?). eauto.
Qed.

Lemma emits_conj {A} (m : Rewriter A) (P Q : A → list Event → Prop) :
  emits m P → emits m Q → emits m (λ a evs, P a evs ∧ Q a evs).
Proof.
  intros HP HQ st a st' Hrun.
  destruct (HP _ _ _ Hrun) as (evs & Hev & ?).
  destruct (HQ _ _ _ Hrun) as (evs' & Hev' & ?).
  rewrite Hev in Hev'. apply app_inv_head in Hev'. subst evs'. eauto.
Qed.

Lemma emits_lift {A} (o : option A) (Q : A → list Event → Prop) :
  (∀ a, o = Some a → Q a []) → emits (lift o) Q.
Proof.
  intros HQ st a st'. unfold lift. destruct o as [a'|]; [|done].
  intros [= <- <-]. exists []. rewrite app_nil_r. eauto.
Qed.

Lemma emits_bind_lift {A B} (o : option A) (k : A → Rewriter B)
  (Q : B → list Event → Prop) :
  (∀ a, o = Some a → emits (k a) Q) → emits (bind (lift o) k) Q.
Proof.
  intros Hk st b st'. unfold bind, lift. destruct o as [a|]; [|done].
  by apply Hk.
Qed.

Lemma emits_emit e (Q : unit → list Event → Prop) :
  Q tt [e] → emits (emit e) Q.
Proof. intros HQ st [] st' [= <-]. by exists [e]. Qed.

Lemma emits_fresh n (Q : Value → list Event → Prop) :
  (∀ v, Q v []) → emits (fresh n) Q.
Proof.
  intros HQ st v st' [= <- <-]. exists []. cbn. by rewrite app_nil_r.
Qed.

Lemma emits_create mk (Q : Value → list Event → Prop) :
  (∀ v, Q v [Create (mk v)]) → emits (create mk) Q.
Proof.
  intros HQ st v st'. unfold create, bind, fresh, emit, ret. cbn.
  intros [= <- <-]. by exists [Create (mk (nextValue st))].
Qed.

Lemma emits_forEach {A St} (l : list A) (body : A → St → Rewriter St)
  (s : St) (I : nat → St → list Event → Prop) :
  I 0%nat s [] →
  (∀ i x s evs,
     l !! i = Some x → I i s evs →
     emits (body x s) (λ s' evs', I (S i) s' (evs ++ evs'))) →
  emits (forEach l body s) (λ s' evs, I (length l) s' evs).
Proof.
  revert s I. induction l as [|x l IH]; intros s I H0 Hbody.
  - by apply emits_ret.
  - cbn [forEach]. eapply emits_bind.
    + apply (Hbody 0%nat x s []); done.
    + intros s1 evs1 H1. cbn in H1.
      apply (IH s1 (λ i s' evs, I (S i) s' (evs1 ++ evs))).
      * by rewrite app_nil_r.
      * intros i y s2 evs2 Hy H2. cbn.
        eapply emits_consequence; [apply (Hbody (S i) y); done|].
        intros s3 evs3 H3. cbn in H3. by rewrite (assoc app).
Qed.

Lemma emits_forZ {St} (n : Z) (body : Z → St → Rewriter St) (s : St)
  (I : nat → St → list Event → Prop) :
  I 0%nat s [] →
  (∀ (i : nat) s evs,
     Z.of_nat i < n → I i s evs →
     emits (body (Z.of_nat i) s) (λ s' evs', I (S i) s' (evs ++ evs'))) →
  emits (forZ n body s) (λ s' evs, I (Z.to_nat n) s' evs).
Proof.
  intros H0 Hbody. unfold forZ.
  eapply emits_consequence.
  - apply (emits_forEach (seqZ 0 n) body s I H0).
    intros i x s1 evs1 [-> Hi]%lookup_seqZ H1. by apply Hbody.
  - intros s' evs. by rewrite length_seqZ.
Qed.

(** Code that always has a result satisfies what it satisfies whenever it
    has one, and conversely. *)
Lemma emits_of_runs {A} (m : Rewriter A) (Q : A → list Event → Prop) :
  (∀ st, runs m st Q) → emits m Q.
Proof.
  intros Hm st a st' Hrun.
  destruct (Hm st) as (a' & st'' & evs & Hrun' & Hev & HQ).
  rewrite Hrun in Hrun'. injection Hrun' as <- <-. eauto.
Qed.

Lemma runs_emits {A} (m : Rewriter A) st (P Q : A → list Event → Prop) :
  runs m st P → emits m Q → runs m st (λ a evs, P a evs ∧ Q a evs).
Proof.
  intros (a & st' & evs & Hrun & Hev & HP) HQ.
  destruct (HQ _ _ _ Hrun) as (evs' & Hev' & ?).
  rewrite Hev in Hev'. apply app_inv_head in Hev'. subst evs'.
  by exists a, st', evs.
Qed.

(** ** Weights of the tile code *)

Section Weights.

Variable w : EventKind → nat.

Local Open Scope nat_scope.

Lemma weight_app evs1 evs2 :
  weight w (evs1 ++ evs2) = weight w evs1 + weight w evs2.
Proof. induction evs1 as [|e evs1 IH]; cbn; [done|]. rewrite IH. lia. Qed.

Lemma weight_one e : weight w [e] = w (kindOf e).
Proof. cbn. lia. Qed.

Lemma emits_weight_bind {A B} (m : Rewriter A) (k : A → Rewriter B)
  (n1 n2 : nat) (R1 : A → Prop) (R2 : B → Prop) :
  emits m (λ a evs, R1 a ∧ weight w evs = n1) →
  (∀ a, R1 a → emits (k a) (λ b evs, R2 b ∧ weight w evs = n2)) →
  emits (bind m k) (λ b evs, R2 b ∧ weight w evs = n1 + n2).
Proof.
  intros Hm Hk. eapply emits_bind; [exact Hm|].
  intros a evs [HR1 Hevs]. cbn.
  eapply emits_consequence; [by apply Hk|].
  intros b evs' [HR2 Hevs']. split; [done|]. rewrite weight_app. lia.
Qed.

Lemma emits_weight_forZ {St} (n : Z) (body : Z → St → Rewriter St) (s : St)
  (c : nat) (R : St → Prop) :
  R s →
  (∀ i s, (0 ≤ i < n)%Z → R s →
          emits (body i s) (λ s' evs, R s' ∧ weight w evs = c)) →
  emits (forZ n body s) (λ s' evs, R s' ∧ weight w evs = Z.to_nat n * c).
Proof.
  intros H0 Hbody.
  apply (emits_forZ n body s (λ i s' evs, R s' ∧ weight w evs = i * c)).
  - by split.
  - intros i s1 evs1 Hi [HR Hevs]. cbn.
    eapply emits_consequence; [apply Hbody; [lia|done]|].
    intros s2 evs2 [HR2 Hevs2]. split; [done|]. rewrite weight_app. lia.
Qed.

(** The same rules when nothing is said about the results. *)
Lemma emits_seq {A B} (m : Rewriter A) (k : A → Rewriter B) (n1 n2 : nat) :
  emits m (λ _ evs, weight w evs = n1) →
  (∀ a, emits (k a) (λ _ evs, weight w evs = n2)) →
  emits (bind m k) (λ _ evs, weight w evs = n1 + n2).
Proof.
  intros Hm Hk.
  eapply emits_consequence.
  - apply (emits_weight_bind m k n1 n2 (λ _, True) (λ _, True)).
    + eapply emits_consequence; [exact Hm|]. by intros.
    + intros a _. eapply emits_consequence; [apply Hk|]. by intros.
  - by intros b evs [_ ?].
Qed.

Lemma emits_seq_lift {A B} (o : option A) (k : A → Rewriter B) (n : nat) :
  (∀ a, emits (k a) (λ _ evs, weight w evs = n)) →
  emits (bind (lift o) k) (λ _ evs, weight w evs = n).
Proof. intros Hk. apply emits_bind_lift. intros a _. apply Hk. Qed.

Lemma emits_loop {St} (n : Z) (body : Z → St → Rewriter St) (s : St)
  (c : nat) :
  (∀ i s, emits (body i s) (λ _ evs, weight w evs = c)) →
  emits (forZ n body s) (λ _ evs, weight w evs = Z.to_nat n * c).
Proof.
  intros Hbody.
  eapply emits_consequence.
  - apply (emits_weight_forZ n body s c (λ _, True)); [done|].
    intros i s1 _ _. eapply emits_consequence; [apply Hbody|]. by intros.
  - by intros s' evs [_ ?].
Qed.

Lemma loadTile_weight tileTy buf bm bn blockM blockN tm tn :
  emits (loadTile tileTy buf bm bn blockM blockN tm tn)
        (λ _ evs, weight w evs = w KLoad).
Proof.
  unfold loadTile. apply emits_seq_lift. intros idx.
  apply emits_seq_lift. intros base. apply emits_create. intros v. cbn. lia.
Qed.

Lemma storeTile_weight tileTy val buf bm bn blockM blockN tm tn :
  emits (storeTile tileTy val buf bm bn blockM blockN tm tn)
        (λ _ evs, weight w evs = w KStore).
Proof.
  unfold storeTile. apply emits_seq_lift. intros idx.
  apply emits_seq_lift. intros base. apply emits_emit. cbn. lia.
Qed.

Lemma loadBlockTiles_weight tileTy buf bm bn blockM blockN :
  emits (loadBlockTiles tileTy buf bm bn blockM blockN)
        (λ _ evs,
           weight w evs
           = Z.to_nat bm
             * (Z.to_nat bn
                * (if MemBuffer_empty buf then w KZero else w KLoad))).
Proof.
  unfold loadBlockTiles. apply emits_loop. intros m res.
  apply emits_loop. intros n res1.
  rewrite <- (Nat.add_0_r (if MemBuffer_empty buf then _ else _)).
  apply emits_seq.
  - destruct (MemBuffer_empty buf).
    + apply emits_create. intros v. cbn. lia.
    + apply loadTile_weight.
  - intros tile. by apply emits_lift.
Qed.

Lemma storeBlockTiles_weight tileTy buf blockM blockN tiles m n :
  tilesShape tiles m n → 1 ≤ m →
  emits (storeBlockTiles tileTy buf blockM blockN tiles)
        (λ _ evs, weight w evs = m * (n * w KStore)).
Proof.
  intros Hshape Hm. unfold storeBlockTiles.
  destruct (tilesShape_lookup tiles m n 0 Hshape Hm) as (row0 & Hrow0 & Hn).
  rewrite (tilesShape_length _ _ _ Hshape).
  apply emits_bind_lift. intros row Hrow.
  assert (row = row0) as -> by congruence. rewrite Hn.
  eapply emits_consequence.
  - apply emits_loop. intros i [].
    apply emits_loop. intros j [].
    apply emits_seq_lift. intros tile. apply storeTile_weight.
  - intros [] evs. cbn beta. by rewrite !Nat2Z.id.
Qed.

Lemma flattenTiles_weight bm bn tiles :
  emits (flattenTiles bm bn tiles) (λ _ evs, weight w evs = 0).
Proof.
  unfold flattenTiles. eapply emits_consequence.
  - apply emits_loop. intros i acc. apply emits_loop. intros j acc1.
    apply emits_seq_lift. intros tile. by apply emits_ret.
  - intros l evs ->. cbn [weight]. lia.
Qed.

Lemma takeLoopResults_weight bm bn resTiles accTiles :
  emits (takeLoopResults bm bn resTiles accTiles)
        (λ _ evs, weight w evs = 0).
Proof.
  unfold takeLoopResults. eapply emits_consequence.
  - apply emits_loop. intros i acc. apply emits_loop. intros j acc1.
    apply emits_seq_lift. intros tile. by apply emits_lift.
  - intros l evs ->. cbn [weight]. lia.
Qed.

Lemma multiplyTile_weight isInt accTileTy lhsTile rhsTile accBuf blockM blockN
  bm bn tm tn storeResult accTiles :
  emits (multiplyTile isInt accTileTy lhsTile rhsTile accBuf blockM blockN
           bm bn tm tn storeResult accTiles)
        (λ _ evs,
           weight w evs = w KMul + (if storeResult then w KStore else 0)).
Proof.
  unfold multiplyTile. apply emits_seq_lift. intros acc.
  apply emits_seq.
  - destruct isInt; apply emits_create; intros v; cbn; lia.
  - intros res. apply emits_seq_lift. intros tiles.
    rewrite <- (Nat.add_0_r (if storeResult then _ else _)).
    apply emits_seq.
    + destruct storeResult; [apply storeTile_weight|by apply emits_ret].
    + intros _. by apply emits_ret.
Qed.

(** Both orders of multiplying two blocks load every LHS tile and every
    RHS tile of the blocks once. *)
Lemma multiplyBlocksPreloadLhs_weight lhsTileTy rhsTileTy accTileTy
  lhsBuf rhsBuf accBuf blockM blockN blockK bm bn accTiles storeResult :
  MemBuffer_empty lhsBuf = false →
  emits (multiplyBlocksPreloadLhs lhsTileTy rhsTileTy accTileTy lhsBuf rhsBuf
           accBuf blockM blockN blockK bm bn accTiles storeResult)
        (λ _ evs,
           weight w evs
           = (Z.to_nat bm + Z.to_nat bn) * w KLoad
             + Z.to_nat bm * Z.to_nat bn
               * (w KMul + (if storeResult then w KStore else 0))).
Proof.
  intros Hlhs. unfold multiplyBlocksPreloadLhs.
  eapply emits_consequence.
  - eapply emits_seq; [apply loadBlockTiles_weight|]. intros lhsTiles.
    apply emits_loop. intros tn tiles.
    eapply emits_seq; [apply loadTile_weight|]. intros rhsTile.
    apply emits_loop. intros tm tiles1.
    apply emits_seq_lift. intros lhsTile. apply multiplyTile_weight.
  - intros _ evs ->. rewrite Hlhs. change (Z.to_nat 1) with 1. lia.
Qed.

Lemma multiplyBlocksPreloadRhs_weight lhsTileTy rhsTileTy accTileTy
  lhsBuf rhsBuf accBuf blockM blockN blockK bm bn accTiles storeResult :
  MemBuffer_empty rhsBuf = false →
  emits (multiplyBlocksPreloadRhs lhsTileTy rhsTileTy accTileTy lhsBuf rhsBuf
           accBuf blockM blockN blockK bm bn accTiles storeResult)
        (λ _ evs,
           weight w evs
           = (Z.to_nat bm + Z.to_nat bn) * w KLoad
             + Z.to_nat bm * Z.to_nat bn
               * (w KMul + (if storeResult then w KStore else 0))).
Proof.
  intros Hrhs. unfold multiplyBlocksPreloadRhs.
  eapply emits_consequence.
  - eapply emits_seq; [apply loadBlockTiles_weight|]. intros rhsTiles.
    apply emits_loop. intros tm tiles.
    eapply emits_seq; [apply loadTile_weight|]. intros lhsTile.
    apply emits_loop. intros tn tiles1.
    apply emits_seq_lift. intros rhsTile. apply multiplyTile_weight.
  - intros _ evs ->. rewrite Hrhs. change (Z.to_nat 1) with 1. lia.
Qed.

Lemma convertBlock_weight c lhsTileTy rhsTileTy accTileTy bufs resBuf
  tilesInVectorK blockM blockN accTiles :
  MemBuffer_empty (lhsBuf bufs) = false →
  MemBuffer_empty (rhsBuf bufs) = false →
  (1 ≤ tilesInVectorK)%Z →
  emits (convertBlock c lhsTileTy rhsTileTy accTileTy bufs resBuf
           tilesInVectorK blockM blockN accTiles)
        (λ _ evs,
           weight w evs
           = blockWeight w c (MemBuffer_empty (accBuf bufs))
                         tilesInVectorK).
Proof.
  intros Hlhs Hrhs Hk. unfold convertBlock, blockWeight. cbn zeta.
  set (m := Z.to_nat (tilesInBlockM c)). set (n := Z.to_nat (tilesInBlockN c)).
  set (z := if MemBuffer_empty (accBuf bufs) then w KZero else w KLoad).
  set (per := (m + n) * w KLoad + m * n * w KMul).
  eapply emits_consequence.
  - apply (emits_seq _ _ (if keepAccOnTiles c then 0 else m * (n * z))
             (Z.to_nat tilesInVectorK * per
              + (if keepAccOnTiles c then 0 else m * n * w KStore))).
    + destruct (keepAccOnTiles c); cbn [negb].
      * by apply emits_ret.
      * apply loadBlockTiles_weight.
    + intros tiles.
      eapply emits_consequence.
      * apply (emits_forZ tilesInVectorK _ tiles
                 (λ i _ evs,
                    weight w evs
                    = i * per
                      + (if negb (keepAccOnTiles c)
                            && (Z.of_nat i =? tilesInVectorK)%Z
                         then m * n * w KStore else 0))).
        { cbn [weight Nat.mul Nat.add]. change (Z.of_nat 0) with 0%Z.
          destruct (Z.eqb_spec 0 tilesInVectorK); [lia|].
          by rewrite andb_false_r. }
        intros i tiles1 evs1 Hi Hevs1. cbn beta.
        destruct (Z.eqb_spec (Z.of_nat i) tilesInVectorK) as [?|_];
          [lia|]. rewrite andb_false_r, Nat.add_0_r in Hevs1.
        assert ((Z.of_nat (S i) =? tilesInVectorK)%Z
                = (Z.of_nat i =? tilesInVectorK - 1)%Z) as ->.
        { destruct (Z.eqb_spec (Z.of_nat (S i)) tilesInVectorK),
                   (Z.eqb_spec (Z.of_nat i) (tilesInVectorK - 1)%Z);
            (done || lia). }
        eapply emits_consequence.
        { destruct (tilesInBlockM c <=? tilesInBlockN c)%Z.
          - by apply multiplyBlocksPreloadLhs_weight.
          - by apply multiplyBlocksPreloadRhs_weight. }
        intros tiles2 evs2 Hevs2. cbn beta in Hevs2.
        rewrite weight_app, Hevs1, Hevs2. fold m n. unfold per.
        destruct (negb (keepAccOnTiles c)
                  && (Z.of_nat i =? tilesInVectorK - 1)%Z); lia.
      * intros _ evs ->. rewrite Z2Nat.id, Z.eqb_refl, andb_true_r by lia.
        destruct (keepAccOnTiles c); cbn [negb]; lia.
  - intros _ evs ->. destruct (keepAccOnTiles c); lia.
Qed.

Lemma convertBlocks_weight c lhsTileTy rhsTileTy accTileTy bufs resBuf
  tilesInVectorK blocksInAccM blocksInAccN accInitTiles :
  MemBuffer_empty (lhsBuf bufs) = false →
  MemBuffer_empty (rhsBuf bufs) = false →
  (1 ≤ tilesInVectorK)%Z →
  emits (forZ blocksInAccM (λ blockM accTiles,
           forZ blocksInAccN (λ blockN accTiles,
             convertBlock c lhsTileTy rhsTileTy accTileTy bufs resBuf
                          tilesInVectorK blockM blockN accTiles) accTiles)
           accInitTiles)
        (λ _ evs,
           weight w evs
           = Z.to_nat blocksInAccM
             * (Z.to_nat blocksInAccN
                * blockWeight w c (MemBuffer_empty (accBuf bufs))
                              tilesInVectorK)).
Proof.
  intros Hlhs Hrhs Hk. apply emits_loop. intros blockM tiles.
  apply emits_loop. intros blockN tiles1. by apply convertBlock_weight.
Qed.

Lemma emit_weight e k :
  kindOf e = k → emits (emit e) (λ _ evs, weight w evs = w k).
Proof. intros <-. apply emits_emit, weight_one. Qed.

Lemma fresh_weight n : emits (fresh n) (λ _ evs, weight w evs = 0).
Proof. by apply emits_fresh. Qed.

(** Sequencing when the continuation relies on a property of the result. *)
Lemma emits_seq_with {A B} (m : Rewriter A) (k : A → Rewriter B)
  (n1 n2 : nat) (R : A → Prop) :
  emits m (λ a _, R a) →
  emits m (λ _ evs, weight w evs = n1) →
  (∀ a, R a → emits (k a) (λ _ evs, weight w evs = n2)) →
  emits (bind m k) (λ _ evs, weight w evs = n1 + n2).
Proof.
  intros HR Hm Hk.
  eapply emits_consequence.
  - apply (emits_weight_bind m k n1 n2 R (λ _, True)).
    + by apply emits_conj.
    + intros a Ha. eapply emits_consequence; [by apply Hk|]. by intros.
  - by intros b evs [_ ?].
Qed.

Lemma replaceOriginal_weight c o accTileTy resBuf accInitTiles accTiles :
  (1 ≤ tilesInBlockM c)%Z → (1 ≤ tilesInBlockN c)%Z →
  (tilesInBlockM c * tilesInBlockN c ≤ 4)%Z →
  (keepAccOnTiles c = true →
   tilesShape accInitTiles (Z.to_nat (tilesInBlockM c))
              (Z.to_nat (tilesInBlockN c))
   ∧ tilesShape accTiles (Z.to_nat (tilesInBlockM c))
                (Z.to_nat (tilesInBlockN c))) →
  emits (replaceOriginal c o accTileTy resBuf accInitTiles accTiles)
        (λ _ evs, weight w evs = rewriteWeight w c).
Proof.
  intros Hbm Hbn Hprod Hshapes. unfold replaceOriginal, rewriteWeight.
  cbn zeta.
  set (m := Z.to_nat (tilesInBlockM c)) in *.
  set (n := Z.to_nat (tilesInBlockN c)) in *.
  destruct (keepAccOnTiles c).
  - destruct (Hshapes eq_refl) as [Hinit Htiles].
    eapply emits_consequence.
    + eapply emits_seq; [by apply (emit_weight _ KReplaceOp)|]. intros _.
      eapply emits_seq; [apply flattenTiles_weight|]. intros newInitOperands.
      eapply (emits_seq_with _ _ _ _ (λ l, length l = m * n)).
      { eapply emits_consequence.
        - apply emits_of_runs. intros st.
          by apply (flattenTiles_runs true).
        - by intros l evs [? _]. }
      { apply flattenTiles_weight. }
      intros newYieldedValues Hlen.
      eapply emits_seq; [apply fresh_weight|]. intros first.
      eapply emits_seq; [by apply (emit_weight _ KReplaceLoop)|]. intros _.
      eapply (emits_seq_with _ _ _ _ (λ tiles, tilesShape tiles m n)).
      { eapply emits_consequence.
        - apply emits_of_runs. intros st.
          apply (takeLoopResults_runs true); try done.
          by rewrite length_seq.
        - by intros l evs [? _]. }
      { apply takeLoopResults_weight. }
      intros tiles Htiles'.
      apply (emits_consequence _
               (λ _ evs,
                  weight w evs
                  = m * (n * w KStore)
                    + (if MemBuffer_empty (outBuf c)
                       then w KReadBack + w KReplaceUses
                       else w KEraseStore))); [|done].
      destruct (MemBuffer_empty (outBuf c)).
      * eapply emits_seq;
          [eapply storeBlockTiles_weight; [exact Htiles'|lia]|]. intros _.
        rewrite <- (Nat.add_0_l (w KReadBack + _)).
        eapply emits_seq; [apply fresh_weight|]. intros newVal.
        eapply emits_seq; [by apply (emit_weight _ KReadBack)|]. intros _.
        by apply emit_weight.
      * eapply emits_seq;
          [eapply storeBlockTiles_weight; [exact Htiles'|lia]|]. intros _.
        by apply emit_weight.
    + intros _ evs ->. lia.
  - destruct (keepAccInBuf c).
    + eapply emits_consequence.
      * eapply emits_seq; [apply fresh_weight|]. intros newVal.
        eapply emits_seq; [by apply (emit_weight _ KReadBack)|]. intros _.
        eapply emits_seq; [by apply (emit_weight _ KReplaceUses)|].
        intros _. by apply (emit_weight _ KReplaceOp).
      * intros _ evs ->. lia.
    + destruct (MemBuffer_empty (outBuf c)).
      * eapply emits_consequence.
        -- eapply emits_seq; [apply fresh_weight|]. intros newVal.
           eapply emits_seq; [by apply (emit_weight _ KReadBack)|].
           intros _. by apply (emit_weight _ KReplaceOp).
        -- intros _ evs ->. lia.
      * eapply emits_consequence.
        -- eapply emits_seq; [by apply (emit_weight _ KEraseStore)|].
           intros _. by apply (emit_weight _ KReplaceOp).
        -- intros _ evs ->. lia.
Qed.

End Weights.

(** ** The events of a whole conversion *)

Lemma accTy_dim o i d :
  getShape (accTy o) = getShape (resTy o) →
  getDimSize (resTy o) i = Some d → getDimSize (accTy o) i = Some d.
Proof. unfold getDimSize. by intros ->. Qed.

(** A conversion of an accepted operation with usable buffers has a
    result. *)
Lemma convertCandidate_runs getPacked alloc prep o s c0 c st :
  VectorType_valid (lhsTy o) → VectorType_valid (resTy o) →
  getShape (accTy o) = getShape (resTy o) →
  isAmxCandidate o s c0 = Some (true, c) →
  usable (lhsBuf (prep c)) → usable (rhsBuf (prep c)) →
  MemBuffer_empty (accBuf (prep c)) = true ∨ usable (accBuf (prep c)) →
  MemBuffer_empty (outBuf c) = true ∨ usable (outBuf c) →
  usable (alloc (resTy o)) →
  runs (convertCandidate getPacked alloc prep c) st (λ _ _, True).
Proof.
  intros Hlhs_valid Hres_valid Hacc_shape Haccepted Hlhs Hrhs Hacc Hout
    Halloc.
  destruct (isAmxCandidate_generator_inputs o s c0 c Hres_valid Haccepted)
    as (M & N & K & lhsElemTy & accElemTy & HM & HN & HK & HMr & HNr & HK8
        & Hop & Hlty & Hrty & Haty & HtM & HtN & HtK & Hbm & Hbn & Hprod).
  destruct (VectorType_valid_dim _ _ _ Hlhs_valid HK) as [_ HKmax].
  set (m := Z.to_nat (tilesInBlockM c)). set (n := Z.to_nat (tilesInBlockN c)).
  destruct (div_nonneg M (tileM c) ltac:(lia) HtM) as [HdM HqM].
  destruct (div_nonneg _ (tilesInBlockM c) HqM Hbm) as [HdbM HqbM].
  destruct (div_nonneg N (tileN c) ltac:(lia) HtN) as [HdN HqN].
  destruct (div_nonneg _ (tilesInBlockN c) HqN Hbn) as [HdbN HqbN].
  destruct (div_nonneg K (tileK c) ltac:(lia) HtK) as [HdK HqK].
  pose proof (prepareResultBuffer_usable alloc o _ _ Hacc Hout Halloc)
    as Hres.
  unfold convertCandidate.
  eapply runs_bind_lift; [exact Hop|].
  eapply runs_bind_lift; [exact Hlty|].
  eapply runs_bind_lift; [exact Hrty|].
  eapply runs_bind_lift; [exact Haty|]. cbn zeta.
  eapply (runs_bind _ _ _
            (λ tiles _, keepAccOnTiles c = true → tilesShape tiles m n)).
  { destruct (keepAccOnTiles c).
    - eapply runs_consequence; [by apply (loadBlockTiles_runs true)|].
      by intros tiles evs [? _] _.
    - by apply runs_ret. }
  intros accInitTiles pre st1 Hinit. cbn beta.
  eapply runs_bind_lift; [by apply accTy_dim|].
  eapply runs_bind_lift; [exact HdM|].
  eapply runs_bind_lift; [exact HdbM|].
  eapply runs_bind_lift; [by apply accTy_dim|].
  eapply runs_bind_lift; [exact HdN|].
  eapply runs_bind_lift; [exact HdbN|].
  eapply runs_bind_lift; [exact HK|].
  eapply runs_bind_lift; [exact HdK|].
  eapply runs_bind; [by apply convertBlocks_runs|].
  intros accTiles evsB st2 [Htiles _]. cbn beta.
  eapply runs_consequence.
  { apply (replaceOriginal_runs true); try done.
    intros Hkeep. split; [by apply Hinit|by apply Htiles]. }
  done.
Qed.

Lemma convertCandidate_weight w getPacked alloc prep o s c0 c M N K :
  VectorType_valid (lhsTy o) → VectorType_valid (resTy o) →
  getShape (accTy o) = getShape (resTy o) →
  isAmxCandidate o s c0 = Some (true, c) →
  getDimSize (resTy o) 0 = Some M → getDimSize (resTy o) 1 = Some N →
  getDimSize (lhsTy o) 1 = Some K →
  usable (lhsBuf (prep c)) → usable (rhsBuf (prep c)) →
  MemBuffer_empty (accBuf (prep c)) = true ∨ usable (accBuf (prep c)) →
  MemBuffer_empty (outBuf c) = true ∨ usable (outBuf c) →
  usable (alloc (resTy o)) →
  emits (convertCandidate getPacked alloc prep c)
        (λ _ evs,
           weight w evs
           = conversionWeight w c (MemBuffer_empty (accBuf (prep c)))
                              M N K).
Proof.
  intros Hlhs_valid Hres_valid Hacc_shape Haccepted HM HN HK Hlhs Hrhs Hacc
    Hout Halloc.
  destruct (isAmxCandidate_generator_inputs o s c0 c Hres_valid Haccepted)
    as (M' & N' & K' & lhsElemTy & accElemTy & HM' & HN' & HK' & HMr & HNr
        & HK8 & Hop & Hlty & Hrty & Haty & HtM & HtN & HtK & Hbm & Hbn
        & Hprod).
  assert (M' = M) as -> by congruence. assert (N' = N) as -> by congruence.
  assert (K' = K) as -> by congruence.
  destruct (isAmxCandidate_geometry o s c0 c Hres_valid Haccepted)
    as (M' & N' & K' & _ & _ & HK'' & _ & _ & _ & _ & HtK' & _).
  assert (K' = K) as -> by congruence.
  destruct (VectorType_valid_dim _ _ _ Hlhs_valid HK) as [_ HKmax].
  destruct (div_nonneg M (tileM c) ltac:(lia) HtM) as [HdM HqM].
  destruct (div_nonneg _ (tilesInBlockM c) HqM Hbm) as [HdbM HqbM].
  destruct (div_nonneg N (tileN c) ltac:(lia) HtN) as [HdN HqN].
  destruct (div_nonneg _ (tilesInBlockN c) HqN Hbn) as [HdbN HqbN].
  destruct (div_nonneg K (tileK c) ltac:(lia) HtK) as [HdK HqK].
  assert (1 ≤ K `div` tileK c) as Hsteps
    by (apply Z.div_le_lower_bound; lia).
  pose proof (prepareResultBuffer_usable alloc o _ _ Hacc Hout Halloc)
    as Hres.
  pose proof (accTy_dim o 0 M Hacc_shape HM) as HaM.
  pose proof (accTy_dim o 1 N Hacc_shape HN) as HaN.
  unfold convertCandidate. rewrite Hop, Hlty, Hrty, Haty.
  do 4 (apply emits_bind_lift; intros ? [= <-]). cbn zeta.
  set (m := Z.to_nat (tilesInBlockM c)). set (n := Z.to_nat (tilesInBlockN c)).
  set (z := if MemBuffer_empty (accBuf (prep c)) then w KZero else w KLoad).
  eapply emits_consequence.
  - eapply (emits_seq_with w _ _
              (if keepAccOnTiles c then m * (n * z) else 0)%nat _
              (λ tiles, keepAccOnTiles c = true → tilesShape tiles m n)).
    { destruct (keepAccOnTiles c).
      - eapply emits_consequence.
        + apply emits_of_runs. intros st.
          by apply (loadBlockTiles_runs true).
        + by intros tiles evs [? _] _.
      - by apply emits_ret. }
    { destruct (keepAccOnTiles c);
        [apply loadBlockTiles_weight|by apply emits_ret]. }
    intros accInitTiles Hinit. rewrite HaM, HaN, HK.
    apply emits_bind_lift; intros ? [= <-]. rewrite HdM.
    apply emits_bind_lift; intros ? [= <-]. rewrite HdbM.
    apply emits_bind_lift; intros ? [= <-].
    apply emits_bind_lift; intros ? [= <-]. rewrite HdN.
    apply emits_bind_lift; intros ? [= <-]. rewrite HdbN.
    apply emits_bind_lift; intros ? [= <-].
    apply emits_bind_lift; intros ? [= <-]. rewrite HdK.
    apply emits_bind_lift; intros ? [= <-].
    eapply (emits_seq_with w _ _ _ _
              (λ tiles, keepAccOnTiles c = true → tilesShape tiles m n)).
    { eapply emits_consequence.
      - apply emits_of_runs. intros st. by apply convertBlocks_runs.
      - by intros tiles evs [? _]. }
    { apply convertBlocks_weight; [by apply usable_not_empty..|done]. }
    intros accTiles Htiles. apply replaceOriginal_weight; try done.
    intros Hkeep. split; [by apply Hinit|by apply Htiles].
  - intros _ evs ->. unfold conversionWeight. cbn zeta. fold m n z.
    destruct (keepAccOnTiles c); lia.
Qed.

(** The events of a conversion, counted with every weight. *)
Lemma convertCandidate_events getPacked alloc prep o s c0 c st M N K :
  VectorType_valid (lhsTy o) → VectorType_valid (resTy o) →
  getShape (accTy o) = getShape (resTy o) →
  isAmxCandidate o s c0 = Some (true, c) →
  getDimSize (resTy o) 0 = Some M → getDimSize (resTy o) 1 = Some N →
  getDimSize (lhsTy o) 1 = Some K →
  usable (lhsBuf (prep c)) → usable (rhsBuf (prep c)) →
  MemBuffer_empty (accBuf (prep c)) = true ∨ usable (accBuf (prep c)) →
  MemBuffer_empty (outBuf c) = true ∨ usable (outBuf c) →
  usable (alloc (resTy o)) →
  ∃ st' evs,
    convertCandidate getPacked alloc prep c st = Some (tt, st')
    ∧ events st' = events st ++ evs
    ∧ ∀ w, weight w evs
           = conversionWeight w c (MemBuffer_empty (accBuf (prep c)))
                              M N K.
Proof.
  intros Hlhs_valid Hres_valid Hacc_shape Haccepted HM HN HK Hlhs Hrhs Hacc
    Hout Halloc.
  destruct (convertCandidate_runs getPacked alloc prep o s c0 c st)
    as ([] & st' & evs & Hrun & Hev & _); try done.
  exists st', evs. split; [done|]. split; [done|]. intros w.
  destruct (convertCandidate_weight w getPacked alloc prep o s c0 c M N K
              Hlhs_valid Hres_valid Hacc_shape Haccepted HM HN HK Hlhs Hrhs
              Hacc Hout Halloc _ _ _ Hrun) as (evs' & Hev' & Hw).
  rewrite Hev in Hev'. apply app_inv_head in Hev'. by subst evs'.
Qed.

(** ** Counting by kind *)

Lemma emits_weights {A} (m : Rewriter A)
  (F : (EventKind → nat) → nat) :
  (∀ w, emits m (λ _ evs, weight w evs = F w)) →
  emits m (λ _ evs, ∀ w, weight w evs = F w).
Proof.
  intros Hm st a st' Hrun.
  destruct (Hm (λ _, 0%nat) _ _ _ Hrun) as (evs & Hev & _).
  exists evs. split; [done|]. intros w.
  destruct (Hm w _ _ _ Hrun) as (evs' & Hev' & Hw).
  rewrite Hev in Hev'. apply app_inv_head in Hev'. by subst evs'.
Qed.

Lemma weight_length evs : weight (λ _, 1%nat) evs = length evs.
Proof. induction evs as [|e evs IH]; cbn; [done|]. by rewrite IH. Qed.

Ltac simpl_only :=
  repeat match goal with
         | |- context [only ?k ?k'] =>
             let v := eval vm_compute in (only k k') in
             change (only k k') with v
         end.

Ltac count_with H :=
  unfold count; rewrite <- ?weight_length, !H; simpl_only.

(** An accumulator kept on tiles has a single block. *)
Lemma keepAccOnTiles_one_block o s c0 c M N :
  VectorType_valid (resTy o) →
  isAmxCandidate o s c0 = Some (true, c) →
  getDimSize (resTy o) 0 = Some M → getDimSize (resTy o) 1 = Some N →
  keepAccOnTiles c = true →
  (M `div` tileM c) `div` tilesInBlockM c = 1
  ∧ (N `div` tileN c) `div` tilesInBlockN c = 1.
Proof.
  intros Hvalid Hacc HM HN Hkeep.
  destruct (isAmxCandidate_descriptor o s c0 c Hvalid Hacc)
    as (M' & N' & K & ty & HM' & HN' & _ & _ & _ & _ & _ & _ & _ & _
        & _ & _ & _ & _ & _ & _ & Hon & _).
  assert (M' = M) as -> by congruence. assert (N' = N) as -> by congruence.
  destruct (isAmxCandidate_geometry o s c0 c Hvalid Hacc)
    as (M' & N' & K' & HM'' & HN'' & _ & _ & _ & HtM & HtN & _ & HbM
        & HbN & HqM & HqN).
  assert (M' = M) as -> by congruence. assert (N' = N) as -> by congruence.
  pose proof (accumulatorFits_products o s c0 c M N Hvalid Hacc HM HN) as Hfit.
  rewrite Hkeep in Hon. symmetry in Hon.
  apply andb_true_iff in Hon as [_ Hfits].
  assert (¬ (tilesInBlockM c * tileM c < M
             ∨ tilesInBlockN c * tileN c < N)) as Hsmall.
  { intros Hbig%Hfit. congruence. }
  assert (tilesInBlockM c * tileM c = M) as HeM by nia.
  assert (tilesInBlockN c * tileN c = N) as HeN by nia.
  split.
  - rewrite <- HeM at 1. rewrite Z.div_mul by lia. apply Z.div_same. lia.
  - rewrite <- HeN at 1. rewrite Z.div_mul by lia. apply Z.div_same. lia.
Qed.

(** A bufferized accumulator has no direct output buffer. *)
Lemma isAmxCandidate_buffered_no_output o s c0 c :
  MemBuffer_empty (outBuf c0) = true → keepAccInBuf c0 = false →
  isAmxCandidate o s c0 = Some (true, c) →
  keepAccInBuf c = true → MemBuffer_empty (outBuf c) = true.
Proof.
  intros Hempty Hfresh
    (c2 & M & N & _ & _ & Hout & _ & Hbuf & ->)%isAmxCandidate_final.
  rewrite <- Hout in Hempty. rewrite <- Hbuf in Hfresh.
  assert (∀ uses b,
            keepAccInBuf (findOutputBuffer uses (set_keepAccOnTiles c2 b))
            = false) as Hfind.
  { intros uses b.
    destruct (findOutputBuffer_fields uses (set_keepAccOnTiles c2 b))
      as (_ & _ & _ & _ & _ & _ & _ & _ & _ & _ & Hk).
    cbn in Hk. by rewrite Hk. }
  destruct (isLoopCarriedAcc o); [destruct (accumulatorFits c2 M N)|];
    rewrite ?Hfind; done.
Qed.



(** * The pass *)

Lemma isAmxCandidate_total o s c0 :
  VectorType_valid (resTy o) → 2 ≤ getRank (resTy o) →
  ∃ accepted c, isAmxCandidate o s c0 = Some (accepted, c).
Proof.
  intros Hvalid Hrank.
  destruct (checkInputShapes_total (lhsTy o) (resTy o) Hrank)
    as (shapesOk & Hshapes & Hiff).
  unfold isAmxCandidate.
  destruct (checkElemTypes _ _ _ _ s c0) as [[] c1] eqn:Htypes;
    cbn [negb]; [|eauto].
  rewrite Hshapes. cbn [mbind option_bind].
  destruct shapesOk; cbn [negb]; [|eauto].
  destruct (proj1 Hiff eq_refl) as (d0 & d1 & n & Hlhs & Hn & Hd0 & Hd1 & Hn8).
  destruct (checkElemTypes_tile_width _ _ _ _ _ _ _ Htypes)
    as (ty & aty & -> & Hbw).
  assert (∃ M, getDimSize (resTy o) 0 = Some M) as [M HM].
  { unfold getDimSize, getRank in *.
    destruct (getShape (resTy o)) as [|M ?]; cbn in Hrank; [lia|eauto]. }
  destruct (VectorType_valid_dim _ _ _ Hvalid HM).
  destruct (VectorType_valid_dim _ _ _ Hvalid Hn).
  destruct (setupBlockAndTileSizes_result
              (getShape (lhsTy o)) (getShape (resTy o))
              (set_op (set_tileElemTys c0 ty ty aty) o) M n d1 ty)
    as (blocks & _ & _ & ->); try done.
  { by rewrite Hlhs. }
  cbn [mbind option_bind]. unfold getDimSize in *. rewrite HM, Hn.
  cbn [mbind option_bind].
  repeat match goal with
         | |- context [if ?b then _ else _] => destruct b
         end; eauto.
Qed.

(** The walk collects the descriptors of the accepted operations, in the
    order of the walk. *)
Lemma collectCandidates_filter u s dots :
  let c0 := AmxDotOpCandidate_init u u u u u in
  Forall (λ o, VectorType_valid (resTy o) ∧ 2 ≤ getRank (resTy o)) dots →
  ∃ cs,
    collectCandidates u s dots = Some cs
    ∧ Forall2 (λ c o, isAmxCandidate o s c0 = Some (true, c))
              cs (filter (λ o, accepts s c0 o = true) dots).
Proof.
  intros c0. induction 1 as [|o dots [Hvalid Hrank] _ (cs & Hcs & Hall)].
  - exists []. split; [done|]. constructor.
  - destruct (isAmxCandidate_total o s c0 Hvalid Hrank)
      as (accepted & c & Hc).
    exists (if accepted then c :: cs else cs). cbn [collectCandidates].
    fold c0. rewrite Hc. cbn [mbind option_bind]. rewrite Hcs.
    split; [done|].
    assert (accepts s c0 o = accepted) as Hacc
      by (unfold accepts; rewrite Hc; by destruct accepted).
    rewrite filter_cons. destruct accepted.
    + rewrite decide_True by done. by constructor.
    + by rewrite decide_False by (rewrite Hacc; done).
Qed.

(** X17: on a module whose dot operations have valid result types of rank
    at least two, the walk of the pass has a result: the descriptors of
    exactly the operations that the analysis accepts, one for every
    occurrence and in the order of the walk, each naming its operation.
    Each operation is analysed from a descriptor of its own. *)
Theorem collectCandidates_accepted_in_order :
  ∀ (uninitialized : Z) (s : Support) (dots : list DotOp),
    let c0 := AmxDotOpCandidate_init uninitialized uninitialized
                uninitialized uninitialized uninitialized in
    Forall (λ o, VectorType_valid (resTy o) ∧ 2 ≤ getRank (resTy o)) dots →
    ∃ cs,
      collectCandidates uninitialized s dots = Some cs
      ∧ Forall2 (λ c o, op c = Some o
                        ∧ isAmxCandidate o s c0 = Some (true, c))
                cs (filter (λ o, accepts s c0 o = true) dots)
      ∧ (length cs ≤ length dots)%nat.
Proof.
  intros u s dots c0 Hdots.
  destruct (collectCandidates_filter u s dots Hdots) as (cs & Hcs & Hall).
  exists cs. split; [done|]. split.
  - assert (Forall (λ o, VectorType_valid (resTy o))
              (filter (λ o, accepts s c0 o = true) dots)) as Hvalid.
    { apply Forall_forall. intros o [_ Ho]%list_elem_of_filter.
      rewrite Forall_forall in Hdots. by apply Hdots. }
    fold c0 in Hall.
    assert (∀ cs' os,
              Forall2 (λ c o, isAmxCandidate o s c0 = Some (true, c)) cs' os →
              Forall (λ o, VectorType_valid (resTy o)) os →
              Forall2 (λ c o, op c = Some o
                              ∧ isAmxCandidate o s c0 = Some (true, c))
                      cs' os) as Hnames.
    { induction 1 as [|c o cs' os Hc _ IH]; [constructor|].
      intros [Ho Hos]%Forall_cons. constructor; [|by apply IH].
      split; [|done].
      by destruct (isAmxCandidate_descriptor o s c0 c Ho Hc)
        as (_ & _ & _ & _ & _ & _ & _ & _ & _ & _ & _ & ? & _). }
    by apply Hnames.
  - rewrite (Forall2_length _ _ _ Hall). apply length_filter.
Qed.

Lemma collectCandidates_accepted_in_order_witness :
  let dots := [dot32; dotOp 4 4 4 (FloatType Float16) (FloatType Float16)
                        (FloatType Float32) (FloatType Float32) false;
               scenarioA] in
  ∃ cs,
    collectCandidates 0 allSupported dots = Some cs
    ∧ Forall2 (λ c o, op c = Some o
                      ∧ isAmxCandidate o allSupported
                          (AmxDotOpCandidate_init 0 0 0 0 0) = Some (true, c))
              cs (filter (λ o, accepts allSupported
                                 (AmxDotOpCandidate_init 0 0 0 0 0) o = true)
                         dots)
    ∧ (length cs ≤ length dots)%nat.
Proof.
  cbn zeta.
  apply (collectCandidates_accepted_in_order 0 allSupported).
  repeat constructor; try (cbn; lia); vm_compute; discriminate.
Defined.

(** * What packing leaves alone *)

Section InterleaveFrame.

Context {A : Type}.
Implicit Types val buf : list (list A).

Lemma op_store_frame (row : list A) buf idx buf' :
  op_store row buf idx = Some buf' →
  length <$> buf' = length <$> buf
  ∧ ∀ g, g ≠ Z.to_nat idx → buf' !! g = buf !! g.
Proof.
  unfold op_store. destruct (Z.ltb_spec idx 0); [done|].
  destruct (buf !! Z.to_nat idx) as [old|] eqn:Hold; [|done].
  cbn [mbind option_bind].
  destruct (Nat.ltb_spec (length old) (length row)); [done|].
  intros [= <-]. split.
  - rewrite list_fmap_insert. apply list_insert_id.
    rewrite list_lookup_fmap, Hold. cbn. f_equal.
    rewrite length_app, length_drop. lia.
  - intros g Hg. by rewrite list_lookup_insert_ne.
Qed.

Lemma interleaveGroups_frame r val iters buf buf' :
  interleaveGroups r val iters buf = Some buf' →
  length <$> buf' = length <$> buf
  ∧ ∀ g, (∀ i, i ∈ iters → Z.to_nat (i ÷ r) ≠ g) → buf' !! g = buf !! g.
Proof.
  revert buf. induction iters as [|i iters IH]; intros buf;
    cbn [interleaveGroups].
  - by intros [= <-].
  - destruct (shuffleGroup r val i) as [shuffled|]; [|done].
    cbn [mbind option_bind].
    destruct (op_store shuffled buf (i ÷ r)) as [buf1|] eqn:Hstore; [|done].
    cbn [mbind option_bind]. intros (Hlen & Hframe)%IH.
    destruct (op_store_frame _ _ _ _ Hstore) as (Hlen1 & Hframe1).
    split; [by rewrite Hlen|]. intros g Hg. rewrite Hframe, Hframe1.
    + done.
    + intros ->. by apply (Hg i); [left|].
    + intros j Hj. apply Hg. by right.
Qed.

End InterleaveFrame.

(** X19: whenever [interleaveAndStore] has a result, its two assertions
    held (two or four rows per group, and a number of rows that is a
    multiple of the group size); the buffer has kept its rows and their
    lengths; and the rows of the buffer from the number of groups on are
    untouched. *)
Theorem interleaveAndStore_frame :
  ∀ (A : Type) (bitWidth : Z) (val buf packed : list (list A)),
    interleaveAndStore bitWidth val buf = Some packed →
    let rowsPerGroup := 32 ÷ bitWidth in
    (rowsPerGroup = 2 ∨ rowsPerGroup = 4)
    ∧ Z.rem (Z.of_nat (length val)) rowsPerGroup = 0
    ∧ length <$> packed = length <$> buf
    ∧ ∀ g : nat,
        Z.of_nat (length val) ≤ Z.of_nat g * rowsPerGroup →
        packed !! g = buf !! g.
Proof.
  intros A bitWidth val buf packed. unfold interleaveAndStore, Int64.div.
  destruct (Z.eqb_spec bitWidth 0) as [|Hbw]; [done|].
  cbn [mbind option_bind].
  assert (Int64.wrap (32 ÷ bitWidth) = 32 ÷ bitWidth) as ->.
  { apply wrap_in_range.
    assert (∀ b, 0 < b → 0 ≤ 32 `div` b ≤ 32) as Hq.
    { intros b Hb. split; [apply Z.div_pos; lia|].
      apply Z.div_le_upper_bound; lia. }
    unfold Int64.in_range, Int64.min_signed, Int64.max_signed.
    destruct (Z_lt_le_dec bitWidth 0).
    - replace bitWidth with (- - bitWidth) by lia.
      rewrite Z.quot_opp_r, Z.quot_div_nonneg by lia.
      specialize (Hq (- bitWidth)). lia.
    - rewrite Z.quot_div_nonneg by lia. specialize (Hq bitWidth). lia. }
  set (r := 32 ÷ bitWidth).
  destruct (Z.eqb_spec r 2) as [Hr2|Hr2], (Z.eqb_spec r 4) as [Hr4|Hr4];
    cbn [orb negb]; try done.
  all: destruct (Z.eqb_spec (Z.rem (Z.of_nat (length val)) r) 0)
         as [Hrem|Hrem]; cbn [negb]; [|done].
  all: intros (Hlen & Hframe)%interleaveGroups_frame.
  all: split; [auto|]; split; [done|]; split; [done|].
  all: intros g Hg; apply Hframe.
  all: intros i (j & -> & [Hj0 Hj]%elem_of_seqZ)%list_elem_of_fmap.
  all: rewrite Z.quot_mul by lia.
  all: assert ((Z.of_nat (length val) + r - 1) `div` r < Z.of_nat g + 1)
         by (apply Z.div_lt_upper_bound; lia).
  all: lia.
Qed.

Lemma interleaveAndStore_frame_witness :
  let val := [[1; 2]; [3; 4]]%nat in
  let buf := [[0; 0; 0; 0]; [9; 9; 9; 9]]%nat in
  let packed := [[1; 3; 2; 4]; [9; 9; 9; 9]]%nat in
  let rowsPerGroup := 32 ÷ 16 in
  (rowsPerGroup = 2 ∨ rowsPerGroup = 4)
  ∧ Z.rem (Z.of_nat (length val)) rowsPerGroup = 0
  ∧ length <$> packed = length <$> buf
  ∧ ∀ g : nat,
      Z.of_nat (length val) ≤ Z.of_nat g * rowsPerGroup →
      packed !! g = buf !! g.
Proof.
  cbn zeta.
  apply (interleaveAndStore_frame nat 16 [[1; 2]; [3; 4]]%nat
           [[0; 0; 0; 0]; [9; 9; 9; 9]]%nat).
  reflexivity.
Defined.

(** * The tiles of the left operand *)

Lemma tile_in_bounds X t b block k :
  1 ≤ t → 1 ≤ b ≤ X `div` t → X `div` t * t ≤ X →
  0 ≤ block < (X `div` t) `div` b → 0 ≤ k < b →
  (block * b + k + 1) * t ≤ X.
Proof.
  intros Ht Hb Hq Hblock Hk.
  pose proof (Z.mul_div_le (X `div` t) b ltac:(lia)) as Hr.
  generalize dependent (X `div` t). intros q Hb Hq.
  generalize (q `div` b). intros r Hblock Hr.
  assert (block * b + k + 1 ≤ (block + 1) * b) by lia.
  assert ((block + 1) * b ≤ r * b) by nia.
  assert (block * b + k + 1 ≤ q) by lia.
  assert ((block * b + k + 1) * t ≤ q * t)
    by (apply Z.mul_le_mono_nonneg_r; lia).
  lia.
Qed.

Lemma shiftIndices_offsets outer idxM idxN tileTy bm bn blockM blockN i j
  X Y :
  1 ≤ tileRows tileTy → 1 ≤ tileCols tileTy → 1 ≤ bm → 1 ≤ bn →
  0 ≤ blockM → 0 ≤ blockN → 0 ≤ i → 0 ≤ j →
  (blockM * bm + i + 1) * tileRows tileTy ≤ X → X ≤ Int64.max_signed →
  (blockN * bn + j + 1) * tileCols tileTy ≤ Y → Y ≤ Int64.max_signed →
  shiftIndices (outer ++ [idxM; idxN]) tileTy bm bn blockM blockN i j
  = Some (((λ v, (v, 0)) <$> outer)
            ++ [(idxM, (blockM * bm + i) * tileRows tileTy);
                (idxN, (blockN * bn + j) * tileCols tileTy)]).
Proof.
  intros Hrows Hcols Hbm Hbn HblockM HblockN Hi Hj HX HXmax HY HYmax.
  unfold shiftIndices. rewrite reverse_app.
  change (reverse [idxM; idxN]) with [idxN; idxM]. cbn [app].
  rewrite reverse_involutive.
  assert (∀ X t b block k,
            1 ≤ t → 1 ≤ b → 0 ≤ block → 0 ≤ k →
            (block * b + k + 1) * t ≤ X → X ≤ Int64.max_signed →
            Int64.wrap (Int64.mul (Int64.mul block b) t + Int64.mul k t)
            = (block * b + k) * t) as Hoff.
  { intros X' t b block k Ht Hb Hblock Hk Hle Hmax.
    assert (∀ z, 0 ≤ z ≤ X' → Int64.in_range z) as Hr.
    { intros z Hz.
      unfold Int64.in_range, Int64.min_signed, Int64.max_signed in *. lia. }
    unfold Int64.mul.
    rewrite (wrap_in_range (block * b)) by (apply Hr; nia).
    rewrite (wrap_in_range (block * b * t)) by (apply Hr; nia).
    rewrite (wrap_in_range (k * t)) by (apply Hr; nia).
    rewrite wrap_in_range by (apply Hr; nia). lia. }
  by rewrite (Hoff X), (Hoff Y).
Qed.

(** X20: for an accepted operation whose left operand has [M] rows and
    [K] columns, loading the LHS tile of row [i] of block row [blockM] at
    reduction step [blockK] creates one tile load, whose two innermost
    indices are shifted by [(blockM * tilesInBlockM + i) * tileM] rows and
    [blockK * tileK] columns, computed without overflow; the loaded tile
    lies inside the operand. *)
Theorem loadTile_lhs_in_bounds :
  ∀ (o : DotOp) (s : Support) (c0 c : AmxDotOpCandidate)
    (lhsElemTy : MlirType) (base : Value) (buf : MemBuffer)
    (outer : list Value) (idxM idxK : Value) (blockM blockK i M K : Z)
    (st : RewriterState),
    VectorType_valid (lhsTy o) → VectorType_valid (resTy o) →
    isAmxCandidate o s c0 = Some (true, c) →
    getDimSize (lhsTy o) 0 = Some M → getDimSize (resTy o) 0 = Some M →
    getDimSize (lhsTy o) 1 = Some K →
    memRef buf = Some base → indices buf = outer ++ [idxM; idxK] →
    0 ≤ blockM < (M `div` tileM c) `div` tilesInBlockM c →
    0 ≤ i < tilesInBlockM c →
    0 ≤ blockK < K `div` tileK c →
    let lhsTileTy := {| tileRows := tileM c; tileCols := tileK c;
                        tileElemTy := lhsElemTy |} in
    let row := (blockM * tilesInBlockM c + i) * tileM c in
    let col := blockK * tileK c in
    loadTile lhsTileTy buf (tilesInBlockM c) 1 blockM blockK i 0 st
    = Some (nextValue st,
            {| nextValue := (nextValue st + 1)%nat;
               events := events st
                 ++ [Create (TileLoadOp (nextValue st) lhsTileTy base
                       (((λ v, (v, 0)) <$> outer)
                          ++ [(idxM, row); (idxK, col)]))] |})
    ∧ 0 ≤ row ∧ row + tileM c ≤ M ∧ 0 ≤ col ∧ col + tileK c ≤ K.
Proof.
  intros o s c0 c lhsElemTy base buf outer idxM idxK blockM blockK i M K st
    Hlhs_valid Hres_valid Hacc HlM HM HK Hbase Hidx HblockM Hi HblockK
    lhsTileTy row col.
  destruct (isAmxCandidate_geometry o s c0 c Hres_valid Hacc)
    as (M' & N & K' & HM' & _ & HK' & HMmax & _ & HtM & _ & HtK & HbM
        & _ & HqM & _).
  assert (M' = M) as -> by congruence. assert (K' = K) as -> by congruence.
  destruct (VectorType_valid_dim _ _ _ Hlhs_valid HK) as [_ HKmax].
  pose proof (tile_in_bounds M _ _ blockM i (proj1 HtM) HbM HqM HblockM Hi)
    as HinM.
  assert ((blockK * 1 + 0 + 1) * tileK c ≤ K) as HinK.
  { pose proof (Z.mul_div_le K (tileK c) ltac:(lia)).
    assert ((blockK + 1) * tileK c ≤ K `div` tileK c * tileK c)
      by (apply Z.mul_le_mono_nonneg_r; lia).
    lia. }
  split.
  - unfold loadTile, bind, lift, create, fresh, emit, ret. rewrite Hidx.
    rewrite (shiftIndices_offsets outer idxM idxK lhsTileTy _ 1 blockM blockK
               i 0 M K) by (done || cbn; lia).
    rewrite Hbase. cbn. unfold row, col.
    by replace ((blockK * 1 + 0) * tileK c) with (blockK * tileK c) by lia.
  - unfold row, col. nia.
Qed.

Lemma loadTile_lhs_in_bounds_witness :
  let c := analysed dot48 allSupported in
  let lhsTileTy := {| tileRows := tileM c; tileCols := tileK c;
                      tileElemTy := FloatType Float16 |} in
  let st := {| nextValue := 20%nat; events := [] |} in
  let row := (0 * tilesInBlockM c + 2) * tileM c in
  let col := 1 * tileK c in
  loadTile lhsTileTy (bufferAt 7%nat) (tilesInBlockM c) 1 0 1 2 0 st
  = Some (nextValue st,
          {| nextValue := (nextValue st + 1)%nat;
             events := events st
               ++ [Create (TileLoadOp (nextValue st) lhsTileTy 7%nat
                     (((λ v, (v, 0)) <$> [])
                        ++ [(8%nat, row); (9%nat, col)]))] |})
  ∧ 0 ≤ row ∧ row + tileM c ≤ 48 ∧ 0 ≤ col ∧ col + tileK c ≤ 64.
Proof.
  cbn zeta.
  apply (loadTile_lhs_in_bounds dot48 allSupported freshCandidate
           (analysed dot48 allSupported) (FloatType Float16) 7%nat
           (bufferAt 7%nat) [] 8%nat 9%nat 0 1 2 48 64).
  - apply vector_valid; [lia|lia|]. vm_compute. discriminate.
  - apply vector_valid; [lia|lia|]. vm_compute. discriminate.
  - vm_compute. reflexivity.
  - reflexivity.
  - reflexivity.
  - reflexivity.
  - reflexivity.
  - reflexivity.
  - vm_compute. split; [discriminate|reflexivity].
  - vm_compute. split; [discriminate|reflexivity].
  - vm_compute. split; [discriminate|reflexivity].
Defined.

(** * Blocks of four tiles *)

Lemma isPow2_mul z w : isPow2 z → isPow2 w → isPow2 (z * w).
Proof.
  intros [a ->] [b ->]. exists (a + b)%nat.
  rewrite <- Z.pow_add_r by lia. f_equal. lia.
Qed.

Lemma isPow2_above_4 z : isPow2 z → 4 < z → 8 ≤ z.
Proof.
  intros [k ->] Hz.
  destruct (decide (k ≤ 2)%nat) as [Hk|Hk].
  - assert (2 ^ Z.of_nat k ≤ 2 ^ 2) by (apply Z.pow_le_mono_r; lia). lia.
  - change 8 with (2 ^ 3). apply Z.pow_le_mono_r; lia.
Qed.

Lemma halve_pow2_product s s' :
  halve s s' → positive_blocks s → isPow2 s.1 → isPow2 s.2 →
  4 ≤ s'.1 * s'.2.
Proof.
  assert (isPow2 2) as H2 by by exists 1%nat.
  intros [a b Hprod Hlt|a b Hprod Hle] [Ha Hb] Hpa Hpb; cbn in *.
  - pose proof (isPow2_above_4 _ (isPow2_mul _ _ Hpa Hpb) Hprod).
    destruct (isPow2_div a 2 Hpa H2 ltac:(lia)) as [_ Hhalf]. nia.
  - pose proof (isPow2_above_4 _ (isPow2_mul _ _ Hpa Hpb) Hprod).
    destruct (isPow2_div b 2 Hpb H2 ltac:(nia)) as [_ Hhalf]. nia.
Qed.

Lemma rtc_halve_pow2_product s s' :
  rtc halve s s' → positive_blocks s → isPow2 s.1 → isPow2 s.2 →
  4 ≤ s.1 * s.2 → 4 ≤ s'.1 * s'.2.
Proof.
  induction 1 as [s|s s1 s' Hstep _ IH]; intros Hpos H1 H2 Hprod; [done|].
  destruct (halve_pow2 s s1 Hstep Hpos H1 H2) as (? & ? & ?).
  apply IH; try done. by apply (halve_pow2_product s s1).
Qed.

(** X21: the planner does not shrink blocks more than it has to.  When
    the result of an accepted operation has at most four tiles, one block
    holds all of them; when [M] and [N] are powers of two and the result
    has at least four tiles, a block holds exactly four. *)
Theorem isAmxCandidate_full_blocks :
  ∀ (o : DotOp) (s : Support) (c0 c : AmxDotOpCandidate) (M N : Z),
    VectorType_valid (resTy o) →
    isAmxCandidate o s c0 = Some (true, c) →
    getDimSize (resTy o) 0 = Some M → getDimSize (resTy o) 1 = Some N →
    ((M `div` tileM c) * (N `div` tileN c) ≤ 4 →
     tilesInBlockM c = M `div` tileM c ∧ tilesInBlockN c = N `div` tileN c)
    ∧ (isPow2 M → isPow2 N → 4 ≤ (M `div` tileM c) * (N `div` tileN c) →
       tilesInBlockM c * tilesInBlockN c = 4).
Proof.
  intros o s c0 c M N Hvalid Hacc HM HN.
  destruct (isAmxCandidate_block_budget o s c0 c Hvalid Hacc)
    as (_ & _ & Hbudget).
  destruct (isAmxCandidate_descriptor o s c0 c Hvalid Hacc)
    as (M' & N' & K & ty & HM' & HN' & _ & _ & _ & _ & _ & _ & _ & _
        & _ & _ & HtM & HtN & _ & [Hpos Hloop] & _).
  assert (M' = M) as -> by congruence. assert (N' = N) as -> by congruence.
  rewrite HtM, HtN. split.
  - intros Hsmall. destruct Hpos as [Ha Hb]. cbn in Ha, Hb.
    destruct (while_loop_iterates _ _ _ Hloop) as ([|k] & Hk & _ & Hrun).
    + cbn in Hk. by injection Hk as -> ->.
    + specialize (Hrun 0%nat ltac:(lia)). cbn in Hrun.
      unfold loop_cond in Hrun. cbn in Hrun.
      rewrite mul_in_range in Hrun
        by (unfold Int64.in_range, Int64.min_signed, Int64.max_signed; nia).
      apply Z.gtb_gt in Hrun. lia.
  - intros HpM HpN Hlarge.
    assert (isPow2 16) as H16 by by exists 4%nat.
    destruct (isPow2_div M (Z.min M 16) HpM (isPow2_min _ _ HpM H16)
                ltac:(lia)) as [HqM _].
    destruct (isPow2_div N (Z.min N 16) HpN (isPow2_min _ _ HpN H16)
                ltac:(lia)) as [HqN _].
    destruct (while_loop_positive _ _ _ Hloop Hpos)
      as (_ & _ & _ & Hsteps & _).
    pose proof (rtc_halve_pow2_product _ _ Hsteps Hpos HqM HqN Hlarge)
      as Hfour.
    cbn in Hfour. lia.
Qed.

Lemma isAmxCandidate_full_blocks_witness :
  let c := analysed scenarioD allSupported in
  ((64 `div` tileM c) * (64 `div` tileN c) ≤ 4 →
   tilesInBlockM c = 64 `div` tileM c ∧ tilesInBlockN c = 64 `div` tileN c)
  ∧ (isPow2 64 → isPow2 64 → 4 ≤ (64 `div` tileM c) * (64 `div` tileN c) →
     tilesInBlockM c * tilesInBlockN c = 4).
Proof.
  cbn zeta.
  apply (isAmxCandidate_full_blocks scenarioD allSupported freshCandidate).
  - apply vector_valid; [lia|lia|]. vm_compute. discriminate.
  - vm_compute. reflexivity.
  - reflexivity.
  - reflexivity.
Defined.

(** * The tiles carried by the loop *)

Lemma getTile_setTile tiles (i j i' j' : nat) v tiles' :
  setTile tiles (Z.of_nat i) (Z.of_nat j) v = Some tiles' →
  getTile tiles' (Z.of_nat i') (Z.of_nat j')
  = if decide (i' = i ∧ j' = j) then Some v
    else getTile tiles (Z.of_nat i') (Z.of_nat j').
Proof.
  unfold setTile, getTile. rewrite !Nat2Z.id.
  destruct (tiles !! i) as [row|] eqn:Hrow; [|done]. cbn [mbind option_bind].
  destruct (row !! j) as [old|] eqn:Hold; [|done]. cbn [mbind option_bind].
  intros [= <-].
  apply lookup_lt_Some in Hrow as Hi. apply lookup_lt_Some in Hold as Hj.
  destruct (decide (i' = i)) as [->|Hne].
  - rewrite list_lookup_insert_eq by done. cbn [mbind option_bind].
    destruct (decide (j' = j)) as [->|Hne].
    + rewrite decide_True by done. by apply list_lookup_insert_eq.
    + rewrite decide_False by (intros [_ ?]; done).
      rewrite list_lookup_insert_ne by done. by rewrite Hrow.
  - rewrite decide_False by (intros [? _]; done).
    by rewrite list_lookup_insert_ne.
Qed.

Lemma tiles_ext (a b : list (list Value)) m n :
  tilesShape a m n → tilesShape b m n →
  (∀ i j : nat, (i < m)%nat → (j < n)%nat →
                getTile a (Z.of_nat i) (Z.of_nat j)
                = getTile b (Z.of_nat i) (Z.of_nat j)) →
  a = b.
Proof.
  intros Ha Hb Hall. apply list_eq. intros i.
  destruct (decide (i < m)%nat) as [Hi|Hi].
  - destruct (tilesShape_lookup a m n i Ha Hi) as (ra & Hra & Hla).
    destruct (tilesShape_lookup b m n i Hb Hi) as (rb & Hrb & Hlb).
    rewrite Hra, Hrb. f_equal. apply list_eq. intros j.
    destruct (decide (j < n)%nat) as [Hj|Hj].
    + specialize (Hall i j Hi Hj). unfold getTile in Hall.
      by rewrite !Nat2Z.id, Hra, Hrb in Hall.
    + rewrite !(proj2 (lookup_ge_None _ _)) by lia. done.
  - rewrite !(proj2 (lookup_ge_None _ _)); [done|..].
    + rewrite (tilesShape_length _ _ _ Hb). lia.
    + rewrite (tilesShape_length _ _ _ Ha). lia.
Qed.

(** [flattenTiles] lists the tiles of a block row by row. *)
Lemma flattenTiles_lookup bm bn tiles st :
  tilesShape tiles (Z.to_nat bm) (Z.to_nat bn) →
  runs (flattenTiles bm bn tiles) st
       (λ l evs,
          evs = [] ∧ length l = (Z.to_nat bm * Z.to_nat bn)%nat
          ∧ ∀ i j : nat,
              (i < Z.to_nat bm)%nat → (j < Z.to_nat bn)%nat →
              l !! (i * Z.to_nat bn + j)%nat
              = getTile tiles (Z.of_nat i) (Z.of_nat j)).
Proof.
  intros Hshape. unfold flattenTiles.
  set (m := Z.to_nat bm) in *. set (n := Z.to_nat bn) in *.
  apply (runs_forZ bm _ _ st
           (λ i (acc : list Value) evs,
              evs = [] ∧ length acc = (i * n)%nat
              ∧ ∀ i' j : nat,
                  (i' < i)%nat → (j < n)%nat →
                  acc !! (i' * n + j)%nat
                  = getTile tiles (Z.of_nat i') (Z.of_nat j))).
  { split; [done|]. split; [done|]. intros; lia. }
  intros i acc evs st1 Hi (-> & Hlen & Hacc). cbn [app].
  eapply runs_consequence.
  - apply (runs_forZ bn _ _ st1
             (λ j (acc1 : list Value) evs,
                evs = [] ∧ length acc1 = (i * n + j)%nat
                ∧ ∀ i' j' : nat,
                    (i' < i ∨ i' = i ∧ j' < j)%nat → (j' < n)%nat →
                    acc1 !! (i' * n + j')%nat
                    = getTile tiles (Z.of_nat i') (Z.of_nat j'))).
    { split; [done|]. split; [lia|]. intros i' j' [?|[_ ?]] ?; [|lia].
      by apply Hacc. }
    intros j acc1 evs1 st2 Hj (-> & Hlen1 & Hacc1). cbn [app].
    destruct (getTile_shape tiles m n i j Hshape) as [tile Htile];
      [unfold m; lia|unfold n; lia|].
    eapply runs_bind_lift; [exact Htile|]. apply runs_ret.
    split; [done|]. split; [rewrite length_app; cbn; lia|].
    intros i' j' Hij Hj'.
    destruct (decide (i' = i ∧ j' = j)) as [[-> ->]|Hne].
    + rewrite lookup_app_r by lia.
      replace (i * n + j - length acc1)%nat with 0%nat by lia.
      by rewrite Htile.
    + rewrite lookup_app_l by nia. apply Hacc1; [|done].
      destruct Hij as [?|[-> ?]]; [by left|]. right. split; [done|lia].
  - intros acc1 evs1 (-> & Hlen1 & Hacc1). fold n in Hlen1, Hacc1.
    split; [done|]. split; [lia|]. intros i' j' Hi' Hj'.
    apply Hacc1; [|done]. destruct (decide (i' = i)); [right|left]; lia.
Qed.

(** [takeLoopResults] puts the results back where [flattenTiles] took the
    tiles from. *)
Lemma takeLoopResults_lookup bm bn resTiles accTiles st :
  1 ≤ bm → 1 ≤ bn → bm * bn ≤ Int64.max_signed →
  tilesShape accTiles (Z.to_nat bm) (Z.to_nat bn) →
  length resTiles = (Z.to_nat bm * Z.to_nat bn)%nat →
  runs (takeLoopResults bm bn resTiles accTiles) st
       (λ tiles evs,
          evs = [] ∧ tilesShape tiles (Z.to_nat bm) (Z.to_nat bn)
          ∧ ∀ i j : nat,
              (i < Z.to_nat bm)%nat → (j < Z.to_nat bn)%nat →
              getTile tiles (Z.of_nat i) (Z.of_nat j)
              = resTiles !! (i * Z.to_nat bn + j)%nat).
Proof.
  intros Hbm Hbn Hprod Hshape Hres. unfold takeLoopResults.
  set (m := Z.to_nat bm) in *. set (n := Z.to_nat bn) in *.
  apply (runs_forZ bm _ _ st
           (λ i tiles evs,
              evs = [] ∧ tilesShape tiles m n
              ∧ ∀ i' j : nat,
                  (i' < i)%nat → (j < n)%nat →
                  getTile tiles (Z.of_nat i') (Z.of_nat j)
                  = resTiles !! (i' * n + j)%nat)).
  { split; [done|]. split; [done|]. intros; lia. }
  intros i tiles evs st1 Hi (-> & Htiles & Hdone). cbn [app].
  eapply runs_consequence.
  - apply (runs_forZ bn _ _ st1
             (λ j tiles1 evs,
                evs = [] ∧ tilesShape tiles1 m n
                ∧ ∀ i' j' : nat,
                    (i' < i ∨ i' = i ∧ j' < j)%nat → (j' < n)%nat →
                    getTile tiles1 (Z.of_nat i') (Z.of_nat j')
                    = resTiles !! (i' * n + j')%nat)).
    { split; [done|]. split; [done|]. intros i' j' [?|[_ ?]] ?; [|lia].
      by apply Hdone. }
    intros j tiles1 evs1 st2 Hj (-> & Htiles1 & Hdone1). cbn [app].
    assert (Z.to_nat (Int64.wrap (Int64.mul (Z.of_nat i) bn + Z.of_nat j))
            = (i * n + j)%nat) as ->.
    { assert (Z.of_nat i * bn + Z.of_nat j < bm * bn) by nia.
      rewrite mul_in_range, wrap_in_range
        by (unfold Int64.in_range, Int64.min_signed, Int64.max_signed in *;
            nia).
      unfold n. nia. }
    destruct (lookup_lt_is_Some_2 resTiles (i * n + j))
      as [tile Htile]; [unfold m, n in *; nia|].
    eapply runs_bind_lift; [exact Htile|].
    destruct (setTile_shape tiles1 m n i j tile Htiles1)
      as (tiles2 & Hset & Hshape2); [unfold m; lia|unfold n; lia|].
    eapply runs_lift; [exact Hset|].
    split; [done|]. split; [done|]. intros i' j' Hij Hj'.
    rewrite (getTile_setTile _ _ _ _ _ _ _ Hset).
    destruct (decide (i' = i ∧ j' = j)) as [[-> ->]|Hne]; [done|].
    apply Hdone1; [|done].
    destruct Hij as [?|[-> ?]]; [by left|]. right. split; [done|lia].
  - intros tiles1 evs1 (-> & Htiles1 & Hdone1). fold n in Hdone1.
    split; [done|]. split; [done|]. intros i' j' Hi' Hj'.
    apply Hdone1; [|done]. destruct (decide (i' = i)); [right|left]; lia.
Qed.

(** X23: the two loops that rewire an accumulator kept on tiles agree on
    the order of the tiles: taking the loop results at index
    [m * tilesInBlockN + n] undoes the row-by-row flattening of the block,
    whatever the block held before, and neither loop creates an
    operation. *)
Theorem takeLoopResults_flattenTiles :
  ∀ (bm bn : Z) (tiles accTiles : list (list Value)) (st : RewriterState),
    1 ≤ bm → 1 ≤ bn → bm * bn ≤ Int64.max_signed →
    tilesShape tiles (Z.to_nat bm) (Z.to_nat bn) →
    tilesShape accTiles (Z.to_nat bm) (Z.to_nat bn) →
    runs (let* l := flattenTiles bm bn tiles in
          takeLoopResults bm bn l accTiles) st
         (λ tiles' evs, tiles' = tiles ∧ evs = []).
Proof.
  intros bm bn tiles accTiles st Hbm Hbn Hprod Hshape Hacc.
  eapply runs_bind; [by apply flattenTiles_lookup|].
  intros l evs st1 (-> & Hlen & Hl). cbn [app].
  eapply runs_consequence; [by apply takeLoopResults_lookup|].
  intros tiles' evs' (-> & Hshape' & Htiles'). split; [|done].
  apply (tiles_ext _ _ _ _ Hshape' Hshape). intros i j Hi Hj.
  by rewrite Htiles', Hl.
Qed.

Lemma takeLoopResults_flattenTiles_witness :
  runs (let* l := flattenTiles 2 2 [[1; 2]; [3; 4]]%nat in
        takeLoopResults 2 2 l [[0; 0]; [0; 0]]%nat)
       {| nextValue := 0%nat; events := [] |}
       (λ tiles' evs, tiles' = [[1; 2]; [3; 4]]%nat ∧ evs = []).
Proof.
  apply takeLoopResults_flattenTiles.
  - lia.
  - lia.
  - vm_compute. discriminate.
  - reflexivity.
  - reflexivity.
Defined.

(** * The accesses of the generated code *)

(** ** Lists built by loops *)

Lemma bind_nil_r {A B} (l : list A) : l ≫= (λ _, @nil B) = [].
Proof. induction l as [|x l IH]; [done|]. by rewrite bind_cons, IH. Qed.

Lemma bind_perm_ext {A B} (f g : A → list B) (l : list A) :
  (∀ x, x ∈ l → f x ≡ₚ g x) → l ≫= f ≡ₚ l ≫= g.
Proof.
  induction l as [|x l IH]; intros Hfg; [done|].
  rewrite !bind_cons. f_equiv.
  - apply Hfg. by left.
  - apply IH. intros y Hy. apply Hfg. by right.
Qed.

Lemma bind_app_perm {A B} (f g : A → list B) (l : list A) :
  l ≫= (λ x, f x ++ g x) ≡ₚ (l ≫= f) ++ (l ≫= g).
Proof.
  induction l as [|x l IH]; [done|].
  rewrite !bind_cons, IH, <- !(assoc app). f_equiv.
  rewrite !(assoc app). f_equiv. apply (comm app).
Qed.

Lemma bind_swap_perm {A B C} (f : A → B → list C) (la : list A)
  (lb : list B) :
  (la ≫= λ a, lb ≫= f a) ≡ₚ (lb ≫= λ b, la ≫= λ a, f a b).
Proof.
  induction la as [|a la IH].
  - symmetry. by rewrite (bind_nil_r lb : lb ≫= (λ b, [] ≫= λ a, f a b) = []).
  - rewrite bind_cons, IH.
    rewrite <- (bind_app_perm (f a) (λ b, la ≫= λ a', f a' b)).
    apply bind_perm_ext. intros b _. by rewrite bind_cons.
Qed.

Lemma bind_blockCoords {C} (f : Z * Z → list C) bM bN :
  blockCoords bM bN ≫= f
  = (i ← seqZ 0 bM; j ← seqZ 0 bN; f (i, j)).
Proof.
  unfold blockCoords.
  induction (seqZ 0 bM) as [|i l IH]; [done|].
  rewrite !bind_cons, bind_app, IH. f_equal.
  clear. induction (seqZ 0 bN) as [|j l IH]; [done|].
  by rewrite !bind_cons, bind_app, IH, bind_singleton.
Qed.

Lemma seqZ_one : seqZ 0 1 = [0].
Proof. reflexivity. Qed.

Lemma bind_one {B} (f : Z → list B) : seqZ 0 1 ≫= f = f 0.
Proof. by rewrite seqZ_one, bind_singleton. Qed.

Lemma seqZ_last n : 1 ≤ n → seqZ 0 n = seqZ 0 (n - 1) ++ [n - 1].
Proof.
  intros Hn. replace n with ((n - 1) + 1) at 1 by lia.
  rewrite seqZ_app by lia. by rewrite Z.add_0_l.
Qed.

(** ** The accesses of a sequence and of a loop *)

Lemma accesses_app evs1 evs2 :
  accesses (evs1 ++ evs2) = accesses evs1 ++ accesses evs2.
Proof. apply bind_app. Qed.

Lemma emits_acc_seq {A B} (m : Rewriter A) (k : A → Rewriter B)
  (L1 L2 : list Access) :
  emits m (λ _ evs, accesses evs ≡ₚ L1) →
  (∀ a, emits (k a) (λ _ evs, accesses evs ≡ₚ L2)) →
  emits (bind m k) (λ _ evs, accesses evs ≡ₚ L1 ++ L2).
Proof.
  intros Hm Hk. eapply emits_bind; [exact Hm|].
  intros a evs1 H1. cbn beta.
  eapply emits_consequence; [apply Hk|].
  intros b evs2 H2. cbn beta in *. by rewrite accesses_app, H1, H2.
Qed.

Lemma emits_acc_seq_with {A B} (m : Rewriter A) (k : A → Rewriter B)
  (L1 L2 : list Access) (R : A → Prop) :
  emits m (λ a _, R a) →
  emits m (λ _ evs, accesses evs ≡ₚ L1) →
  (∀ a, R a → emits (k a) (λ _ evs, accesses evs ≡ₚ L2)) →
  emits (bind m k) (λ _ evs, accesses evs ≡ₚ L1 ++ L2).
Proof.
  intros HR Hm Hk.
  eapply emits_bind; [apply emits_conj; [exact HR|exact Hm]|].
  intros a evs1 [Ha H1]. cbn beta.
  eapply emits_consequence; [by apply Hk|].
  intros b evs2 H2. cbn beta in *. by rewrite accesses_app, H1, H2.
Qed.

Lemma emits_acc_loop {St} (n : Z) (body : Z → St → Rewriter St) (s : St)
  (L : Z → list Access) :
  (∀ i s, 0 ≤ i < n → emits (body i s) (λ _ evs, accesses evs ≡ₚ L i)) →
  emits (forZ n body s) (λ _ evs, accesses evs ≡ₚ seqZ 0 n ≫= L).
Proof.
  intros Hbody. unfold forZ.
  eapply emits_consequence.
  - apply (emits_forEach (seqZ 0 n) body s
             (λ i _ evs, accesses evs ≡ₚ take i (seqZ 0 n) ≫= L)).
    + done.
    + intros i x s1 evs1 Hx H1. cbn beta.
      pose proof Hx as [-> Hi]%lookup_seqZ.
      eapply emits_consequence; [apply Hbody; lia|].
      intros s2 evs2 H2. cbn beta in *.
      rewrite accesses_app, H1, H2, (take_S_r _ _ _ Hx), bind_app.
      by rewrite bind_singleton.
  - intros s' evs Hevs. cbn beta in Hevs. by rewrite firstn_all in Hevs.
Qed.

Lemma accesses_none evs :
  weight (λ k, match k with
               | KLoad | KZero | KMul | KStore => 1%nat
               | _ => 0%nat
               end) evs = 0%nat →
  accesses evs = [].
Proof.
  induction evs as [|e evs IH]; [done|]. cbn [weight]. intros Hw.
  change (accesses (e :: evs)) with (accessOf e ++ accesses evs).
  rewrite IH by lia. destruct e as [[]| | | | | | |]; cbn in *; (done || lia).
Qed.

(** ** The accesses of the tile code *)

Lemma loadTile_accesses tileTy buf bm bn blockM blockN i j :
  emits (loadTile tileTy buf bm bn blockM blockN i j)
        (λ _ evs, accesses evs ≡ₚ loadAccess tileTy buf bm bn blockM blockN
                                             i j).
Proof.
  unfold loadTile, loadAccess.
  apply emits_bind_lift. intros idx ->.
  apply emits_bind_lift. intros base ->.
  by apply emits_create.
Qed.

Lemma storeTile_accesses tileTy val buf bm bn blockM blockN i j :
  emits (storeTile tileTy val buf bm bn blockM blockN i j)
        (λ _ evs, accesses evs ≡ₚ storeAccess tileTy buf bm bn blockM blockN
                                              i j).
Proof.
  unfold storeTile, storeAccess.
  apply emits_bind_lift. intros idx ->.
  apply emits_bind_lift. intros base ->.
  by apply emits_emit.
Qed.

Lemma loadBlockTiles_accesses tileTy buf bm bn blockM blockN :
  emits (loadBlockTiles tileTy buf bm bn blockM blockN)
        (λ _ evs,
           accesses evs
           ≡ₚ (i ← seqZ 0 bm; j ← seqZ 0 bn;
               initAccess tileTy buf bm bn blockM blockN i j)).
Proof.
  unfold loadBlockTiles. apply emits_acc_loop. intros i res _.
  apply emits_acc_loop. intros j res1 _.
  rewrite <- (app_nil_r (initAccess _ _ _ _ _ _ _ _)).
  apply emits_acc_seq.
  - unfold initAccess. destruct (MemBuffer_empty buf).
    + by apply emits_create.
    + apply loadTile_accesses.
  - intros tile. by apply emits_lift.
Qed.

Lemma storeBlockTiles_accesses tileTy buf blockM blockN tiles m n :
  tilesShape tiles m n → (1 ≤ m)%nat →
  emits (storeBlockTiles tileTy buf blockM blockN tiles)
        (λ _ evs,
           accesses evs
           ≡ₚ (i ← seqZ 0 (Z.of_nat m); j ← seqZ 0 (Z.of_nat n);
               storeAccess tileTy buf (Z.of_nat m) (Z.of_nat n)
                           blockM blockN i j)).
Proof.
  intros Hshape Hm. unfold storeBlockTiles.
  destruct (tilesShape_lookup tiles m n 0 Hshape Hm) as (row0 & Hrow0 & Hn).
  rewrite (tilesShape_length _ _ _ Hshape).
  apply emits_bind_lift. intros row Hrow.
  assert (row = row0) as -> by congruence. rewrite Hn.
  apply emits_acc_loop. intros i [] _.
  apply emits_acc_loop. intros j [] _.
  apply emits_bind_lift. intros tile _. apply storeTile_accesses.
Qed.

Lemma multiplyTile_accesses isInt accTileTy lhsTile rhsTile accBuf
  blockM blockN bm bn i j storeResult accTiles :
  emits (multiplyTile isInt accTileTy lhsTile rhsTile accBuf blockM blockN
           bm bn i j storeResult accTiles)
        (λ _ evs,
           accesses evs
           ≡ₚ AMul accTileTy isInt
              :: (if storeResult
                  then storeAccess accTileTy accBuf bm bn blockM blockN i j
                  else [])).
Proof.
  unfold multiplyTile. apply emits_bind_lift. intros acc _.
  apply (emits_acc_seq _ _ [AMul accTileTy isInt]).
  - destruct isInt; by apply emits_create.
  - intros res. apply emits_bind_lift. intros tiles _.
    rewrite <- (app_nil_r (if storeResult then _ else _)).
    apply emits_acc_seq.
    + destruct storeResult; [apply storeTile_accesses|by apply emits_ret].
    + intros _. by apply emits_ret.
Qed.

(** Both orders of multiplying two blocks make the accesses of
    [blockAccesses]. *)
Lemma multiplyBlocksPreloadLhs_accesses lhsTileTy rhsTileTy accTileTy
  lhsBuf rhsBuf accBuf blockM blockN blockK bm bn accTiles storeResult :
  MemBuffer_empty lhsBuf = false →
  emits (multiplyBlocksPreloadLhs lhsTileTy rhsTileTy accTileTy lhsBuf rhsBuf
           accBuf blockM blockN blockK bm bn accTiles storeResult)
        (λ _ evs,
           accesses evs
           ≡ₚ blockAccesses lhsTileTy rhsTileTy accTileTy lhsBuf rhsBuf
                            accBuf blockM blockN blockK bm bn storeResult).
Proof.
  intros Hlhs. unfold multiplyBlocksPreloadLhs. cbn zeta.
  eapply emits_consequence.
  - eapply emits_acc_seq; [apply loadBlockTiles_accesses|]. intros lhsTiles.
    apply emits_acc_loop. intros j tiles _.
    eapply emits_acc_seq; [apply loadTile_accesses|]. intros rhsTile.
    apply emits_acc_loop. intros i tiles1 _.
    apply emits_bind_lift. intros lhsTile _. apply multiplyTile_accesses.
  - intros _ evs ->. unfold blockAccesses, initAccess. rewrite Hlhs.
    f_equiv.
    + apply bind_perm_ext. intros i _. by rewrite bind_one.
    + rewrite bind_app_perm. f_equiv; [done|]. apply bind_swap_perm.
Qed.

Lemma multiplyBlocksPreloadRhs_accesses lhsTileTy rhsTileTy accTileTy
  lhsBuf rhsBuf accBuf blockM blockN blockK bm bn accTiles storeResult :
  MemBuffer_empty rhsBuf = false →
  emits (multiplyBlocksPreloadRhs lhsTileTy rhsTileTy accTileTy lhsBuf rhsBuf
           accBuf blockM blockN blockK bm bn accTiles storeResult)
        (λ _ evs,
           accesses evs
           ≡ₚ blockAccesses lhsTileTy rhsTileTy accTileTy lhsBuf rhsBuf
                            accBuf blockM blockN blockK bm bn storeResult).
Proof.
  intros Hrhs. unfold multiplyBlocksPreloadRhs. cbn zeta.
  eapply emits_consequence.
  - eapply emits_acc_seq; [apply loadBlockTiles_accesses|]. intros rhsTiles.
    apply emits_acc_loop. intros i tiles _.
    eapply emits_acc_seq; [apply loadTile_accesses|]. intros lhsTile.
    apply emits_acc_loop. intros j tiles1 _.
    apply emits_bind_lift. intros rhsTile _. apply multiplyTile_accesses.
  - intros _ evs ->. unfold blockAccesses, initAccess. rewrite Hrhs.
    rewrite bind_one, bind_app_perm, !(assoc app). f_equiv.
    apply (comm app).
Qed.

Lemma blockAccesses_store lhsTileTy rhsTileTy accTileTy lhsBuf rhsBuf accBuf
  blockM blockN blockK bm bn :
  blockAccesses lhsTileTy rhsTileTy accTileTy lhsBuf rhsBuf accBuf
                blockM blockN blockK bm bn true
  ≡ₚ blockAccesses lhsTileTy rhsTileTy accTileTy lhsBuf rhsBuf accBuf
                   blockM blockN blockK bm bn false
     ++ (t ← blockCoords bm bn;
         storeAccess accTileTy accBuf bm bn blockM blockN t.1 t.2).
Proof.
  unfold blockAccesses. rewrite bind_blockCoords, <- !(assoc app).
  do 2 f_equiv.
  etrans; [|apply bind_app_perm]. apply bind_perm_ext. intros i _.
  etrans; [|apply bind_app_perm]. by apply bind_perm_ext.
Qed.

Lemma convertBlock_accesses c lhsTileTy rhsTileTy accTileTy bufs resBuf
  tilesInVectorK blockM blockN accTiles :
  MemBuffer_empty (lhsBuf bufs) = false →
  MemBuffer_empty (rhsBuf bufs) = false →
  1 ≤ tilesInVectorK →
  emits (convertBlock c lhsTileTy rhsTileTy accTileTy bufs resBuf
           tilesInVectorK blockM blockN accTiles)
        (λ _ evs,
           accesses evs
           ≡ₚ if keepAccOnTiles c
              then reductionAccesses lhsTileTy rhsTileTy accTileTy bufs
                                     resBuf c tilesInVectorK blockM blockN
              else accBlockAccesses lhsTileTy rhsTileTy accTileTy bufs resBuf
                                    c tilesInVectorK blockM blockN).
Proof.
  intros Hlhs Hrhs Hk. unfold convertBlock. cbn zeta.
  set (bm := tilesInBlockM c). set (bn := tilesInBlockN c).
  eapply emits_consequence.
  - apply (emits_acc_seq _ _
             (if keepAccOnTiles c then []
              else (i ← seqZ 0 bm; j ← seqZ 0 bn;
                    initAccess accTileTy (accBuf bufs) bm bn blockM blockN
                               i j))
             (k ← seqZ 0 tilesInVectorK;
              blockAccesses lhsTileTy rhsTileTy accTileTy (lhsBuf bufs)
                (rhsBuf bufs) resBuf blockM blockN k bm bn
                (negb (keepAccOnTiles c) && (k =? tilesInVectorK - 1)))).
    + destruct (keepAccOnTiles c); cbn [negb].
      * by apply emits_ret.
      * apply loadBlockTiles_accesses.
    + intros tiles. apply emits_acc_loop. intros k tiles1 _.
      destruct (bm <=? bn).
      * by apply multiplyBlocksPreloadLhs_accesses.
      * by apply multiplyBlocksPreloadRhs_accesses.
  - intros _ evs ->.
    assert ((k ← seqZ 0 tilesInVectorK;
             blockAccesses lhsTileTy rhsTileTy accTileTy (lhsBuf bufs)
               (rhsBuf bufs) resBuf blockM blockN k bm bn
               (negb (keepAccOnTiles c) && (k =? tilesInVectorK - 1)))
            ≡ₚ reductionAccesses lhsTileTy rhsTileTy accTileTy bufs resBuf c
                 tilesInVectorK blockM blockN
               ++ (if keepAccOnTiles c then []
                   else (t ← blockCoords bm bn;
                         storeAccess accTileTy resBuf bm bn blockM blockN
                                     t.1 t.2))) as ->.
    { unfold reductionAccesses. fold bm bn.
      rewrite (seqZ_last tilesInVectorK), !bind_app, !bind_singleton by done.
      rewrite Z.eqb_refl, andb_true_r, <- (assoc app). f_equiv.
      - apply bind_perm_ext. intros k [_ Hlt]%elem_of_seqZ.
        destruct (Z.eqb_spec k (tilesInVectorK - 1)); [lia|].
        by rewrite andb_false_r.
      - destruct (keepAccOnTiles c); cbn [negb].
        + by rewrite app_nil_r.
        + apply blockAccesses_store. }
    unfold accBlockAccesses. fold bm bn.
    destruct (keepAccOnTiles c).
    + by rewrite app_nil_r.
    + by rewrite !bind_blockCoords.
Qed.

Lemma convertBlocks_accesses c lhsTileTy rhsTileTy accTileTy bufs resBuf
  tilesInVectorK blocksInAccM blocksInAccN accInitTiles :
  MemBuffer_empty (lhsBuf bufs) = false →
  MemBuffer_empty (rhsBuf bufs) = false →
  1 ≤ tilesInVectorK →
  emits (forZ blocksInAccM (λ blockM accTiles,
           forZ blocksInAccN (λ blockN accTiles,
             convertBlock c lhsTileTy rhsTileTy accTileTy bufs resBuf
                          tilesInVectorK blockM blockN accTiles) accTiles)
           accInitTiles)
        (λ _ evs,
           accesses evs
           ≡ₚ (b ← blockCoords blocksInAccM blocksInAccN;
               if keepAccOnTiles c
               then reductionAccesses lhsTileTy rhsTileTy accTileTy bufs
                                      resBuf c tilesInVectorK b.1 b.2
               else accBlockAccesses lhsTileTy rhsTileTy accTileTy bufs
                                     resBuf c tilesInVectorK b.1 b.2)).
Proof.
  intros Hlhs Hrhs Hk. rewrite bind_blockCoords.
  apply emits_acc_loop. intros blockM tiles _.
  apply emits_acc_loop. intros blockN tiles1 _.
  by apply convertBlock_accesses.
Qed.

Lemma replaceOriginal_accesses c o accTileTy resBuf accInitTiles accTiles :
  1 ≤ tilesInBlockM c → 1 ≤ tilesInBlockN c →
  tilesInBlockM c * tilesInBlockN c ≤ 4 →
  (keepAccOnTiles c = true →
   tilesShape accInitTiles (Z.to_nat (tilesInBlockM c))
              (Z.to_nat (tilesInBlockN c))
   ∧ tilesShape accTiles (Z.to_nat (tilesInBlockM c))
                (Z.to_nat (tilesInBlockN c))) →
  emits (replaceOriginal c o accTileTy resBuf accInitTiles accTiles)
        (λ _ evs,
           accesses evs
           ≡ₚ if keepAccOnTiles c
              then (t ← blockCoords (tilesInBlockM c) (tilesInBlockN c);
                    storeAccess accTileTy
                      (if MemBuffer_empty (outBuf c) then resBuf
                       else outBuf c)
                      (tilesInBlockM c) (tilesInBlockN c) 0 0 t.1 t.2)
              else []).
Proof.
  intros Hbm Hbn Hprod Hshapes.
  set (wt := λ k, match k with
                  | KLoad | KZero | KMul | KStore => 1%nat
                  | _ => 0%nat
                  end).
  destruct (keepAccOnTiles c) eqn:Hkeep.
  - destruct (Hshapes eq_refl) as [Hinit Htiles].
    unfold replaceOriginal. rewrite Hkeep.
    set (m := Z.to_nat (tilesInBlockM c)) in *.
    set (n := Z.to_nat (tilesInBlockN c)) in *.
    set (buf := if MemBuffer_empty (outBuf c) then resBuf else outBuf c).
    set (S := t ← blockCoords (tilesInBlockM c) (tilesInBlockN c);
              storeAccess accTileTy buf (tilesInBlockM c) (tilesInBlockN c)
                          0 0 t.1 t.2).
    apply (emits_acc_seq _ _ [] S); [by apply emits_emit|]. intros _.
    apply (emits_acc_seq _ _ [] S).
    { eapply emits_consequence; [apply (flattenTiles_weight wt)|].
      by intros l evs ->%accesses_none. }
    intros newInitOperands.
    apply (emits_acc_seq_with _ _ [] S (λ l, length l = (m * n)%nat)).
    { eapply emits_consequence.
      - apply emits_of_runs. intros st. by apply (flattenTiles_runs true).
      - by intros l evs [? _]. }
    { eapply emits_consequence; [apply (flattenTiles_weight wt)|].
      by intros l evs ->%accesses_none. }
    intros newYieldedValues Hlen.
    apply (emits_acc_seq _ _ [] S); [by apply emits_fresh|]. intros first.
    apply (emits_acc_seq _ _ [] S); [by apply emits_emit|]. intros _.
    apply (emits_acc_seq_with _ _ [] S (λ tiles, tilesShape tiles m n)).
    { eapply emits_consequence.
      - apply emits_of_runs. intros st.
        apply (takeLoopResults_runs true); try done.
        by rewrite length_seq.
      - by intros l evs [? _]. }
    { eapply emits_consequence; [apply (takeLoopResults_weight wt)|].
      by intros l evs ->%accesses_none. }
    intros tiles Htiles'.
    assert (emits (storeBlockTiles accTileTy buf 0 0 tiles)
                  (λ _ evs, accesses evs ≡ₚ S)) as Hstore.
    { eapply emits_consequence.
      - eapply storeBlockTiles_accesses; [exact Htiles'|lia].
      - intros _ evs ->. unfold S, m, n.
        by rewrite bind_blockCoords, !Z2Nat.id by lia. }
    unfold buf in Hstore. rewrite <- (app_nil_r S).
    destruct (MemBuffer_empty (outBuf c)).
    + apply emits_acc_seq; [exact Hstore|]. intros _.
      apply (emits_acc_seq _ _ [] []); [by apply emits_fresh|]. intros nv.
      apply (emits_acc_seq _ _ [] []); [by apply emits_emit|]. intros _.
      by apply emits_emit.
    + apply emits_acc_seq; [exact Hstore|]. intros _. by apply emits_emit.
  - unfold replaceOriginal. rewrite Hkeep.
    destruct (keepAccInBuf c); [|destruct (MemBuffer_empty (outBuf c))].
    + apply (emits_acc_seq _ _ [] []); [by apply emits_fresh|]. intros nv.
      apply (emits_acc_seq _ _ [] []); [by apply emits_emit|]. intros _.
      apply (emits_acc_seq _ _ [] []); [by apply emits_emit|]. intros _.
      by apply emits_emit.
    + apply (emits_acc_seq _ _ [] []); [by apply emits_fresh|]. intros nv.
      apply (emits_acc_seq _ _ [] []); [by apply emits_emit|]. intros _.
      by apply emits_emit.
    + apply (emits_acc_seq _ _ [] []); [by apply emits_emit|]. intros _.
      by apply emits_emit.
Qed.

(** ** The accesses of a whole conversion *)

Lemma convertCandidate_accesses getPacked alloc prep o s c0 c M N K
  lhsElemTy rhsElemTy accElemTy :
  VectorType_valid (lhsTy o) → VectorType_valid (resTy o) →
  getShape (accTy o) = getShape (resTy o) →
  isAmxCandidate o s c0 = Some (true, c) →
  getDimSize (resTy o) 0 = Some M → getDimSize (resTy o) 1 = Some N →
  getDimSize (lhsTy o) 1 = Some K →
  lhsTileElemTy c = Some lhsElemTy → rhsTileElemTy c = Some rhsElemTy →
  accTileElemTy c = Some accElemTy →
  usable (lhsBuf (prep c)) → usable (rhsBuf (prep c)) →
  MemBuffer_empty (accBuf (prep c)) = true ∨ usable (accBuf (prep c)) →
  MemBuffer_empty (outBuf c) = true ∨ usable (outBuf c) →
  usable (alloc (resTy o)) →
  emits (convertCandidate getPacked alloc prep c)
        (λ _ evs,
           accesses evs
           ≡ₚ conversionAccesses
                {| tileRows := tileM c; tileCols := tileK c;
                   tileElemTy := lhsElemTy |}
                (getPacked {| tileRows := tileK c; tileCols := tileN c;
                              tileElemTy := rhsElemTy |})
                {| tileRows := tileM c; tileCols := tileN c;
                   tileElemTy := accElemTy |}
                (prep c)
                (prepareResultBuffer alloc o (accBuf (prep c)) (outBuf c))
                c ((M `div` tileM c) `div` tilesInBlockM c)
                ((N `div` tileN c) `div` tilesInBlockN c)
                (K `div` tileK c)).
Proof.
  intros Hlhs_valid Hres_valid Hacc_shape Haccepted HM HN HK Hl Hr Ha Hlhs
    Hrhs Hacc Hout Halloc.
  destruct (isAmxCandidate_generator_inputs o s c0 c Hres_valid Haccepted)
    as (M' & N' & K' & lty & aty & HM' & HN' & HK' & HMr & HNr
        & HK8 & Hop & _ & _ & _ & HtM & HtN & HtK & Hbm & Hbn & Hprod).
  assert (M' = M) as -> by congruence. assert (N' = N) as -> by congruence.
  assert (K' = K) as -> by congruence.
  destruct (isAmxCandidate_geometry o s c0 c Hres_valid Haccepted)
    as (M' & N' & K' & _ & _ & HK'' & _ & _ & _ & _ & HtK' & _).
  assert (K' = K) as -> by congruence.
  destruct (VectorType_valid_dim _ _ _ Hlhs_valid HK) as [_ HKmax].
  destruct (div_nonneg M (tileM c) ltac:(lia) HtM) as [HdM HqM].
  destruct (div_nonneg _ (tilesInBlockM c) HqM Hbm) as [HdbM HqbM].
  destruct (div_nonneg N (tileN c) ltac:(lia) HtN) as [HdN HqN].
  destruct (div_nonneg _ (tilesInBlockN c) HqN Hbn) as [HdbN HqbN].
  destruct (div_nonneg K (tileK c) ltac:(lia) HtK) as [HdK HqK].
  assert (1 ≤ K `div` tileK c) as Hsteps
    by (apply Z.div_le_lower_bound; lia).
  pose proof (prepareResultBuffer_usable alloc o _ _ Hacc Hout Halloc)
    as Hres.
  pose proof (accTy_dim o 0 M Hacc_shape HM) as HaM.
  pose proof (accTy_dim o 1 N Hacc_shape HN) as HaN.
  unfold convertCandidate. rewrite Hop, Hl, Hr, Ha.
  do 4 (apply emits_bind_lift; intros ? [= <-]). cbn zeta.
  set (lhsTileTy := {| tileRows := tileM c; tileCols := tileK c;
                       tileElemTy := lhsElemTy |}).
  set (rhsTileTy := getPacked {| tileRows := tileK c; tileCols := tileN c;
                                 tileElemTy := rhsElemTy |}).
  set (accTileTy := {| tileRows := tileM c; tileCols := tileN c;
                       tileElemTy := accElemTy |}).
  set (resBuf := prepareResultBuffer alloc o (accBuf (prep c)) (outBuf c))
    in *.
  set (m := Z.to_nat (tilesInBlockM c)). set (n := Z.to_nat (tilesInBlockN c)).
  eapply emits_consequence.
  - eapply (emits_acc_seq_with _ _ _ _
              (λ tiles, keepAccOnTiles c = true → tilesShape tiles m n)).
    { destruct (keepAccOnTiles c).
      - eapply emits_consequence.
        + apply emits_of_runs. intros st.
          by apply (loadBlockTiles_runs true).
        + by intros tiles evs [? _] _.
      - by apply emits_ret. }
    { instantiate (1 := if keepAccOnTiles c
                        then (i ← seqZ 0 (tilesInBlockM c);
                              j ← seqZ 0 (tilesInBlockN c);
                              initAccess accTileTy (accBuf (prep c))
                                (tilesInBlockM c) (tilesInBlockN c) 0 0 i j)
                        else []).
      destruct (keepAccOnTiles c);
        [apply loadBlockTiles_accesses|by apply emits_ret]. }
    intros accInitTiles Hinit. rewrite HaM, HaN, HK.
    apply emits_bind_lift; intros ? [= <-]. rewrite HdM.
    apply emits_bind_lift; intros ? [= <-]. rewrite HdbM.
    apply emits_bind_lift; intros ? [= <-].
    apply emits_bind_lift; intros ? [= <-]. rewrite HdN.
    apply emits_bind_lift; intros ? [= <-]. rewrite HdbN.
    apply emits_bind_lift; intros ? [= <-].
    apply emits_bind_lift; intros ? [= <-]. rewrite HdK.
    apply emits_bind_lift; intros ? [= <-].
    eapply (emits_acc_seq_with _ _ _ _
              (λ tiles, keepAccOnTiles c = true → tilesShape tiles m n)).
    { eapply emits_consequence.
      - apply emits_of_runs. intros st. by apply convertBlocks_runs.
      - by intros tiles evs [? _]. }
    { apply convertBlocks_accesses; [by apply usable_not_empty..|done]. }
    intros accTiles Htiles. apply replaceOriginal_accesses; try done.
    intros Hkeep. split; [by apply Hinit|by apply Htiles].
  - intros _ evs ->. unfold conversionAccesses.
    destruct (keepAccOnTiles c) eqn:Hkeep.
    + destruct (keepAccOnTiles_one_block o s c0 c M N Hres_valid Haccepted
                  HM HN Hkeep) as [-> ->].
      change (blockCoords 1 1) with [(0, 0)]. rewrite !bind_singleton.
      unfold accBlockAccesses. cbn [fst snd].
      rewrite (bind_blockCoords
                 (λ t, initAccess accTileTy (accBuf (prep c))
                         (tilesInBlockM c) (tilesInBlockN c) 0 0 t.1 t.2)).
      cbn [fst snd]. do 2 f_equiv.
      assert ((if MemBuffer_empty (outBuf c) then resBuf else outBuf c)
              = resBuf) as ->; [|done].
      unfold resBuf, prepareResultBuffer.
      by destruct (MemBuffer_empty (outBuf c)).
    + by rewrite app_nil_r.
Qed.

Lemma length_accesses evs :
  length (accesses evs)
  = weight (λ k, match k with
                 | KLoad | KZero | KMul | KStore => 1%nat
                 | _ => 0%nat
                 end) evs.
Proof.
  induction evs as [|e evs IH]; [done|].
  change (accesses (e :: evs)) with (accessOf e ++ accesses evs).
  rewrite length_app, IH. by destruct e as [[]| | | | | | |].
Qed.

(** * Storing a block *)

Lemma emits_events_loop {St} (n : Z) (body : Z → St → Rewriter St) (s : St)
  (L : Z → list Event) :
  (∀ i s, 0 ≤ i < n → emits (body i s) (λ _ evs, evs = L i)) →
  emits (forZ n body s) (λ _ evs, evs = seqZ 0 n ≫= L).
Proof.
  intros Hbody. unfold forZ.
  eapply emits_consequence.
  - apply (emits_forEach (seqZ 0 n) body s
             (λ i _ evs, evs = take i (seqZ 0 n) ≫= L)).
    + done.
    + intros i x s1 evs1 Hx ->. cbn beta.
      pose proof Hx as [-> Hi]%lookup_seqZ.
      eapply emits_consequence; [apply Hbody; lia|].
      intros s2 evs2 ->.
      by rewrite (take_S_r _ _ _ Hx), bind_app, bind_singleton.
  - intros s' evs Hevs. cbn beta in Hevs. by rewrite firstn_all in Hevs.
Qed.

Lemma storeBlockTiles_events tileTy buf blockM blockN tiles m n :
  tilesShape tiles m n → (1 ≤ m)%nat →
  emits (storeBlockTiles tileTy buf blockM blockN tiles)
        (λ _ evs,
           evs = (i ← seqZ 0 (Z.of_nat m); j ← seqZ 0 (Z.of_nat n);
                  storeEvent tileTy buf (Z.of_nat m) (Z.of_nat n)
                             blockM blockN tiles i j)).
Proof.
  intros Hshape Hm. unfold storeBlockTiles.
  destruct (tilesShape_lookup tiles m n 0 Hshape Hm) as (row0 & Hrow0 & Hn).
  rewrite (tilesShape_length _ _ _ Hshape).
  apply emits_bind_lift. intros row Hrow.
  assert (row = row0) as -> by congruence. rewrite Hn.
  apply emits_events_loop. intros i [] _.
  apply emits_events_loop. intros j [] _.
  unfold storeEvent, storeTile.
  apply emits_bind_lift. intros tile ->.
  apply emits_bind_lift. intros idx ->.
  apply emits_bind_lift. intros base ->.
  by apply emits_emit.
Qed.

(** X22: [storeBlockTiles] on a block of [m] rows of [n] tiles, with at
    least one row and a usable buffer, has a result, and its events are
    exactly one store for every tile of the block, in row-major order: the
    store of tile [(i, j)] writes the value [tiles[i][j]] at the indices
    that [shiftIndices] gives for tile [(i, j)] of block
    [(blockM, blockN)], into the base of the buffer. *)
Theorem storeBlockTiles_stores :
  ∀ (tileTy : TileType) (buf : MemBuffer) (blockM blockN : Z)
    (tiles : list (list Value)) (m n : nat) (st : RewriterState),
    tilesShape tiles m n → (1 ≤ m)%nat → usable buf →
    runs (storeBlockTiles tileTy buf blockM blockN tiles) st
         (λ _ evs,
            evs = (i ← seqZ 0 (Z.of_nat m); j ← seqZ 0 (Z.of_nat n);
                   storeEvent tileTy buf (Z.of_nat m) (Z.of_nat n)
                              blockM blockN tiles i j)
            ∧ (∀ i j : nat,
                 (i < m)%nat → (j < n)%nat →
                 ∃ idx base tile,
                   shiftIndices (indices buf) tileTy (Z.of_nat m)
                                (Z.of_nat n) blockM blockN
                                (Z.of_nat i) (Z.of_nat j) = Some idx
                   ∧ memRef buf = Some base
                   ∧ getTile tiles (Z.of_nat i) (Z.of_nat j) = Some tile
                   ∧ storeEvent tileTy buf (Z.of_nat m) (Z.of_nat n)
                                blockM blockN tiles
                                (Z.of_nat i) (Z.of_nat j)
                     = [Create (TileStoreOp base idx tile)])
            ∧ length evs = (m * n)%nat
            ∧ count KStore evs = (m * n)%nat).
Proof.
  intros tileTy buf blockM blockN tiles m n st Hshape Hm Hbuf.
  eapply runs_consequence.
  - apply runs_emits.
    + by apply (storeBlockTiles_runs true _ _ _ _ _ m n).
    + apply emits_conj.
      * by apply (storeBlockTiles_events _ _ _ _ _ m n).
      * apply emits_weights. intros w.
        by apply (storeBlockTiles_weight w _ _ _ _ _ m n).
  - intros [] evs (_ & Hevs & Hw). cbn beta in Hw.
    split; [done|].
    split; [|split; [rewrite <- weight_length, Hw; lia
                    |count_with Hw; lia]].
    intros i j Hi Hj.
    destruct (shiftIndices_usable buf tileTy (Z.of_nat m) (Z.of_nat n)
                blockM blockN (Z.of_nat i) (Z.of_nat j) Hbuf) as [idx Hidx].
    destruct Hbuf as [[base Hbase] _].
    destruct (getTile_shape tiles m n i j Hshape Hi Hj) as [tile Htile].
    exists idx, base, tile. unfold storeEvent.
    by rewrite Hidx, Hbase, Htile.
Qed.

Lemma storeBlockTiles_stores_witness :
  let tileTy := {| tileRows := 16; tileCols := 16;
                   tileElemTy := FloatType Float32 |} in
  let tiles := [[1; 2]; [3; 4]]%nat in
  runs (storeBlockTiles tileTy (bufferAt 7%nat) 0 1 tiles)
       {| nextValue := 10%nat; events := [] |}
       (λ _ evs,
          evs = (i ← seqZ 0 (Z.of_nat 2); j ← seqZ 0 (Z.of_nat 2);
                 storeEvent tileTy (bufferAt 7%nat) (Z.of_nat 2) (Z.of_nat 2)
                            0 1 tiles i j)
          ∧ (∀ i j : nat,
               (i < 2)%nat → (j < 2)%nat →
               ∃ idx base tile,
                 shiftIndices (indices (bufferAt 7%nat)) tileTy (Z.of_nat 2)
                              (Z.of_nat 2) 0 1
                              (Z.of_nat i) (Z.of_nat j) = Some idx
                 ∧ memRef (bufferAt 7%nat) = Some base
                 ∧ getTile tiles (Z.of_nat i) (Z.of_nat j) = Some tile
                 ∧ storeEvent tileTy (bufferAt 7%nat) (Z.of_nat 2)
                              (Z.of_nat 2) 0 1 tiles
                              (Z.of_nat i) (Z.of_nat j)
                   = [Create (TileStoreOp base idx tile)])
          ∧ length evs = (2 * 2)%nat
          ∧ count KStore evs = (2 * 2)%nat).
Proof.
  cbn zeta. apply storeBlockTiles_stores.
  - reflexivity.
  - lia.
  - split; [by eexists|cbn; lia].
Defined.

(** * The rewrites of a conversion *)

Lemma rewrites_app evs1 evs2 :
  rewrites (evs1 ++ evs2) = rewrites evs1 ++ rewrites evs2.
Proof. apply bind_app. Qed.

Lemma rewrites_none evs :
  weight (λ k, match k with
               | KLoad | KZero | KMul | KStore => 0%nat
               | _ => 1%nat
               end) evs = 0%nat →
  rewrites evs = [].
Proof.
  induction evs as [|e evs IH]; [done|]. cbn [weight]. intros Hw.
  change (rewrites (e :: evs))
    with ((if isRewrite e then [e] else []) ++ rewrites evs).
  rewrite IH by lia. destruct e as [[]| | | | | | |]; cbn in *; (done || lia).
Qed.

Lemma removedOps_rewrites evs : removedOps (rewrites evs) = removedOps evs.
Proof.
  induction evs as [|e evs IH]; [done|].
  change (rewrites (e :: evs))
    with ((if isRewrite e then [e] else []) ++ rewrites evs).
  unfold removedOps in *. rewrite bind_app, IH, bind_cons.
  by destruct e as [[]| | | | | | |].
Qed.

Lemma conversionRewrites_removedOps c o resBuf rs :
  conversionRewrites c o resBuf rs → removedOps rs = [o].
Proof.
  unfold conversionRewrites.
  destruct (keepAccOnTiles c).
  - intros (inits & yields & first & _ & _ & Hrs).
    destruct (MemBuffer_empty (outBuf c)); [destruct Hrs as [nv ->]|subst rs];
      done.
  - destruct (keepAccInBuf c); [by intros [nv ->]|].
    destruct (MemBuffer_empty (outBuf c)); [by intros [nv ->]|by intros ->].
Qed.

(** One step of code that ends with the rewrites [Q]: [pre] holds the
    rewrites made so far. *)
Lemma emits_rw_step {A B} (m : Rewriter A) (k : A → Rewriter B)
  (R : A → Prop) (L pre : list Event) (Q : list Event → Prop) :
  emits m (λ a evs, R a ∧ rewrites evs = L) →
  (∀ a, R a → emits (k a) (λ _ evs, Q ((pre ++ L) ++ rewrites evs))) →
  emits (bind m k) (λ _ evs, Q (pre ++ rewrites evs)).
Proof.
  intros Hm Hk. eapply emits_bind; [exact Hm|].
  intros a evs1 [Ha H1]. cbn beta.
  eapply emits_consequence; [by apply Hk|].
  intros b evs2 H2. cbn beta in *.
  by rewrite rewrites_app, H1, (assoc app).
Qed.

Lemma emits_rw_last e (pre : list Event) (Q : list Event → Prop) :
  Q (pre ++ rewrites [e]) →
  emits (emit e) (λ _ evs, Q (pre ++ rewrites evs)).
Proof. intros HQ. by apply emits_emit. Qed.

Lemma emits_no_rewrites {A} (m : Rewriter A) (R : A → Prop) :
  emits m (λ a _, R a) →
  emits m (λ _ evs,
             weight (λ k, match k with
                          | KLoad | KZero | KMul | KStore => 0%nat
                          | _ => 1%nat
                          end) evs = 0%nat) →
  emits m (λ a evs, R a ∧ rewrites evs = []).
Proof.
  intros HR Hw.
  eapply emits_consequence; [apply emits_conj; [exact HR|exact Hw]|].
  intros a evs [Ha Hevs]. split; [done|]. by apply rewrites_none.
Qed.

Lemma emits_rw_emit {B} e (k : unit → Rewriter B) (pre : list Event)
  (Q : list Event → Prop) :
  emits (k tt) (λ _ evs, Q ((pre ++ rewrites [e]) ++ rewrites evs)) →
  emits (bind (emit e) k) (λ _ evs, Q (pre ++ rewrites evs)).
Proof.
  intros Hk. apply (emits_rw_step _ _ (λ _, True) (rewrites [e])).
  - by apply emits_emit.
  - by intros [] _.
Qed.

Lemma emits_rw_fresh {B} n (k : Value → Rewriter B) (pre : list Event)
  (Q : list Event → Prop) :
  (∀ v, emits (k v) (λ _ evs, Q (pre ++ rewrites evs))) →
  emits (bind (fresh n) k) (λ _ evs, Q (pre ++ rewrites evs)).
Proof.
  intros Hk. apply (emits_rw_step _ _ (λ _, True) []).
  - by apply emits_fresh.
  - intros v _. rewrite app_nil_r. apply Hk.
Qed.

Lemma emits_rw_skip {A B} (m : Rewriter A) (k : A → Rewriter B)
  (R : A → Prop) (pre : list Event) (Q : list Event → Prop) :
  emits m (λ a _, R a) →
  emits m (λ _ evs,
             weight (λ k, match k with
                          | KLoad | KZero | KMul | KStore => 0%nat
                          | _ => 1%nat
                          end) evs = 0%nat) →
  (∀ a, R a → emits (k a) (λ _ evs, Q (pre ++ rewrites evs))) →
  emits (bind m k) (λ _ evs, Q (pre ++ rewrites evs)).
Proof.
  intros HR Hw Hk. apply (emits_rw_step _ _ R []).
  - by apply emits_no_rewrites.
  - intros a Ha. rewrite app_nil_r. by apply Hk.
Qed.

Lemma replaceOriginal_rewrites c o accTileTy resBuf accInitTiles accTiles :
  1 ≤ tilesInBlockM c → 1 ≤ tilesInBlockN c →
  tilesInBlockM c * tilesInBlockN c ≤ 4 →
  (keepAccOnTiles c = true →
   tilesShape accInitTiles (Z.to_nat (tilesInBlockM c))
              (Z.to_nat (tilesInBlockN c))
   ∧ tilesShape accTiles (Z.to_nat (tilesInBlockM c))
                (Z.to_nat (tilesInBlockN c))) →
  emits (replaceOriginal c o accTileTy resBuf accInitTiles accTiles)
        (λ _ evs, conversionRewrites c o resBuf ([] ++ rewrites evs)).
Proof.
  intros Hbm Hbn Hprod Hshapes.
  set (wt := λ k, match k with
                  | KLoad | KZero | KMul | KStore => 0%nat
                  | _ => 1%nat
                  end).
  set (Q := conversionRewrites c o resBuf).
  unfold replaceOriginal.
  destruct (keepAccOnTiles c) eqn:Hkeep.
  - destruct (Hshapes eq_refl) as [Hinit Htiles].
    set (m := Z.to_nat (tilesInBlockM c)) in *.
    set (n := Z.to_nat (tilesInBlockN c)) in *.
    apply emits_rw_emit.
    apply (emits_rw_skip _ _ (λ l, length l = (m * n)%nat)).
    { eapply emits_consequence.
      - apply emits_of_runs. intros st. by apply (flattenTiles_runs true).
      - by intros l evs [? _]. }
    { apply (flattenTiles_weight wt). }
    intros newInitOperands Hinits.
    apply (emits_rw_skip _ _ (λ l, length l = (m * n)%nat)).
    { eapply emits_consequence.
      - apply emits_of_runs. intros st. by apply (flattenTiles_runs true).
      - by intros l evs [? _]. }
    { apply (flattenTiles_weight wt). }
    intros newYieldedValues Hyields.
    apply emits_rw_fresh. intros first.
    apply emits_rw_emit.
    apply (emits_rw_skip _ _ (λ tiles, tilesShape tiles m n)).
    { eapply emits_consequence.
      - apply emits_of_runs. intros st.
        apply (takeLoopResults_runs true); try done.
        by rewrite length_seq.
      - by intros l evs [? _]. }
    { apply (takeLoopResults_weight wt). }
    intros tiles Htiles'.
    assert (∀ buf, emits (storeBlockTiles accTileTy buf 0 0 tiles)
                         (λ _ evs, weight wt evs = 0%nat)) as Hstore.
    { intros buf. eapply emits_consequence.
      - eapply (storeBlockTiles_weight wt); [exact Htiles'|lia].
      - intros _ evs ->. cbn. lia. }
    destruct (MemBuffer_empty (outBuf c)) eqn:Hempty.
    + apply (emits_rw_skip _ _ (λ _, True)); [|apply Hstore|].
      { eapply emits_consequence; [apply Hstore|done]. }
      intros _ _. apply emits_rw_fresh. intros newVal.
      apply emits_rw_emit. apply emits_rw_last.
      unfold Q, conversionRewrites. rewrite Hkeep, Hempty.
      exists newInitOperands, newYieldedValues, first.
      split; [done|]. split; [congruence|]. by exists newVal.
    + apply (emits_rw_skip _ _ (λ _, True)); [|apply Hstore|].
      { eapply emits_consequence; [apply Hstore|done]. }
      intros _ _. apply emits_rw_last.
      unfold Q, conversionRewrites. rewrite Hkeep, Hempty.
      exists newInitOperands, newYieldedValues, first.
      split; [done|]. split; [congruence|]. done.
  - destruct (keepAccInBuf c) eqn:Hbuf;
      [|destruct (MemBuffer_empty (outBuf c)) eqn:Hempty].
    + apply emits_rw_fresh. intros newVal.
      apply emits_rw_emit. apply emits_rw_emit. apply emits_rw_last.
      unfold Q, conversionRewrites. rewrite Hkeep, Hbuf. by exists newVal.
    + apply emits_rw_fresh. intros newVal.
      apply emits_rw_emit. apply emits_rw_last.
      unfold Q, conversionRewrites. rewrite Hkeep, Hbuf, Hempty.
      by exists newVal.
    + apply emits_rw_emit. apply emits_rw_last.
      unfold Q, conversionRewrites. by rewrite Hkeep, Hbuf, Hempty.
Qed.

Lemma convertCandidate_rewrites_list getPacked alloc prep o s c0 c :
  VectorType_valid (lhsTy o) → VectorType_valid (resTy o) →
  getShape (accTy o) = getShape (resTy o) →
  isAmxCandidate o s c0 = Some (true, c) →
  usable (lhsBuf (prep c)) → usable (rhsBuf (prep c)) →
  MemBuffer_empty (accBuf (prep c)) = true ∨ usable (accBuf (prep c)) →
  MemBuffer_empty (outBuf c) = true ∨ usable (outBuf c) →
  usable (alloc (resTy o)) →
  emits (convertCandidate getPacked alloc prep c)
        (λ _ evs,
           conversionRewrites c o
             (prepareResultBuffer alloc o (accBuf (prep c)) (outBuf c))
             ([] ++ rewrites evs)).
Proof.
  intros Hlhs_valid Hres_valid Hacc_shape Haccepted Hlhs Hrhs Hacc Hout
    Halloc.
  destruct (isAmxCandidate_generator_inputs o s c0 c Hres_valid Haccepted)
    as (M & N & K & lhsElemTy & accElemTy & HM & HN & HK & HMr & HNr & HK8
        & Hop & Hlty & Hrty & Haty & HtM & HtN & HtK & Hbm & Hbn & Hprod).
  destruct (isAmxCandidate_geometry o s c0 c Hres_valid Haccepted)
    as (M' & N' & K' & _ & _ & HK'' & _ & _ & _ & _ & HtK' & _).
  assert (K' = K) as -> by congruence.
  destruct (VectorType_valid_dim _ _ _ Hlhs_valid HK) as [_ HKmax].
  destruct (div_nonneg M (tileM c) ltac:(lia) HtM) as [HdM HqM].
  destruct (div_nonneg _ (tilesInBlockM c) HqM Hbm) as [HdbM HqbM].
  destruct (div_nonneg N (tileN c) ltac:(lia) HtN) as [HdN HqN].
  destruct (div_nonneg _ (tilesInBlockN c) HqN Hbn) as [HdbN HqbN].
  destruct (div_nonneg K (tileK c) ltac:(lia) HtK) as [HdK HqK].
  assert (1 ≤ K `div` tileK c) as Hsteps
    by (apply Z.div_le_lower_bound; lia).
  pose proof (prepareResultBuffer_usable alloc o _ _ Hacc Hout Halloc)
    as Hres.
  pose proof (accTy_dim o 0 M Hacc_shape HM) as HaM.
  pose proof (accTy_dim o 1 N Hacc_shape HN) as HaN.
  set (wt := λ k, match k with
                  | KLoad | KZero | KMul | KStore => 0%nat
                  | _ => 1%nat
                  end).
  unfold convertCandidate. rewrite Hop, Hlty, Hrty, Haty.
  do 4 (apply emits_bind_lift; intros ? [= <-]). cbn zeta.
  set (m := Z.to_nat (tilesInBlockM c)). set (n := Z.to_nat (tilesInBlockN c)).
  apply (emits_rw_skip _ _
           (λ tiles, keepAccOnTiles c = true → tilesShape tiles m n)).
  { destruct (keepAccOnTiles c).
    - eapply emits_consequence.
      + apply emits_of_runs. intros st.
        by apply (loadBlockTiles_runs true).
      + by intros tiles evs [? _] _.
    - by apply emits_ret. }
  { destruct (keepAccOnTiles c); [|by apply emits_ret].
    eapply emits_consequence; [apply (loadBlockTiles_weight wt)|].
    intros tiles evs Hw. cbn beta in Hw.
    change (weight wt evs = 0%nat). rewrite Hw.
    destruct (MemBuffer_empty _); cbn; lia. }
  intros accInitTiles Hinit. rewrite HaM, HaN, HK.
  apply emits_bind_lift; intros ? [= <-]. rewrite HdM.
  apply emits_bind_lift; intros ? [= <-]. rewrite HdbM.
  apply emits_bind_lift; intros ? [= <-].
  apply emits_bind_lift; intros ? [= <-]. rewrite HdN.
  apply emits_bind_lift; intros ? [= <-]. rewrite HdbN.
  apply emits_bind_lift; intros ? [= <-].
  apply emits_bind_lift; intros ? [= <-]. rewrite HdK.
  apply emits_bind_lift; intros ? [= <-].
  apply (emits_rw_skip _ _
           (λ tiles, keepAccOnTiles c = true → tilesShape tiles m n)).
  { eapply emits_consequence.
    - apply emits_of_runs. intros st. by apply convertBlocks_runs.
    - by intros tiles evs [? _]. }
  { eapply emits_consequence.
    - apply (convertBlocks_weight wt);
        [by apply usable_not_empty..|done].
    - intros tiles evs Hw. cbn beta in Hw.
      change (weight wt evs = 0%nat). rewrite Hw.
      unfold blockWeight. cbn.
      destruct (MemBuffer_empty _), (keepAccOnTiles c); lia. }
  intros accTiles Htiles. apply replaceOriginal_rewrites; try done.
  intros Hkeep. split; [by apply Hinit|by apply Htiles].
Qed.

Lemma count_removedOps evs : count KReplaceOp evs = length (removedOps evs).
Proof.
  unfold count, removedOps.
  induction evs as [|e evs IH]; [done|].
  rewrite bind_cons, length_app, <- IH. cbn [weight].
  by destruct e as [[]| | | | | | |].
Qed.

(** One conversion removes its operation, and no other. *)
Lemma convertCandidate_removes getPacked alloc prep o s c0 c st :
  VectorType_valid (lhsTy o) → VectorType_valid (resTy o) →
  getShape (accTy o) = getShape (resTy o) →
  isAmxCandidate o s c0 = Some (true, c) →
  usable (lhsBuf (prep c)) → usable (rhsBuf (prep c)) →
  MemBuffer_empty (accBuf (prep c)) = true ∨ usable (accBuf (prep c)) →
  MemBuffer_empty (outBuf c) = true ∨ usable (outBuf c) →
  usable (alloc (resTy o)) →
  runs (convertCandidate getPacked alloc prep c) st
       (λ _ evs, removedOps evs = [o]).
Proof.
  intros Hlhs_valid Hres_valid Hacc_shape Haccepted Hlhs Hrhs Hacc Hout
    Halloc.
  eapply runs_consequence.
  - apply runs_emits.
    + by apply (convertCandidate_runs getPacked alloc prep o s c0 c st).
    + by apply (convertCandidate_rewrites_list getPacked alloc prep o s c0 c).
  - intros [] evs [_ Hrw]. cbn beta in Hrw.
    rewrite <- removedOps_rewrites.
    by apply (conversionRewrites_removedOps c o _ _ Hrw).
Qed.

(** The store that the analysis records with a direct output buffer. *)
Lemma isAmxCandidate_output_store o s c0 c :
  MemBuffer_empty (outBuf c0) = true → origStore c0 = None →
  keepAccInBuf c0 = false →
  isAmxCandidate o s c0 = Some (true, c) →
  MemBuffer_empty (outBuf c) = false →
  keepAccInBuf c = false
  ∧ ∃ id source idx,
      inspectedUses o = [TransferWriteOp id source idx false]
      ∧ origStore c = Some (TransferWriteOp id source idx false)
      ∧ outBuf c = {| memRef := Some source; indices := idx; step := [] |}.
Proof.
  intros Hempty Hstore Hfresh
    (c2 & M & N & _ & _ & Hout & Horig & Hbuf & ->)%isAmxCandidate_final.
  rewrite <- Hout in Hempty. rewrite <- Horig in Hstore.
  rewrite <- Hbuf in Hfresh. unfold inspectedUses.
  assert (∀ uses b,
            let c := findOutputBuffer uses (set_keepAccOnTiles c2 b) in
            MemBuffer_empty (outBuf c) = false →
            keepAccInBuf c = false
            ∧ ∃ id source idx,
                uses = [TransferWriteOp id source idx false]
                ∧ origStore c = Some (TransferWriteOp id source idx false)
                ∧ outBuf c
                  = {| memRef := Some source; indices := idx; step := [] |})
    as Hfind.
  { intros uses b.
    destruct (findOutputBuffer_direct uses (set_keepAccOnTiles c2 b)
                Hempty Hstore) as (Hiff & Hbufval & Hst).
    destruct (findOutputBuffer_fields uses (set_keepAccOnTiles c2 b))
      as (_ & _ & _ & _ & _ & _ & _ & _ & _ & _ & Hk).
    cbn zeta in *. cbn in Hk. rewrite Hk, Hfresh.
    intros (id & source & idx & Huses)%Hiff. split; [done|].
    exists id, source, idx. split; [done|].
    split; [by rewrite Huses|by eapply Hbufval]. }
  destruct (isLoopCarriedAcc o); [|apply Hfind].
  destruct (accumulatorFits c2 M N); [apply Hfind|]. cbn.
  by rewrite Hempty.
Qed.

(** X16: the rewrites of a conversion.  Starting from the analysis of a
    fresh descriptor, the code of an accepted operation [o] has a result,
    and the rewrites among its events are exactly those of
    [conversionRewrites], in their order: with the accumulator kept on
    tiles, [o] is replaced by its accumulator, the loop is replaced by one
    that carries one value per accumulator tile, and then either the
    result is read back from the result buffer and the uses of the loop
    result are redirected to it (no direct output buffer), or the
    recorded store is erased; with a bufferized accumulator the result is
    read back from the result buffer, the uses of the loop result are
    redirected to it and [o] is replaced by its accumulator; otherwise
    either the result is read back from the result buffer and [o] is
    replaced by it, or the recorded store and [o] are erased.  The only
    operation removed is [o].  When there is a direct output buffer, the
    accumulator is not bufferized and the store that is erased is the
    single use of the inspected value, a transfer write without mask or
    bounds check, whose memory and indices are the output buffer.  The
    numbers of rewrites of each kind follow. *)
Theorem convertCandidate_rewrites :
  ∀ (getPackedLayoutType : TileType → TileType)
    (allocateTmpBufferStack : VectorType → MemBuffer)
    (prepareTensorBuffers : AmxDotOpCandidate → Buffers)
    (o : DotOp) (s : Support) (c0 c : AmxDotOpCandidate)
    (st : RewriterState),
    VectorType_valid (lhsTy o) → VectorType_valid (resTy o) →
    getShape (accTy o) = getShape (resTy o) →
    MemBuffer_empty (outBuf c0) = true → origStore c0 = None →
    keepAccInBuf c0 = false →
    isAmxCandidate o s c0 = Some (true, c) →
    usable (lhsBuf (prepareTensorBuffers c)) →
    usable (rhsBuf (prepareTensorBuffers c)) →
    MemBuffer_empty (accBuf (prepareTensorBuffers c)) = true
    ∨ usable (accBuf (prepareTensorBuffers c)) →
    MemBuffer_empty (outBuf c) = true ∨ usable (outBuf c) →
    usable (allocateTmpBufferStack (resTy o)) →
    ∃ st' evs,
      convertCandidate getPackedLayoutType allocateTmpBufferStack
                       prepareTensorBuffers c st = Some (tt, st')
      ∧ events st' = events st ++ evs
      ∧ conversionRewrites c o
          (prepareResultBuffer allocateTmpBufferStack o
             (accBuf (prepareTensorBuffers c)) (outBuf c))
          (rewrites evs)
      ∧ removedOps evs = [o]
      ∧ (MemBuffer_empty (outBuf c) = false →
         keepAccInBuf c = false
         ∧ ∃ id source idx,
             inspectedUses o = [TransferWriteOp id source idx false]
             ∧ origStore c = Some (TransferWriteOp id source idx false)
             ∧ outBuf c
               = {| memRef := Some source; indices := idx; step := [] |})
      ∧ count KReplaceOp evs = 1%nat
      ∧ count KEraseStore evs
        = (if MemBuffer_empty (outBuf c) then 0 else 1)%nat
      ∧ count KReadBack evs
        = (if MemBuffer_empty (outBuf c) then 1 else 0)%nat
      ∧ count KReplaceLoop evs = (if keepAccOnTiles c then 1 else 0)%nat
      ∧ count KReplaceUses evs
        = (if isLoopCarriedAcc o && MemBuffer_empty (outBuf c)
           then 1 else 0)%nat.
Proof.
  intros getPacked alloc prep o s c0 c st Hlhs_valid Hres_valid Hacc_shape
    Hempty Hstore Hfresh Haccepted Hlhs Hrhs Hacc Hout Halloc.
  destruct (isAmxCandidate_descriptor o s c0 c Hres_valid Haccepted)
    as (M & N & K & ty & HM & HN & HK & _ & _ & _ & _ & _ & _ & _
        & _ & _ & _ & _ & _ & _ & Hon & Hbuf).
  pose proof (isAmxCandidate_buffered_no_output o s c0 c Hempty Hfresh
                Haccepted) as Hnone.
  destruct (convertCandidate_events getPacked alloc prep o s c0 c st M N K)
    as (st' & evs & Hrun & Hev & Hw); try done.
  destruct (convertCandidate_rewrites_list getPacked alloc prep o s c0 c
              Hlhs_valid Hres_valid Hacc_shape Haccepted Hlhs Hrhs Hacc Hout
              Halloc _ _ _ Hrun) as (evs' & Hev' & Hrw).
  rewrite Hev in Hev'. apply app_inv_head in Hev'. subst evs'.
  cbn [app] in Hrw.
  exists st', evs. split; [done|]. split; [done|]. split; [done|].
  split.
  { rewrite <- removedOps_rewrites.
    by apply (conversionRewrites_removedOps c o _ _ Hrw). }
  split.
  { by apply (isAmxCandidate_output_store o s c0 c). }
  count_with Hw. unfold conversionWeight, blockWeight, rewriteWeight.
  simpl_only. cbn zeta. rewrite Hfresh, orb_false_r in Hbuf.
  revert Hnone. rewrite Hbuf, Hon.
  destruct (isLoopCarriedAcc o), (accumulatorFits c M N); cbn;
    intros Hnone; rewrite ?Hnone by done;
    destruct (MemBuffer_empty (accBuf (prep c))),
             (MemBuffer_empty (outBuf c)); repeat split; lia.
Qed.

Lemma convertCandidate_rewrites_witness :
  let o := {| opId := 0%nat; lhsTy := vector [16; 32] (FloatType Float16);
              rhsTy := vector [32; 16] (FloatType Float16);
              accTy := vector [16; 16] (FloatType Float32);
              resTy := vector [16; 16] (FloatType Float32);
              isLoopCarriedAcc := false;
              resultUsers := [TransferWriteOp 1%nat 7%nat [8; 9]%nat false];
              loopResultUsers := [] |} in
  let c := analysed o allSupported in
  ∃ st' evs,
    convertCandidate (λ ty, ty) (λ _, bufferAt 120%nat) (λ _, inputBuffers) c
                     {| nextValue := 20%nat; events := [] |} = Some (tt, st')
    ∧ events st' = [] ++ evs
    ∧ conversionRewrites c o
        (prepareResultBuffer (λ _, bufferAt 120%nat) o (accBuf inputBuffers)
           (outBuf c))
        (rewrites evs)
    ∧ removedOps evs = [o]
    ∧ (MemBuffer_empty (outBuf c) = false →
       keepAccInBuf c = false
       ∧ ∃ id source idx,
           inspectedUses o = [TransferWriteOp id source idx false]
           ∧ origStore c = Some (TransferWriteOp id source idx false)
           ∧ outBuf c
             = {| memRef := Some source; indices := idx; step := [] |})
    ∧ count KReplaceOp evs = 1%nat
    ∧ count KEraseStore evs
      = (if MemBuffer_empty (outBuf c) then 0 else 1)%nat
    ∧ count KReadBack evs
      = (if MemBuffer_empty (outBuf c) then 1 else 0)%nat
    ∧ count KReplaceLoop evs = (if keepAccOnTiles c then 1 else 0)%nat
    ∧ count KReplaceUses evs
      = (if isLoopCarriedAcc o && MemBuffer_empty (outBuf c)
         then 1 else 0)%nat.
Proof.
  cbn zeta.
  apply (convertCandidate_rewrites
           (λ ty, ty) (λ _, bufferAt 120%nat) (λ _, inputBuffers)
           _ allSupported freshCandidate _
           {| nextValue := 20%nat; events := [] |}).
  - apply vector_valid; [lia|lia|]. vm_compute. discriminate.
  - apply vector_valid; [lia|lia|]. vm_compute. discriminate.
  - reflexivity.
  - reflexivity.
  - reflexivity.
  - reflexivity.
  - vm_compute. reflexivity.
  - split; [by eexists|cbn; lia].
  - split; [by eexists|cbn; lia].
  - left. reflexivity.
  - right. split; [vm_compute; by eexists|vm_compute; lia].
  - split; [by eexists|cbn; lia].
Defined.

(** * The conversions of the pass *)

(** X18: the pass on a module of convertible operations has a result.  It
    returns the descriptors of exactly the accepted operations, in the
    order of the walk.  It then runs the conversions of these descriptors,
    one for each descriptor and in the same order, each from the state
    that the previous one has left, and nothing else: its events are those
    of these conversions.  The conversion of every accepted operation
    removes exactly that operation, so the operations removed are exactly
    the accepted operations, each removed once and in the order of the
    walk: no rejected operation is rewritten, and no accepted one is
    skipped or rewritten twice. *)
Theorem runOnOperation_converts_accepted :
  ∀ (getPackedLayoutType : TileType → TileType)
    (allocateTmpBufferStack : VectorType → MemBuffer)
    (prepareTensorBuffers : AmxDotOpCandidate → Buffers)
    (uninitialized : Z) (s : Support) (dots : list DotOp)
    (st : RewriterState),
    let c0 := AmxDotOpCandidate_init uninitialized uninitialized
                uninitialized uninitialized uninitialized in
    Forall (convertible allocateTmpBufferStack prepareTensorBuffers s c0)
           dots →
    ∃ cs st' segs,
      runOnOperation getPackedLayoutType allocateTmpBufferStack
                     prepareTensorBuffers uninitialized s dots st
      = Some (cs, st')
      ∧ Forall2 (λ c o, isAmxCandidate o s c0 = Some (true, c))
                cs (filter (λ o, accepts s c0 o = true) dots)
      ∧ iterations
          (λ c _, convertCandidate getPackedLayoutType allocateTmpBufferStack
                                   prepareTensorBuffers c)
          cs tt st segs tt st'
      ∧ events st' = events st ++ concat segs
      ∧ Forall2 (λ o seg, removedOps seg = [o])
                (filter (λ o, accepts s c0 o = true) dots) segs
      ∧ removedOps (concat segs)
        = filter (λ o, accepts s c0 o = true) dots
      ∧ count KReplaceOp (concat segs) = length cs.
Proof.
  intros getPacked alloc prep u s dots st c0 Hdots.
  assert (Forall (λ o, VectorType_valid (resTy o) ∧ 2 ≤ getRank (resTy o))
            dots) as Hvalid.
  { eapply Forall_impl; [exact Hdots|]. by intros o (_ & ? & ? & _). }
  destruct (collectCandidates_filter u s dots Hvalid) as (cs & Hcs & Hall).
  fold c0 in Hall. unfold runOnOperation.
  destruct (negb (supportInt8 s) && negb (supportFp16 s)
            && negb (supportBf16 s)) eqn:Hoff.
  - apply andb_true_iff in Hoff as [[Hi Hf]%andb_true_iff Hb].
    apply negb_true_iff in Hi, Hf, Hb.
    rewrite (collectCandidates_none_supported u s dots cs Hi Hf Hb Hcs)
      in Hall.
    apply Forall2_nil_inv_l in Hall as Hnone.
    exists [], st, []. rewrite app_nil_r, Hnone.
    repeat split; (done || constructor).
  - set (accepted := filter (λ o, accepts s c0 o = true) dots) in *.
    assert (Forall (convertible alloc prep s c0) accepted) as Hconv.
    { apply Forall_forall. intros o [_ Ho]%list_elem_of_filter.
      rewrite Forall_forall in Hdots. by apply Hdots. }
    destruct (runs_iterations cs
                (λ c _, convertCandidate getPacked alloc prep c) tt st
                (λ _, True)
                (λ c seg,
                   ∀ o, isAmxCandidate o s c0 = Some (true, c) →
                        convertible alloc prep s c0 o →
                        removedOps seg = [o]))
      as (segs & [] & st' & Hiter & _ & Hsegs); [done| |].
    { intros i c [] st1 Hc _.
      destruct (Forall2_lookup_l _ _ _ _ _ Hall Hc) as (o & Ho & Hacc).
      apply list_elem_of_lookup_2 in Ho.
      rewrite Forall_forall in Hconv.
      destruct (Hconv o Ho) as (? & ? & _ & ? & Hbufs).
      destruct (Hbufs c Hacc) as (? & ? & ? & ? & ?).
      eapply runs_consequence.
      - by apply (convertCandidate_removes getPacked alloc prep o s c0).
      - intros [] seg Hrem. cbn beta. split; [done|].
        intros o' Hacc' (? & Hres_valid' & _).
        destruct (isAmxCandidate_descriptor o s c0 c ltac:(done) Hacc)
          as (_ & _ & _ & _ & _ & _ & _ & _ & _ & _ & _ & Hop & _).
        destruct (isAmxCandidate_descriptor o' s c0 c Hres_valid' Hacc')
          as (_ & _ & _ & _ & _ & _ & _ & _ & _ & _ & _ & Hop' & _).
        congruence. }
    destruct (iterations_forEach _ _ _ _ _ _ _ Hiter)
      as (Hrun & Hev & Hlen).
    assert (Forall2 (λ o seg, removedOps seg = [o]) accepted segs)
      as Hremoved.
    { clear -Hall Hsegs Hconv. revert segs Hsegs.
      induction Hall as [|c o cs' os Hc _ IH]; intros segs Hsegs.
      - apply Forall2_nil_inv_l in Hsegs as ->. constructor.
      - apply Forall2_cons_inv_l in Hsegs as (seg & segs' & Hrem & Hrest & ->).
        apply Forall_cons in Hconv as [Ho Hos].
        constructor; [by apply Hrem|by apply IH]. }
    assert (removedOps (concat segs) = accepted) as Hall_removed.
    { clear -Hremoved. unfold removedOps in *.
      induction Hremoved as [|o seg os segs Hseg _ IH]; [done|].
      cbn [concat]. by rewrite bind_app, Hseg, IH. }
    exists cs, st', segs. unfold bind, lift, ret. rewrite Hcs, Hrun.
    do 4 (split; [done|]). split; [done|]. split; [done|].
    rewrite count_removedOps, Hall_removed.
    symmetry. apply (Forall2_length _ _ _ Hall).
Qed.

Lemma runOnOperation_converts_accepted_witness :
  let dots := [dot32; dotOp 4 4 4 (FloatType Float16) (FloatType Float16)
                        (FloatType Float32) (FloatType Float32) false;
               scenarioA] in
  let c0 := AmxDotOpCandidate_init 0 0 0 0 0 in
  let st := {| nextValue := 0%nat; events := [] |} in
  ∃ cs st' segs,
    runOnOperation (λ ty, ty) (λ _, bufferAt 120%nat) (λ _, inputBuffers)
                   0 allSupported dots st
    = Some (cs, st')
    ∧ Forall2 (λ c o, isAmxCandidate o allSupported c0 = Some (true, c))
              cs (filter (λ o, accepts allSupported c0 o = true) dots)
    ∧ iterations
        (λ c _, convertCandidate (λ ty, ty) (λ _, bufferAt 120%nat)
                                 (λ _, inputBuffers) c)
        cs tt st segs tt st'
    ∧ events st' = events st ++ concat segs
    ∧ Forall2 (λ o seg, removedOps seg = [o])
              (filter (λ o, accepts allSupported c0 o = true) dots) segs
    ∧ removedOps (concat segs)
      = filter (λ o, accepts allSupported c0 o = true) dots
    ∧ count KReplaceOp (concat segs) = length cs.
Proof.
  cbn zeta.
  apply (runOnOperation_converts_accepted
           (λ ty, ty) (λ _, bufferAt 120%nat) (λ _, inputBuffers)
           0 allSupported _ {| nextValue := 0%nat; events := [] |}).
  constructor; [|constructor; [|constructor; [|constructor]]].
  - split; [apply vector_valid; [lia|lia|]; vm_compute; discriminate|].
    split; [apply vector_valid; [lia|lia|]; vm_compute; discriminate|].
    split; [vm_compute; discriminate|]. split; [reflexivity|].
    intros c Hc. vm_compute in Hc. injection Hc as <-.
    split; [split; [by eexists|cbn; lia]|].
    split; [split; [by eexists|cbn; lia]|].
    split; [by left|]. split; [by left|].
    split; [by eexists|cbn; lia].
  - split; [apply vector_valid; [lia|lia|]; vm_compute; discriminate|].
    split; [apply vector_valid; [lia|lia|]; vm_compute; discriminate|].
    split; [vm_compute; discriminate|]. split; [reflexivity|].
    intros c Hc. vm_compute in Hc. discriminate.
  - split; [apply vector_valid; [lia|lia|]; vm_compute; discriminate|].
    split; [apply vector_valid; [lia|lia|]; vm_compute; discriminate|].
    split; [vm_compute; discriminate|]. split; [reflexivity|].
    intros c Hc. vm_compute in Hc. injection Hc as <-.
    split; [split; [by eexists|cbn; lia]|].
    split; [split; [by eexists|cbn; lia]|].
    split; [by left|]. split; [by left|].
    split; [by eexists|cbn; lia].
Defined.

(** * The data flow of a multiplication of blocks *)

Lemma sublist_pair {A} (x y : A) (l k : list A) :
  x ∈ l → [x; y] `sublist_of` l ++ y :: k.
Proof.
  intros (l1 & l2 & ->)%list_elem_of_split.
  rewrite <- (assoc app). apply sublist_inserts_l. cbn [app].
  apply sublist_skip, sublist_inserts_l, sublist_skip, sublist_nil_l.
Qed.

Lemma tileProduct_mono lhsTileTy rhsTileTy accTileTy lhsBuf rhsBuf accBuf
  blockM blockN blockK bm bn storeResult accTiles tiles tiles' evs evs' i j :
  getTile tiles' i j = getTile tiles i j →
  tileProduct lhsTileTy rhsTileTy accTileTy lhsBuf rhsBuf accBuf blockM
              blockN blockK bm bn storeResult accTiles tiles evs i j →
  tileProduct lhsTileTy rhsTileTy accTileTy lhsBuf rhsBuf accBuf blockM
              blockN blockK bm bn storeResult accTiles tiles' (evs ++ evs')
              i j.
Proof.
  intros Hsame (lhs & rhs & acc & res & loadL & loadR & HL & HR & Hacc & Hres
                & HsubL & HsubR & Hstore).
  exists lhs, rhs, acc, res, loadL, loadR. cbn zeta in *.
  split; [done|]. split; [done|]. split; [done|].
  split; [by rewrite Hsame|].
  split; [by apply sublist_inserts_r|].
  split; [by apply sublist_inserts_r|].
  intros Hs. destruct (Hstore Hs) as (store & Hst & Hsub).
  exists store. split; [done|]. by apply sublist_inserts_r.
Qed.

Lemma flowInv_mono lhsTileTy rhsTileTy accTileTy lhsBuf rhsBuf accBuf
  blockM blockN blockK bm bn storeResult accTiles D D' tiles evs evs' :
  (∀ i j : nat, Z.of_nat i < bm → Z.of_nat j < bn → (D i j ↔ D' i j)) →
  flowInv lhsTileTy rhsTileTy accTileTy lhsBuf rhsBuf accBuf blockM blockN
          blockK bm bn storeResult accTiles D tiles evs →
  flowInv lhsTileTy rhsTileTy accTileTy lhsBuf rhsBuf accBuf blockM blockN
          blockK bm bn storeResult accTiles D' tiles (evs ++ evs').
Proof.
  intros HD Hinv i j Hi Hj. destruct (Hinv i j Hi Hj) as [Hdone Htodo].
  split.
  - intros Hd%HD; [|done..].
    eapply tileProduct_mono; [reflexivity|by apply Hdone].
  - intros Hd. apply Htodo. by rewrite HD.
Qed.

Lemma loadTile_loaded tileTy buf bm bn blockM blockN i j :
  emits (loadTile tileTy buf bm bn blockM blockN i j)
        (λ v evs,
           ∃ e, loadsTile tileTy buf bm bn blockM blockN i j v e
                ∧ evs = [e]).
Proof.
  unfold loadTile.
  apply emits_bind_lift. intros idx Hidx.
  apply emits_bind_lift. intros base Hbase.
  apply emits_create. intros v. eexists. split; [|done].
  by exists idx, base.
Qed.

Lemma getTile_push_back res (i i' j' : nat) tile res' row v :
  res !! i = Some row →
  push_back_row (Z.of_nat i) tile res = Some res' →
  getTile res' (Z.of_nat i') (Z.of_nat j') = Some v →
  (i' = i ∧ j' = length row ∧ v = tile)
  ∨ getTile res (Z.of_nat i') (Z.of_nat j') = Some v.
Proof.
  unfold push_back_row, getTile. rewrite !Nat2Z.id. intros Hrow.
  rewrite Hrow. cbn [mbind option_bind]. intros [= <-].
  apply lookup_lt_Some in Hrow as Hi.
  destruct (decide (i' = i)) as [->|Hne].
  - rewrite list_lookup_insert_eq by done. cbn [mbind option_bind].
    rewrite Hrow. cbn [mbind option_bind].
    intros [Hv|[Hlen Hv]]%lookup_app_Some; [by right|left].
    apply list_lookup_singleton_Some in Hv as [Hj ->].
    split; [done|]. split; [lia|done].
  - rewrite list_lookup_insert_ne by done. by right.
Qed.

(** The tiles of a block, tile by tile: each is the value created by the
    initialization of its place. *)
Lemma loadBlockTiles_inits tileTy buf bm bn blockM blockN :
  emits (loadBlockTiles tileTy buf bm bn blockM blockN)
        (λ tiles evs,
           ∀ (i j : nat) v,
             getTile tiles (Z.of_nat i) (Z.of_nat j) = Some v →
             ∃ e, initsTile tileTy buf bm bn blockM blockN
                            (Z.of_nat i) (Z.of_nat j) v e
                  ∧ e ∈ evs).
Proof.
  unfold loadBlockTiles.
  set (m := Z.to_nat bm).
  set (P := λ (tiles : list (list Value)) (evs : list Event),
              ∀ (i j : nat) v,
                getTile tiles (Z.of_nat i) (Z.of_nat j) = Some v →
                ∃ e, initsTile tileTy buf bm bn blockM blockN
                               (Z.of_nat i) (Z.of_nat j) v e
                     ∧ e ∈ evs).
  eapply emits_consequence.
  - apply (emits_forZ bm _ _
             (λ i res evs,
                (∀ i', (i ≤ i' < m)%nat → res !! i' = Some [])
                ∧ P res evs)).
    + split.
      * intros i' Hi'. apply lookup_replicate_2. lia.
      * intros i' j' v. unfold getTile. rewrite !Nat2Z.id.
        destruct (replicate m [] !! i') as [row|] eqn:Hrow; [|done].
        apply lookup_replicate in Hrow as [-> _]. done.
    + intros i res evs0 Hi [Hempty HP]. cbn beta.
      assert (i < m)%nat as Him by (unfold m; lia).
      eapply emits_consequence.
      * apply (emits_forZ bn _ _
                 (λ j res1 evs,
                    (∀ i', (i < i' < m)%nat → res1 !! i' = Some [])
                    ∧ (∃ row, res1 !! i = Some row ∧ length row = j)
                    ∧ P res1 (evs0 ++ evs))).
        { split; [intros i' Hi'; apply Hempty; lia|].
          split; [exists []; split; [apply Hempty; lia|done]|].
          by rewrite app_nil_r. }
        intros j res1 evs1 Hj (Hempty1 & (row & Hrow & Hlen) & HP1).
        cbn beta.
        apply (emits_bind _ _
                 (λ tile evs,
                    ∃ e, initsTile tileTy buf bm bn blockM blockN
                                   (Z.of_nat i) (Z.of_nat j) tile e
                         ∧ evs = [e])).
        { unfold initsTile. destruct (MemBuffer_empty buf).
          - apply emits_create. intros v. by eexists.
          - apply loadTile_loaded. }
        intros tile evs2 (e & He & ->). cbn beta.
        apply emits_lift. intros res2 Hpush. rewrite app_nil_r.
        pose proof Hpush as Hpush'. unfold push_back_row in Hpush'.
        rewrite Nat2Z.id, Hrow in Hpush'. cbn in Hpush'.
        injection Hpush' as <-.
        split; [|split].
        -- intros i' Hi'. rewrite list_lookup_insert_ne by lia.
           apply Hempty1. lia.
        -- exists (row ++ [tile]). split.
           ++ apply list_lookup_insert_eq. by apply lookup_lt_Some in Hrow.
           ++ rewrite length_app. cbn. lia.
        -- intros i' j' v Hv.
           destruct (getTile_push_back _ _ _ _ _ _ _ _ Hrow Hpush Hv)
             as [(-> & -> & ->)|Hold].
           ++ exists e. rewrite Hlen. split; [done|].
              rewrite !elem_of_app, list_elem_of_singleton. auto.
           ++ destruct (HP1 i' j' v Hold) as (e' & He' & Hin).
              exists e'. split; [done|].
              rewrite (assoc app). apply elem_of_app. by left.
      * intros res1 evs1 (Hempty1 & _ & HP1). split; [|done].
        intros i' Hi'. apply Hempty1. lia.
  - by intros res evs [_ HP].
Qed.

Lemma loadBlockTiles_loaded tileTy buf bm bn blockM blockN :
  MemBuffer_empty buf = false →
  emits (loadBlockTiles tileTy buf bm bn blockM blockN)
        (λ tiles evs, tilesLoaded tileTy buf bm bn blockM blockN tiles evs).
Proof.
  intros Hbuf. eapply emits_consequence; [apply loadBlockTiles_inits|].
  intros tiles evs Hinits i j v Hv.
  destruct (Hinits i j v Hv) as (e & He & Hin).
  unfold initsTile in He. rewrite Hbuf in He. by exists e.
Qed.

(** The events of one multiplication. *)
Lemma multiplyTile_events isInt accTileTy lhsTile rhsTile accBuf
  blockM blockN bm bn i j storeResult accTiles :
  emits (multiplyTile isInt accTileTy lhsTile rhsTile accBuf blockM blockN
           bm bn i j storeResult accTiles)
        (λ tiles' evs,
           ∃ acc res,
             getTile accTiles i j = Some acc
             ∧ setTile accTiles i j res = Some tiles'
             ∧ if storeResult
               then ∃ store,
                      storesTile accTileTy accBuf bm bn blockM blockN i j
                                 res store
                      ∧ evs = [Create (mulOp isInt res accTileTy lhsTile
                                             rhsTile acc); store]
               else evs = [Create (mulOp isInt res accTileTy lhsTile
                                         rhsTile acc)]).
Proof.
  unfold multiplyTile. apply emits_bind_lift. intros acc Hacc.
  apply (emits_bind _ _
           (λ res evs,
              evs = [Create (mulOp isInt res accTileTy lhsTile rhsTile
                                   acc)])).
  { destruct isInt; by apply emits_create. }
  intros res evs1 ->. cbn beta.
  apply emits_bind_lift. intros tiles' Hset.
  destruct storeResult.
  - apply (emits_bind _ _
             (λ _ evs,
                ∃ store,
                  storesTile accTileTy accBuf bm bn blockM blockN i j res
                             store
                  ∧ evs = [store])).
    { unfold storeTile. apply emits_bind_lift. intros idx Hidx.
      apply emits_bind_lift. intros base Hbase. apply emits_emit.
      eexists. split; [|done]. by exists idx, base. }
    intros [] evs2 (store & Hstore & ->). cbn beta.
    apply emits_ret. exists acc, res. split; [done|]. split; [done|].
    by exists store.
  - apply (emits_bind _ _ (λ _ evs, evs = [])); [by apply emits_ret|].
    intros [] evs2 ->. cbn beta. apply emits_ret. by exists acc, res.
Qed.

(** One more accumulator tile is multiplied. *)
Lemma multiplyTile_flow lhsTileTy rhsTileTy accTileTy lhsBuf rhsBuf accBuf
  blockM blockN blockK bm bn storeResult accTiles (D : nat → nat → Prop)
  tiles evs (i j : nat) lhs rhs loadL loadR :
  Z.of_nat i < bm → Z.of_nat j < bn →
  flowInv lhsTileTy rhsTileTy accTileTy lhsBuf rhsBuf accBuf blockM blockN
          blockK bm bn storeResult accTiles D tiles evs →
  ¬ D i j →
  loadsTile lhsTileTy lhsBuf bm 1 blockM blockK (Z.of_nat i) 0 lhs loadL →
  loadL ∈ evs →
  loadsTile rhsTileTy rhsBuf 1 bn blockK blockN 0 (Z.of_nat j) rhs loadR →
  loadR ∈ evs →
  emits (multiplyTile (isInteger (tileElemTy accTileTy)) accTileTy lhs rhs
           accBuf blockM blockN bm bn (Z.of_nat i) (Z.of_nat j) storeResult
           tiles)
        (λ tiles' evs',
           flowInv lhsTileTy rhsTileTy accTileTy lhsBuf rhsBuf accBuf blockM
                   blockN blockK bm bn storeResult accTiles
                   (λ i' j', D i' j' ∨ (i' = i ∧ j' = j)) tiles'
                   (evs ++ evs')).
Proof.
  intros Hi Hj Hinv Hnot HL HinL HR HinR.
  eapply emits_consequence; [apply multiplyTile_events|].
  intros tiles' evs' (acc & res & Hacc & Hset & Hevs) i' j' Hi' Hj'.
  pose proof (getTile_setTile tiles i j i' j' res tiles' Hset) as Hget.
  destruct (Hinv i' j' Hi' Hj') as [Hdone Htodo].
  destruct (decide (i' = i ∧ j' = j)) as [[-> ->]|Hne].
  - split; [|intros Hd; destruct Hd; by right].
    intros _. exists lhs, rhs, acc, res, loadL, loadR. cbn zeta.
    split; [done|]. split; [done|].
    split; [by rewrite <- (Htodo Hnot)|].
    split; [exact Hget|].
    destruct storeResult.
    + destruct Hevs as (store & Hstore & ->).
      split; [by apply sublist_pair|]. split; [by apply sublist_pair|].
      intros _. exists store. split; [done|]. by apply sublist_inserts_l.
    + subst evs'.
      split; [by apply sublist_pair|]. split; [by apply sublist_pair|].
      done.
  - split.
    + intros [Hd|?]; [|done].
      eapply tileProduct_mono; [exact Hget|by apply Hdone].
    + intros Hd. rewrite Hget. apply Htodo. intros ?. apply Hd. by left.
Qed.

Lemma flowInv_ext lhsTileTy rhsTileTy accTileTy lhsBuf rhsBuf accBuf
  blockM blockN blockK bm bn storeResult accTiles D D' tiles evs :
  (∀ i j : nat, Z.of_nat i < bm → Z.of_nat j < bn → (D i j ↔ D' i j)) →
  flowInv lhsTileTy rhsTileTy accTileTy lhsBuf rhsBuf accBuf blockM blockN
          blockK bm bn storeResult accTiles D tiles evs →
  flowInv lhsTileTy rhsTileTy accTileTy lhsBuf rhsBuf accBuf blockM blockN
          blockK bm bn storeResult accTiles D' tiles evs.
Proof.
  intros HD Hinv. rewrite <- (app_nil_r evs).
  by apply (flowInv_mono _ _ _ _ _ _ _ _ _ _ _ _ _ D).
Qed.

Lemma multiplyBlocksPreloadLhs_flow lhsTileTy rhsTileTy accTileTy
  lhsBuf rhsBuf accBuf blockM blockN blockK bm bn accTiles storeResult :
  MemBuffer_empty lhsBuf = false →
  emits (multiplyBlocksPreloadLhs lhsTileTy rhsTileTy accTileTy lhsBuf rhsBuf
           accBuf blockM blockN blockK bm bn accTiles storeResult)
        (λ tiles' evs,
           flowInv lhsTileTy rhsTileTy accTileTy lhsBuf rhsBuf accBuf blockM
                   blockN blockK bm bn storeResult accTiles (λ _ _, True)
                   tiles' evs).
Proof.
  intros Hlhs. unfold multiplyBlocksPreloadLhs. cbn zeta.
  set (Inv := flowInv lhsTileTy rhsTileTy accTileTy lhsBuf rhsBuf accBuf
                      blockM blockN blockK bm bn storeResult accTiles).
  eapply emits_bind; [by apply loadBlockTiles_loaded|].
  intros lhsTiles evs0 HL. cbn beta.
  eapply emits_consequence.
  - apply (emits_forZ bn _ accTiles
             (λ j tiles evs,
                Inv (λ _ j', (j' < j)%nat) tiles (evs0 ++ evs))).
    + intros i j _ _. split; [lia|done].
    + intros j tiles evs1 Hj Hinv. cbn beta.
      eapply emits_bind; [apply loadTile_loaded|].
      intros rhs evs2 (loadR & HR & ->). cbn beta.
      eapply emits_consequence.
      * apply (emits_forZ bm _ tiles
                 (λ i tiles1 evs,
                    Inv (λ i' j', (j' < j)%nat ∨ (j' = j ∧ (i' < i)%nat))
                        tiles1 (((evs0 ++ evs1) ++ [loadR]) ++ evs))).
        -- rewrite app_nil_r.
           eapply flowInv_mono; [|exact Hinv]. intros; cbn beta; lia.
        -- intros i tiles1 evs3 Hi Hinv1. cbn beta.
           apply emits_bind_lift. intros lhs Hlhs'.
           destruct (HL i 0%nat lhs Hlhs') as (loadL & HloadL & HinL).
           eapply emits_consequence.
           ++ apply (multiplyTile_flow lhsTileTy rhsTileTy accTileTy lhsBuf
                       rhsBuf accBuf blockM blockN blockK bm bn storeResult
                       accTiles _ tiles1 _ i j lhs rhs loadL loadR Hi Hj
                       Hinv1); [lia|exact HloadL| |exact HR|].
              ** rewrite !elem_of_app. auto.
              ** rewrite !elem_of_app, list_elem_of_singleton. auto.
           ++ intros tiles2 evs4 Hinv2. cbn beta in *.
              rewrite (assoc app).
              eapply flowInv_ext; [|exact Hinv2]. intros; cbn beta; lia.
      * intros tiles1 evs3 Hinv1. cbn beta in *.
        rewrite !(assoc app).
        eapply flowInv_ext; [|exact Hinv1]. intros; cbn beta; lia.
  - intros tiles' evs Hinv. cbn beta in *.
    eapply flowInv_ext; [|exact Hinv]. intros; cbn beta; split; [done|lia].
Qed.

Lemma multiplyBlocksPreloadRhs_flow lhsTileTy rhsTileTy accTileTy
  lhsBuf rhsBuf accBuf blockM blockN blockK bm bn accTiles storeResult :
  MemBuffer_empty rhsBuf = false →
  emits (multiplyBlocksPreloadRhs lhsTileTy rhsTileTy accTileTy lhsBuf rhsBuf
           accBuf blockM blockN blockK bm bn accTiles storeResult)
        (λ tiles' evs,
           flowInv lhsTileTy rhsTileTy accTileTy lhsBuf rhsBuf accBuf blockM
                   blockN blockK bm bn storeResult accTiles (λ _ _, True)
                   tiles' evs).
Proof.
  intros Hrhs. unfold multiplyBlocksPreloadRhs. cbn zeta.
  set (Inv := flowInv lhsTileTy rhsTileTy accTileTy lhsBuf rhsBuf accBuf
                      blockM blockN blockK bm bn storeResult accTiles).
  eapply emits_bind; [by apply loadBlockTiles_loaded|].
  intros rhsTiles evs0 HR. cbn beta.
  eapply emits_consequence.
  - apply (emits_forZ bm _ accTiles
             (λ i tiles evs,
                Inv (λ i' _, (i' < i)%nat) tiles (evs0 ++ evs))).
    + intros i j _ _. split; [lia|done].
    + intros i tiles evs1 Hi Hinv. cbn beta.
      eapply emits_bind; [apply loadTile_loaded|].
      intros lhs evs2 (loadL & HL & ->). cbn beta.
      eapply emits_consequence.
      * apply (emits_forZ bn _ tiles
                 (λ j tiles1 evs,
                    Inv (λ i' j', (i' < i)%nat ∨ (i' = i ∧ (j' < j)%nat))
                        tiles1 (((evs0 ++ evs1) ++ [loadL]) ++ evs))).
        -- rewrite app_nil_r.
           eapply flowInv_mono; [|exact Hinv]. intros; cbn beta; lia.
        -- intros j tiles1 evs3 Hj Hinv1. cbn beta.
           apply emits_bind_lift. intros rhs Hrhs'.
           destruct (HR 0%nat j rhs Hrhs') as (loadR & HloadR & HinR).
           eapply emits_consequence.
           ++ apply (multiplyTile_flow lhsTileTy rhsTileTy accTileTy lhsBuf
                       rhsBuf accBuf blockM blockN blockK bm bn storeResult
                       accTiles _ tiles1 _ i j lhs rhs loadL loadR Hi Hj
                       Hinv1); [lia|exact HL| |exact HloadR|].
              ** rewrite !elem_of_app, list_elem_of_singleton. auto.
              ** rewrite !elem_of_app. auto.
           ++ intros tiles2 evs4 Hinv2. cbn beta in *.
              rewrite (assoc app).
              eapply flowInv_ext; [|exact Hinv2]. intros; cbn beta; lia.
      * intros tiles1 evs3 Hinv1. cbn beta in *.
        rewrite !(assoc app).
        eapply flowInv_ext; [|exact Hinv1]. intros; cbn beta; lia.
  - intros tiles' evs Hinv. cbn beta in *.
    eapply flowInv_ext; [|exact Hinv]. intros; cbn beta; split; [done|lia].
Qed.

(** X14: both orders of multiplying a block of LHS tiles by a block of RHS
    tiles, run from the same state, have a result.  Their tile accesses
    are the same up to order: a load of every LHS tile of the block and of
    every RHS tile of the block, each at the indices of that tile in its
    buffer; one multiplication of the accumulator's variant for every
    accumulator tile; and, when the result is to be stored, a store at the
    indices of every accumulator tile.  Every event of either order is one
    of these accesses.  In either order, every accumulator tile [(i, j)]
    is updated by a multiplication whose operands are the value loaded
    from LHS tile [i], the value loaded from RHS tile [j] and the old
    accumulator tile [(i, j)], after both loads; its result is the new
    accumulator tile [(i, j)], and it is this result that is stored
    afterwards at tile [(i, j)] of the accumulator buffer.  The
    accumulator block keeps its shape. *)
Theorem multiplyBlocks_preload_traffic :
  ∀ (lhsTileTy rhsTileTy accTileTy : TileType)
    (lhsBuf rhsBuf accBuf : MemBuffer) (blockM blockN blockK bm bn : Z)
    (accTiles : list (list Value)) (storeResult : bool)
    (st : RewriterState),
    usable lhsBuf → usable rhsBuf → (storeResult = true → usable accBuf) →
    tilesShape accTiles (Z.to_nat bm) (Z.to_nat bn) →
    ∃ tilesL stL evsL tilesR stR evsR,
      multiplyBlocksPreloadLhs lhsTileTy rhsTileTy accTileTy lhsBuf rhsBuf
        accBuf blockM blockN blockK bm bn accTiles storeResult st
      = Some (tilesL, stL)
      ∧ events stL = events st ++ evsL
      ∧ multiplyBlocksPreloadRhs lhsTileTy rhsTileTy accTileTy lhsBuf rhsBuf
          accBuf blockM blockN blockK bm bn accTiles storeResult st
        = Some (tilesR, stR)
      ∧ events stR = events st ++ evsR
      ∧ tilesShape tilesL (Z.to_nat bm) (Z.to_nat bn)
      ∧ tilesShape tilesR (Z.to_nat bm) (Z.to_nat bn)
      ∧ accesses evsL
        ≡ₚ blockAccesses lhsTileTy rhsTileTy accTileTy lhsBuf rhsBuf accBuf
                         blockM blockN blockK bm bn storeResult
      ∧ accesses evsR ≡ₚ accesses evsL
      ∧ length (accesses evsL) = length evsL
      ∧ length (accesses evsR) = length evsR
      ∧ count KLoad evsL = (Z.to_nat bm + Z.to_nat bn)%nat
      ∧ count KLoad evsR = (Z.to_nat bm + Z.to_nat bn)%nat
      ∧ count KMul evsL = (Z.to_nat bm * Z.to_nat bn)%nat
      ∧ count KMul evsR = (Z.to_nat bm * Z.to_nat bn)%nat
      ∧ count KStore evsL
        = (if storeResult then Z.to_nat bm * Z.to_nat bn else 0)%nat
      ∧ count KStore evsR
        = (if storeResult then Z.to_nat bm * Z.to_nat bn else 0)%nat
      ∧ ∀ i j : nat,
          Z.of_nat i < bm → Z.of_nat j < bn →
          tileProduct lhsTileTy rhsTileTy accTileTy lhsBuf rhsBuf accBuf
                      blockM blockN blockK bm bn storeResult accTiles tilesL
                      evsL (Z.of_nat i) (Z.of_nat j)
          ∧ tileProduct lhsTileTy rhsTileTy accTileTy lhsBuf rhsBuf accBuf
                        blockM blockN blockK bm bn storeResult accTiles
                        tilesR evsR (Z.of_nat i) (Z.of_nat j).
Proof.
  intros lhsTileTy rhsTileTy accTileTy lhsBuf rhsBuf accBuf
    blockM blockN blockK bm bn accTiles storeResult st Hlhs Hrhs Hstore
    Hshape.
  apply usable_not_empty in Hlhs as Hlhs'.
  apply usable_not_empty in Hrhs as Hrhs'.
  destruct (runs_emits _ st _ _
              (multiplyBlocksPreloadLhs_runs lhsTileTy rhsTileTy accTileTy
                 lhsBuf rhsBuf accBuf blockM blockN blockK bm bn accTiles
                 storeResult st Hlhs Hrhs Hstore Hshape)
              (emits_conj _ _ _
                 (multiplyBlocksPreloadLhs_accesses lhsTileTy rhsTileTy
                    accTileTy lhsBuf rhsBuf accBuf blockM blockN blockK bm bn
                    accTiles storeResult Hlhs')
                 (emits_conj _ _ _
                    (emits_weights _ _
                       (λ w, multiplyBlocksPreloadLhs_weight w lhsTileTy
                               rhsTileTy accTileTy lhsBuf rhsBuf accBuf
                               blockM blockN blockK bm bn accTiles
                               storeResult Hlhs'))
                    (multiplyBlocksPreloadLhs_flow lhsTileTy rhsTileTy
                       accTileTy lhsBuf rhsBuf accBuf blockM blockN blockK
                       bm bn accTiles storeResult Hlhs'))))
    as (tilesL & stL & evsL & HrunL & HevL & [HshapeL _] & HaccL & HwL
        & HflowL).
  destruct (runs_emits _ st _ _
              (multiplyBlocksPreloadRhs_runs lhsTileTy rhsTileTy accTileTy
                 lhsBuf rhsBuf accBuf blockM blockN blockK bm bn accTiles
                 storeResult st Hlhs Hrhs Hstore Hshape)
              (emits_conj _ _ _
                 (multiplyBlocksPreloadRhs_accesses lhsTileTy rhsTileTy
                    accTileTy lhsBuf rhsBuf accBuf blockM blockN blockK bm bn
                    accTiles storeResult Hrhs')
                 (emits_conj _ _ _
                    (emits_weights _ _
                       (λ w, multiplyBlocksPreloadRhs_weight w lhsTileTy
                               rhsTileTy accTileTy lhsBuf rhsBuf accBuf
                               blockM blockN blockK bm bn accTiles
                               storeResult Hrhs'))
                    (multiplyBlocksPreloadRhs_flow lhsTileTy rhsTileTy
                       accTileTy lhsBuf rhsBuf accBuf blockM blockN blockK
                       bm bn accTiles storeResult Hrhs'))))
    as (tilesR & stR & evsR & HrunR & HevR & [HshapeR _] & HaccR & HwR
        & HflowR).
  cbn beta in *.
  exists tilesL, stL, evsL, tilesR, stR, evsR.
  do 6 (split; [done|]). split; [done|]. split; [by rewrite HaccR, HaccL|].
  split.
  { rewrite length_accesses, <- weight_length, !HwL.
    destruct storeResult; lia. }
  split.
  { rewrite length_accesses, <- weight_length, !HwR.
    destruct storeResult; lia. }
  unfold count. rewrite !HwL, !HwR. simpl_only.
  do 6 (split; [destruct storeResult; lia|]).
  intros i j Hi Hj.
  split; [by apply (HflowL i j)|by apply (HflowR i j)].
Qed.

Lemma multiplyBlocks_preload_traffic_witness :
  let tileTy := {| tileRows := 16; tileCols := 16;
                   tileElemTy := FloatType Float32 |} in
  let st := {| nextValue := 10%nat; events := [] |} in
  ∃ tilesL stL evsL tilesR stR evsR,
    multiplyBlocksPreloadLhs tileTy tileTy tileTy (bufferAt 100%nat)
      (bufferAt 110%nat) (bufferAt 120%nat) 0 0 1 2 1 [[1%nat]; [2%nat]]
      true st
    = Some (tilesL, stL)
    ∧ events stL = events st ++ evsL
    ∧ multiplyBlocksPreloadRhs tileTy tileTy tileTy (bufferAt 100%nat)
        (bufferAt 110%nat) (bufferAt 120%nat) 0 0 1 2 1 [[1%nat]; [2%nat]]
        true st
      = Some (tilesR, stR)
    ∧ events stR = events st ++ evsR
    ∧ tilesShape tilesL (Z.to_nat 2) (Z.to_nat 1)
    ∧ tilesShape tilesR (Z.to_nat 2) (Z.to_nat 1)
    ∧ accesses evsL
      ≡ₚ blockAccesses tileTy tileTy tileTy (bufferAt 100%nat)
           (bufferAt 110%nat) (bufferAt 120%nat) 0 0 1 2 1 true
    ∧ accesses evsR ≡ₚ accesses evsL
    ∧ length (accesses evsL) = length evsL
    ∧ length (accesses evsR) = length evsR
    ∧ count KLoad evsL = (Z.to_nat 2 + Z.to_nat 1)%nat
    ∧ count KLoad evsR = (Z.to_nat 2 + Z.to_nat 1)%nat
    ∧ count KMul evsL = (Z.to_nat 2 * Z.to_nat 1)%nat
    ∧ count KMul evsR = (Z.to_nat 2 * Z.to_nat 1)%nat
    ∧ count KStore evsL = (if true then Z.to_nat 2 * Z.to_nat 1 else 0)%nat
    ∧ count KStore evsR = (if true then Z.to_nat 2 * Z.to_nat 1 else 0)%nat
    ∧ ∀ i j : nat,
        Z.of_nat i < 2 → Z.of_nat j < 1 →
        tileProduct tileTy tileTy tileTy (bufferAt 100%nat)
                    (bufferAt 110%nat) (bufferAt 120%nat) 0 0 1 2 1 true
                    [[1%nat]; [2%nat]] tilesL evsL (Z.of_nat i) (Z.of_nat j)
        ∧ tileProduct tileTy tileTy tileTy (bufferAt 100%nat)
                      (bufferAt 110%nat) (bufferAt 120%nat) 0 0 1 2 1 true
                      [[1%nat]; [2%nat]] tilesR evsR (Z.of_nat i)
                      (Z.of_nat j).
Proof.
  cbn zeta.
  apply multiplyBlocks_preload_traffic.
  - split; [by eexists|cbn; lia].
  - split; [by eexists|cbn; lia].
  - intros _. split; [by eexists|cbn; lia].
  - reflexivity.
Defined.

(** * The data flow of a conversion *)

Lemma emits_inv {A} (m : Rewriter A) (Q : A → list Event → Prop) st a st'
  evs :
  emits m Q → m st = Some (a, st') → events st' = events st ++ evs →
  Q a evs.
Proof.
  intros Hm Hrun Hev. destruct (Hm _ _ _ Hrun) as (evs' & Hev' & HQ).
  rewrite Hev in Hev'. apply app_inv_head in Hev'. by subst evs'.
Qed.

Lemma iterations_singleton_inv {A St} (body : A → St → Rewriter St) x s st
  segs s' st' :
  iterations body [x] s st segs s' st' →
  ∃ seg, segs = [seg] ∧ body x s st = Some (s', st')
         ∧ events st' = events st ++ seg.
Proof.
  inversion 1 as [|? ? ? ? s1 st1 seg segs' ? ? Hrun Hev Hrest]; subst.
  inversion Hrest; subst. by exists seg.
Qed.

Lemma sublist_concat {A} (l : list A) (ls : list (list A)) :
  l ∈ ls → l `sublist_of` concat ls.
Proof.
  intros (l1 & l2 & ->)%list_elem_of_split.
  rewrite concat_app. cbn [concat].
  by apply sublist_inserts_l, sublist_inserts_r.
Qed.

Lemma tileChain_mono lhsTileTy rhsTileTy accTileTy lhsBuf rhsBuf
  blockM blockN bm bn i j evs evs' k v0 v :
  evs `sublist_of` evs' →
  tileChain lhsTileTy rhsTileTy accTileTy lhsBuf rhsBuf blockM blockN bm bn
            i j evs k v0 v →
  tileChain lhsTileTy rhsTileTy accTileTy lhsBuf rhsBuf blockM blockN bm bn
            i j evs' k v0 v.
Proof.
  intros Hsub. revert v. induction k as [|k IH]; intros v; [done|].
  cbn [tileChain].
  intros (v1 & lhs & rhs & loadL & loadR & Hchain & HL & HR & H1 & H2).
  exists v1, lhs, rhs, loadL, loadR. cbn zeta in *.
  split; [by apply IH|]. split; [done|]. split; [done|].
  split; by etrans.
Qed.

(** The data flow of the code of one accumulator block. *)
Lemma convertBlock_flow c lhsTileTy rhsTileTy accTileTy bufs resBuf
  tilesInVectorK blockM blockN accTiles :
  usable (lhsBuf bufs) → usable (rhsBuf bufs) →
  MemBuffer_empty (accBuf bufs) = true ∨ usable (accBuf bufs) →
  1 ≤ tilesInVectorK →
  (keepAccOnTiles c = true →
   tilesShape accTiles (Z.to_nat (tilesInBlockM c))
              (Z.to_nat (tilesInBlockN c))) →
  emits (convertBlock c lhsTileTy rhsTileTy accTileTy bufs resBuf
           tilesInVectorK blockM blockN accTiles)
        (λ tiles' evs,
           ∀ i j : nat,
             Z.of_nat i < tilesInBlockM c → Z.of_nat j < tilesInBlockN c →
             blockFlow lhsTileTy rhsTileTy accTileTy bufs resBuf c
                       tilesInVectorK blockM blockN accTiles tiles' evs i j).
Proof.
  intros Hlhs Hrhs Hacc Hk Hshape. unfold convertBlock, blockFlow.
  set (bm := tilesInBlockM c). set (bn := tilesInBlockN c).
  set (chain := tileChain lhsTileTy rhsTileTy accTileTy (lhsBuf bufs)
                          (rhsBuf bufs) blockM blockN bm bn).
  set (Init := λ (tiles0 : list (list Value)) (evs0 : list Event),
                 ∀ i j : nat,
                   Z.of_nat i < bm → Z.of_nat j < bn →
                   ∃ v0,
                     getTile tiles0 (Z.of_nat i) (Z.of_nat j) = Some v0
                     ∧ if keepAccOnTiles c
                       then getTile accTiles (Z.of_nat i) (Z.of_nat j)
                            = Some v0
                       else ∃ init,
                              initsTile accTileTy (accBuf bufs) bm bn
                                        blockM blockN (Z.of_nat i)
                                        (Z.of_nat j) v0 init
                              ∧ init ∈ evs0).
  apply (emits_bind _ _ Init).
  { unfold Init. destruct (keepAccOnTiles c); cbn [negb].
    - apply emits_ret. intros i j Hi Hj.
      destruct (getTile_shape accTiles _ _ i j (Hshape eq_refl))
        as [v0 Hv0]; [unfold bm in Hi; lia|unfold bn in Hj; lia|].
      by exists v0.
    - eapply emits_consequence.
      + apply emits_conj; [|apply loadBlockTiles_inits].
        apply emits_of_runs. intros st.
        by apply (loadBlockTiles_runs true).
      + intros tiles0 evs0 [[Hshape0 _] Hinits] i j Hi Hj. cbn beta in *.
        destruct (getTile_shape tiles0 _ _ i j Hshape0)
          as [v0 Hv0]; [unfold bm in Hi; lia|unfold bn in Hj; lia|].
        exists v0. split; [done|]. by apply Hinits. }
  intros tiles0 evs0 HInit. cbn beta.
  eapply emits_consequence.
  - apply (emits_forZ tilesInVectorK _ tiles0
             (λ k tiles evs,
                ∀ i j : nat,
                  Z.of_nat i < bm → Z.of_nat j < bn →
                  ∀ v0,
                    getTile tiles0 (Z.of_nat i) (Z.of_nat j) = Some v0 →
                    ∃ v,
                      getTile tiles (Z.of_nat i) (Z.of_nat j) = Some v
                      ∧ chain (Z.of_nat i) (Z.of_nat j) (evs0 ++ evs) k v0 v
                      ∧ (negb (keepAccOnTiles c)
                         && (Z.of_nat k =? tilesInVectorK) = true →
                         ∃ store,
                           storesTile accTileTy resBuf bm bn blockM blockN
                                      (Z.of_nat i) (Z.of_nat j) v store
                           ∧ store ∈ evs0 ++ evs))).
    + intros i j Hi Hj v0 Hv0. exists v0. split; [done|]. split; [done|].
      intros Hflag. destruct (Z.eqb_spec (Z.of_nat 0) tilesInVectorK); [lia|].
      by rewrite andb_false_r in Hflag.
    + intros k tiles evs1 Hk' Hinv. cbn beta.
      apply (emits_consequence _
               (λ tiles' evs',
                  flowInv lhsTileTy rhsTileTy accTileTy (lhsBuf bufs)
                          (rhsBuf bufs) resBuf blockM blockN (Z.of_nat k)
                          bm bn
                          (negb (keepAccOnTiles c)
                           && (Z.of_nat k =? tilesInVectorK - 1))
                          tiles (λ _ _, True) tiles' evs')).
      { destruct (bm <=? bn).
        - by apply multiplyBlocksPreloadLhs_flow, usable_not_empty.
        - by apply multiplyBlocksPreloadRhs_flow, usable_not_empty. }
      intros tiles' evs2 Hflow i j Hi Hj v0 Hv0.
      destruct (Hinv i j Hi Hj v0 Hv0) as (v & Hv & Hchain & _).
      destruct (Hflow i j Hi Hj) as [Hprod _].
      destruct (Hprod I)
        as (lhs & rhs & acc & res & loadL & loadR & HL & HR & Hacc' & Hres
            & HsubL & HsubR & Hstore).
      cbn zeta in *. assert (acc = v) as -> by congruence.
      exists res. split; [done|]. split.
      * cbn [chain tileChain]. unfold chain. cbn [tileChain].
        exists v, lhs, rhs, loadL, loadR. cbn zeta.
        split.
        { eapply tileChain_mono; [|exact Hchain].
          rewrite (assoc app). by apply sublist_inserts_r. }
        split; [done|]. split; [done|].
        split; by do 2 apply sublist_inserts_l.
      * intros Hflag. apply andb_true_iff in Hflag as [Hnot Hlast].
        apply Z.eqb_eq in Hlast.
        destruct Hstore as (store & Hst & Hsub).
        { rewrite Hnot. cbn [andb]. apply Z.eqb_eq. lia. }
        exists store. split; [done|].
        rewrite !elem_of_app. right. right.
        eapply elem_of_sublist; [|exact Hsub].
        apply elem_of_cons. right. by apply elem_of_cons; left.
  - intros tiles' evs Hinv i j Hi Hj. cbn beta in Hinv.
    destruct (HInit i j Hi Hj) as (v0 & Hv0 & Hinit0).
    destruct (Hinv i j Hi Hj v0 Hv0) as (v & Hv & Hchain & Hstore).
    exists v0, v. split.
    { destruct (keepAccOnTiles c); [done|].
      destruct Hinit0 as (init & ? & ?). exists init. split; [done|].
      apply elem_of_app. by left. }
    split; [done|]. split; [done|]. intros Hkeep. apply Hstore.
    rewrite Hkeep, Z2Nat.id, Z.eqb_refl by lia. done.
Qed.

(** The rewiring of the loop when the accumulator is kept on tiles: the
    new loop carries the accumulator tiles in row-major order, and its
    results are what is stored. *)
Lemma replaceOriginal_flow c o accTileTy resBuf accInitTiles accTiles :
  keepAccOnTiles c = true →
  1 ≤ tilesInBlockM c → 1 ≤ tilesInBlockN c →
  tilesInBlockM c * tilesInBlockN c ≤ 4 →
  tilesShape accInitTiles (Z.to_nat (tilesInBlockM c))
             (Z.to_nat (tilesInBlockN c)) →
  tilesShape accTiles (Z.to_nat (tilesInBlockM c))
             (Z.to_nat (tilesInBlockN c)) →
  usable resBuf →
  MemBuffer_empty (outBuf c) = true ∨ usable (outBuf c) →
  emits (replaceOriginal c o accTileTy resBuf accInitTiles accTiles)
        (λ _ evs,
           ∃ inits yields first,
             ReplaceLoop o inits yields first ∈ evs
             ∧ ∀ i j : nat,
                 (i < Z.to_nat (tilesInBlockM c))%nat →
                 (j < Z.to_nat (tilesInBlockN c))%nat →
                 inits !! (i * Z.to_nat (tilesInBlockN c) + j)%nat
                 = getTile accInitTiles (Z.of_nat i) (Z.of_nat j)
                 ∧ yields !! (i * Z.to_nat (tilesInBlockN c) + j)%nat
                   = getTile accTiles (Z.of_nat i) (Z.of_nat j)
                 ∧ ∃ store,
                     storesTile accTileTy
                       (if MemBuffer_empty (outBuf c) then resBuf
                        else outBuf c)
                       (tilesInBlockM c) (tilesInBlockN c) 0 0
                       (Z.of_nat i) (Z.of_nat j)
                       (first + (i * Z.to_nat (tilesInBlockN c) + j))%nat
                       store
                     ∧ store ∈ evs).
Proof.
  intros Hkeep Hbm Hbn Hprod Hinit Htiles Hres Hout.
  unfold replaceOriginal. rewrite Hkeep.
  set (m := Z.to_nat (tilesInBlockM c)) in *.
  set (n := Z.to_nat (tilesInBlockN c)) in *.
  set (buf := if MemBuffer_empty (outBuf c) then resBuf else outBuf c).
  assert (usable buf) as Hbuf.
  { unfold buf. destruct Hout as [->|Hout]; [done|].
    by rewrite (usable_not_empty _ Hout). }
  apply (emits_bind _ _ (λ _ evs, evs = [ReplaceOpWithAcc o]));
    [by apply emits_emit|].
  intros [] ? ->. cbn beta.
  apply (emits_bind _ _
           (λ l evs,
              evs = [] ∧ length l = (m * n)%nat
              ∧ ∀ i j : nat,
                  (i < m)%nat → (j < n)%nat →
                  l !! (i * n + j)%nat
                  = getTile accInitTiles (Z.of_nat i) (Z.of_nat j))).
  { apply emits_of_runs. intros st. by apply flattenTiles_lookup. }
  intros inits ? (-> & Hleni & Hinits). cbn beta.
  apply (emits_bind _ _
           (λ l evs,
              evs = [] ∧ length l = (m * n)%nat
              ∧ ∀ i j : nat,
                  (i < m)%nat → (j < n)%nat →
                  l !! (i * n + j)%nat
                  = getTile accTiles (Z.of_nat i) (Z.of_nat j))).
  { apply emits_of_runs. intros st. by apply flattenTiles_lookup. }
  intros yields ? (-> & Hleny & Hyields). cbn beta.
  apply (emits_bind _ _ (λ _ evs, evs = [])); [by apply emits_fresh|].
  intros first ? ->. cbn beta.
  apply (emits_bind _ _
           (λ _ evs, evs = [ReplaceLoop o inits yields first]));
    [by apply emits_emit|].
  intros [] ? ->. cbn beta zeta.
  apply (emits_bind _ _
           (λ tiles evs,
              evs = [] ∧ tilesShape tiles m n
              ∧ ∀ i j : nat,
                  (i < m)%nat → (j < n)%nat →
                  getTile tiles (Z.of_nat i) (Z.of_nat j)
                  = seq first (length yields) !! (i * n + j)%nat)).
  { apply emits_of_runs. intros st.
    apply takeLoopResults_lookup; try done.
    - change Int64.max_signed with 9223372036854775807. lia.
    - by rewrite length_seq. }
  intros tiles ? (-> & Hshape & Hlookup). cbn beta.
  assert (emits (storeBlockTiles accTileTy buf 0 0 tiles)
                (λ _ evs,
                   ∀ i j : nat,
                     (i < m)%nat → (j < n)%nat →
                     ∃ store,
                       storesTile accTileTy buf (tilesInBlockM c)
                                  (tilesInBlockN c) 0 0
                                  (Z.of_nat i) (Z.of_nat j)
                                  (first + (i * n + j))%nat store
                       ∧ store ∈ evs)) as Hstores.
  { eapply emits_consequence.
    - eapply (storeBlockTiles_events _ _ _ _ _ m n); [exact Hshape|lia].
    - intros [] evs -> i j Hi Hj. cbn beta.
      destruct (shiftIndices_usable buf accTileTy (tilesInBlockM c)
                  (tilesInBlockN c) 0 0 (Z.of_nat i) (Z.of_nat j) Hbuf)
        as [idx Hidx].
      destruct Hbuf as [[base Hbase] _].
      assert (getTile tiles (Z.of_nat i) (Z.of_nat j)
              = Some (first + (i * n + j))%nat) as Htile.
      { rewrite Hlookup by done. apply lookup_seq_lt. rewrite Hleny. nia. }
      exists (Create (TileStoreOp base idx (first + (i * n + j))%nat)).
      split; [by exists idx, base|].
      apply list_elem_of_bind. exists (Z.of_nat i). split.
      + apply list_elem_of_bind. exists (Z.of_nat j). split.
        * unfold storeEvent, m, n. rewrite !Z2Nat.id by lia.
          rewrite Hidx, Hbase, Htile. by apply list_elem_of_singleton.
        * apply elem_of_seqZ. lia.
      + apply elem_of_seqZ. lia. }
  assert (∀ (rest : list Event) evs,
            (∀ i j : nat,
               (i < m)%nat → (j < n)%nat →
               ∃ store,
                 storesTile accTileTy buf (tilesInBlockM c)
                            (tilesInBlockN c) 0 0
                            (Z.of_nat i) (Z.of_nat j)
                            (first + (i * n + j))%nat store
                 ∧ store ∈ evs) →
            ∃ inits0 yields0 first0,
              ReplaceLoop o inits0 yields0 first0
              ∈ [ReplaceOpWithAcc o]
                ++ [] ++ [] ++ [] ++ [ReplaceLoop o inits yields first]
                ++ [] ++ evs ++ rest
              ∧ ∀ i j : nat,
                  (i < m)%nat → (j < n)%nat →
                  inits0 !! (i * n + j)%nat
                  = getTile accInitTiles (Z.of_nat i) (Z.of_nat j)
                  ∧ yields0 !! (i * n + j)%nat
                    = getTile accTiles (Z.of_nat i) (Z.of_nat j)
                  ∧ ∃ store,
                      storesTile accTileTy buf (tilesInBlockM c)
                                 (tilesInBlockN c) 0 0
                                 (Z.of_nat i) (Z.of_nat j)
                                 (first0 + (i * n + j))%nat store
                      ∧ store
                        ∈ [ReplaceOpWithAcc o]
                          ++ [] ++ [] ++ []
                          ++ [ReplaceLoop o inits yields first]
                          ++ [] ++ evs ++ rest) as Hfinal.
  { intros rest evs Hst. exists inits, yields, first. split.
    - cbn [app]. apply elem_of_cons. right. apply elem_of_cons. by left.
    - intros i j Hi Hj. split; [by apply Hinits|].
      split; [by apply Hyields|].
      destruct (Hst i j Hi Hj) as (store & Hstore & Hin).
      exists store. split; [done|]. cbn [app].
      do 2 (apply elem_of_cons; right). apply elem_of_app. by left. }
  unfold buf in Hstores, Hfinal.
  destruct (MemBuffer_empty (outBuf c)).
  - apply (emits_bind _ _ _ _ Hstores). intros [] evs Hst. cbn beta.
    apply (emits_bind _ _ (λ _ evs, evs = [])); [by apply emits_fresh|].
    intros newVal ? ->. cbn beta.
    apply (emits_bind _ _ (λ _ evs, evs = [ReadBack newVal resBuf]));
      [by apply emits_emit|].
    intros [] ? ->. cbn beta. apply emits_emit.
    by apply (Hfinal ([] ++ [ReadBack newVal resBuf]
                      ++ [ReplaceLoopResultUses o newVal])).
  - apply (emits_bind _ _ _ _ Hstores). intros [] evs Hst. cbn beta.
    apply emits_emit. by apply (Hfinal [EraseStore (origStore c)]).
Qed.

(** X15: the tile accesses and the data flow of a conversion.  The code
    of an accepted operation has a result.  Its tile accesses are, up to
    their order, those of [conversionAccesses]: for every accumulator
    block, the initial value of every accumulator tile of the block (a
    tile of zeros when there is no accumulator buffer, a load at the
    indices of the tile in the accumulator buffer otherwise); for every
    reduction step a load of every tile of the LHS block and of the RHS
    block and one multiplication per accumulator tile; and a store at the
    indices of every accumulator tile of the block in the result buffer.
    With [blocks] accumulator blocks of [m × n] tiles and [steps]
    reduction steps, this makes [blocks * m * n] stores,
    [blocks * steps * m * n] multiplications, [blocks * m * n] initial
    values and [blocks * steps * (m + n)] loads of input tiles.  The data
    flow of every accumulator tile of every block is that of [tileFlow]:
    its initial value is created by the initialization of its place; one
    multiplication per reduction step leads from it to the final value,
    the step [k] multiplying the values loaded from LHS tile [(i, k)] and
    RHS tile [(k, j)] with the value of the step before; and the value
    stored at the place of the tile in the result buffer is the final
    value, or, with the accumulator kept on tiles, the result of the new
    loop whose init operand is the initial value and whose yielded value
    is the final value. *)
Theorem convertCandidate_tile_traffic :
  ∀ (getPackedLayoutType : TileType → TileType)
    (allocateTmpBufferStack : VectorType → MemBuffer)
    (prepareTensorBuffers : AmxDotOpCandidate → Buffers)
    (o : DotOp) (s : Support) (c0 c : AmxDotOpCandidate)
    (st : RewriterState) (M N K : Z),
    VectorType_valid (lhsTy o) → VectorType_valid (resTy o) →
    getShape (accTy o) = getShape (resTy o) →
    isAmxCandidate o s c0 = Some (true, c) →
    getDimSize (resTy o) 0 = Some M → getDimSize (resTy o) 1 = Some N →
    getDimSize (lhsTy o) 1 = Some K →
    usable (lhsBuf (prepareTensorBuffers c)) →
    usable (rhsBuf (prepareTensorBuffers c)) →
    MemBuffer_empty (accBuf (prepareTensorBuffers c)) = true
    ∨ usable (accBuf (prepareTensorBuffers c)) →
    MemBuffer_empty (outBuf c) = true ∨ usable (outBuf c) →
    usable (allocateTmpBufferStack (resTy o)) →
    let m := Z.to_nat (tilesInBlockM c) in
    let n := Z.to_nat (tilesInBlockN c) in
    let blocksM := (M `div` tileM c) `div` tilesInBlockM c in
    let blocksN := (N `div` tileN c) `div` tilesInBlockN c in
    let blocks := (Z.to_nat blocksM * Z.to_nat blocksN)%nat in
    let steps := Z.to_nat (K `div` tileK c) in
    let accEmpty := MemBuffer_empty (accBuf (prepareTensorBuffers c)) in
    let resBuf := prepareResultBuffer allocateTmpBufferStack o
                    (accBuf (prepareTensorBuffers c)) (outBuf c) in
    ∃ lhsElemTy rhsElemTy accElemTy st' evs,
      let lhsTileTy := {| tileRows := tileM c; tileCols := tileK c;
                          tileElemTy := lhsElemTy |} in
      let rhsTileTy := getPackedLayoutType
                         {| tileRows := tileK c; tileCols := tileN c;
                            tileElemTy := rhsElemTy |} in
      let accTileTy := {| tileRows := tileM c; tileCols := tileN c;
                          tileElemTy := accElemTy |} in
      lhsTileElemTy c = Some lhsElemTy
      ∧ rhsTileElemTy c = Some rhsElemTy
      ∧ accTileElemTy c = Some accElemTy
      ∧ convertCandidate getPackedLayoutType allocateTmpBufferStack
                         prepareTensorBuffers c st = Some (tt, st')
      ∧ events st' = events st ++ evs
      ∧ accesses evs
        ≡ₚ conversionAccesses lhsTileTy rhsTileTy accTileTy
             (prepareTensorBuffers c) resBuf c blocksM blocksN
             (K `div` tileK c)
      ∧ count KStore evs = (blocks * (m * n))%nat
      ∧ count KMul evs = (blocks * (steps * (m * n)))%nat
      ∧ count KZero evs = (if accEmpty then blocks * (m * n) else 0)%nat
      ∧ count KLoad evs
        = ((if accEmpty then 0 else blocks * (m * n))
           + blocks * (steps * (m + n)))%nat
      ∧ ∀ (b : Z * Z) (i j : nat),
          b ∈ blockCoords blocksM blocksN →
          Z.of_nat i < tilesInBlockM c → Z.of_nat j < tilesInBlockN c →
          tileFlow lhsTileTy rhsTileTy accTileTy (prepareTensorBuffers c)
                   resBuf c o (K `div` tileK c) evs b.1 b.2 i j.
Proof.
  intros getPacked alloc prep o s c0 c st M N K Hlhs_valid Hres_valid
    Hacc_shape Haccepted HM HN HK Hlhs Hrhs Hacc Hout Halloc
    m n blocksM blocksN blocks steps accEmpty resBuf.
  destruct (convertCandidate_parts getPacked alloc prep o s c0 c st
              Hlhs_valid Hres_valid Hacc_shape Haccepted Hlhs Hrhs Hacc Hout
              Halloc)
    as (M' & N' & K' & lty & aty & st' & pre & segs & post
        & accInitTiles & st0 & accTiles & st1 & HM' & HN' & HK' & Hl & Hr
        & Ha & Hpre & Hev0 & Hiter & Hpost & Hev' & Hrun & Hev & Hshapes).
  cbn zeta in *.
  assert (M' = M) as -> by congruence. assert (N' = N) as -> by congruence.
  assert (K' = K) as -> by congruence.
  destruct (isAmxCandidate_generator_inputs o s c0 c Hres_valid Haccepted)
    as (M2 & N2 & K2 & _ & _ & HM2 & HN2 & HK2 & HMr & HNr & HK8
        & _ & _ & _ & _ & HtM & HtN & HtK & Hbm & Hbn & Hprod).
  assert (M2 = M) as -> by congruence. assert (N2 = N) as -> by congruence.
  assert (K2 = K) as -> by congruence.
  destruct (VectorType_valid_dim _ _ _ Hlhs_valid HK) as [_ HKmax].
  destruct (div_nonneg K (tileK c) ltac:(lia) HtK) as [HdK HqK].
  destruct (isAmxCandidate_geometry o s c0 c Hres_valid Haccepted)
    as (M3 & N3 & K3 & _ & _ & HK3 & _ & _ & _ & _ & HtK' & _).
  assert (K3 = K) as -> by congruence.
  assert (1 ≤ K `div` tileK c) as Hsteps
    by (apply Z.div_le_lower_bound; lia).
  pose proof (prepareResultBuffer_usable alloc o _ _ Hacc Hout Halloc)
    as Hres.
  fold resBuf blocksM blocksN in Hiter, Hpost, Hres.
  set (lhsTileTy := {| tileRows := tileM c; tileCols := tileK c;
                       tileElemTy := lty |}) in *.
  set (rhsTileTy := getPacked {| tileRows := tileK c; tileCols := tileN c;
                                 tileElemTy := lty |}) in *.
  set (accTileTy := {| tileRows := tileM c; tileCols := tileN c;
                       tileElemTy := aty |}) in *.
  set (evs := pre ++ concat segs ++ post) in *.
  pose proof (emits_inv _ _ _ _ _ _
                (emits_weights _ _
                   (λ w, convertCandidate_weight w getPacked alloc prep o s
                           c0 c M N K Hlhs_valid Hres_valid Hacc_shape
                           Haccepted HM HN HK Hlhs Hrhs Hacc Hout Halloc))
                Hrun Hev) as Hw.
  pose proof (emits_inv _ _ _ _ _ _
                (convertCandidate_accesses getPacked alloc prep o s c0 c M N
                   K lty lty aty Hlhs_valid Hres_valid Hacc_shape Haccepted
                   HM HN HK Hl Hr Ha Hlhs Hrhs Hacc Hout Halloc)
                Hrun Hev) as Haccs.
  cbn beta in Hw, Haccs.
  exists lty, lty, aty, st', evs. do 5 (split; [done|]). split; [done|].
  assert (count KStore evs = (blocks * (m * n))%nat
          ∧ count KMul evs = (blocks * (steps * (m * n)))%nat
          ∧ count KZero evs
            = (if accEmpty then blocks * (m * n) else 0)%nat
          ∧ count KLoad evs
            = ((if accEmpty then 0 else blocks * (m * n))
               + blocks * (steps * (m + n)))%nat) as (? & ? & ? & ?).
  { count_with Hw. unfold conversionWeight, blockWeight, rewriteWeight.
    simpl_only. cbn zeta. fold m n steps accEmpty.
    unfold blocks, blocksM, blocksN.
    destruct (keepAccOnTiles c) eqn:Hkeep.
    - destruct (keepAccOnTiles_one_block o s c0 c M N Hres_valid Haccepted
                  HM HN Hkeep) as [-> ->].
      change (Z.to_nat 1) with 1%nat.
      destruct accEmpty, (MemBuffer_empty (outBuf c)); repeat split; lia.
    - destruct accEmpty, (keepAccInBuf c), (MemBuffer_empty (outBuf c));
        repeat split; lia. }
  do 4 (split; [done|]).
  intros b i j Hb Hi Hj.
  destruct (keepAccOnTiles c) eqn:Hkeep.
  - (* a single block, kept on tiles across the loop *)
    destruct (keepAccOnTiles_one_block o s c0 c M N Hres_valid Haccepted
                HM HN Hkeep) as [HbM HbN].
    unfold blocksM, blocksN in Hb, Hiter. rewrite HbM, HbN in Hb, Hiter.
    change (blockCoords 1 1) with [(0, 0)] in Hb, Hiter.
    apply list_elem_of_singleton in Hb as ->. cbn [fst snd].
    destruct (iterations_singleton_inv _ _ _ _ _ _ _ Hiter)
      as (seg & -> & Hblock & Hseg).
    destruct (Hshapes eq_refl) as [HshI HshT].
    pose proof (emits_inv _ _ _ _ _ _
                  (loadBlockTiles_inits accTileTy (accBuf (prep c))
                     (tilesInBlockM c) (tilesInBlockN c) 0 0)
                  Hpre Hev0) as Hinits.
    pose proof (emits_inv _ _ _ _ _ _
                  (convertBlock_flow c lhsTileTy rhsTileTy accTileTy (prep c)
                     resBuf (K `div` tileK c) 0 0 accInitTiles Hlhs Hrhs
                     Hacc Hsteps (λ _, HshI))
                  Hblock Hseg i j Hi Hj) as Hflow.
    destruct (emits_inv _ _ _ _ _ _
                (replaceOriginal_flow c o accTileTy resBuf accInitTiles
                   accTiles Hkeep Hbm Hbn Hprod HshI HshT Hres Hout)
                Hpost Hev') as (inits & yields & first & Hloop & Hrw).
    unfold blockFlow in Hflow. rewrite Hkeep in Hflow.
    destruct Hflow as (v0 & v & Hv0 & Hchain & Hv & _).
    destruct (Hinits i j v0 Hv0) as (init & Hinit & Hin).
    destruct (Hrw i j ltac:(lia) ltac:(lia))
      as (Hi0 & Hy0 & store & Hstore & Hsin).
    assert ((if MemBuffer_empty (outBuf c) then resBuf else outBuf c)
            = resBuf) as Hbuf.
    { unfold resBuf, prepareResultBuffer.
      by destruct (MemBuffer_empty (outBuf c)). }
    rewrite Hbuf in Hstore.
    exists v0, v, (first + (i * n + j))%nat, init, store.
    unfold evs. cbn [concat]. rewrite app_nil_r.
    split; [done|]. split; [rewrite !elem_of_app; auto|].
    split.
    { eapply tileChain_mono; [|exact Hchain].
      by apply sublist_inserts_l, sublist_inserts_r. }
    split; [done|]. split; [rewrite !elem_of_app; auto|].
    rewrite Hkeep. exists inits, yields, first.
    split; [rewrite !elem_of_app; auto|].
    split; [by rewrite Hi0|]. split; [by rewrite Hy0|done].
  - (* every block is initialized and stored by its own code *)
    assert (∀ tiles,
              keepAccOnTiles c = true →
              tilesShape tiles (Z.to_nat (tilesInBlockM c))
                         (Z.to_nat (tilesInBlockN c))) as Hnokeep
      by (intros tiles Hk0; congruence).
    destruct (iterations_Forall2 _ _ _ _ _ _ _ (λ _, True)
                (λ b seg,
                   ∀ i j : nat,
                     Z.of_nat i < tilesInBlockM c →
                     Z.of_nat j < tilesInBlockN c →
                     ∃ tin tout,
                       blockFlow lhsTileTy rhsTileTy accTileTy (prep c)
                                 resBuf c (K `div` tileK c) b.1 b.2 tin tout
                                 seg i j)
                Hiter I) as [_ Hflows].
    { intros b' tiles st2 tiles2 st3 seg _ _ Hblock Hseg. split; [done|].
      intros i' j' Hi' Hj'. exists tiles, tiles2.
      apply (emits_inv _ _ _ _ _ _
               (convertBlock_flow c lhsTileTy rhsTileTy accTileTy (prep c)
                  resBuf (K `div` tileK c) b'.1 b'.2 tiles Hlhs Hrhs Hacc
                  Hsteps (Hnokeep tiles))
               Hblock Hseg i' j' Hi' Hj'). }
    apply list_elem_of_lookup in Hb as [k Hk].
    destruct (Forall2_lookup_l _ _ _ _ _ Hflows Hk) as (seg & Hsegk & Hflow).
    destruct (Hflow i j Hi Hj)
      as (tin & tout & v0 & v & Hinit & Hchain & _ & Hstore).
    rewrite Hkeep in Hinit. destruct Hinit as (init & Hinit & Hin).
    destruct (Hstore Hkeep) as (store & Hst & Hsin).
    assert (seg `sublist_of` evs) as Hsub.
    { unfold evs. apply sublist_inserts_l, sublist_inserts_r.
      apply sublist_concat. by apply list_elem_of_lookup_2 in Hsegk. }
    exists v0, v, v, init, store.
    split; [done|]. split; [by eapply elem_of_sublist|].
    split; [by eapply tileChain_mono|]. split; [done|].
    split; [by eapply elem_of_sublist|]. by rewrite Hkeep.
Qed.

Lemma convertCandidate_tile_traffic_witness :
  (let c := analysed dot48 allSupported in
     let m := Z.to_nat (tilesInBlockM c) in
     let n := Z.to_nat (tilesInBlockN c) in
     let blocksM := (48 `div` tileM c) `div` tilesInBlockM c in
     let blocksN := (48 `div` tileN c) `div` tilesInBlockN c in
     let blocks := (Z.to_nat blocksM * Z.to_nat blocksN)%nat in
     let steps := Z.to_nat (64 `div` tileK c) in
     let accEmpty := MemBuffer_empty (accBuf inputBuffers) in
     let resBuf := prepareResultBuffer (λ _, bufferAt 120%nat) dot48
                     (accBuf inputBuffers) (outBuf c) in
     ∃ lhsElemTy rhsElemTy accElemTy st' evs,
       let lhsTileTy := {| tileRows := tileM c; tileCols := tileK c;
                           tileElemTy := lhsElemTy |} in
       let rhsTileTy := {| tileRows := tileK c; tileCols := tileN c;
                           tileElemTy := rhsElemTy |} in
       let accTileTy := {| tileRows := tileM c; tileCols := tileN c;
                           tileElemTy := accElemTy |} in
       lhsTileElemTy c = Some lhsElemTy
       ∧ rhsTileElemTy c = Some rhsElemTy
       ∧ accTileElemTy c = Some accElemTy
       ∧ convertCandidate (λ ty, ty) (λ _, bufferAt 120%nat) (λ _, inputBuffers)
           c {| nextValue := 0%nat; events := [] |} = Some (tt, st')
       ∧ events st' = [] ++ evs
       ∧ accesses evs
         ≡ₚ conversionAccesses lhsTileTy rhsTileTy accTileTy inputBuffers
              resBuf c blocksM blocksN (64 `div` tileK c)
       ∧ count KStore evs = (blocks * (m * n))%nat
       ∧ count KMul evs = (blocks * (steps * (m * n)))%nat
       ∧ count KZero evs = (if accEmpty then blocks * (m * n) else 0)%nat
       ∧ count KLoad evs
         = ((if accEmpty then 0 else blocks * (m * n))
            + blocks * (steps * (m + n)))%nat
       ∧ ∀ (b : Z * Z) (i j : nat),
           b ∈ blockCoords blocksM blocksN →
           Z.of_nat i < tilesInBlockM c → Z.of_nat j < tilesInBlockN c →
           tileFlow lhsTileTy rhsTileTy accTileTy inputBuffers resBuf c dot48
                    (64 `div` tileK c) evs b.1 b.2 i j)
  ∧ (let loopDot := dotOp 32 32 64 (FloatType Float16) (FloatType Float16)
                         (FloatType Float32) (FloatType Float32) true in
     let c := analysed loopDot allSupported in
     let m := Z.to_nat (tilesInBlockM c) in
     let n := Z.to_nat (tilesInBlockN c) in
     let blocksM := (32 `div` tileM c) `div` tilesInBlockM c in
     let blocksN := (32 `div` tileN c) `div` tilesInBlockN c in
     let blocks := (Z.to_nat blocksM * Z.to_nat blocksN)%nat in
     let steps := Z.to_nat (64 `div` tileK c) in
     let accEmpty := MemBuffer_empty (accBuf inputBuffers) in
     let resBuf := prepareResultBuffer (λ _, bufferAt 120%nat) loopDot
                     (accBuf inputBuffers) (outBuf c) in
     ∃ lhsElemTy rhsElemTy accElemTy st' evs,
       let lhsTileTy := {| tileRows := tileM c; tileCols := tileK c;
                           tileElemTy := lhsElemTy |} in
       let rhsTileTy := {| tileRows := tileK c; tileCols := tileN c;
                           tileElemTy := rhsElemTy |} in
       let accTileTy := {| tileRows := tileM c; tileCols := tileN c;
                           tileElemTy := accElemTy |} in
       lhsTileElemTy c = Some lhsElemTy
       ∧ rhsTileElemTy c = Some rhsElemTy
       ∧ accTileElemTy c = Some accElemTy
       ∧ convertCandidate (λ ty, ty) (λ _, bufferAt 120%nat) (λ _, inputBuffers)
           c {| nextValue := 0%nat; events := [] |} = Some (tt, st')
       ∧ events st' = [] ++ evs
       ∧ accesses evs
         ≡ₚ conversionAccesses lhsTileTy rhsTileTy accTileTy inputBuffers
              resBuf c blocksM blocksN (64 `div` tileK c)
       ∧ count KStore evs = (blocks * (m * n))%nat
       ∧ count KMul evs = (blocks * (steps * (m * n)))%nat
       ∧ count KZero evs = (if accEmpty then blocks * (m * n) else 0)%nat
       ∧ count KLoad evs
         = ((if accEmpty then 0 else blocks * (m * n))
            + blocks * (steps * (m + n)))%nat
       ∧ ∀ (b : Z * Z) (i j : nat),
           b ∈ blockCoords blocksM blocksN →
           Z.of_nat i < tilesInBlockM c → Z.of_nat j < tilesInBlockN c →
           tileFlow lhsTileTy rhsTileTy accTileTy inputBuffers resBuf c loopDot
                    (64 `div` tileK c) evs b.1 b.2 i j).
Proof.
  split.
  - apply (convertCandidate_tile_traffic
             (λ ty, ty) (λ _, bufferAt 120%nat) (λ _, inputBuffers)
             dot48 allSupported freshCandidate
             (analysed dot48 allSupported)
             {| nextValue := 0%nat; events := [] |} 48 48 64).
    + apply vector_valid; [lia|lia|]. vm_compute. discriminate.
    + apply vector_valid; [lia|lia|]. vm_compute. discriminate.
    + reflexivity.
    + vm_compute. reflexivity.
    + reflexivity.
    + reflexivity.
    + reflexivity.
    + split; [by eexists|cbn; lia].
    + split; [by eexists|cbn; lia].
    + left. reflexivity.
    + left. reflexivity.
    + split; [by eexists|cbn; lia].
  - apply (convertCandidate_tile_traffic
             (λ ty, ty) (λ _, bufferAt 120%nat) (λ _, inputBuffers)
             (dotOp 32 32 64 (FloatType Float16) (FloatType Float16)
                    (FloatType Float32) (FloatType Float32) true)
             allSupported freshCandidate
             (analysed (dotOp 32 32 64 (FloatType Float16)
                              (FloatType Float16) (FloatType Float32)
                              (FloatType Float32) true) allSupported)
             {| nextValue := 0%nat; events := [] |} 32 32 64).
    + apply vector_valid; [lia|lia|]. vm_compute. discriminate.
    + apply vector_valid; [lia|lia|]. vm_compute. discriminate.
    + reflexivity.
    + vm_compute. reflexivity.
    + reflexivity.
    + reflexivity.
    + reflexivity.
    + split; [by eexists|cbn; lia].
    + split; [by eexists|cbn; lia].
    + left. reflexivity.
    + left. reflexivity.
    + split; [by eexists|cbn; lia].
Defined.
